(** * Homa: RPC lifecycle (homa_utils.c) and the receive buffer pool

    A shallow embedding of the RPC bookkeeping of [homa_utils.c]
    ([homa_rpc_new_client], [homa_rpc_new_server], [homa_rpc_free],
    [homa_rpc_reap], [homa_find_client_rpc], [homa_find_server_rpc]) and of
    the buffer pool exercised by [test/unit_homa_pool.c].

    Also embedded: [homa_rpc_acked], [homa_prios_changed] with the priority
    fields that [homa_init] sets, [homa_snprintf] and
    [homa_print_ipv4_addr].

    Layout: data, then the buffer pool, then the socket and the functions of
    [homa_utils.c], then the properties. *)

From stdpp Require Import base option list gmap fin_maps pretty.
From Stdlib Require Import ZArith Lia Ascii.

Local Open Scope Z_scope.

(* ===================================================================== *)
(** ** Machine integers *)
(* ===================================================================== *)

(** [__u64] arithmetic: values live in [0, 2^64). *)
Definition wrap_u64 (x : Z) : Z := x mod 2 ^ 64.

(** [int] arithmetic as the kernel compiles it (two's complement, wrapping). *)
Definition wrap_int (x : Z) : Z := (x + 2 ^ 31) mod 2 ^ 32 - 2 ^ 31.

(** Linux errno values used by the functions below. *)
Definition ENOMEM : Z := 12.
Definition ESHUTDOWN : Z := 108.

(* ===================================================================== *)
(** ** Messages *)
(* ===================================================================== *)

(** A [struct homa_rpc] is named by its address. *)
Definition handle := nat.

(** A [struct sk_buff] is named by its address. *)
Definition skb := nat.

(** [struct homa_gap]: a range of bytes not yet received. *)
Record homa_gap := { gap_start : Z; gap_end : Z }.

(** [struct homa_message_in], the fields the functions below touch. *)
Record homa_message_in := {
  mi_length : Z;
  mi_packets : list skb;
  mi_gaps : list homa_gap;
  mi_num_bpages : Z;
  mi_bpage_offsets : list Z
}.

(** [struct homa_message_out], the fields the functions below touch. The
    chain [packets -> next_skb -> ...] is the list [mo_packets]. *)
Record homa_message_out := {
  mo_length : Z;
  mo_packets : list skb;
  mo_num_skbs : Z;
  mo_active_xmits : Z
}.

(* ===================================================================== *)
(** ** The buffer pool *)
(* ===================================================================== *)

(** homa_pool.c is not among the sources. The pool is modelled from
    section 4.3 of the specification and from test/unit_homa_pool.c: where
    a unit test shows something else than the prose says, the model follows
    the test, and the definition names the test. Other cores act on the
    pool only through the locks they hold when a try-lock is made. *)

(** Modelled from the spec: HOMA_BPAGE_SHIFT and HOMA_BPAGE_SIZE come from a
    header that is not among the sources; section 4.3 gives 64 KiB, and the
    unit tests (a 150000-byte message takes three bpages and leaves
    150000 - 2*HOMA_BPAGE_SIZE bytes in the last one) agree with it. *)
Definition HOMA_BPAGE_SHIFT : Z := 16.
Definition HOMA_BPAGE_SIZE : Z := 2 ^ HOMA_BPAGE_SHIFT.

(** Modelled from the spec: the error kinds of section 7 that the pool
    returns. The unit tests see them as EINVAL, ENOMEM and -1. *)
Inductive pool_error := InvalidArgument | AllocationFailure | ResourceExhausted.

(** Modelled from the spec: a bpage descriptor (section 3). The descriptor's
    non-blocking lock is held only inside one operation; whether a try-lock
    succeeds is an input of the operations below. *)
Record homa_bpage := { refs : Z; owner : Z; expiration : Z }.

(** Modelled from the spec: per-core allocation state (section 3). *)
Record homa_pool_core := {
  page_hint : nat;
  allocated : Z;
  next_candidate : nat
}.

(** Modelled from the spec: [struct homa_pool] (section 3). [region] is the
    address of the buffer region, 0 for a null pointer. *)
Record homa_pool := {
  region : Z;
  num_bpages : Z;
  descriptors : list homa_bpage;
  cores : list homa_pool_core;
  free_bpages : Z
}.

Definition free_bpage : homa_bpage :=
  {| refs := 0; owner := -1; expiration := 0 |}.

Definition new_core : homa_pool_core :=
  {| page_hint := 0; allocated := 0; next_candidate := 0 |}.

Definition set_descriptors (ds : list homa_bpage) (p : homa_pool) : homa_pool :=
  {| region := region p; num_bpages := num_bpages p; descriptors := ds;
     cores := cores p; free_bpages := free_bpages p |}.

Definition set_cores (cs : list homa_pool_core) (p : homa_pool) : homa_pool :=
  {| region := region p; num_bpages := num_bpages p;
     descriptors := descriptors p; cores := cs; free_bpages := free_bpages p |}.

Definition set_free_bpages (n : Z) (p : homa_pool) : homa_pool :=
  {| region := region p; num_bpages := num_bpages p;
     descriptors := descriptors p; cores := cores p; free_bpages := n |}.

Definition set_region (r : Z) (p : homa_pool) : homa_pool :=
  {| region := r; num_bpages := num_bpages p;
     descriptors := descriptors p; cores := cores p;
     free_bpages := free_bpages p |}.

Definition get_core (core : nat) (p : homa_pool) : homa_pool_core :=
  default new_core (cores p !! core).

(** Modelled from the spec: the pool that a successful [homa_pool_init]
    leaves (homa_pool.c is not among the sources): [n] bpages, all free,
    and a gauge that counts them all; [homa_pool_init] below says where
    this follows the unit tests. *)
Definition fresh_pool (rgn n : Z) (ncores : nat) : homa_pool :=
  {| region := rgn;
     num_bpages := n;
     descriptors := replicate (Z.to_nat n) free_bpage;
     cores := replicate ncores new_core;
     free_bpages := n |}.

(** Modelled from the spec: [homa_pool_init] (homa_pool.c is not among the
    sources). Section 4.3: fails InvalidArgument if the region is not
    bpage-aligned or too short; allocates descriptors and per-core state;
    sets every descriptor to {refs=0, owner=-1, expiration=0}. Three things
    follow the unit tests instead of the prose.
    - The least size is not 2 bpages: [homa_pool_init__region_too_small]
      (unit_homa_pool.c:97-101) expects EINVAL for an aligned region of 3
      bpages. No source gives the bound, so it is the argument
      [min_pool_size], in bpages.
    - [free_bpages] starts at [num_bpages], not at [num_bpages - 1]: with
      one decrement for each page claimed, [homa_pool_get_pages__basics]
      finds 98 after two of 100 pages are taken, and
      [homa_pool_release_buffers] finds 97 after three
      (unit_homa_pool.c:123-136, 452-480).
    - No bpage is set aside as a sentinel: a gauge that starts at
      [num_bpages] counts the last bpage as free, and section 8 has
      [get_pages] succeed whenever [free_bpages] is at least [count].
    [ncores] is the core count; [descs_ok] and [cores_ok] tell whether the
    allocator supplies the descriptors and the per-core state
    ([mock_kmalloc_errors] 1 and 2 in the unit tests). *)
Definition homa_pool_init (min_pool_size rgn len : Z) (ncores : nat)
    (descs_ok cores_ok : bool) : pool_error + homa_pool :=
  if negb (rgn mod HOMA_BPAGE_SIZE =? 0)
     || (len <? min_pool_size * HOMA_BPAGE_SIZE)
  then inl InvalidArgument
  else if negb descs_ok then inl AllocationFailure
  else if negb cores_ok then inl AllocationFailure
  else inr (fresh_pool rgn (len / HOMA_BPAGE_SIZE) ncores).

(** Modelled from the spec: eligibility of a candidate in [get_pages]
    (section 4.3): [refs = 0] and no owner, or an owner whose lease has run
    out. For the second case the prose asks for [refs = 0] too, but
    [homa_pool_get_pages__skip_unusable_bpages] (unit_homa_pool.c:172-190)
    takes bpage 2, which has an expired owner and [refs = 1], the owner's
    own reference; it passes over [refs = 2], over [refs = 1] without an
    owner, and over [refs = 1] with a lease that still runs. *)
Definition eligible (now : Z) (d : homa_bpage) : bool :=
  ((refs d =? 0) && (owner d =? -1))
  || (negb (owner d =? -1) && (expiration d <=? now) && (refs d <=? 1)).

(** Modelled from the spec: what a claim writes into the descriptor
    (section 4.3, and scenario 3 of section 8 for the owner of a stolen
    page). *)
Definition claim_page (set_owner : bool) (core : nat) (now lease : Z)
    (d : homa_bpage) : homa_bpage :=
  if set_owner
  then {| refs := 2; owner := Z.of_nat core; expiration := now + lease |}
  else {| refs := 1; owner := -1; expiration := expiration d |}.

(** Modelled from the spec: the gauge after a claim. A claim decrements
    [free_bpages]; a page taken from an owner was not counted as free,
    which [homa_pool_get_pages__steal_expired_page] shows
    (unit_homa_pool.c:215-230: 20 becomes 19 when two pages are taken and
    one of them had an owner). *)
Definition claim_gauge (d : homa_bpage) (free : Z) : Z :=
  if owner d =? -1 then free - 1 else free.

(** The environment of one pool operation: the calling core, the clock and
    the lease length in cycles. The outcome of each successive try-lock is a
    separate argument [locks] of the operations ([true] when the lock is
    obtained; an exhausted list means success). *)
Record pool_env := {
  env_core : nat;
  env_now : Z;
  env_lease : Z
}.

(** Modelled from the spec: the least number of bpages beyond those in use
    that a scan looks at; the name is that of the unit test
    [homa_pool_get_pages__set_limit_with_MIN_EXTRA], which fixes its
    value. *)
Definition MIN_EXTRA : Z := 4.

(** Modelled from the spec: the bound of the scan cursor. Section 4.3 lets
    the cursor run over all [num_bpages] descriptors. The unit tests show a
    tighter bound: with 62 bpages free of 100 and two wanted, the scan that
    starts at 49 takes bpage 49 and then bpage 0
    ([homa_pool_get_pages__set_limit], unit_homa_pool.c:148-159), so the
    bound is 50; with 92 free and two wanted, the scan that starts at 13
    takes 13 and then 0 ([..._set_limit_with_MIN_EXTRA], 160-171), so the
    bound is 14. Both are the bpages in use once the [wanted] pages are
    taken, plus a quarter of them and at least [MIN_EXTRA], and never more
    than [num_bpages]. *)
Definition scan_limit (p : homa_pool) (wanted : Z) : Z :=
  let used := num_bpages p - (free_bpages p - wanted) in
  Z.min (num_bpages p) (used + Z.max (used / 4) MIN_EXTRA).

Definition set_cursor (core : nat) (cur : nat) (p : homa_pool) : homa_pool :=
  let c := get_core core p in
  set_cores
    (<[core := {| page_hint := page_hint c; allocated := allocated c;
                  next_candidate := cur |}]> (cores p)) p.

(** Modelled from the spec: the scan for one page in [get_pages]
    (section 4.3). Each attempt takes the core's [next_candidate], or
    bpage 0 when the cursor has reached [scan_limit], moves the cursor
    behind it, and claims the candidate if it is eligible, its try-lock
    succeeds and it is still eligible under the lock. At most [attempts]
    candidates are considered; [wanted] is the number of pages the call has
    still to find, this one included. *)
Fixpoint scan_page (attempts : nat) (e : pool_env) (set_owner : bool)
    (wanted : Z) (locks : list bool) (p : homa_pool)
  : option nat * list bool * homa_pool :=
  match attempts with
  | O => (None, locks, p)
  | S attempts' =>
      let next := next_candidate (get_core (env_core e) p) in
      let cur := if scan_limit p wanted <=? Z.of_nat next then 0%nat
                 else next in
      let p1 := set_cursor (env_core e) (S cur) p in
      match descriptors p1 !! cur with
      | None => scan_page attempts' e set_owner wanted locks p1
      | Some d =>
          if eligible (env_now e) d then
            match locks with
            | false :: locks' =>
                scan_page attempts' e set_owner wanted locks' p1
            | _ =>
                if eligible (env_now e) d then
                  (Some cur, tail locks,
                   set_free_bpages (claim_gauge d (free_bpages p1))
                     (set_descriptors
                        (<[cur := claim_page set_owner (env_core e)
                                    (env_now e) (env_lease e) d]>
                           (descriptors p1)) p1))
                else scan_page attempts' e set_owner wanted (tail locks) p1
            end
          else scan_page attempts' e set_owner wanted locks p1
      end
  end.

Fixpoint get_pages_loop (count : nat) (e : pool_env) (set_owner : bool)
    (out : list nat) (locks : list bool) (p : homa_pool)
  : Z * list nat * list bool * homa_pool :=
  match count with
  | O => (0, out, locks, p)
  | S count' =>
      match scan_page (Z.to_nat (num_bpages p)) e set_owner
              (Z.of_nat count) locks p with
      | (Some pg, locks', p') =>
          get_pages_loop count' e set_owner (out ++ [pg]) locks' p'
      | (None, locks', p') => (-1, out, locks', p')
      end
  end.

(** Modelled from the spec: [homa_pool_get_pages] (section 4.3). Returns 0
    with the pages found, or -1 when [free_bpages], sampled before the scan,
    is below [count], or when the scan for some page finds none within
    [num_bpages] attempts; the pages claimed before that page are returned
    with the -1, so that the caller can give them back. *)
Definition homa_pool_get_pages (p : homa_pool) (count : Z) (set_owner : bool)
    (e : pool_env) (locks : list bool)
  : Z * list nat * list bool * homa_pool :=
  if free_bpages p <? count then (-1, [], locks, p)
  else get_pages_loop (Z.to_nat count) e set_owner [] locks p.

(** Modelled from the spec: releasing one offset (section 4.3): decrement
    the descriptor's [refs]; when it goes from 1 to 0 and [owner = -1],
    increment [free_bpages]. *)
Definition release_offset (p : homa_pool) (offset : Z) : homa_pool :=
  let i := Z.to_nat (offset / HOMA_BPAGE_SIZE) in
  match descriptors p !! i with
  | None => p
  | Some d =>
      let d' := {| refs := refs d - 1; owner := owner d;
                   expiration := expiration d |} in
      let p' := set_descriptors (<[i := d']> (descriptors p)) p in
      if (refs d' =? 0) && (owner d' =? -1)
      then set_free_bpages (free_bpages p' + 1) p'
      else p'
  end.

(** Modelled from the spec: [homa_pool_release_buffers] (section 4.3): a
    no-op on a pool whose region is null, otherwise the first [count] offsets
    are released in turn. *)
Definition homa_pool_release_buffers (p : homa_pool) (count : Z)
    (offsets : list Z) : homa_pool :=
  if region p =? 0 then p
  else foldl release_offset p (take (Z.to_nat count) offsets).

Definition page_offset (pg : nat) : Z := Z.of_nat pg * HOMA_BPAGE_SIZE.

Definition set_bpages (offs : list Z) (m : homa_message_in) : homa_message_in :=
  {| mi_length := mi_length m; mi_packets := mi_packets m;
     mi_gaps := mi_gaps m; mi_num_bpages := Z.of_nat (length offs);
     mi_bpage_offsets := offs |}.

Definition set_hint (core : nat) (hint : nat) (alloc : Z) (p : homa_pool)
  : homa_pool :=
  let c := get_core core p in
  set_cores (<[core := {| page_hint := hint; allocated := alloc;
                          next_candidate := next_candidate c |}]> (cores p)) p.

Definition set_descriptor (i : nat) (d : homa_bpage) (p : homa_pool)
  : homa_pool :=
  set_descriptors (<[i := d]> (descriptors p)) p.

(** One more reference on a bpage: a buffer issued from it. *)
Definition inc_refs (d : homa_bpage) : homa_bpage :=
  {| refs := refs d + 1; owner := owner d; expiration := expiration d |}.

(** A core gives up the bpage it owns: the bpage has no owner any more and
    the owner's reference is dropped. *)
Definition disown (d : homa_bpage) : homa_bpage :=
  {| refs := refs d - 1; owner := -1; expiration := expiration d |}.

(** Modelled from the spec: the tail of a message placed on a fresh bpage
    (section 4.3): one page is claimed with this core as its owner and
    becomes the core's hinted page; if none can be had, the full bpages
    [offs] acquired so far are released. *)
Definition new_page (p1 : homa_pool) (m : homa_message_in) (e : pool_env)
    (offs : list Z) (tail_len : Z) (locks2 : list bool)
  : option pool_error * homa_pool * homa_message_in :=
  match homa_pool_get_pages p1 1 true e locks2 with
  | (_, [pg], _, p2) =>
      (None, set_hint (env_core e) pg tail_len p2,
       set_bpages (offs ++ [page_offset pg]) m)
  | (_, _, _, p2) =>
      (Some ResourceExhausted,
       homa_pool_release_buffers p2 (Z.of_nat (length offs)) offs, m)
  end.

(** Modelled from the spec: the tail of a message (section 4.3). If the
    hinted bpage is owned by this core, its try-lock is attempted; when the
    lock is held by another core a fresh bpage is taken. Under the lock the
    ownership is as it was seen before, since no other core runs in
    between. If the tail fits behind what was issued, it goes there. Two
    things follow the unit tests where they show more than the prose says.
    - The hinted bpage is used whether or not its lease has run out:
      [homa_pool_allocate__page_wrap_around] (unit_homa_pool.c:327-348)
      uses a hinted bpage whose expiration is 0.
    - When the tail does not fit, a hinted bpage that holds nothing but
      the owner's reference is used again from its start (same test: the
      offset is that of the bpage and [allocated] becomes the tail), and
      any other is given up, the owner's reference with it, before a fresh
      bpage is taken ([homa_pool_allocate__owned_page_overflow], 349-374:
      bpage 2 ends with owner -1 and [refs = 1]).
    The metrics counter [bpage_reuses] is not modelled. *)
Definition allocate_tail (p1 : homa_pool) (m : homa_message_in)
    (e : pool_env) (offs : list Z) (tail_len : Z) (locks1 : list bool)
  : option pool_error * homa_pool * homa_message_in :=
  let core := env_core e in
  let c := get_core core p1 in
  let hint := page_hint c in
  match descriptors p1 !! hint with
  | None => new_page p1 m e offs tail_len locks1
  | Some d =>
      if owner d =? Z.of_nat core then
        match locks1 with
        | false :: locks2 => new_page p1 m e offs tail_len locks2
        | _ =>
            if allocated c + tail_len <=? HOMA_BPAGE_SIZE then
              (None,
               set_hint core hint (allocated c + tail_len)
                 (set_descriptor hint (inc_refs d) p1),
               set_bpages (offs ++ [page_offset hint + allocated c]) m)
            else if refs d =? 1 then
              (None,
               set_hint core hint tail_len
                 (set_descriptor hint (inc_refs d) p1),
               set_bpages (offs ++ [page_offset hint]) m)
            else
              new_page (set_descriptor hint (disown d) p1) m e offs
                tail_len (tail locks1)
        end
      else new_page p1 m e offs tail_len locks1
  end.

(** Modelled from the spec: [homa_pool_allocate] (section 4.3), on the pool
    and the [msgin] of the RPC. The result is [None] on success and
    [Some ResourceExhausted] when the buffers cannot be obtained; on a
    failure every bpage acquired so far for this RPC is released. *)
Definition homa_pool_allocate (p : homa_pool) (m : homa_message_in)
    (e : pool_env) (locks : list bool)
  : option pool_error * homa_pool * homa_message_in :=
  let full := mi_length m / HOMA_BPAGE_SIZE in
  let tail_len := mi_length m mod HOMA_BPAGE_SIZE in
  if free_bpages p <? full + (if 0 <? tail_len then 1 else 0)
  then (Some ResourceExhausted, p, m)
  else
    match homa_pool_get_pages p full false e locks with
    | (r, pages, locks1, p1) =>
        let offs := page_offset <$> pages in
        if negb (r =? 0)
        then (Some ResourceExhausted,
              homa_pool_release_buffers p1 (Z.of_nat (length offs)) offs, m)
        else if tail_len =? 0
        then (None, p1, set_bpages offs m)
        else allocate_tail p1 m e offs tail_len locks1
    end.

(* ===================================================================== *)
(** ** Pool predicates and the unit-test fixture *)
(* ===================================================================== *)

(** What the pool operations leave alone when they look for pages: the
    region, the number of bpages, and of every core the hinted bpage and
    the bytes issued from it (the scan cursor moves). *)
Definition same_frame (p p' : homa_pool) : Prop :=
  region p' = region p /\ num_bpages p' = num_bpages p
  /\ (forall c, allocated (get_core c p') = allocated (get_core c p)
                /\ page_hint (get_core c p') = page_hint (get_core c p)).

(** Bpage [i] has an owner in [p]. *)
Definition owned (p : homa_pool) (i : nat) : bool :=
  match descriptors p !! i with
  | Some d => negb (owner d =? -1)
  | None => false
  end.

(** What one scan of [homa_pool_get_pages] does to the pool: nothing but the
    cursor moves when no page is found, and a found page was eligible and
    is now claimed. *)
Definition scanned (e : pool_env) (so : bool) (p : homa_pool)
    (res : option nat) (p' : homa_pool) : Prop :=
  same_frame p p'
  /\ match res with
     | None => descriptors p' = descriptors p
               /\ free_bpages p' = free_bpages p
     | Some pg => exists d,
         descriptors p !! pg = Some d /\ eligible (env_now e) d = true
         /\ descriptors p'
            = <[pg := claim_page so (env_core e) (env_now e) (env_lease e) d]>
                (descriptors p)
         /\ free_bpages p' = claim_gauge d (free_bpages p)
     end.

(** What [homa_pool_get_pages] does to the pool when it has claimed the
    pages [new]: each was eligible and is now claimed, and the gauge has
    gone down by one for each that had no owner. *)
Definition claimed (e : pool_env) (so : bool) (p : homa_pool)
    (new : list nat) (p' : homa_pool) : Prop :=
  same_frame p p'
  /\ NoDup new
  /\ free_bpages p'
     = free_bpages p - Z.of_nat (length new)
       + Z.of_nat (length (filter (fun i => owned p i) new))
  /\ (forall i, i ∉ new -> descriptors p' !! i = descriptors p !! i)
  /\ (forall i, i ∈ new -> exists d,
        descriptors p !! i = Some d /\ eligible (env_now e) d = true
        /\ descriptors p' !! i
           = Some (claim_page so (env_core e) (env_now e) (env_lease e) d)).

Definition dec_refs (d : homa_bpage) : homa_bpage :=
  {| refs := refs d - 1; owner := owner d; expiration := expiration d |}.

Definition undo (pages : list nat) (p : homa_pool) : homa_pool :=
  foldl release_offset p (page_offset <$> pages).

(** Bpage [i] was taken from an owner whose lease had run out, and then
    released: it has neither owner nor reference. *)
Definition taken_from_owner (e : pool_env) (p p' : homa_pool) (i : nat)
  : Prop :=
  exists d, descriptors p !! i = Some d
    /\ owner d <> -1 /\ expiration d <= env_now e /\ refs d <= 1
    /\ descriptors p' !! i
       = Some {| refs := 0; owner := -1; expiration := expiration d |}.

(** Bpage [i] was the hinted bpage of the calling core and was given up
    because the tail of the message did not fit. *)
Definition given_up (e : pool_env) (p p' : homa_pool) (i : nat) : Prop :=
  i = page_hint (get_core (env_core e) p)
  /\ exists d, descriptors p !! i = Some d
       /\ owner d = Z.of_nat (env_core e) /\ refs d <> 1
       /\ descriptors p' !! i = Some (disown d).

(** Bpage [i] was claimed as the calling core's own bpage; the owner's
    reference is left on it. *)
Definition made_own (e : pool_env) (p p' : homa_pool) (i : nat) : Prop :=
  exists d, descriptors p !! i = Some d /\ eligible (env_now e) d = true
    /\ descriptors p' !! i
       = Some {| refs := 1; owner := Z.of_nat (env_core e);
                 expiration := env_now e + env_lease e |}.

(** What a failed allocation leaves of the pool. *)
Definition restored (e : pool_env) (p p' : homa_pool) : Prop :=
  same_frame p p'
  /\ exists stolen,
       NoDup stolen
       /\ free_bpages p' = free_bpages p + Z.of_nat (length stolen)
       /\ (forall i, i ∈ stolen -> taken_from_owner e p p' i)
       /\ (forall i, i ∉ stolen ->
             descriptors p' !! i = descriptors p !! i \/ given_up e p p' i).

(** What a matched release leaves of a successful allocation: each
    descriptor as it was before the allocation, but for a bpage that the
    allocation made the core's own, a bpage that it took from an owner, and
    a hinted bpage that it gave up. *)
Definition given_back (e : pool_env) (p p2 : homa_pool) : Prop :=
  forall i,
    descriptors p2 !! i = descriptors p !! i
    \/ made_own e p p2 i \/ taken_from_owner e p p2 i \/ given_up e p p2 i.

(** The fixture of unit_homa_pool.c: the region at 0x1000000, the calling
    core [cpu_number] of the mock, a clock and a positive lease. *)
Definition buffer_region : Z := 16777216.
Definition cpu_number : nat := 1.
Definition nr_cpu_ids : nat := 8.
Definition unit_env : pool_env :=
  {| env_core := cpu_number; env_now := 1000; env_lease := 1000 |}.
Definition unit_env_at (now : Z) : pool_env :=
  {| env_core := cpu_number; env_now := now; env_lease := 1000 |}.

(** A pool structure before [homa_pool_init]. *)
Definition no_pool : homa_pool :=
  {| region := 0; num_bpages := 0; descriptors := []; cores := [];
     free_bpages := 0 |}.

(** The pool that [homa_pool_init] leaves for [bpages] bpages at the region
    of the fixture. *)
Definition unit_pool (bpages : Z) : homa_pool :=
  fresh_pool buffer_region bpages nr_cpu_ids.

Definition unit_msgin (len : Z) : homa_message_in :=
  {| mi_length := len; mi_packets := []; mi_gaps := []; mi_num_bpages := 0;
     mi_bpage_offsets := [] |}.

Definition refs_at (i : nat) (p : homa_pool) : option Z :=
  refs <$> descriptors p !! i.
Definition owner_at (i : nat) (p : homa_pool) : option Z :=
  owner <$> descriptors p !! i.
Definition expiration_at (i : nat) (p : homa_pool) : option Z :=
  expiration <$> descriptors p !! i.

(** The assignments that the tests make to the pool between calls. *)
Definition set_refs_at (i : nat) (v : Z) (p : homa_pool) : homa_pool :=
  set_descriptors
    (alter (fun d => {| refs := v; owner := owner d;
                        expiration := expiration d |}) i (descriptors p)) p.
Definition set_owner_at (i : nat) (v : Z) (p : homa_pool) : homa_pool :=
  set_descriptors
    (alter (fun d => {| refs := refs d; owner := v;
                        expiration := expiration d |}) i (descriptors p)) p.
Definition set_expiration_at (i : nat) (v : Z) (p : homa_pool) : homa_pool :=
  set_descriptors
    (alter (fun d => {| refs := refs d; owner := owner d;
                        expiration := v |}) i (descriptors p)) p.
Definition set_allocated (core : nat) (v : Z) (p : homa_pool) : homa_pool :=
  set_hint core (page_hint (get_core core p)) v p.
Definition set_page_hint (core : nat) (h : nat) (p : homa_pool) : homa_pool :=
  set_hint core h (allocated (get_core core p)) p.

(** unit_homa_pool.c:83-90. *)
Definition test_homa_pool_init__basics (min_pool_size : Z) : bool :=
  match homa_pool_init min_pool_size buffer_region (100 * HOMA_BPAGE_SIZE)
          nr_cpu_ids true true with
  | inr p => (num_bpages p =? 100) && bool_decide (owner_at 98 p = Some (-1))
  | inl _ => false
  end.

(** unit_homa_pool.c:91-96. *)
Definition test_homa_pool_init__region_not_page_aligned (min_pool_size : Z)
  : bool :=
  match homa_pool_init min_pool_size (buffer_region + 10)
          (100 * HOMA_BPAGE_SIZE) nr_cpu_ids true true with
  | inl InvalidArgument => true
  | _ => false
  end.

(** unit_homa_pool.c:97-101. *)
Definition test_homa_pool_init__region_too_small (min_pool_size : Z) : bool :=
  match homa_pool_init min_pool_size buffer_region (3 * HOMA_BPAGE_SIZE)
          nr_cpu_ids true true with
  | inl InvalidArgument => true
  | _ => false
  end.

(** unit_homa_pool.c:102-107. *)
Definition test_homa_pool_init__cant_allocate_descriptors
    (min_pool_size : Z) : bool :=
  match homa_pool_init min_pool_size buffer_region (100 * HOMA_BPAGE_SIZE)
          nr_cpu_ids false true with
  | inl AllocationFailure => true
  | _ => false
  end.

(** unit_homa_pool.c:108-113. *)
Definition test_homa_pool_init__cant_allocate_core_info
    (min_pool_size : Z) : bool :=
  match homa_pool_init min_pool_size buffer_region (100 * HOMA_BPAGE_SIZE)
          nr_cpu_ids true false with
  | inl AllocationFailure => true
  | _ => false
  end.

(** unit_homa_pool.c:123-136, from the pool [p] that [homa_pool_init] has
    left. *)
Definition homa_pool_get_pages__basics_on (p : homa_pool) : bool :=
  match homa_pool_get_pages p 2 false unit_env [] with
  | (r, pages, _, p') =>
      (r =? 0) && bool_decide (pages = [0; 1]%nat)
      && bool_decide (refs_at 1 p' = Some 1)
      && bool_decide (owner_at 1 p' = Some (-1))
      && bool_decide (next_candidate (get_core cpu_number p') = 2%nat)
      && (free_bpages p' =? 98)
  end.

Definition test_homa_pool_get_pages__basics : bool :=
  homa_pool_get_pages__basics_on (unit_pool 100).

(** unit_homa_pool.c:137-147. *)
Definition test_homa_pool_get_pages__not_enough_space : bool :=
  match homa_pool_get_pages (set_free_bpages 1 (unit_pool 100)) 2 false
          unit_env [] with
  | (r1, _, _, p1) =>
      match homa_pool_get_pages (set_free_bpages 2 p1) 2 false unit_env [] with
      | (r2, _, _, _) => (r1 =? -1) && (r2 =? 0)
      end
  end.

(** unit_homa_pool.c:148-159. *)
Definition test_homa_pool_get_pages__set_limit : bool :=
  match homa_pool_get_pages
          (set_cursor cpu_number 49 (set_free_bpages 62 (unit_pool 100)))
          2 false unit_env [] with
  | (r, pages, _, _) => (r =? 0) && bool_decide (pages = [49; 0]%nat)
  end.

(** unit_homa_pool.c:160-171. *)
Definition test_homa_pool_get_pages__set_limit_with_MIN_EXTRA : bool :=
  match homa_pool_get_pages
          (set_cursor cpu_number 13 (set_free_bpages 92 (unit_pool 100)))
          2 false unit_env [] with
  | (r, pages, _, _) => (r =? 0) && bool_decide (pages = [13; 0]%nat)
  end.

(** unit_homa_pool.c:172-190; [mock_cycles] is 1000. *)
Definition unusable_bpages (now : Z) (p : homa_pool) : homa_pool :=
  set_refs_at 3 1
    (set_expiration_at 2 (now - 1) (set_owner_at 2 3 (set_refs_at 2 1
       (set_expiration_at 1 (now + 1) (set_owner_at 1 3 (set_refs_at 1 1
          (set_refs_at 0 2 p))))))).

Definition test_homa_pool_get_pages__skip_unusable_bpages : bool :=
  match homa_pool_get_pages (unusable_bpages 1000 (unit_pool 100)) 2 false
          (unit_env_at 1000) [] with
  | (r, pages, _, _) => (r =? 0) && bool_decide (pages = [2; 4]%nat)
  end.

(** unit_homa_pool.c:191-202; [mock_trylock_errors = 3] makes the first two
    try-locks fail. *)
Definition test_homa_pool_get_pages__cant_lock_pages : bool :=
  match homa_pool_get_pages (unit_pool 100) 2 false (unit_env_at 1000)
          [false; false] with
  | (r, pages, _, _) => (r =? 0) && bool_decide (pages = [2; 3]%nat)
  end.

(** unit_homa_pool.c:215-230: bpage 0 belongs to core 5 and its lease has
    run out. *)
Definition expired_owner (now : Z) (p : homa_pool) : homa_pool :=
  set_expiration_at 0 (now - 1) (set_owner_at 0 5 p).

Definition test_homa_pool_get_pages__steal_expired_page : bool :=
  match homa_pool_get_pages
          (set_free_bpages 20 (expired_owner 5000 (unit_pool 100))) 2 false
          (unit_env_at 5000) [] with
  | (r, pages, _, p) =>
      (r =? 0) && bool_decide (pages = [0; 1]%nat)
      && bool_decide (owner_at 0 p = Some (-1))
      && (free_bpages p =? 19)
  end.

(** unit_homa_pool.c:231-244; the lease is 1000 cycles and [mock_cycles] is
    5000. *)
Definition test_homa_pool_get_pages__set_owner : bool :=
  match homa_pool_get_pages (unit_pool 100) 2 true (unit_env_at 5000) [] with
  | (r, pages, _, p) =>
      (r =? 0)
      && bool_decide (owner_at (default 0%nat (pages !! 0%nat)) p = Some 1)
      && bool_decide (expiration_at (default 0%nat (pages !! 1%nat)) p
                      = Some (5000 + 1000))
      && bool_decide (refs_at 1 p = Some 2)
  end.

(** unit_homa_pool.c:246-264. *)
Definition test_homa_pool_allocate__basics : bool :=
  match homa_pool_allocate (unit_pool 100) (unit_msgin 150000) unit_env [] with
  | (None, p, m) =>
      (mi_num_bpages m =? 3)
      && bool_decide (mi_bpage_offsets m !! 0%nat = Some 0)
      && bool_decide (owner_at 0 p = Some (-1))
      && bool_decide (mi_bpage_offsets m !! 2%nat
                      = Some (2 * HOMA_BPAGE_SIZE))
      && bool_decide (page_hint (get_core cpu_number p) = 2%nat)
      && (allocated (get_core cpu_number p) =? 150000 - 2 * HOMA_BPAGE_SIZE)
  | _ => false
  end.

(** unit_homa_pool.c:265-279. *)
Definition test_homa_pool_allocate__cant_allocate_full_bpages : bool :=
  match homa_pool_allocate (set_free_bpages 1 (unit_pool 100))
          (unit_msgin 150000) unit_env [] with
  | (Some ResourceExhausted, p, m) =>
      (mi_num_bpages m =? 0) && (free_bpages p =? 1)
  | _ => false
  end.

(** unit_homa_pool.c:280-296. *)
Definition test_homa_pool_allocate__no_partial_page : bool :=
  match homa_pool_allocate (set_free_bpages 2 (unit_pool 100))
          (unit_msgin (2 * HOMA_BPAGE_SIZE)) unit_env [] with
  | (None, p, m) =>
      (mi_num_bpages m =? 2)
      && bool_decide (mi_bpage_offsets m = [0; HOMA_BPAGE_SIZE])
      && (free_bpages p =? 0)
  | _ => false
  end.

(** unit_homa_pool.c:297-326, but for the check of line 323: the owner of
    bpage 2 is changed there by another core (the hook of the test) while
    the lock is tried, and no other core runs in this model.
    [mock_trylock_errors = 1] makes the first try-lock fail. *)
Definition test_homa_pool_allocate__owned_page_locked : bool :=
  match homa_pool_allocate
          (set_free_bpages 40 (set_cursor cpu_number 2 (unit_pool 100)))
          (unit_msgin 2000) unit_env [] with
  | (None, p1, _) =>
      match homa_pool_allocate p1 (unit_msgin 2000) unit_env [false] with
      | (None, p2, m2) =>
          bool_decide (page_hint (get_core cpu_number p1) = 2%nat)
          && (mi_num_bpages m2 =? 1)
          && bool_decide (mi_bpage_offsets m2 = [3 * HOMA_BPAGE_SIZE])
          && bool_decide (page_hint (get_core cpu_number p2) = 3%nat)
          && (allocated (get_core cpu_number p2) =? 2000)
          && bool_decide (owner_at 3 p2 = Some 1)
          && (free_bpages p2 =? 38)
      | _ => false
      end
  | _ => false
  end.

(** unit_homa_pool.c:327-348, but for the metrics counter. *)
Definition test_homa_pool_allocate__page_wrap_around : bool :=
  match homa_pool_allocate
          (set_owner_at 2 (Z.of_nat cpu_number) (set_refs_at 2 1
             (set_hint cpu_number 2 (HOMA_BPAGE_SIZE - 1900)
                (unit_pool 100))))
          (unit_msgin 2000) unit_env [] with
  | (None, p, m) =>
      bool_decide (page_hint (get_core cpu_number p) = 2%nat)
      && (mi_num_bpages m =? 1)
      && bool_decide (mi_bpage_offsets m = [2 * HOMA_BPAGE_SIZE])
      && (allocated (get_core cpu_number p) =? 2000)
      && bool_decide (owner_at 2 p = Some (Z.of_nat cpu_number))
  | _ => false
  end.

(** unit_homa_pool.c:349-374. *)
Definition test_homa_pool_allocate__owned_page_overflow : bool :=
  match homa_pool_allocate
          (set_free_bpages 50 (set_cursor cpu_number 2 (unit_pool 100)))
          (unit_msgin 2000) unit_env [] with
  | (None, p1, _) =>
      match homa_pool_allocate
              (set_allocated cpu_number (HOMA_BPAGE_SIZE - 1900) p1)
              (unit_msgin 2000) unit_env [] with
      | (None, p2, m2) =>
          bool_decide (page_hint (get_core cpu_number p1) = 2%nat)
          && (mi_num_bpages m2 =? 1)
          && bool_decide (mi_bpage_offsets m2 = [3 * HOMA_BPAGE_SIZE])
          && bool_decide (page_hint (get_core cpu_number p2) = 3%nat)
          && (allocated (get_core cpu_number p2) =? 2000)
          && bool_decide (owner_at 2 p2 = Some (-1))
          && bool_decide (refs_at 2 p2 = Some 1)
          && bool_decide (owner_at 3 p2 = Some 1)
          && (free_bpages p2 =? 48)
      | _ => false
      end
  | _ => false
  end.

(** unit_homa_pool.c:375-399. *)
Definition test_homa_pool_allocate__reuse_owned_page : bool :=
  match homa_pool_allocate (set_cursor cpu_number 2 (unit_pool 100))
          (unit_msgin 2000) unit_env [] with
  | (None, p1, m1) =>
      match homa_pool_allocate p1 (unit_msgin 3000) unit_env [] with
      | (None, p2, m2) =>
          (mi_num_bpages m1 =? 1)
          && bool_decide (mi_bpage_offsets m1 = [2 * HOMA_BPAGE_SIZE])
          && (mi_num_bpages m2 =? 1)
          && bool_decide (mi_bpage_offsets m2 = [2 * HOMA_BPAGE_SIZE + 2000])
          && bool_decide (refs_at 2 p2 = Some 3)
          && bool_decide (page_hint (get_core cpu_number p2) = 2%nat)
          && (allocated (get_core cpu_number p2) =? 5000)
      | _ => false
      end
  | _ => false
  end.

(** unit_homa_pool.c:400-417. *)
Definition test_homa_pool_allocate__cant_allocate_partial_bpage : bool :=
  match homa_pool_allocate (set_free_bpages 5 (unit_pool 100))
          (unit_msgin (5 * HOMA_BPAGE_SIZE + 100)) unit_env [] with
  | (Some ResourceExhausted, p, m) =>
      (mi_num_bpages m =? 0)
      && bool_decide (refs_at 0 p = Some 0)
      && bool_decide (refs_at 1 p = Some 0)
      && bool_decide (refs_at 4 p = Some 0)
      && (free_bpages p =? 5)
  | _ => false
  end.

(** unit_homa_pool.c:438-450. *)
Definition test_homa_pool_get_buffer__cant_allocate_buffers : bool :=
  match homa_pool_allocate (set_free_bpages 2 (unit_pool 100))
          (unit_msgin 150000) unit_env [] with
  | (Some ResourceExhausted, _, m) => mi_num_bpages m =? 0
  | _ => false
  end.

(** unit_homa_pool.c:452-489. *)
Definition test_homa_pool_release_buffers : bool :=
  match homa_pool_allocate (unit_pool 100) (unit_msgin 150000) unit_env [] with
  | (None, p1, m1) =>
      match homa_pool_allocate p1 (unit_msgin 2000) unit_env [] with
      | (None, p2, m2) =>
          let p3 := homa_pool_release_buffers p2 (mi_num_bpages m1)
                      (mi_bpage_offsets m1) in
          let p4 := homa_pool_release_buffers (set_region 0 p3)
                      (mi_num_bpages m1) (mi_bpage_offsets m1) in
          bool_decide (refs_at 0 p2 = Some 1)
          && bool_decide (refs_at 1 p2 = Some 1)
          && bool_decide (refs_at 2 p2 = Some 3)
          && (free_bpages p2 =? 97)
          && bool_decide (refs_at 0 p3 = Some 0)
          && bool_decide (refs_at 1 p3 = Some 0)
          && bool_decide (refs_at 2 p3 = Some 2)
          && (free_bpages p3 =? 99)
          && bool_decide (refs_at 0 p4 = Some 0)
      | _ => false
      end
  | _ => false
  end.

(** The tests that need nothing but the pool operations. Left out are
    [homa_pool_destroy__idempotent] and the tests of [homa_pool_get_buffer],
    functions that are not modelled, and
    [homa_pool_get_pages__state_changes_while_locking], in which a hook
    rewrites descriptors as another core would while a lock is tried. *)
Definition pool_tests : list bool :=
  [test_homa_pool_get_pages__basics;
   test_homa_pool_get_pages__not_enough_space;
   test_homa_pool_get_pages__set_limit;
   test_homa_pool_get_pages__set_limit_with_MIN_EXTRA;
   test_homa_pool_get_pages__skip_unusable_bpages;
   test_homa_pool_get_pages__cant_lock_pages;
   test_homa_pool_get_pages__steal_expired_page;
   test_homa_pool_get_pages__set_owner;
   test_homa_pool_allocate__basics;
   test_homa_pool_allocate__cant_allocate_full_bpages;
   test_homa_pool_allocate__no_partial_page;
   test_homa_pool_allocate__owned_page_locked;
   test_homa_pool_allocate__page_wrap_around;
   test_homa_pool_allocate__owned_page_overflow;
   test_homa_pool_allocate__reuse_owned_page;
   test_homa_pool_allocate__cant_allocate_partial_bpage;
   test_homa_pool_get_buffer__cant_allocate_buffers;
   test_homa_pool_release_buffers].

(** The bpages on which the offsets recorded in a message lie. *)
Definition pages_of (m : homa_message_in) : list nat :=
  (fun off => Z.to_nat (off / HOMA_BPAGE_SIZE)) <$> mi_bpage_offsets m.

(** The pool in which the search for a fresh bpage starts: the one the
    full bpages [new] were claimed in, with the hinted bpage given up or
    not. *)
Definition tail_start (e : pool_env) (p : homa_pool) (new : list nat)
    (p1 q : homa_pool) : Prop :=
  same_frame p1 q /\ free_bpages q = free_bpages p1
  /\ (forall i, i ∈ new -> descriptors q !! i = descriptors p1 !! i)
  /\ (forall i, i ∉ new ->
        descriptors q !! i = descriptors p !! i \/ given_up e p q i)
  /\ (forall i d, descriptors q !! i = Some d ->
        eligible (env_now e) d = true ->
        (i ∉ new) /\ descriptors p !! i = Some d).

(** *** A pool with two owned bpages, and locks held by other cores *)

Definition core_at (c : nat) (now : Z) : pool_env :=
  {| env_core := c; env_now := now; env_lease := 1000 |}.

(** On the pool of the fixture, at time 1000, core 2 places a message of
    2000 bytes, which makes bpage 0 its own, and core 1 places a message
    of 60000 bytes, which makes bpage 1 its own. Then the first message is
    released: bpage 0 keeps the reference of its owner. *)
Definition contended_pool : homa_pool :=
  let a := homa_pool_allocate (unit_pool 100) (unit_msgin 2000)
             (core_at 2 1000) [] in
  let b := homa_pool_allocate a.1.2 (unit_msgin 60000) (core_at 1 1000) [] in
  homa_pool_release_buffers b.1.2 (mi_num_bpages a.2) (mi_bpage_offsets a.2).

(** At time 5000 both leases have run out, and core 1 has a message of one
    full bpage and 10000 bytes more, which do not fit behind the 60000
    bytes on bpage 1. Other cores hold the locks of the free bpages that
    the scan tries first; the locks of bpage 0 and of bpage 1 are free;
    after that every lock that is tried is held. *)
Definition contended_msgin : homa_message_in :=
  unit_msgin (HOMA_BPAGE_SIZE + 10000).
Definition contended_locks : list bool :=
  replicate 5 false ++ [true; true] ++ replicate 100 false.

(* ===================================================================== *)
(** ** RPCs and the socket *)
(* ===================================================================== *)

(** The states of an RPC ([rpc->state]). *)
Inductive rpc_state := RPC_OUTGOING | RPC_INCOMING | RPC_IN_SERVICE | RPC_DEAD.

Global Instance rpc_state_eq_dec : EqDecision rpc_state.
Proof. solve_decision. Defined.

(** [rpc->bucket]: the hash bucket whose lock guards the RPC, in the client
    or in the server table of the socket. *)
Inductive bucket_ref := client_bucket (i : nat) | server_bucket (i : nat).

Global Instance bucket_ref_eq_dec : EqDecision bucket_ref.
Proof. solve_decision. Defined.

(** [struct homa_peer], as far as the lookups read it. *)
Record homa_peer := { addr : Z }.

(** [struct homa_rpc]. Membership in the lists that [hash_links],
    [active_links], [dead_links], [ready_links] and [buf_links] thread
    through is kept in the socket. *)
Record homa_rpc := {
  id : Z;
  bucket : bucket_ref;
  state : rpc_state;
  flags : Z;
  grants_in_progress : Z;
  peer : homa_peer;
  dport : Z;
  completion_cookie : Z;
  error : Z;
  msgin : homa_message_in;
  msgout : homa_message_out;
  interest : option nat;
  silent_ticks : Z;
  resend_timer_ticks : Z;
  done_timer_ticks : Z;
  magic : Z;
  start_cycles : Z
}.

(** [struct homa_rpc_bucket]: a spin lock and the RPCs that hash to it. *)
Record homa_rpc_bucket := { lock : bool; rpcs : list handle }.

Definition empty_bucket : homa_rpc_bucket := {| lock := false; rpcs := [] |}.

(** [struct homa], the fields [homa_utils.c] reads or writes on behalf of
    RPCs. *)
Record homa := {
  next_outgoing_id : Z;
  timer_ticks : Z;
  reap_limit : Z;
  dead_buffs_limit : Z;
  max_dead_buffs : Z;
  bpage_lease_usecs : Z
}.

(** [struct homa_sock] together with the memory its RPCs live in: [heap]
    holds the allocated [struct homa_rpc]s and [next_handle] is the next
    address the allocator hands out. [reg_rpcs] gives, for each
    [struct homa_interest] with a registered RPC, that RPC ([reg_rpc]). *)
Record homa_sock := {
  hsk_homa : homa;
  sock_locked : bool;
  shutdown : bool;
  protect_count : Z;
  dead_skbs : Z;
  client_rpc_buckets : gmap nat homa_rpc_bucket;
  server_rpc_buckets : gmap nat homa_rpc_bucket;
  active_rpcs : list handle;
  dead_rpcs : list handle;
  ready_rpcs : list handle;
  waiting_for_bufs : list handle;
  reg_rpcs : gmap nat handle;
  buffer_pool : homa_pool;
  heap : gmap handle homa_rpc;
  next_handle : handle
}.

(** What [homa_utils.c] takes from [homa_impl.h] and from other files:
    the bucket of an id in each table, the local form of a sender's id, the
    flag bits, the magic number, the build ([BATCH_MAX] is 3 in a unit-test
    build and 20 otherwise), the set-up of an incoming message, which returns
    an error code and may take buffers from the pool, and the hand-off of a
    ready RPC, which may queue it. *)
Class homa_impl := {
  homa_client_rpc_bucket : Z -> nat;
  homa_server_rpc_bucket : Z -> nat;
  homa_local_id : Z -> Z;
  RPC_PKTS_READY : Z;
  RPC_CANT_REAP : Z;
  HOMA_RPC_MAGIC : Z;
  UNIT_TEST : bool;
  homa_message_in_init :
    homa_message_in -> Z -> Z -> homa_pool -> Z * homa_message_in * homa_pool;
  homa_rpc_handoff : handle -> list handle -> list handle
}.

(** The first data packet of a message, fields in host byte order. *)
Record data_header := {
  sender_id : Z;
  sport : Z;
  message_length : Z;
  incoming : Z;
  seg_offset : Z
}.

(** *** Field updates *)

Definition set_homa (f : homa -> homa) (s : homa_sock) : homa_sock :=
  {| hsk_homa := f (hsk_homa s); sock_locked := sock_locked s;
     shutdown := shutdown s; protect_count := protect_count s;
     dead_skbs := dead_skbs s; client_rpc_buckets := client_rpc_buckets s;
     server_rpc_buckets := server_rpc_buckets s;
     active_rpcs := active_rpcs s; dead_rpcs := dead_rpcs s;
     ready_rpcs := ready_rpcs s; waiting_for_bufs := waiting_for_bufs s;
     reg_rpcs := reg_rpcs s; buffer_pool := buffer_pool s; heap := heap s;
     next_handle := next_handle s |}.

Definition set_sock_locked (b : bool) (s : homa_sock) : homa_sock :=
  {| hsk_homa := hsk_homa s; sock_locked := b;
     shutdown := shutdown s; protect_count := protect_count s;
     dead_skbs := dead_skbs s; client_rpc_buckets := client_rpc_buckets s;
     server_rpc_buckets := server_rpc_buckets s;
     active_rpcs := active_rpcs s; dead_rpcs := dead_rpcs s;
     ready_rpcs := ready_rpcs s; waiting_for_bufs := waiting_for_bufs s;
     reg_rpcs := reg_rpcs s; buffer_pool := buffer_pool s; heap := heap s;
     next_handle := next_handle s |}.

Definition set_dead_skbs (n : Z) (s : homa_sock) : homa_sock :=
  {| hsk_homa := hsk_homa s; sock_locked := sock_locked s;
     shutdown := shutdown s; protect_count := protect_count s;
     dead_skbs := n; client_rpc_buckets := client_rpc_buckets s;
     server_rpc_buckets := server_rpc_buckets s;
     active_rpcs := active_rpcs s; dead_rpcs := dead_rpcs s;
     ready_rpcs := ready_rpcs s; waiting_for_bufs := waiting_for_bufs s;
     reg_rpcs := reg_rpcs s; buffer_pool := buffer_pool s; heap := heap s;
     next_handle := next_handle s |}.

Definition set_buckets (c sv : gmap nat homa_rpc_bucket) (s : homa_sock)
  : homa_sock :=
  {| hsk_homa := hsk_homa s; sock_locked := sock_locked s;
     shutdown := shutdown s; protect_count := protect_count s;
     dead_skbs := dead_skbs s; client_rpc_buckets := c;
     server_rpc_buckets := sv;
     active_rpcs := active_rpcs s; dead_rpcs := dead_rpcs s;
     ready_rpcs := ready_rpcs s; waiting_for_bufs := waiting_for_bufs s;
     reg_rpcs := reg_rpcs s; buffer_pool := buffer_pool s; heap := heap s;
     next_handle := next_handle s |}.

Definition set_active_rpcs (l : list handle) (s : homa_sock) : homa_sock :=
  {| hsk_homa := hsk_homa s; sock_locked := sock_locked s;
     shutdown := shutdown s; protect_count := protect_count s;
     dead_skbs := dead_skbs s; client_rpc_buckets := client_rpc_buckets s;
     server_rpc_buckets := server_rpc_buckets s;
     active_rpcs := l; dead_rpcs := dead_rpcs s;
     ready_rpcs := ready_rpcs s; waiting_for_bufs := waiting_for_bufs s;
     reg_rpcs := reg_rpcs s; buffer_pool := buffer_pool s; heap := heap s;
     next_handle := next_handle s |}.

Definition set_dead_rpcs (l : list handle) (s : homa_sock) : homa_sock :=
  {| hsk_homa := hsk_homa s; sock_locked := sock_locked s;
     shutdown := shutdown s; protect_count := protect_count s;
     dead_skbs := dead_skbs s; client_rpc_buckets := client_rpc_buckets s;
     server_rpc_buckets := server_rpc_buckets s;
     active_rpcs := active_rpcs s; dead_rpcs := l;
     ready_rpcs := ready_rpcs s; waiting_for_bufs := waiting_for_bufs s;
     reg_rpcs := reg_rpcs s; buffer_pool := buffer_pool s; heap := heap s;
     next_handle := next_handle s |}.

Definition set_waiters (ready bufs : list handle) (regs : gmap nat handle)
    (s : homa_sock) : homa_sock :=
  {| hsk_homa := hsk_homa s; sock_locked := sock_locked s;
     shutdown := shutdown s; protect_count := protect_count s;
     dead_skbs := dead_skbs s; client_rpc_buckets := client_rpc_buckets s;
     server_rpc_buckets := server_rpc_buckets s;
     active_rpcs := active_rpcs s; dead_rpcs := dead_rpcs s;
     ready_rpcs := ready; waiting_for_bufs := bufs;
     reg_rpcs := regs; buffer_pool := buffer_pool s; heap := heap s;
     next_handle := next_handle s |}.

Definition set_buffer_pool (p : homa_pool) (s : homa_sock) : homa_sock :=
  {| hsk_homa := hsk_homa s; sock_locked := sock_locked s;
     shutdown := shutdown s; protect_count := protect_count s;
     dead_skbs := dead_skbs s; client_rpc_buckets := client_rpc_buckets s;
     server_rpc_buckets := server_rpc_buckets s;
     active_rpcs := active_rpcs s; dead_rpcs := dead_rpcs s;
     ready_rpcs := ready_rpcs s; waiting_for_bufs := waiting_for_bufs s;
     reg_rpcs := reg_rpcs s; buffer_pool := p; heap := heap s;
     next_handle := next_handle s |}.

Definition set_heap (m : gmap handle homa_rpc) (n : handle) (s : homa_sock)
  : homa_sock :=
  {| hsk_homa := hsk_homa s; sock_locked := sock_locked s;
     shutdown := shutdown s; protect_count := protect_count s;
     dead_skbs := dead_skbs s; client_rpc_buckets := client_rpc_buckets s;
     server_rpc_buckets := server_rpc_buckets s;
     active_rpcs := active_rpcs s; dead_rpcs := dead_rpcs s;
     ready_rpcs := ready_rpcs s; waiting_for_bufs := waiting_for_bufs s;
     reg_rpcs := reg_rpcs s; buffer_pool := buffer_pool s; heap := m;
     next_handle := n |}.

Definition set_state (st : rpc_state) (r : homa_rpc) : homa_rpc :=
  {| id := id r; bucket := bucket r; state := st; flags := flags r;
     grants_in_progress := grants_in_progress r; peer := peer r;
     dport := dport r; completion_cookie := completion_cookie r;
     error := error r; msgin := msgin r; msgout := msgout r;
     interest := interest r; silent_ticks := silent_ticks r;
     resend_timer_ticks := resend_timer_ticks r;
     done_timer_ticks := done_timer_ticks r; magic := magic r;
     start_cycles := start_cycles r |}.

Definition set_flags (f : Z) (r : homa_rpc) : homa_rpc :=
  {| id := id r; bucket := bucket r; state := state r; flags := f;
     grants_in_progress := grants_in_progress r; peer := peer r;
     dport := dport r; completion_cookie := completion_cookie r;
     error := error r; msgin := msgin r; msgout := msgout r;
     interest := interest r; silent_ticks := silent_ticks r;
     resend_timer_ticks := resend_timer_ticks r;
     done_timer_ticks := done_timer_ticks r; magic := magic r;
     start_cycles := start_cycles r |}.

Definition set_msgin (m : homa_message_in) (r : homa_rpc) : homa_rpc :=
  {| id := id r; bucket := bucket r; state := state r; flags := flags r;
     grants_in_progress := grants_in_progress r; peer := peer r;
     dport := dport r; completion_cookie := completion_cookie r;
     error := error r; msgin := m; msgout := msgout r;
     interest := interest r; silent_ticks := silent_ticks r;
     resend_timer_ticks := resend_timer_ticks r;
     done_timer_ticks := done_timer_ticks r; magic := magic r;
     start_cycles := start_cycles r |}.

Definition set_msgout (m : homa_message_out) (r : homa_rpc) : homa_rpc :=
  {| id := id r; bucket := bucket r; state := state r; flags := flags r;
     grants_in_progress := grants_in_progress r; peer := peer r;
     dport := dport r; completion_cookie := completion_cookie r;
     error := error r; msgin := msgin r; msgout := m;
     interest := interest r; silent_ticks := silent_ticks r;
     resend_timer_ticks := resend_timer_ticks r;
     done_timer_ticks := done_timer_ticks r; magic := magic r;
     start_cycles := start_cycles r |}.

Definition set_interest (i : option nat) (r : homa_rpc) : homa_rpc :=
  {| id := id r; bucket := bucket r; state := state r; flags := flags r;
     grants_in_progress := grants_in_progress r; peer := peer r;
     dport := dport r; completion_cookie := completion_cookie r;
     error := error r; msgin := msgin r; msgout := msgout r;
     interest := i; silent_ticks := silent_ticks r;
     resend_timer_ticks := resend_timer_ticks r;
     done_timer_ticks := done_timer_ticks r; magic := magic r;
     start_cycles := start_cycles r |}.

Definition set_magic (v : Z) (r : homa_rpc) : homa_rpc :=
  {| id := id r; bucket := bucket r; state := state r; flags := flags r;
     grants_in_progress := grants_in_progress r; peer := peer r;
     dport := dport r; completion_cookie := completion_cookie r;
     error := error r; msgin := msgin r; msgout := msgout r;
     interest := interest r; silent_ticks := silent_ticks r;
     resend_timer_ticks := resend_timer_ticks r;
     done_timer_ticks := done_timer_ticks r; magic := v;
     start_cycles := start_cycles r |}.

Definition set_in_packets (pk : list skb) (gs : list homa_gap)
    (m : homa_message_in) : homa_message_in :=
  {| mi_length := mi_length m; mi_packets := pk; mi_gaps := gs;
     mi_num_bpages := mi_num_bpages m;
     mi_bpage_offsets := mi_bpage_offsets m |}.

Definition set_out_packets (pk : list skb) (n : Z) (m : homa_message_out)
  : homa_message_out :=
  {| mo_length := mo_length m; mo_packets := pk; mo_num_skbs := n;
     mo_active_xmits := mo_active_xmits m |}.

(** *** Buckets *)

Definition table_of (b : bucket_ref) (s : homa_sock)
  : gmap nat homa_rpc_bucket :=
  match b with
  | client_bucket _ => client_rpc_buckets s
  | server_bucket _ => server_rpc_buckets s
  end.

Definition index_of (b : bucket_ref) : nat :=
  match b with client_bucket i | server_bucket i => i end.

Definition get_bucket (b : bucket_ref) (s : homa_sock) : homa_rpc_bucket :=
  default empty_bucket (table_of b s !! index_of b).

Definition put_bucket (b : bucket_ref) (bk : homa_rpc_bucket) (s : homa_sock)
  : homa_sock :=
  match b with
  | client_bucket i =>
      set_buckets (<[i := bk]> (client_rpc_buckets s)) (server_rpc_buckets s) s
  | server_bucket i =>
      set_buckets (client_rpc_buckets s) (<[i := bk]> (server_rpc_buckets s)) s
  end.

(** [x] taken off a list, wherever it is linked. *)
Definition unlink (x : handle) (l : list handle) : list handle :=
  filter (fun y => y <> x) l.

Definition unlink_bucket (x : handle) (bk : homa_rpc_bucket)
  : homa_rpc_bucket :=
  {| lock := lock bk; rpcs := unlink x (rpcs bk) |}.

(* ===================================================================== *)
(** ** Running a function of homa_utils.c *)
(* ===================================================================== *)

(** A call either returns, with a value and the socket as it leaves it, or
    never returns normally: it spins on a spin lock that is already held, or
    it follows the address of a [struct homa_rpc] that is not allocated. *)
Inductive fault := Deadlock | BadAddress.

Inductive outcome (A : Type) :=
  | Done (a : A) (s : homa_sock)
  | Stuck (f : fault).

Arguments Done {A} a s.
Arguments Stuck {A} f.

Definition M (A : Type) : Type := homa_sock -> outcome A.

Definition ret {A} (a : A) : M A := fun s => Done a s.

Definition bind {A B} (m : M A) (k : A -> M B) : M B :=
  fun s => match m s with
           | Done a s' => k a s'
           | Stuck f => Stuck f
           end.

Declare Scope homa_scope.
Delimit Scope homa_scope with homa.
Notation "x <- m ;; k" := (bind m (fun x => k))
  (at level 20, m at level 99, k at level 200, only parsing) : homa_scope.
Notation "m ;; k" := (bind m (fun _ => k))
  (at level 100, k at level 200, only parsing, right associativity)
  : homa_scope.

Local Open Scope homa_scope.

Definition gets {A} (f : homa_sock -> A) : M A := fun s => Done (f s) s.

Definition modify (f : homa_sock -> homa_sock) : M unit :=
  fun s => Done tt (f s).

Definition fail {A} (f : fault) : M A := fun _ => Stuck f.

(** *** Memory *)

(** Reading through a [struct homa_rpc *]. *)
Definition deref (h : handle) : M homa_rpc :=
  fun s => match heap s !! h with
           | Some r => Done r s
           | None => Stuck BadAddress
           end.

(** Writing through a [struct homa_rpc *]. *)
Definition store (h : handle) (r : homa_rpc) : M unit :=
  fun s => match heap s !! h with
           | Some _ => Done tt (set_heap (<[h := r]> (heap s)) (next_handle s) s)
           | None => Stuck BadAddress
           end.

Definition update (h : handle) (f : homa_rpc -> homa_rpc) : M unit :=
  r <- deref h ;; store h (f r).

(** The contents of memory that [kmalloc] has just returned are
    indeterminate; the functions below assign every field before it is read,
    and the model starts from this record. *)
Definition blank_rpc : homa_rpc :=
  {| id := 0; bucket := client_bucket 0; state := RPC_OUTGOING; flags := 0;
     grants_in_progress := 0; peer := {| addr := 0 |}; dport := 0;
     completion_cookie := 0; error := 0;
     msgin := {| mi_length := 0; mi_packets := []; mi_gaps := [];
                 mi_num_bpages := 0; mi_bpage_offsets := [] |};
     msgout := {| mo_length := 0; mo_packets := []; mo_num_skbs := 0;
                  mo_active_xmits := 0 |};
     interest := None; silent_ticks := 0; resend_timer_ticks := 0;
     done_timer_ticks := 0; magic := 0; start_cycles := 0 |}.

(** [kmalloc(sizeof(struct homa_rpc), GFP_KERNEL)] when it succeeds: a fresh
    address. *)
Definition kmalloc : M handle :=
  fun s => Done (next_handle s)
             (set_heap (<[next_handle s := blank_rpc]> (heap s))
                (S (next_handle s)) s).

Definition kfree (h : handle) : M unit :=
  modify (fun s => set_heap (delete h (heap s)) (next_handle s) s).

(** *** Locks *)

Definition homa_sock_lock : M unit :=
  fun s => if sock_locked s then Stuck Deadlock
           else Done tt (set_sock_locked true s).

Definition homa_sock_unlock : M unit := modify (set_sock_locked false).

Definition homa_bucket_lock (b : bucket_ref) : M unit :=
  fun s => let bk := get_bucket b s in
           if lock bk then Stuck Deadlock
           else Done tt (put_bucket b {| lock := true; rpcs := rpcs bk |} s).

Definition homa_bucket_unlock (b : bucket_ref) : M unit :=
  modify (fun s => put_bucket b {| lock := false;
                                   rpcs := rpcs (get_bucket b s) |} s).

(** [homa_rpc_lock] and [homa_rpc_unlock] act on [rpc->bucket]. *)
Definition homa_rpc_lock (h : handle) : M unit :=
  r <- deref h ;; homa_bucket_lock (bucket r).

Definition homa_rpc_unlock (h : handle) : M unit :=
  r <- deref h ;; homa_bucket_unlock (bucket r).

(** *** Lists *)

(** [hlist_add_head(&rpc->hash_links, &bucket->rpcs)]. *)
Definition hlist_add_head (h : handle) (b : bucket_ref) : M unit :=
  modify (fun s => let bk := get_bucket b s in
                   put_bucket b {| lock := lock bk; rpcs := h :: rpcs bk |} s).

(** [__hlist_del(&rpc->hash_links)]: the node leaves the list it is on. *)
Definition hlist_del (h : handle) : M unit :=
  modify (fun s => set_buckets (unlink_bucket h <$> client_rpc_buckets s)
                     (unlink_bucket h <$> server_rpc_buckets s) s).

(** [hlist_for_each_entry_rcu] with a test that returns the first match. *)
Fixpoint hlist_find (p : homa_rpc -> bool) (l : list handle)
  : M (option handle) :=
  match l with
  | [] => ret None
  | h :: l' => r <- deref h ;; if p r then ret (Some h) else hlist_find p l'
  end.

(** [atomic64_fetch_add(i, &hsk->homa->next_outgoing_id)]: one indivisible
    step that returns the old value. The result is used as a [__u64]. *)
Definition set_next_outgoing_id (v : Z) (hm : homa) : homa :=
  {| next_outgoing_id := v; timer_ticks := timer_ticks hm;
     reap_limit := reap_limit hm; dead_buffs_limit := dead_buffs_limit hm;
     max_dead_buffs := max_dead_buffs hm;
     bpage_lease_usecs := bpage_lease_usecs hm |}.

Definition set_max_dead_buffs (v : Z) (hm : homa) : homa :=
  {| next_outgoing_id := next_outgoing_id hm; timer_ticks := timer_ticks hm;
     reap_limit := reap_limit hm; dead_buffs_limit := dead_buffs_limit hm;
     max_dead_buffs := v;
     bpage_lease_usecs := bpage_lease_usecs hm |}.

Definition atomic64_fetch_add (i : Z) : M Z :=
  fun s => let old := next_outgoing_id (hsk_homa s) in
           Done old (set_homa (set_next_outgoing_id (wrap_u64 (old + i))) s).

(* ===================================================================== *)
(** ** homa_init *)
(* ===================================================================== *)

(** [homa_init], the fields kept in [homa]: the values it assigns. *)
Definition homa_init : homa :=
  {| next_outgoing_id := 2; timer_ticks := 0; reap_limit := 10;
     dead_buffs_limit := 5000; max_dead_buffs := 0;
     bpage_lease_usecs := 10000 |}.

(* ===================================================================== *)
(** ** homa_rpc_new_client, homa_rpc_new_server *)
(* ===================================================================== *)

Section functions.
Context `{homa_impl}.

(** [homa_rpc_new_client(hsk, dest)]. [dest_port] is the port of [dest] in
    host order. What the callees outside this file answer is passed in:
    [alloc_ok] (whether [kmalloc] succeeds), [peer_res] (the peer that
    [homa_peer_find] returns for [dest], or its negative errno) and [now]
    ([get_cycles()]). The result is the new RPC, locked, or a negative
    errno. *)
Definition homa_rpc_new_client (dest_port : Z) (alloc_ok : bool)
    (peer_res : Z + homa_peer) (now : Z) : M (Z + handle) :=
  if negb alloc_ok then ret (inl (- ENOMEM))
  else
    crpc <- kmalloc ;;
    (* Initialize fields that don't require the socket lock. *)
    new_id <- atomic64_fetch_add 2 ;;
    let bkt := client_bucket (homa_client_rpc_bucket new_id) in
    match peer_res with
    | inl err => kfree crpc ;; ret (inl err)
    | inr pr =>
        ticks <- gets (fun s => timer_ticks (hsk_homa s)) ;;
        store crpc
          {| id := new_id; bucket := bkt; state := RPC_OUTGOING; flags := 0;
             grants_in_progress := 0; peer := pr; dport := dest_port;
             completion_cookie := 0; error := 0;
             msgin := {| mi_length := -1; mi_packets := []; mi_gaps := [];
                         mi_num_bpages := 0; mi_bpage_offsets := [] |};
             msgout := {| mo_length := -1; mo_packets := [];
                          mo_num_skbs := 0; mo_active_xmits := 0 |};
             interest := None; silent_ticks := 0;
             resend_timer_ticks := ticks; done_timer_ticks := 0;
             magic := HOMA_RPC_MAGIC; start_cycles := now |} ;;
        (* Initialize fields that require locking. *)
        homa_bucket_lock bkt ;;
        homa_sock_lock ;;
        down <- gets shutdown ;;
        if down then
          homa_sock_unlock ;;
          homa_rpc_unlock crpc ;;
          kfree crpc ;;
          ret (inl (- ESHUTDOWN))
        else
          hlist_add_head crpc bkt ;;
          modify (fun s => set_active_rpcs (active_rpcs s ++ [crpc]) s) ;;
          homa_sock_unlock ;;
          ret (inr crpc)
    end.

(** The test of the lookups on the server side: id, port and peer address. *)
Definition server_match (i port source : Z) (r : homa_rpc) : bool :=
  (id r =? i) && (dport r =? port) && (addr (peer r) =? source).

(** [homa_rpc_new_server(hsk, source, h, created)]. The result is the pair
    of the value returned and of what is stored in [*created] ([None] when
    nothing is stored). [alloc_ok], [peer_res] and [now] are as in
    [homa_rpc_new_client]. *)
Definition homa_rpc_new_server (source : Z) (h : data_header)
    (alloc_ok : bool) (peer_res : Z + homa_peer) (now : Z)
  : M ((Z + handle) * option Z) :=
  let new_id := homa_local_id (sender_id h) in
  let bkt := server_bucket (homa_server_rpc_bucket new_id) in
  (* Lock the bucket, and make sure no-one else has already created the
     desired RPC. *)
  homa_bucket_lock bkt ;;
  l <- gets (fun s => rpcs (get_bucket bkt s)) ;;
  found <- hlist_find (server_match new_id (sport h) source) l ;;
  match found with
  | Some srpc => ret (inr srpc, Some 0)
  | None =>
      if negb alloc_ok then
        homa_bucket_unlock bkt ;; ret (inl (- ENOMEM), None)
      else
        srpc <- kmalloc ;;
        match peer_res with
        | inl err =>
            homa_bucket_unlock bkt ;; kfree srpc ;; ret (inl err, None)
        | inr pr =>
            ticks <- gets (fun s => timer_ticks (hsk_homa s)) ;;
            pool <- gets buffer_pool ;;
            let m0 := {| mi_length := -1; mi_packets := []; mi_gaps := [];
                         mi_num_bpages := 0; mi_bpage_offsets := [] |} in
            let '(err, m1, pool') :=
              homa_message_in_init m0 (message_length h) (incoming h) pool in
            store srpc
              {| id := new_id; bucket := bkt; state := RPC_INCOMING;
                 flags := 0; grants_in_progress := 0; peer := pr;
                 dport := sport h; completion_cookie := 0; error := 0;
                 msgin := m1;
                 msgout := {| mo_length := -1; mo_packets := [];
                              mo_num_skbs := 0; mo_active_xmits := 0 |};
                 interest := None; silent_ticks := 0;
                 resend_timer_ticks := ticks; done_timer_ticks := 0;
                 magic := HOMA_RPC_MAGIC; start_cycles := now |} ;;
            modify (set_buffer_pool pool') ;;
            if negb (err =? 0) then
              homa_bucket_unlock bkt ;; kfree srpc ;; ret (inl err, None)
            else
              (* Initialize fields that require socket to be locked. *)
              homa_sock_lock ;;
              down <- gets shutdown ;;
              if down then
                homa_sock_unlock ;;
                homa_bucket_unlock bkt ;;
                kfree srpc ;;
                ret (inl (- ESHUTDOWN), None)
              else
                hlist_add_head srpc bkt ;;
                modify (fun s => set_active_rpcs (active_rpcs s ++ [srpc]) s) ;;
                (if (seg_offset h =? 0) && (0 <? mi_num_bpages m1) then
                   update srpc
                     (fun r => set_flags (Z.lor (flags r) RPC_PKTS_READY) r) ;;
                   modify (fun s =>
                     set_waiters (homa_rpc_handoff srpc (ready_rpcs s))
                       (waiting_for_bufs s) (reg_rpcs s) s)
                 else ret tt) ;;
                homa_sock_unlock ;;
                ret (inr srpc, Some 1)
        end
  end.

(* ===================================================================== *)
(** ** homa_rpc_free *)
(* ===================================================================== *)

(** [homa_rpc_free(rpc)]; [None] is the null pointer. The calls to
    [homa_grant_free_rpc] and [homa_remove_from_throttled] act on the grant
    and throttle lists of other files, and [wake_up_process] on a thread;
    none of them is part of [homa_sock]. *)
Definition homa_rpc_free (rpc : option handle) : M unit :=
  match rpc with
  | None => ret tt
  | Some h =>
      r <- deref h ;;
      if decide (state r = RPC_DEAD) then ret tt
      else
        store h (set_state RPC_DEAD r) ;;
        (* Unlink from all lists, so no-one will ever find this RPC again. *)
        homa_sock_lock ;;
        hlist_del h ;;
        modify (fun s => set_active_rpcs (unlink h (active_rpcs s)) s) ;;
        modify (fun s => set_dead_rpcs (dead_rpcs s ++ [h]) s) ;;
        modify (fun s => set_waiters (unlink h (ready_rpcs s))
                           (unlink h (waiting_for_bufs s)) (reg_rpcs s) s) ;;
        match interest r with
        | Some i =>
            modify (fun s => set_waiters (ready_rpcs s) (waiting_for_bufs s)
                               (delete i (reg_rpcs s)) s) ;;
            update h (set_interest None)
        | None => ret tt
        end ;;
        (if 0 <=? mi_length (msgin r) then
           modify (fun s =>
             set_dead_skbs
               (wrap_int (dead_skbs s
                          + Z.of_nat (length (mi_packets (msgin r))))) s) ;;
           update h (fun r' =>
             set_msgin (set_in_packets (mi_packets (msgin r')) []
                          (msgin r')) r')
         else ret tt) ;;
        modify (fun s =>
          set_dead_skbs (wrap_int (dead_skbs s + mo_num_skbs (msgout r))) s) ;;
        modify (fun s =>
          if max_dead_buffs (hsk_homa s) <? dead_skbs s
          then set_homa (set_max_dead_buffs (dead_skbs s)) s
          else s) ;;
        homa_sock_unlock
  end.

(* ===================================================================== *)
(** ** homa_find_client_rpc, homa_find_server_rpc *)
(* ===================================================================== *)

(** [homa_find_client_rpc(hsk, id)]: the RPC is returned with its bucket
    locked; the bucket is unlocked when there is none. *)
Definition homa_find_client_rpc (i : Z) : M (option handle) :=
  let bkt := client_bucket (homa_client_rpc_bucket i) in
  homa_bucket_lock bkt ;;
  l <- gets (fun s => rpcs (get_bucket bkt s)) ;;
  found <- hlist_find (fun r => id r =? i) l ;;
  match found with
  | Some crpc => ret (Some crpc)
  | None => homa_bucket_unlock bkt ;; ret None
  end.

(** [homa_find_server_rpc(hsk, saddr, sport, id)]. *)
Definition homa_find_server_rpc (saddr port i : Z) : M (option handle) :=
  let bkt := server_bucket (homa_server_rpc_bucket i) in
  homa_bucket_lock bkt ;;
  l <- gets (fun s => rpcs (get_bucket bkt s)) ;;
  found <- hlist_find (server_match i port saddr) l ;;
  match found with
  | Some srpc => ret (Some srpc)
  | None => homa_bucket_unlock bkt ;; ret None
  end.

(* ===================================================================== *)
(** ** homa_rpc_reap *)
(* ===================================================================== *)

Definition BATCH_MAX : Z := if UNIT_TEST then 3 else 20.

(** The test under which the scan of the dead list passes over an RPC. *)
Definition cant_reap (r : homa_rpc) : bool :=
  negb (Z.land (flags r) RPC_CANT_REAP =? 0)
  || negb (grants_in_progress r =? 0)
  || negb (mo_active_xmits (msgout r) =? 0).

(** The loop over [rpc->msgout.packets]: each packet moves to [skbs] and
    [num_skbs] of the message goes down by one; the last component tells
    whether the batch is full ([goto release]). *)
Fixpoint collect_tx (batch_size : Z) (pkts : list skb) (n : Z)
    (skbs : list skb) : list skb * Z * list skb * bool :=
  match pkts with
  | [] => ([], n, skbs, false)
  | p :: rest =>
      let skbs' := skbs ++ [p] in
      let n' := wrap_int (n - 1) in
      if batch_size <=? Z.of_nat (length skbs') then (rest, n', skbs', true)
      else collect_tx batch_size rest n' skbs'
  end.

(** What one batch has collected: the arrays [skbs] and [rpcs] (with
    [num_skbs] and [num_rpcs] their lengths) and the counter [rx_frees]. *)
Record batch := {
  batch_skbs : list skb;
  batch_rpcs : list handle;
  rx_frees : Z
}.

Definition num_skbs (b : batch) : Z := Z.of_nat (length (batch_skbs b)).
Definition num_rpcs (b : batch) : Z := Z.of_nat (length (batch_rpcs b)).

(** [list_for_each_entry_rcu(rpc, &hsk->dead_rpcs, dead_links)] of
    [homa_rpc_reap]. [l] is what is left of the dead list as it stood when
    the scan began: [list_del_rcu] keeps the forward pointer of the entry it
    removes, so the scan goes on from it. *)
Fixpoint reap_scan (batch_size : Z) (l : list handle) (b : batch) : M batch :=
  match l with
  | [] => ret b
  | h :: l' =>
      r <- deref h ;;
      if cant_reap r then reap_scan batch_size l' b
      else
        let r1 := set_magic 0 r in
        let '(pkts, n, skbs', full) :=
          if 0 <=? mo_length (msgout r1)
          then collect_tx batch_size (mo_packets (msgout r1))
                 (mo_num_skbs (msgout r1)) (batch_skbs b)
          else (mo_packets (msgout r1), mo_num_skbs (msgout r1),
                batch_skbs b, false) in
        let r2 := set_msgout (set_out_packets pkts n (msgout r1)) r1 in
        if (full : bool) then
          store h r2 ;;
          ret {| batch_skbs := skbs'; batch_rpcs := batch_rpcs b;
                 rx_frees := rx_frees b |}
        else
          let '(r3, rx) :=
            if 0 <=? mi_length (msgin r2)
            then (set_msgin (set_in_packets [] (mi_gaps (msgin r2))
                               (msgin r2)) r2,
                  wrap_int (rx_frees b
                            + Z.of_nat (length (mi_packets (msgin r2)))))
            else (r2, rx_frees b) in
          store h r3 ;;
          modify (fun s => set_dead_rpcs (unlink h (dead_rpcs s)) s) ;;
          let b' := {| batch_skbs := skbs'; batch_rpcs := batch_rpcs b ++ [h];
                       rx_frees := rx |} in
          if batch_size <=? num_rpcs b' then ret b'
          else reap_scan batch_size l' b'
  end.

(** The body of the loop over [rpcs[i]]: the lock and unlock of the RPC,
    the return of its bpages to the pool, and [kfree]. The gaps and the
    assignment [rpc->state = 0] go with the record that is freed. *)
Definition release_rpc (h : handle) : M unit :=
  homa_rpc_lock h ;;
  homa_rpc_unlock h ;;
  r <- deref h ;;
  (if negb (mi_num_bpages (msgin r) =? 0) then
     modify (fun s =>
       set_buffer_pool
         (homa_pool_release_buffers (buffer_pool s)
            (mi_num_bpages (msgin r)) (mi_bpage_offsets (msgin r))) s)
   else ret tt) ;;
  kfree h.

Fixpoint release_rpcs (l : list handle) : M unit :=
  match l with
  | [] => ret tt
  | h :: l' => release_rpc h ;; release_rpcs l'
  end.

(** The [while (count > 0)] loop: [fuel] bounds the number of batches,
    [frees] is [rx_frees], which is not reset between batches, and [result]
    is the local of that name. [homa_skb_free_many_tx] frees the sk_buffs
    collected in [skbs]; the model keeps no record of an sk_buff once it
    has left the list of its RPC. The call of [homa_pool_check_waiting]
    that follows the loop (homa_utils.c:725) is not part of this
    definition, which gives the socket as the loop leaves it;
    [homa_rpc_reap_check_waiting] below has the call. *)
Fixpoint reap_loop (fuel : nat) (count frees result : Z) : M Z :=
  match fuel with
  | O => ret result
  | S fuel' =>
      if 0 <? count then
        let batch_size := Z.min count BATCH_MAX in
        let count' := count - batch_size in
        homa_sock_lock ;;
        pc <- gets protect_count ;;
        if negb (pc =? 0) then
          homa_sock_unlock ;; ret 0
        else
          l <- gets dead_rpcs ;;
          (* Collect buffers and freeable RPCs. *)
          b <- reap_scan batch_size l
                 {| batch_skbs := []; batch_rpcs := []; rx_frees := frees |} ;;
          (* release: *)
          modify (fun s =>
            set_dead_skbs
              (wrap_int (dead_skbs s - (num_skbs b + rx_frees b))) s) ;;
          rest <- gets dead_rpcs ;;
          let result' :=
            if negb (bool_decide (rest = []))
               && negb (num_skbs b + num_rpcs b =? 0)
            then 1 else 0 in
          homa_sock_unlock ;;
          release_rpcs (batch_rpcs b) ;;
          if result' =? 0 then ret result'
          else reap_loop fuel' count' (rx_frees b) result'
      else ret result
  end.

(** [homa_rpc_reap(hsk, count)] up to the call of
    [homa_pool_check_waiting] at its end: the value it returns and the
    socket as its loop leaves it. [uninit] is the value the local [result]
    holds before anything is assigned to it; it is what comes back when
    [count] is not positive. Every batch takes at least one unit of [count],
    so [count] batches are enough. *)
Definition homa_rpc_reap (count uninit : Z) : M Z :=
  reap_loop (Z.to_nat count) count 0 uninit.

End functions.

(* ===================================================================== *)
(** ** Histories of a socket *)
(* ===================================================================== *)

(** What the code of other files may do to a socket between two calls of
    the functions above: it may change fields of the socket and of its RPCs
    (flags, counters, messages, locks, [shutdown], [protect_count]), but it
    does not link or unlink an RPC on the hash buckets, the active list or
    the dead list, does not allocate or free one, does not move one to
    another bucket, assigns [RPC_DEAD] to none and revives none, and leaves
    [next_outgoing_id] alone. *)
Definition other_code (s s' : homa_sock) : Prop :=
  (forall b, rpcs (get_bucket b s') = rpcs (get_bucket b s))
  /\ active_rpcs s' = active_rpcs s
  /\ dead_rpcs s' = dead_rpcs s
  /\ next_handle s' = next_handle s
  /\ next_outgoing_id (hsk_homa s') = next_outgoing_id (hsk_homa s)
  /\ (forall h, heap s' !! h = None <-> heap s !! h = None)
  /\ (forall h r r', heap s !! h = Some r -> heap s' !! h = Some r' ->
        bucket r' = bucket r
        /\ (state r' = RPC_DEAD <-> state r = RPC_DEAD)).

(** One call on a socket, with its arguments and what it returned. *)
Inductive call :=
  | new_client_call (dest_port : Z) (alloc_ok : bool)
      (peer_res : Z + homa_peer) (now : Z) (res : Z + handle)
  | new_server_call (source : Z) (h : data_header) (alloc_ok : bool)
      (peer_res : Z + homa_peer) (now : Z) (res : (Z + handle) * option Z)
  | find_client_call (i : Z) (res : option handle)
  | find_server_call (saddr port i : Z) (res : option handle)
  | unlock_call (h : handle)
  | free_call (rpc : option handle)
  | reap_call (count uninit res : Z)
  | other_call.

(** A quiescent moment is a state between two calls. [step s c s'] says
    that call [c], started in [s], returns and leaves [s']. *)
Inductive step `{homa_impl} : homa_sock -> call -> homa_sock -> Prop :=
  | step_new_client s dp ok pr now res s' :
      homa_rpc_new_client dp ok pr now s = Done res s' ->
      step s (new_client_call dp ok pr now res) s'
  | step_new_server s src h ok pr now res s' :
      homa_rpc_new_server src h ok pr now s = Done res s' ->
      step s (new_server_call src h ok pr now res) s'
  | step_find_client s i res s' :
      homa_find_client_rpc i s = Done res s' ->
      step s (find_client_call i res) s'
  | step_find_server s saddr port i res s' :
      homa_find_server_rpc saddr port i s = Done res s' ->
      step s (find_server_call saddr port i res) s'
  | step_unlock s h s' :
      homa_rpc_unlock h s = Done tt s' ->
      step s (unlock_call h) s'
  | step_free s rpc s' :
      homa_rpc_free rpc s = Done tt s' ->
      step s (free_call rpc) s'
  | step_reap s count uninit res s' :
      homa_rpc_reap count uninit s = Done res s' ->
      step s (reap_call count uninit res) s'
  | step_other s s' :
      other_code s s' ->
      step s other_call s'.

Inductive run `{homa_impl} : homa_sock -> list call -> homa_sock -> Prop :=
  | run_nil s : run s [] s
  | run_cons s c s1 cs s2 :
      step s c s1 -> run s1 cs s2 -> run s (c :: cs) s2.

(** A socket that holds no RPC yet. *)
Definition no_rpcs (s : homa_sock) : Prop :=
  heap s = ∅ /\ active_rpcs s = [] /\ dead_rpcs s = []
  /\ (forall b, rpcs (get_bucket b s) = []).

(** The RPC is on the list of some hash bucket. *)
Definition hash_linked (h : handle) (s : homa_sock) : Prop :=
  exists b, h ∈ rpcs (get_bucket b s).

(** The linkage invariant of a socket. [pending] are RPCs that a reaper
    has taken off the dead list and not yet freed; it is empty between
    calls. *)
Record lists_ok_pending (pending : list handle) (s : homa_sock) : Prop := {
  ok_rpc : forall h r, heap s !! h = Some r ->
    (h ∈ rpcs (get_bucket (bucket r) s) <-> h ∈ active_rpcs s)
    /\ (h ∈ active_rpcs s <-> state r <> RPC_DEAD);
  ok_bucket : forall b h, h ∈ rpcs (get_bucket b s) ->
    exists r, heap s !! h = Some r /\ bucket r = b;
  ok_active : forall h, h ∈ active_rpcs s -> is_Some (heap s !! h);
  ok_dead : forall h, (h ∈ dead_rpcs s \/ h ∈ pending) <->
    exists r, heap s !! h = Some r /\ state r = RPC_DEAD;
  ok_nodup : NoDup (dead_rpcs s ++ pending);
  ok_fresh : forall h, is_Some (heap s !! h) -> (h < next_handle s)%nat
}.

Definition lists_ok (s : homa_sock) : Prop := lists_ok_pending [] s.

(** An RPC that the reaper passes over, and one it may reap. *)
Definition blocked `{homa_impl} (s : homa_sock) (h : handle) : Prop :=
  exists r, heap s !! h = Some r /\ cant_reap r = true.

Definition reapable `{homa_impl} (s : homa_sock) (h : handle) : Prop :=
  exists r, heap s !! h = Some r /\ cant_reap r = false.

(** What a failed creation leaves of the socket: no list, no record and no
    lock differs. *)
Definition unpublished (s s' : homa_sock) : Prop :=
  heap s' = heap s
  /\ (forall b, get_bucket b s' = get_bucket b s)
  /\ active_rpcs s' = active_rpcs s
  /\ dead_rpcs s' = dead_rpcs s
  /\ sock_locked s' = sock_locked s.

(* ===================================================================== *)
(** ** What the calls are specified against *)
(* ===================================================================== *)

(** Partial correctness of a call: whenever it returns, [Q] holds of the
    value and of the socket it leaves. *)
Definition wp {A} (m : M A) (Q : A -> homa_sock -> Prop) (s : homa_sock)
  : Prop :=
  match m s with
  | Done a s' => Q a s'
  | Stuck _ => True
  end.

(** The counter that client ids are drawn from. *)
Definition counter (s : homa_sock) : Z := next_outgoing_id (hsk_homa s).

(** The hash buckets, the active list and the dead list are the same in
    both sockets. *)
Definition same_lists (s s' : homa_sock) : Prop :=
  (forall b, rpcs (get_bucket b s') = rpcs (get_bucket b s))
  /\ active_rpcs s' = active_rpcs s /\ dead_rpcs s' = dead_rpcs s.

(** A call that neither links nor unlinks, allocates nor frees. *)
Definition quiet (s s' : homa_sock) : Prop :=
  same_lists s s' /\ heap s' = heap s /\ next_handle s' = next_handle s
  /\ counter s' = counter s.

(** What a reaper may do to a socket. *)
Definition reaps `{homa_impl} (s s' : homa_sock) : Prop :=
  (forall b, rpcs (get_bucket b s') = rpcs (get_bucket b s))
  /\ active_rpcs s' = active_rpcs s
  /\ next_handle s' = next_handle s
  /\ hsk_homa s' = hsk_homa s
  /\ protect_count s' = protect_count s
  /\ (forall h, h ∈ dead_rpcs s' -> h ∈ dead_rpcs s)
  /\ (forall h r', heap s' !! h = Some r' ->
        exists r, heap s !! h = Some r /\ bucket r' = bucket r
                  /\ state r' = state r /\ cant_reap r' = cant_reap r)
  /\ (forall h r, heap s !! h = Some r -> cant_reap r = true ->
        heap s' !! h = Some r /\ (h ∈ dead_rpcs s -> h ∈ dead_rpcs s')).

(** The RPCs a batch has collected are not exempt from reaping. *)
Definition pending_reapable `{homa_impl} (l : list handle) (s : homa_sock) : Prop :=
  forall h r, h ∈ l -> heap s !! h = Some r -> cant_reap r = false.

(** An RPC that has been freed: it is dead as long as its record exists,
    and its address is never handed out again. *)
Definition gone (h : handle) (s : homa_sock) : Prop :=
  (forall r, heap s !! h = Some r -> state r = RPC_DEAD)
  /\ (h < next_handle s)%nat.

(** What the result of [homa_rpc_reap] says about the socket it leaves. *)
Definition result_ok `{homa_impl} (res : Z) (s : homa_sock) : Prop :=
  (res = 0 \/ res = 1)
  /\ (res = 1 -> dead_rpcs s <> [])
  /\ (protect_count s = 0 -> res = 0 ->
      forall h, h ∈ dead_rpcs s -> ~ reapable s h).

(* ===================================================================== *)
(** ** Concrete sockets *)
(* ===================================================================== *)

(** One choice of what [homa_impl.h] and the other files supply, for
    running the functions on concrete sockets. *)
Definition example_impl : homa_impl :=
  {| homa_client_rpc_bucket := fun i => Z.to_nat (Z.land (Z.shiftr i 1) 1023);
     homa_server_rpc_bucket := fun i => Z.to_nat (Z.land (Z.shiftr i 1) 1023);
     homa_local_id := fun i => Z.lxor i 1;
     RPC_PKTS_READY := 1;
     RPC_CANT_REAP := 2;
     HOMA_RPC_MAGIC := 3735928559;
     UNIT_TEST := false;
     homa_message_in_init := fun m len _ pool =>
       (0, {| mi_length := len; mi_packets := []; mi_gaps := [];
              mi_num_bpages := 0; mi_bpage_offsets := [] |}, pool);
     homa_rpc_handoff := fun h l => l ++ [h] |}.

(** A socket as [homa_sock_init] leaves it, on a [struct homa] fresh from
    [homa_init]. *)
Definition new_sock : homa_sock :=
  {| hsk_homa := homa_init; sock_locked := false; shutdown := false;
     protect_count := 0; dead_skbs := 0; client_rpc_buckets := ∅;
     server_rpc_buckets := ∅; active_rpcs := []; dead_rpcs := [];
     ready_rpcs := []; waiting_for_bufs := []; reg_rpcs := ∅;
     buffer_pool := no_pool; heap := ∅; next_handle := 0%nat |}.

(** The socket that a call leaves, [s] itself if the call does not return. *)
Definition after {A} (m : M A) (s : homa_sock) : homa_sock :=
  match m s with Done _ s' => s' | Stuck _ => s end.

Definition example_peer : homa_peer := {| addr := 1 |}.

Definition client_call : M (Z + handle) :=
  @homa_rpc_new_client example_impl 99 true (inr example_peer) 0.

(** One client RPC, then a second one. *)
Definition sock_one : homa_sock := after client_call new_sock.
Definition sock_two : homa_sock := after client_call sock_one.

(** [hsk->shutdown = true], which [homa_sock_shutdown] of another file
    performs. *)
Definition set_shutdown (b : bool) (s : homa_sock) : homa_sock :=
  {| hsk_homa := hsk_homa s; sock_locked := sock_locked s; shutdown := b;
     protect_count := protect_count s; dead_skbs := dead_skbs s;
     client_rpc_buckets := client_rpc_buckets s;
     server_rpc_buckets := server_rpc_buckets s;
     active_rpcs := active_rpcs s; dead_rpcs := dead_rpcs s;
     ready_rpcs := ready_rpcs s; waiting_for_bufs := waiting_for_bufs s;
     reg_rpcs := reg_rpcs s; buffer_pool := buffer_pool s; heap := heap s;
     next_handle := next_handle s |}.

(** The socket with one client RPC, shut down. *)
Definition sock_down : homa_sock := set_shutdown true sock_one.

Definition example_header : data_header :=
  {| sender_id := 7; sport := 40000; message_length := 1000;
     incoming := 1000; seg_offset := 0 |}.

(** Another file sets [RPC_CANT_REAP] on the RPC at [h]. *)
Definition hold (h : handle) (s : homa_sock) : homa_sock :=
  match heap s !! h with
  | Some r =>
      set_heap (<[h := set_flags (Z.lor (flags r) (@RPC_CANT_REAP example_impl))
                         r]> (heap s)) (next_handle s) s
  | None => s
  end.

(** Both client RPCs freed and unlocked by their callers, one after the
    other. *)
Definition sock_free0 : homa_sock :=
  after (homa_rpc_unlock 0%nat) (after (homa_rpc_free (Some 0%nat)) sock_two).
Definition sock_freed : homa_sock :=
  after (homa_rpc_unlock 1%nat) (after (homa_rpc_free (Some 1%nat)) sock_free0).

(** The second one is held back from the reaper. *)
Definition sock_dead : homa_sock := hold 1%nat sock_freed.

(** The calls that lead from [new_sock] to [sock_dead]. *)
Definition dead_history : list call :=
  [new_client_call 99 true (inr example_peer) 0 (inr 0%nat);
   new_client_call 99 true (inr example_peer) 0 (inr 1%nat);
   free_call (Some 0%nat); unlock_call 0%nat;
   free_call (Some 1%nat); unlock_call 1%nat; other_call].

(* ===================================================================== *)
(** ** homa_rpc_acked *)
(* ===================================================================== *)

Section acked_code.
Context `{homa_impl}.

(** [homa_rpc_acked(hsk, saddr, ack)], as it acts on [hsk2], the socket
    that owns the server port of the ack: [hsk] itself, or the socket that
    [homa_sock_find] returns. [found] is false when there is no such
    socket. [client_id] and [client_port] are the fields of the ack in host
    byte order. *)
Definition homa_rpc_acked (found : bool) (saddr client_id client_port : Z)
  : M unit :=
  let id := homa_local_id client_id in
  if negb found then ret tt
  else
    rpc <- homa_find_server_rpc saddr client_port id ;;
    match rpc with
    | Some h => homa_rpc_free (Some h) ;; homa_rpc_unlock h
    | None => ret tt
    end.

End acked_code.

(* ===================================================================== *)
(** ** homa_rpc_reap with its call of homa_pool_check_waiting *)
(* ===================================================================== *)

(** The two ways out of the [while] loop of [homa_rpc_reap]: the [return 0]
    inside the loop, taken when [protect_count] is not zero, and the end of
    the loop ([count] used up, or [break]) with the local [result]. *)
Inductive loop_exit := Returned (v : Z) | Ended (result : Z).

Definition exit_value (x : loop_exit) : Z :=
  match x with Returned v => v | Ended result => result end.

Section reap_check.
Context `{homa_impl}.

(** The [while (count > 0)] loop of [homa_rpc_reap], as [reap_loop] has
    it, with the way the loop was left. *)
Fixpoint reap_batches (fuel : nat) (count frees result : Z) : M loop_exit :=
  match fuel with
  | O => ret (Ended result)
  | S fuel' =>
      if 0 <? count then
        let batch_size := Z.min count BATCH_MAX in
        let count' := count - batch_size in
        homa_sock_lock ;;
        pc <- gets protect_count ;;
        if negb (pc =? 0) then
          homa_sock_unlock ;; ret (Returned 0)
        else
          l <- gets dead_rpcs ;;
          b <- reap_scan batch_size l
                 {| batch_skbs := []; batch_rpcs := []; rx_frees := frees |} ;;
          modify (fun s =>
            set_dead_skbs
              (wrap_int (dead_skbs s - (num_skbs b + rx_frees b))) s) ;;
          rest <- gets dead_rpcs ;;
          let result' :=
            if negb (bool_decide (rest = []))
               && negb (num_skbs b + num_rpcs b =? 0)
            then 1 else 0 in
          homa_sock_unlock ;;
          release_rpcs (batch_rpcs b) ;;
          if result' =? 0 then ret (Ended result')
          else reap_batches fuel' count' (rx_frees b) result'
      else ret (Ended result)
  end.

(** [homa_pool_check_waiting(&hsk->buffer_pool)] is a function of
    homa_pool.c; what it does to the socket is not known here. *)
Variable homa_pool_check_waiting : M unit.

(** The whole of [homa_rpc_reap(hsk, count)]: the loop, and after it the
    call of [homa_pool_check_waiting] (homa_utils.c:725), which the
    [return 0] inside the loop skips and which is made even when [count] is
    not positive. *)
Definition homa_rpc_reap_check_waiting (count uninit : Z) : M Z :=
  x <- reap_batches (Z.to_nat count) count 0 uninit ;;
  match x with
  | Returned v => ret v
  | Ended result => homa_pool_check_waiting ;; ret result
  end.

End reap_check.

(* ===================================================================== *)
(** ** Calls that return, and what they leave alone *)
(* ===================================================================== *)

(** Total correctness of a call: it returns, and [Q] holds of the value and
    of the socket it leaves. *)
Definition twp {A} (m : M A) (Q : A -> homa_sock -> Prop) (s : homa_sock)
  : Prop :=
  match m s with
  | Done a s' => Q a s'
  | Stuck _ => False
  end.

(** What [hlist_find] returns: the first entry that passes the test. *)
Definition first_match (p : homa_rpc -> bool) (l : list handle)
    (s : homa_sock) (res : option handle) : Prop :=
  match res with
  | Some h => exists l1 l2 r,
      l = l1 ++ h :: l2 /\ heap s !! h = Some r /\ p r = true
      /\ forall h', h' ∈ l1 ->
           exists r', heap s !! h' = Some r' /\ p r' = false
  | None => forall h, h ∈ l ->
      exists r, heap s !! h = Some r /\ p r = false
  end.

(** [s'] is [s] but for the lock of bucket [b], which is [v]. *)
Definition relocked (b : bucket_ref) (v : bool) (s s' : homa_sock) : Prop :=
  get_bucket b s' = {| lock := v; rpcs := rpcs (get_bucket b s) |}
  /\ (forall b', b' <> b -> get_bucket b' s' = get_bucket b' s)
  /\ heap s' = heap s /\ next_handle s' = next_handle s
  /\ hsk_homa s' = hsk_homa s /\ sock_locked s' = sock_locked s
  /\ shutdown s' = shutdown s /\ protect_count s' = protect_count s
  /\ dead_skbs s' = dead_skbs s /\ active_rpcs s' = active_rpcs s
  /\ dead_rpcs s' = dead_rpcs s /\ ready_rpcs s' = ready_rpcs s
  /\ waiting_for_bufs s' = waiting_for_bufs s /\ reg_rpcs s' = reg_rpcs s
  /\ buffer_pool s' = buffer_pool s.

(** The packets that [homa_rpc_free] counts into [dead_skbs]: those still
    queued on an incoming message that has a length, and [num_skbs] of the
    outgoing one. *)
Definition dead_count (r : homa_rpc) : Z :=
  (if 0 <=? mi_length (msgin r)
   then Z.of_nat (length (mi_packets (msgin r))) else 0)
  + mo_num_skbs (msgout r).

(** The message [homa_rpc_new_server] starts from. *)
Definition no_msgin : homa_message_in :=
  {| mi_length := -1; mi_packets := []; mi_gaps := []; mi_num_bpages := 0;
     mi_bpage_offsets := [] |}.

(** The packets a reaper has to take from an RPC: those of the outgoing
    message if it has a length, and those still queued on the incoming
    message if it has one. *)
Definition tx_count (r : homa_rpc) : nat :=
  if 0 <=? mo_length (msgout r) then length (mo_packets (msgout r)) else 0%nat.

Definition rx_count (r : homa_rpc) : nat :=
  if 0 <=? mi_length (msgin r) then length (mi_packets (msgin r)) else 0%nat.

(** The sum of [f] over the RPCs of [l] as they are in [s]. *)
Definition pending (f : homa_rpc -> nat) (s : homa_sock) (l : list handle)
  : nat :=
  sum_list_with (fun h => from_option f 0%nat (heap s !! h)) l.

(** What a reaper's scan leaves alone. *)
Definition scan_frame (s s' : homa_sock) : Prop :=
  (forall b, get_bucket b s' = get_bucket b s)
  /\ sock_locked s' = sock_locked s /\ dead_skbs s' = dead_skbs s
  /\ protect_count s' = protect_count s /\ hsk_homa s' = hsk_homa s
  /\ active_rpcs s' = active_rpcs s /\ next_handle s' = next_handle s.

(** A scan that takes every RPC of [l] with all its packets. *)
Definition scanned_all (l : list handle) (b : batch) (s : homa_sock)
    (b' : batch) (s' : homa_sock) : Prop :=
  batch_rpcs b' = batch_rpcs b ++ l
  /\ length (batch_skbs b')
     = (length (batch_skbs b) + pending tx_count s l)%nat
  /\ wrap_int (rx_frees b')
     = wrap_int (rx_frees b + Z.of_nat (pending rx_count s l))
  /\ (forall x, x ∈ dead_rpcs s' <-> x ∈ dead_rpcs s /\ x ∉ l)
  /\ (forall x, x ∉ l -> heap s' !! x = heap s !! x)
  /\ (forall x, x ∈ l -> exists r r',
        heap s !! x = Some r /\ heap s' !! x = Some r'
        /\ bucket r' = bucket r)
  /\ scan_frame s s'.

(** What the release of the collected RPCs leaves alone. *)
Definition release_frame (s s' : homa_sock) : Prop :=
  (forall b, get_bucket b s' = get_bucket b s)
  /\ sock_locked s' = sock_locked s /\ dead_skbs s' = dead_skbs s
  /\ protect_count s' = protect_count s /\ hsk_homa s' = hsk_homa s
  /\ active_rpcs s' = active_rpcs s /\ next_handle s' = next_handle s
  /\ dead_rpcs s' = dead_rpcs s.

(** What the reaper leaves alone, whatever it reaps: the RPCs that were not
    on the dead list, the buckets with their locks and the active list;
    and the dead list gets no new entry. *)
Definition live_kept (s s' : homa_sock) : Prop :=
  (forall h, h ∉ dead_rpcs s -> heap s' !! h = heap s !! h)
  /\ (forall h, h ∈ dead_rpcs s' -> h ∈ dead_rpcs s)
  /\ (forall b, get_bucket b s' = get_bucket b s)
  /\ active_rpcs s' = active_rpcs s
  /\ next_handle s' = next_handle s.

(* ===================================================================== *)
(** ** homa_prios_changed *)
(* ===================================================================== *)

(** [INT_MAX] of a 32-bit [int]. *)
Definition INT_MAX : Z := 2 ^ 31 - 1.

(** What [homa_prios_changed] takes from [homa.h]: the number of priority
    levels and the longest message. [homa_init] asserts statically that
    there are at least 8 levels. *)
Class homa_limits := {
  HOMA_MAX_PRIORITIES : Z;
  HOMA_MAX_MESSAGE_LENGTH : Z;
  priorities_at_least_8 : 8 <= HOMA_MAX_PRIORITIES
}.

(** The fields of [struct homa] that [homa_prios_changed] reads or writes,
    all of type [int]; [unsched_cutoffs] is an array of
    [HOMA_MAX_PRIORITIES] of them. *)
Record homa_prios := {
  num_priorities : Z;
  unsched_cutoffs : list Z;
  max_sched_prio : Z;
  cutoff_version : Z
}.

Definition set_num_priorities (v : Z) (p : homa_prios) : homa_prios :=
  {| num_priorities := v; unsched_cutoffs := unsched_cutoffs p;
     max_sched_prio := max_sched_prio p; cutoff_version := cutoff_version p |}.

Definition set_max_sched_prio (v : Z) (p : homa_prios) : homa_prios :=
  {| num_priorities := num_priorities p; unsched_cutoffs := unsched_cutoffs p;
     max_sched_prio := v; cutoff_version := cutoff_version p |}.

Definition set_cutoff_version (v : Z) (p : homa_prios) : homa_prios :=
  {| num_priorities := num_priorities p; unsched_cutoffs := unsched_cutoffs p;
     max_sched_prio := max_sched_prio p; cutoff_version := v |}.

(** [homa->unsched_cutoffs[i] = v]; [None] when [i] is outside the array. *)
Definition set_cutoff (i : nat) (v : Z) (p : homa_prios) : option homa_prios :=
  if decide (i < length (unsched_cutoffs p))%nat
  then Some {| num_priorities := num_priorities p;
               unsched_cutoffs := <[i := v]> (unsched_cutoffs p);
               max_sched_prio := max_sched_prio p;
               cutoff_version := cutoff_version p |}
  else None.

Section prios.
Context `{homa_limits}.

(** The loop [for (i = HOMA_MAX_PRIORITIES-1; ; i--)] of
    [homa_prios_changed], from index [i] on. The loop has no lower bound of
    its own: when it passes index 0 without a [break] the next access is to
    [unsched_cutoffs[-1]], which is [None] here. *)
Fixpoint prios_loop (i : nat) (p : homa_prios) : option homa_prios :=
  if num_priorities p <=? Z.of_nat i then
    match set_cutoff i 0 p with
    | None => None
    | Some p' =>
        match i with
        | O => None
        | S i' => prios_loop i' p'
        end
    end
  else
    match i with
    | O =>
        match set_cutoff 0 INT_MAX p with
        | None => None
        | Some p' => Some (set_max_sched_prio 0 p')
        end
    | S i' =>
        match unsched_cutoffs p !! i with
        | None => None
        | Some c =>
            if HOMA_MAX_MESSAGE_LENGTH <=? c
            then Some (set_max_sched_prio (Z.of_nat i - 1) p)
            else prios_loop i' p
        end
    end.

(** [homa_prios_changed(homa)]; [None] when the function reads or writes
    outside [unsched_cutoffs]. *)
Definition homa_prios_changed (p : homa_prios) : option homa_prios :=
  let p1 := if HOMA_MAX_PRIORITIES <? num_priorities p
            then set_num_priorities HOMA_MAX_PRIORITIES p else p in
  match set_cutoff 0 INT_MAX p1 with
  | None => None
  | Some p2 =>
      match prios_loop (Z.to_nat (HOMA_MAX_PRIORITIES - 1)) p2 with
      | None => None
      | Some p3 =>
          Some (set_cutoff_version (wrap_int (cutoff_version p3 + 1)) p3)
      end
  end.

(** The priority fields as [homa_init] sets them. [mem] is what the array
    [unsched_cutoffs] held before: [homa_init] writes only its four highest
    entries. [cutoff_version] starts at 0 in the unit tests and at 1
    otherwise. *)
Definition homa_init_priorities (unit_test : bool) (mem : list Z)
    : option homa_prios :=
  let top := Z.to_nat (HOMA_MAX_PRIORITIES - 1) in
  p1 ← set_cutoff top 200
          {| num_priorities := HOMA_MAX_PRIORITIES;
             unsched_cutoffs := mem;
             max_sched_prio := HOMA_MAX_PRIORITIES - 5;
             cutoff_version := if unit_test then 0 else 1 |};
  p2 ← set_cutoff (top - 1) 2800 p1;
  p3 ← set_cutoff (top - 2) 15000 p2;
  set_cutoff (top - 3) HOMA_MAX_MESSAGE_LENGTH p3.
End prios.

(** What the priorities are once [homa_prios_changed] is through with them:
    level 0 takes every message, the levels from [num_priorities] up take
    none, and [max_sched_prio] is the level below the lowest unscheduled
    one. *)
Definition settled `{homa_limits} (p : homa_prios) : Prop :=
  num_priorities p <= HOMA_MAX_PRIORITIES /\
  unsched_cutoffs p !! 0%nat = Some INT_MAX /\
  (forall j : nat, num_priorities p <= Z.of_nat j < HOMA_MAX_PRIORITIES ->
     unsched_cutoffs p !! j = Some 0) /\
  0 <= max_sched_prio p /\
  (forall (k : nat) c, max_sched_prio p + 1 < Z.of_nat k < num_priorities p ->
     unsched_cutoffs p !! k = Some c -> c < HOMA_MAX_MESSAGE_LENGTH) /\
  (0 < max_sched_prio p ->
     max_sched_prio p + 1 < num_priorities p /\
     exists c, unsched_cutoffs p !! Z.to_nat (max_sched_prio p + 1) = Some c /\
       HOMA_MAX_MESSAGE_LENGTH <= c).

(* ===================================================================== *)
(** ** homa_snprintf *)
(* ===================================================================== *)

(** A character buffer is modelled by the C string it holds: the characters
    before the first NUL.

    [vsnprintf(buffer + used, n, format, ap)], where [text] is what the
    format and its arguments expand to: at most [n - 1] characters of the
    text are stored from position [used] on, then a NUL; the result is
    the length of the whole text, as an [int]. The kernel's [vsnprintf]
    stores nothing and returns 0 when [n], taken as a [size_t], is above
    [INT_MAX]. When [used] is beyond the string's end the NUL that ends the
    string stays where it is. *)
Definition vsnprintf (buffer : list ascii) (used n : Z) (text : list ascii)
    : list ascii * Z :=
  if n <=? 0 then (buffer, 0)
  else
    (if used <=? Z.of_nat (length buffer)
     then take (Z.to_nat used) buffer ++ take (Z.to_nat (n - 1)) text
     else buffer,
     wrap_int (Z.of_nat (length text))).

(** [homa_snprintf(buffer, size, used, format, ...)]: the buffer afterwards
    and the result. *)
Definition homa_snprintf (buffer : list ascii) (size used : Z)
    (text : list ascii) : list ascii * Z :=
  if wrap_int (size - 1) <=? used then (buffer, used)
  else
    let '(buffer', new_chars) :=
      vsnprintf buffer used (wrap_int (size - used)) text in
    if new_chars <? 0 then (buffer', used)
    else if wrap_int (size - used) <=? new_chars
         then (buffer', wrap_int (size - 1))
         else (buffer', wrap_int (used + new_chars)).

(** A series of calls [used = homa_snprintf(buffer, size, used, ...)], as in
    [homa_print_packet]. *)
Definition snprintf_series (size : Z) (texts : list (list ascii))
    (start : list ascii * Z) : list ascii * Z :=
  foldl (fun st text => homa_snprintf st.1 size st.2 text) start texts.

(* ===================================================================== *)
(** ** homa_print_ipv4_addr *)
(* ===================================================================== *)

Definition NUM_BUFS_IPV4 : Z := 4.
Definition BUF_SIZE_IPV4 : Z := 30.

(** The static variables of [homa_print_ipv4_addr]: the strings in
    [buffers] and [next_buf]. *)
Record ipv4_static := {
  buffers : list (list ascii);
  next_buf : Z
}.

(** What [%u] prints. *)
Definition decimal (x : Z) : list ascii := String.list_ascii_of_string (pretty x).

(** What ["%u.%u.%u.%u"] expands to for the four bytes of [a2]. *)
Definition dotted_quad (a2 : Z) : list ascii :=
  decimal (Z.land (Z.shiftr a2 24) 255) ++ ["."%char] ++
  decimal (Z.land (Z.shiftr a2 16) 255) ++ ["."%char] ++
  decimal (Z.land (Z.shiftr a2 8) 255) ++ ["."%char] ++
  decimal (Z.land a2 255).

(** [homa_print_ipv4_addr(addr)], with [a2 = ntohl(addr)]: the index of the
    buffer that is returned, and the static variables afterwards. [None]
    when [next_buf] is not an index of [buffers]. *)
Definition homa_print_ipv4_addr (a2 : Z) (st : ipv4_static)
    : option (nat * ipv4_static) :=
  if decide (0 <= next_buf st < Z.of_nat (length (buffers st))) then
    let buffer := Z.to_nat (next_buf st) in
    let next := wrap_int (next_buf st + 1) in
    Some (buffer,
          {| buffers := <[buffer := take (Z.to_nat (BUF_SIZE_IPV4 - 1))
                                      (dotted_quad a2)]> (buffers st);
             next_buf := if NUM_BUFS_IPV4 <=? next then 0 else next |})
  else None.

(** Successive calls; the buffers they return, first call first. *)
Fixpoint print_ipv4_addrs (addrs : list Z) (st : ipv4_static)
    : option (list nat * ipv4_static) :=
  match addrs with
  | [] => Some ([], st)
  | a2 :: rest =>
      match homa_print_ipv4_addr a2 st with
      | None => None
      | Some (buffer, st') =>
          match print_ipv4_addrs rest st' with
          | None => None
          | Some (used, st'') => Some (buffer :: used, st'')
          end
      end
  end.

(** [next_buf] is an index of the [NUM_BUFS_IPV4] buffers, as it is at
    start-up (0) and after every call. *)
Definition ipv4_static_ok (st : ipv4_static) : Prop :=
  length (buffers st) = Z.to_nat NUM_BUFS_IPV4 /\
  0 <= next_buf st < NUM_BUFS_IPV4.

(* ===================================================================== *)
(** ** More concrete inputs *)
(* ===================================================================== *)

(** The socket with one client RPC, unlocked by its creator. *)
Definition sock_idle : homa_sock := after (homa_rpc_unlock 0%nat) sock_one.

Definition server_call : M ((Z + handle) * option Z) :=
  @homa_rpc_new_server example_impl 1 example_header true
    (inr example_peer) 0.

(** A socket with one server RPC, unlocked by its creator. *)
Definition sock_served : homa_sock :=
  after (homa_rpc_unlock 0%nat) (after server_call new_sock).

(** Other files give the RPC at [h] its two messages. *)
Definition with_messages (h : handle) (mi : homa_message_in)
    (mo : homa_message_out) (s : homa_sock) : homa_sock :=
  match heap s !! h with
  | Some r =>
      set_heap (<[h := set_msgout mo (set_msgin mi r)]> (heap s))
        (next_handle s) s
  | None => s
  end.

(** Two dead RPCs: the first with three incoming packets still queued, the
    second with twenty outgoing packets; [dead_skbs] counts the 23. *)
Definition sock_packets : homa_sock :=
  set_dead_skbs 23
    (with_messages 1%nat
       {| mi_length := -1; mi_packets := []; mi_gaps := [];
          mi_num_bpages := 0; mi_bpage_offsets := [] |}
       {| mo_length := 28000; mo_packets := seq 100 20; mo_num_skbs := 20;
          mo_active_xmits := 0 |}
       (with_messages 0%nat
          {| mi_length := 4000; mi_packets := [7; 8; 9]%nat; mi_gaps := [];
             mi_num_bpages := 0; mi_bpage_offsets := [] |}
          {| mo_length := -1; mo_packets := []; mo_num_skbs := 0;
             mo_active_xmits := 0 |}
          sock_freed)).

(** The limits of [homa.h]. *)
Definition example_limits : homa_limits :=
  {| HOMA_MAX_PRIORITIES := 8; HOMA_MAX_MESSAGE_LENGTH := 1000000;
     priorities_at_least_8 := Z.le_refl 8 |}.

(** Six priority levels in use, the two highest of them for unscheduled
    packets. *)
Definition example_prios : homa_prios :=
  {| num_priorities := 6;
     unsched_cutoffs := [77; 0; 0; 0; 1000000; 1400; 200; 100];
     max_sched_prio := 7; cutoff_version := 4 |}.

(** No priority level at all. *)
Definition no_prios : homa_prios :=
  {| num_priorities := 0;
     unsched_cutoffs := [0; 0; 0; 0; 0; 0; 0; 0];
     max_sched_prio := 0; cutoff_version := 4 |}.

Definition example_static : ipv4_static :=
  {| buffers := [[]; []; []; []]; next_buf := 2 |}.

(** A [homa_pool_check_waiting] that finds buffers for every RPC that was
    waiting for them: [waiting_for_bufs] becomes empty. *)
Definition example_check_waiting : M unit :=
  modify (fun s => set_waiters (ready_rpcs s) [] (reg_rpcs s) s).

(* ===================================================================== *)
(** ** Reasoning about calls *)
(* ===================================================================== *)

Global Arguments put_bucket : simpl never.
Global Arguments get_bucket : simpl never.

Lemma bucket_unlocked_eta bk :
  lock bk = false -> {| lock := false; rpcs := rpcs bk |} = bk.
Proof. destruct bk; simpl; by intros ->. Qed.

Lemma bind_Done {A B} (m : M A) (k : A -> M B) s b s' :
  bind m k s = Done b s' <-> exists a s1, m s = Done a s1 /\ k a s1 = Done b s'.
Proof.
  unfold bind. split.
  - destruct (m s) as [a s1|f]; [eauto | discriminate].
  - intros (a & s1 & -> & Hk). exact Hk.
Qed.

Lemma get_bucket_put_eq b bk s : get_bucket b (put_bucket b bk s) = bk.
Proof.
  unfold get_bucket, put_bucket.
  destruct b; simpl; by rewrite lookup_insert_eq.
Qed.

Lemma get_bucket_put_ne b' b bk s :
  b' <> b -> get_bucket b' (put_bucket b bk s) = get_bucket b' s.
Proof.
  unfold get_bucket, put_bucket. intros Hne.
  destruct b as [i|i], b' as [j|j]; simpl; try done;
    rewrite lookup_insert_ne; congruence.
Qed.

Lemma get_bucket_unlink b h s0 s :
  get_bucket b (set_buckets (unlink_bucket h <$> client_rpc_buckets s0)
                  (unlink_bucket h <$> server_rpc_buckets s0) s)
  = unlink_bucket h (get_bucket b s0).
Proof.
  unfold get_bucket. destruct b as [i|i]; simpl; rewrite lookup_fmap;
    destruct (_ !! i); done.
Qed.



Lemma get_bucket_set_homa b f s : get_bucket b (set_homa f s) = get_bucket b s.
Proof. by destruct b. Qed.
Lemma get_bucket_set_sock_locked b x s :
  get_bucket b (set_sock_locked x s) = get_bucket b s.
Proof. by destruct b. Qed.
Lemma get_bucket_set_dead_skbs b x s :
  get_bucket b (set_dead_skbs x s) = get_bucket b s.
Proof. by destruct b. Qed.
Lemma get_bucket_set_active_rpcs b x s :
  get_bucket b (set_active_rpcs x s) = get_bucket b s.
Proof. by destruct b. Qed.
Lemma get_bucket_set_dead_rpcs b x s :
  get_bucket b (set_dead_rpcs x s) = get_bucket b s.
Proof. by destruct b. Qed.
Lemma get_bucket_set_waiters b x y z s :
  get_bucket b (set_waiters x y z s) = get_bucket b s.
Proof. by destruct b. Qed.
Lemma get_bucket_set_buffer_pool b x s :
  get_bucket b (set_buffer_pool x s) = get_bucket b s.
Proof. by destruct b. Qed.
Lemma get_bucket_set_heap b x y s :
  get_bucket b (set_heap x y s) = get_bucket b s.
Proof. by destruct b. Qed.

Create Rewrite HintDb sock.
#[export] Hint Rewrite get_bucket_put_eq get_bucket_unlink get_bucket_set_homa
  get_bucket_set_sock_locked get_bucket_set_dead_skbs
  get_bucket_set_active_rpcs get_bucket_set_dead_rpcs get_bucket_set_waiters
  get_bucket_set_buffer_pool get_bucket_set_heap : sock.

(* fields of put_bucket *)
Lemma heap_put_bucket b bk s : heap (put_bucket b bk s) = heap s.
Proof. by destruct b. Qed.
Lemma next_handle_put_bucket b bk s : next_handle (put_bucket b bk s) = next_handle s.
Proof. by destruct b. Qed.
Lemma active_put_bucket b bk s : active_rpcs (put_bucket b bk s) = active_rpcs s.
Proof. by destruct b. Qed.
Lemma dead_put_bucket b bk s : dead_rpcs (put_bucket b bk s) = dead_rpcs s.
Proof. by destruct b. Qed.
Lemma sock_locked_put_bucket b bk s : sock_locked (put_bucket b bk s) = sock_locked s.
Proof. by destruct b. Qed.
Lemma shutdown_put_bucket b bk s : shutdown (put_bucket b bk s) = shutdown s.
Proof. by destruct b. Qed.
Lemma protect_count_put_bucket b bk s : protect_count (put_bucket b bk s) = protect_count s.
Proof. by destruct b. Qed.
Lemma hsk_homa_put_bucket b bk s : hsk_homa (put_bucket b bk s) = hsk_homa s.
Proof. by destruct b. Qed.
Lemma buffer_pool_put_bucket b bk s : buffer_pool (put_bucket b bk s) = buffer_pool s.
Proof. by destruct b. Qed.
Lemma ready_put_bucket b bk s : ready_rpcs (put_bucket b bk s) = ready_rpcs s.
Proof. by destruct b. Qed.
Lemma waiting_put_bucket b bk s : waiting_for_bufs (put_bucket b bk s) = waiting_for_bufs s.
Proof. by destruct b. Qed.
Lemma reg_put_bucket b bk s : reg_rpcs (put_bucket b bk s) = reg_rpcs s.
Proof. by destruct b. Qed.
Lemma dead_skbs_put_bucket b bk s : dead_skbs (put_bucket b bk s) = dead_skbs s.
Proof. by destruct b. Qed.
#[export] Hint Rewrite heap_put_bucket next_handle_put_bucket active_put_bucket
  dead_put_bucket sock_locked_put_bucket shutdown_put_bucket
  protect_count_put_bucket hsk_homa_put_bucket buffer_pool_put_bucket
  ready_put_bucket waiting_put_bucket reg_put_bucket dead_skbs_put_bucket : sock.

Ltac sock_simpl := repeat (progress (simpl in *; autorewrite with sock in * ));
  try done.




Lemma wp_Done {A} (m : M A) Q s a s' :
  wp m Q s -> m s = Done a s' -> Q a s'.
Proof. unfold wp. intros Hwp E. by rewrite E in Hwp. Qed.

Lemma wp_intro {A} (m : M A) (Q : A -> homa_sock -> Prop) s :
  (forall a s', m s = Done a s' -> Q a s') -> wp m Q s.
Proof. intros Hm. unfold wp. destruct (m s) eqn:E; eauto. Qed.

Lemma wp_mono {A} (m : M A) (Q Q' : A -> homa_sock -> Prop) s :
  wp m Q s -> (forall a s', Q a s' -> Q' a s') -> wp m Q' s.
Proof. unfold wp. intros Hm HQ. destruct (m s); eauto. Qed.

Lemma wp_bind {A B} (m : M A) (k : A -> M B) Q s :
  wp m (fun a => wp (k a) Q) s -> wp (bind m k) Q s.
Proof. unfold wp, bind. by destruct (m s). Qed.

Lemma wp_ret {A} (a : A) (Q : A -> homa_sock -> Prop) s :
  Q a s -> wp (ret a) Q s.
Proof. done. Qed.

Lemma wp_gets {A} (f : homa_sock -> A) (Q : A -> homa_sock -> Prop) s :
  Q (f s) s -> wp (gets f) Q s.
Proof. done. Qed.

Lemma wp_modify f (Q : unit -> homa_sock -> Prop) s :
  Q tt (f s) -> wp (modify f) Q s.
Proof. done. Qed.

Lemma wp_deref h (Q : homa_rpc -> homa_sock -> Prop) s :
  (forall r, heap s !! h = Some r -> Q r s) -> wp (deref h) Q s.
Proof. unfold wp, deref. destruct (heap s !! h); eauto. Qed.

Lemma wp_store h r (Q : unit -> homa_sock -> Prop) s :
  (is_Some (heap s !! h) ->
   Q tt (set_heap (<[h := r]> (heap s)) (next_handle s) s)) ->
  wp (store h r) Q s.
Proof. unfold wp, store. destruct (heap s !! h); eauto. Qed.

Lemma wp_update h f (Q : unit -> homa_sock -> Prop) s :
  (forall r, heap s !! h = Some r ->
   Q tt (set_heap (<[h := f r]> (heap s)) (next_handle s) s)) ->
  wp (update h f) Q s.
Proof.
  intros HQ. unfold update. apply wp_bind, wp_deref. intros r Hr.
  apply wp_store. eauto.
Qed.

Lemma wp_kmalloc (Q : handle -> homa_sock -> Prop) s :
  Q (next_handle s)
    (set_heap (<[next_handle s := blank_rpc]> (heap s)) (S (next_handle s)) s) ->
  wp kmalloc Q s.
Proof. done. Qed.

Lemma wp_kfree h (Q : unit -> homa_sock -> Prop) s :
  Q tt (set_heap (delete h (heap s)) (next_handle s) s) -> wp (kfree h) Q s.
Proof. done. Qed.

Lemma wp_sock_lock (Q : unit -> homa_sock -> Prop) s :
  (sock_locked s = false -> Q tt (set_sock_locked true s)) ->
  wp homa_sock_lock Q s.
Proof. unfold wp, homa_sock_lock. destruct (sock_locked s); eauto. Qed.

Lemma wp_sock_unlock (Q : unit -> homa_sock -> Prop) s :
  Q tt (set_sock_locked false s) -> wp homa_sock_unlock Q s.
Proof. done. Qed.

Lemma wp_bucket_lock b (Q : unit -> homa_sock -> Prop) s :
  (lock (get_bucket b s) = false ->
   Q tt (put_bucket b {| lock := true; rpcs := rpcs (get_bucket b s) |} s)) ->
  wp (homa_bucket_lock b) Q s.
Proof. unfold wp, homa_bucket_lock. destruct (lock (get_bucket b s)); eauto. Qed.

Lemma wp_bucket_unlock b (Q : unit -> homa_sock -> Prop) s :
  Q tt (put_bucket b {| lock := false; rpcs := rpcs (get_bucket b s) |} s) ->
  wp (homa_bucket_unlock b) Q s.
Proof. done. Qed.

Lemma wp_rpc_lock h (Q : unit -> homa_sock -> Prop) s :
  (forall r, heap s !! h = Some r -> lock (get_bucket (bucket r) s) = false ->
   Q tt (put_bucket (bucket r)
           {| lock := true; rpcs := rpcs (get_bucket (bucket r) s) |} s)) ->
  wp (homa_rpc_lock h) Q s.
Proof.
  intros HQ. apply wp_bind, wp_deref. intros r Hr. apply wp_bucket_lock. eauto.
Qed.

Lemma wp_rpc_unlock h (Q : unit -> homa_sock -> Prop) s :
  (forall r, heap s !! h = Some r ->
   Q tt (put_bucket (bucket r)
           {| lock := false; rpcs := rpcs (get_bucket (bucket r) s) |} s)) ->
  wp (homa_rpc_unlock h) Q s.
Proof.
  intros HQ. apply wp_bind, wp_deref. intros r Hr. apply wp_bucket_unlock. eauto.
Qed.

Lemma wp_hlist_add_head h b (Q : unit -> homa_sock -> Prop) s :
  Q tt (put_bucket b {| lock := lock (get_bucket b s);
                        rpcs := h :: rpcs (get_bucket b s) |} s) ->
  wp (hlist_add_head h b) Q s.
Proof. done. Qed.

Lemma wp_hlist_del h (Q : unit -> homa_sock -> Prop) s :
  Q tt (set_buckets (unlink_bucket h <$> client_rpc_buckets s)
          (unlink_bucket h <$> server_rpc_buckets s) s) ->
  wp (hlist_del h) Q s.
Proof. done. Qed.

Lemma wp_fetch_add i (Q : Z -> homa_sock -> Prop) s :
  Q (next_outgoing_id (hsk_homa s))
    (set_homa (set_next_outgoing_id
                 (wrap_u64 (next_outgoing_id (hsk_homa s) + i))) s) ->
  wp (atomic64_fetch_add i) Q s.
Proof. done. Qed.

Lemma wp_hlist_find p l (Q : option handle -> homa_sock -> Prop) s :
  (forall res, match res with
               | Some h => h ∈ l /\ exists r, heap s !! h = Some r /\ p r = true
               | None => forall h r, h ∈ l -> heap s !! h = Some r -> p r = false
               end -> Q res s) ->
  wp (hlist_find p l) Q s.
Proof.
  revert Q. induction l as [|h l IH]; intros Q HQ; simpl.
  - apply wp_ret, HQ. intros h r Hin. by apply elem_of_nil in Hin.
  - apply wp_bind, wp_deref. intros r Hr. destruct (p r) eqn:Hp.
    + apply wp_ret, HQ. split; [left|eauto].
    + apply IH. intros [h'|] Hres; apply HQ.
      * destruct Hres as [Hin Hres]. split; [by right | done].
      * intros h' r' Hin Hr'. apply elem_of_cons in Hin as [->|Hin]; [|eauto].
        congruence.
Qed.

Ltac wp_step :=
  lazymatch goal with
  | |- wp (bind _ _) _ _ => apply wp_bind
  | |- wp (ret _) _ _ => apply wp_ret
  | |- wp (gets _) _ _ => apply wp_gets
  | |- wp (modify _) _ _ => apply wp_modify
  | |- wp (deref _) _ _ => apply wp_deref; intros ? ?
  | |- wp (store _ _) _ _ => apply wp_store; intros ?
  | |- wp (update _ _) _ _ => apply wp_update; intros ? ?
  | |- wp kmalloc _ _ => apply wp_kmalloc
  | |- wp (kfree _) _ _ => apply wp_kfree
  | |- wp homa_sock_lock _ _ => apply wp_sock_lock; intros ?
  | |- wp homa_sock_unlock _ _ => apply wp_sock_unlock
  | |- wp (homa_bucket_lock _) _ _ => apply wp_bucket_lock; intros ?
  | |- wp (homa_bucket_unlock _) _ _ => apply wp_bucket_unlock
  | |- wp (homa_rpc_lock _) _ _ => apply wp_rpc_lock; intros ? ? ?
  | |- wp (homa_rpc_unlock _) _ _ => apply wp_rpc_unlock; intros ? ?
  | |- wp (hlist_add_head _ _) _ _ => apply wp_hlist_add_head
  | |- wp (hlist_del _) _ _ => apply wp_hlist_del
  | |- wp (atomic64_fetch_add _) _ _ => apply wp_fetch_add
  | |- wp (hlist_find _ _) _ _ => apply wp_hlist_find; intros ? ?
  | |- wp (if ?c then _ else _) _ _ => destruct c eqn:?
  | |- wp (match ?x with _ => _ end) _ _ => destruct x eqn:?
  end.

Ltac goal_simpl :=
  repeat first [ rewrite get_bucket_put_eq
               | rewrite get_bucket_put_ne by done
               | rewrite lookup_insert_eq
               | progress autorewrite with sock
               | progress simpl ].

Ltac hyp_simpl :=
  repeat match goal with
    | H : context [heap (_ _)] |- _ => progress (autorewrite with sock in H; simpl in H)
    | H : <[?h:=_]> _ !! ?h = Some _ |- _ =>
        rewrite lookup_insert_eq in H; simplify_eq
    end.

Ltac wp_run := repeat (wp_step; goal_simpl; hyp_simpl; goal_simpl).

Ltac bucket_simpl :=
  repeat first [ rewrite get_bucket_put_eq in *
               | rewrite get_bucket_put_ne in * by done
               | progress autorewrite with sock in *
               | progress simpl in * ].

Ltac split_bucket :=
  goal_simpl;
  repeat match goal with
    | |- context [get_bucket ?b (put_bucket ?bk _ _)] =>
        destruct (decide (b = bk)) as [->|?]; goal_simpl
    end.

Section specs.
Context `{homa_impl}.

Lemma new_client_spec dp ok pr now s :
  heap s !! next_handle s = None ->
  wp (homa_rpc_new_client dp ok pr now) (fun res s' =>
  match res with
  | inl e => same_lists s s' /\ heap s' = heap s
             /\ (next_handle s <= next_handle s')%nat
             /\ (counter s' = counter s
                 \/ counter s' = wrap_u64 (counter s + 2))
  | inr h => exists r,
      h = next_handle s /\ next_handle s' = S h
      /\ heap s' = <[h := r]> (heap s)
      /\ id r = counter s
      /\ counter s' = wrap_u64 (counter s + 2)
      /\ state r = RPC_OUTGOING
      /\ (forall b, rpcs (get_bucket b s')
                    = if decide (b = bucket r) then h :: rpcs (get_bucket b s)
                      else rpcs (get_bucket b s))
      /\ active_rpcs s' = active_rpcs s ++ [h]
      /\ dead_rpcs s' = dead_rpcs s
  end) s.
Proof.
  intros Hfresh. unfold homa_rpc_new_client.
  wp_run.
  all: unfold same_lists, counter; goal_simpl.
  - split_and!; auto.
  - rewrite delete_insert_eq. rewrite (delete_id _ _ Hfresh).
    split_and!; auto.
  - rewrite insert_insert_eq, delete_insert_eq, (delete_id _ _ Hfresh).
    split_and!; auto.
    intros b. split_bucket; done.
  - eexists. split_and!;
      [done | done | by rewrite insert_insert_eq | done | done | done
      | | done | done].
    intros b; simpl. case_decide as Hd; [subst b|]; goal_simpl; done.
Qed.


Lemma unlink_bucket_rpcs h bk : rpcs (unlink_bucket h bk) = unlink h (rpcs bk).
Proof. done. Qed.

Lemma free_spec rpc s :
  wp (homa_rpc_free rpc) (fun _ s' =>
    match rpc with
    | None => s' = s
    | Some h => exists r, heap s !! h = Some r /\
        if decide (state r = RPC_DEAD) then s' = s
        else exists r',
          heap s' = <[h := r']> (heap s)
          /\ state r' = RPC_DEAD /\ bucket r' = bucket r
          /\ (forall b, rpcs (get_bucket b s') = unlink h (rpcs (get_bucket b s)))
          /\ active_rpcs s' = unlink h (active_rpcs s)
          /\ dead_rpcs s' = dead_rpcs s ++ [h]
          /\ ready_rpcs s' = unlink h (ready_rpcs s)
          /\ waiting_for_bufs s' = unlink h (waiting_for_bufs s)
          /\ next_handle s' = next_handle s
          /\ counter s' = counter s
    end) s.
Proof.
  unfold homa_rpc_free. destruct rpc as [h|]; [|by apply wp_ret].
  apply wp_bind, wp_deref. intros r Hr.
  destruct (decide (state r = RPC_DEAD)) as [Hd|Hd].
  { apply wp_ret. exists r. split; [done|]. by rewrite decide_True. }
  wp_run.
  all: exists r; split; [done|]; rewrite decide_False by done.
  all: repeat (case_match; goal_simpl).
  all: rewrite ?insert_insert_eq.
  all: eexists; split_and!; [reflexivity|..]; try done.
  all: intros b; goal_simpl; done.
Qed.
End specs.

Section specs2.
Context `{homa_impl}.

Lemma unlock_spec h s : wp (homa_rpc_unlock h) (fun _ s' => quiet s s') s.
Proof.
  wp_run. unfold quiet, same_lists, counter. goal_simpl. split_and!; try done.
  intros b. destruct (decide (b = bucket r)) as [->|Hne]; goal_simpl; done.
Qed.

Lemma find_client_spec i s :
  wp (homa_find_client_rpc i) (fun res s' =>
    quiet s s' /\
    match res with
    | Some h => h ∈ rpcs (get_bucket (client_bucket (homa_client_rpc_bucket i)) s)
    | None => True
    end) s.
Proof.
  unfold homa_find_client_rpc. wp_run.
  all: unfold quiet, same_lists, counter; goal_simpl; split_and!; try done.
  all: try (intros b; match goal with |- context [put_bucket ?bk] =>
       destruct (decide (b = bk)) as [->|Hne] end; goal_simpl; done).
  match goal with Hx : _ /\ _ |- _ => by destruct Hx end.
Qed.

Lemma find_server_spec saddr port i s :
  wp (homa_find_server_rpc saddr port i) (fun res s' =>
    quiet s s' /\
    match res with
    | Some h => h ∈ rpcs (get_bucket (server_bucket (homa_server_rpc_bucket i)) s)
    | None => True
    end) s.
Proof.
  unfold homa_find_server_rpc. wp_run.
  all: unfold quiet, same_lists, counter; goal_simpl; split_and!; try done.
  all: try (intros b; match goal with |- context [put_bucket ?bk] =>
       destruct (decide (b = bk)) as [->|Hne] end; goal_simpl; done).
  match goal with Hx : _ /\ _ |- _ => by destruct Hx end.
Qed.

Lemma new_server_spec src hd ok pr now s :
  heap s !! next_handle s = None ->
  wp (homa_rpc_new_server src hd ok pr now) (fun res s' =>
    counter s' = counter s /\
    match res with
    | (inl e, _) => same_lists s s' /\ heap s' = heap s
                    /\ (next_handle s <= next_handle s')%nat
    | (inr h, c) =>
        (same_lists s s' /\ heap s' = heap s
         /\ next_handle s' = next_handle s /\ hash_linked h s)
        \/ (exists r,
              h = next_handle s /\ next_handle s' = S h
              /\ heap s' = <[h := r]> (heap s)
              /\ state r = RPC_INCOMING
              /\ (forall b, rpcs (get_bucket b s')
                    = if decide (b = bucket r) then h :: rpcs (get_bucket b s)
                      else rpcs (get_bucket b s))
              /\ active_rpcs s' = active_rpcs s ++ [h]
              /\ dead_rpcs s' = dead_rpcs s)
    end) s.
Proof.
  intros Hfresh. unfold homa_rpc_new_server.
  wp_run.
  all: unfold counter, same_lists, hash_linked; goal_simpl.
  all: rewrite ?insert_insert_eq, ?delete_insert_eq, ?(delete_id _ _ Hfresh).
  all: split; [done|].
  all: try (split_and!; try done; try lia; intros b; split_bucket; done).
  - left. split_and!; try done; [intros b; split_bucket; done|].
    eexists. by destruct H1.
  - right. eexists. split_and!; [done|done|reflexivity|done| |done|done].
    intros b. simpl. case_decide; subst; split_bucket; done.
  - right. eexists. split_and!; [done|done|reflexivity|done| |done|done].
    intros b. simpl. case_decide; subst; split_bucket; done.
Qed.
End specs2.

Lemma put_bucket_put b bk bk' s :
  put_bucket b bk (put_bucket b bk' s) = put_bucket b bk s.
Proof. destruct b; unfold put_bucket; simpl; by rewrite insert_insert_eq. Qed.
#[export] Hint Rewrite put_bucket_put : sock.

Section reap.
Context `{homa_impl}.

Lemma reaps_refl s : reaps s s.
Proof. unfold reaps. split_and!; eauto 10. Qed.

Lemma reaps_trans s1 s2 s3 : reaps s1 s2 -> reaps s2 s3 -> reaps s1 s3.
Proof.
  intros (B1 & A1 & N1 & K1 & P1 & D1 & H1 & C1)
         (B2 & A2 & N2 & K2 & P2 & D2 & H2 & C2).
  unfold reaps. split_and!.
  - intros b. by rewrite B2, B1.
  - congruence.
  - congruence.
  - congruence.
  - congruence.
  - eauto.
  - intros h r' Hr'. destruct (H2 _ _ Hr') as (r2 & Hr2 & ? & ? & ?).
    destruct (H1 _ _ Hr2) as (r1 & Hr1 & ? & ? & ?).
    exists r1. split_and!; congruence.
  - intros h r Hr Hc. destruct (C1 _ _ Hr Hc) as [Hr2 Hd2].
    destruct (C2 _ _ Hr2 Hc) as [Hr3 Hd3]. eauto.
Qed.

Lemma elem_of_unlink x y l : x ∈ unlink y l <-> x ∈ l /\ x <> y.
Proof. unfold unlink. rewrite list_elem_of_filter. tauto. Qed.

Lemma cant_reap_set_magic v r : cant_reap (set_magic v r) = cant_reap r.
Proof. done. Qed.

Lemma reaps_step s s' h r r' :
  heap s !! h = Some r -> cant_reap r = false ->
  bucket r' = bucket r -> state r' = state r -> cant_reap r' = false ->
  heap s' = <[h := r']> (heap s) ->
  (forall b, rpcs (get_bucket b s') = rpcs (get_bucket b s)) ->
  active_rpcs s' = active_rpcs s -> next_handle s' = next_handle s ->
  hsk_homa s' = hsk_homa s -> protect_count s' = protect_count s ->
  (forall x, x ∈ dead_rpcs s' -> x ∈ dead_rpcs s) ->
  (forall x, x ∈ dead_rpcs s -> x <> h -> x ∈ dead_rpcs s') ->
  reaps s s'.
Proof.
  intros Hr Hc Hb Hst Hc' Hheap HB HA HN HK HP HD1 HD2.
  unfold reaps. split_and!; try done.
  - intros x r2. rewrite Hheap. destruct (decide (x = h)) as [->|Hne].
    + rewrite lookup_insert_eq. intros [= <-]. exists r.
      split_and!; congruence.
    + rewrite lookup_insert_ne by done. intros Hx. exists r2. done.
  - intros x r2 Hx Hc2. assert (x <> h) by congruence.
    rewrite Hheap, lookup_insert_ne by done. eauto.
Qed.

Lemma pending_reapable_step l s s' h r' :
  cant_reap r' = false ->
  heap s' = <[h := r']> (heap s) ->
  pending_reapable l s -> pending_reapable (l ++ [h]) s'.
Proof.
  intros Hc Hheap Hp x r Hx. rewrite Hheap.
  destruct (decide (x = h)) as [->|Hne].
  - rewrite lookup_insert_eq. by intros [= <-].
  - rewrite lookup_insert_ne by done. intros Hr.
    apply elem_of_app in Hx as [Hx|Hx]; [eauto|].
    apply list_elem_of_singleton in Hx. done.
Qed.

Lemma pending_reapable_weaken l l' s :
  (forall x, x ∈ l' -> x ∈ l) -> pending_reapable l s -> pending_reapable l' s.
Proof. intros Hl Hp x r Hx. eauto. Qed.

Lemma scan_reaps bs l : forall b s0 s,
  reaps s0 s -> pending_reapable (batch_rpcs b) s ->
  wp (reap_scan bs l b) (fun b' s' =>
    reaps s0 s' /\ pending_reapable (batch_rpcs b') s') s.
Proof.
  induction l as [|h l IH]; intros b s0 s Hs0 Hp; simpl.
  { by apply wp_ret. }
  apply wp_bind, wp_deref. intros r Hr.
  destruct (cant_reap r) eqn:Hcr; [by apply IH|].
  destruct (if 0 <=? mo_length (msgout (set_magic 0 r)) then _ else _)
    as [[[pkts n] skbs'] full] eqn:Htx.
  destruct full.
  - wp_run. split.
    + eapply reaps_trans; [exact Hs0|].
      match goal with |- context [<[h := ?r']> _] =>
        eapply (reaps_step _ _ h r r'); done end.
    + match goal with |- context [<[h := ?r']> _] =>
        eapply pending_reapable_weaken;
        [|eapply (pending_reapable_step _ s _ h r'); [| |exact Hp]; done] end.
      intros x Hx. apply elem_of_app. by left.
  - set (r2 := set_msgout _ _).
    destruct (if 0 <=? mi_length (msgin r2) then _ else _) as [r3 rx] eqn:Hrx.
    assert (Hr3 : bucket r3 = bucket r /\ state r3 = state r
                  /\ cant_reap r3 = false).
    { destruct (0 <=? mi_length (msgin r2)); simplify_eq; done. }
    destruct Hr3 as (Hb3 & Hs3 & Hc3).
    wp_step. wp_step. wp_step. wp_step. goal_simpl.
    set (s1 := set_dead_rpcs _ _).
    assert (reaps s0 s1 /\ pending_reapable (batch_rpcs b ++ [h]) s1)
      as [Hs1 Hp1].
    { split.
      - eapply reaps_trans; [exact Hs0|].
        eapply (reaps_step _ _ h r r3); subst s1; goal_simpl; try done.
        + intros x Hx. by apply elem_of_unlink in Hx as [? ?].
        + intros x Hx Hne. by apply elem_of_unlink.
      - eapply (pending_reapable_step _ s _ h r3); [done| |done].
        subst s1. done. }
    destruct (bs <=? _).
    + by apply wp_ret.
    + by apply IH.
Qed.

Lemma reaps_free s s' h :
  (forall r, heap s !! h = Some r -> cant_reap r = false) ->
  heap s' = delete h (heap s) ->
  (forall b, rpcs (get_bucket b s') = rpcs (get_bucket b s)) ->
  active_rpcs s' = active_rpcs s -> next_handle s' = next_handle s ->
  hsk_homa s' = hsk_homa s -> protect_count s' = protect_count s ->
  dead_rpcs s' = dead_rpcs s ->
  reaps s s'.
Proof.
  intros Hc Hheap HB HA HN HK HP HD.
  unfold reaps. split_and!; try done.
  - intros x. by rewrite HD.
  - intros x r'. rewrite Hheap. intros Hx.
    apply lookup_delete_Some in Hx as [Hne Hx]. exists r'. done.
  - intros x r Hx Hcx. rewrite Hheap, HD. split; [|done].
    apply lookup_delete_Some. split; [|done]. intros ->.
    specialize (Hc _ Hx). congruence.
Qed.

Lemma release_rpc_spec h s :
  wp (release_rpc h) (fun _ s' =>
    heap s' = delete h (heap s)
    /\ (forall b, get_bucket b s' = get_bucket b s)
    /\ dead_rpcs s' = dead_rpcs s /\ sock_locked s' = sock_locked s
    /\ dead_skbs s' = dead_skbs s /\ active_rpcs s' = active_rpcs s
    /\ next_handle s' = next_handle s /\ hsk_homa s' = hsk_homa s
    /\ protect_count s' = protect_count s) s.
Proof.
  unfold release_rpc. wp_run.
  all: repeat match goal with
         | Ha : ?m !! ?k = Some ?x, Hb : ?m !! ?k = Some ?y |- _ =>
             assert (y = x) by congruence; subst y; clear Hb
         end.
  all: match goal with
       | Hr : _ !! _ = Some ?r, Hl : lock (get_bucket (bucket ?r) ?s) = false
         |- _ =>
           assert (HB : forall b, get_bucket b
             (put_bucket (bucket r) {| lock := false;
                rpcs := rpcs (get_bucket (bucket r) s) |} s) = get_bucket b s)
           by (intros b; destruct (decide (b = bucket r)) as [->|?];
               goal_simpl; [by apply bucket_unlocked_eta | done])
       end.
  all: goal_simpl.
  all: split_and!; try done.
  all: intros b; goal_simpl; rewrite ?HB; done.
Qed.

Lemma release_rpc_reaps h s :
  (forall r, heap s !! h = Some r -> cant_reap r = false) ->
  wp (release_rpc h) (fun _ s' =>
    reaps s s' /\ heap s' = delete h (heap s)) s.
Proof.
  intros Hc. eapply wp_mono; [apply release_rpc_spec|].
  intros [] s' (HH & HB & HD & _ & _ & HA & HN & HK & HP).
  split; [|done]. eapply reaps_free; try done.
  intros b. by rewrite HB.
Qed.

Lemma release_reaps l : forall s0 s,
  reaps s0 s -> pending_reapable l s ->
  wp (release_rpcs l) (fun _ s' => reaps s0 s') s.
Proof.
  induction l as [|h l IH]; intros s0 s Hs0 Hp; simpl.
  { by apply wp_ret. }
  apply wp_bind. eapply wp_mono.
  { apply release_rpc_reaps. intros r Hr. eapply Hp; [left|done]. }
  intros [] s1 (Hs1 & Hheap). apply IH.
  - by eapply reaps_trans.
  - intros x r Hx. rewrite Hheap. intros Hr.
    apply lookup_delete_Some in Hr as [_ Hr]. eapply Hp; [by right|done].
Qed.

Lemma reaps_same s s' :
  (forall b, rpcs (get_bucket b s') = rpcs (get_bucket b s)) ->
  active_rpcs s' = active_rpcs s -> next_handle s' = next_handle s ->
  hsk_homa s' = hsk_homa s -> protect_count s' = protect_count s ->
  dead_rpcs s' = dead_rpcs s -> heap s' = heap s ->
  reaps s s'.
Proof.
  intros HB HA HN HK HP HD HH. unfold reaps. rewrite HD, HH.
  split_and!; eauto 10.
Qed.

Lemma loop_reaps fuel : forall count frees result s0 s,
  reaps s0 s ->
  wp (reap_loop fuel count frees result) (fun _ s' => reaps s0 s') s.
Proof.
  induction fuel as [|fuel IH]; intros count frees result s0 s Hs0; simpl.
  { by apply wp_ret. }
  destruct (0 <? count); [|by apply wp_ret].
  wp_step. wp_step. wp_step. wp_step. goal_simpl.
  destruct (negb (protect_count s =? 0)).
  { wp_run. eapply reaps_trans; [exact Hs0|]. by apply reaps_same. }
  wp_step. wp_step. wp_step. goal_simpl.
  eapply wp_mono.
  { eapply (scan_reaps _ _ _ s0).
    - eapply reaps_trans; [exact Hs0|]. by apply reaps_same.
    - intros x r Hx. by apply elem_of_nil in Hx. }
  intros b s1 [Hs1 Hp1]. goal_simpl.
  wp_step. wp_step. wp_step. wp_step. wp_step. wp_step. goal_simpl.
  wp_step.
  eapply wp_mono.
  { eapply (release_reaps _ s0); [|exact Hp1].
    eapply reaps_trans; [exact Hs1|]. by apply reaps_same. }
  intros [] s2 Hs2. goal_simpl.
  destruct (_ =? 0); [by apply wp_ret|by apply IH].
Qed.

Lemma reap_reaps count uninit s :
  wp (homa_rpc_reap count uninit) (fun _ s' => reaps s s') s.
Proof. apply loop_reaps, reaps_refl. Qed.
End reap.

Section inv.
Context `{homa_impl}.

Lemma lists_ok_fresh P s : lists_ok_pending P s -> heap s !! next_handle s = None.
Proof.
  intros Hok. destruct (heap s !! next_handle s) eqn:E; [|done].
  assert (next_handle s < next_handle s)%nat; [|lia].
  apply (ok_fresh _ _ Hok). eexists. exact E.
Qed.

Lemma lists_ok_same P s s' :
  same_lists s s' -> heap s' = heap s ->
  (next_handle s <= next_handle s')%nat ->
  lists_ok_pending P s -> lists_ok_pending P s'.
Proof.
  intros (HB & HA & HD) HH HN [O1 O2 O3 O4 O5 O6].
  split; rewrite ?HA, ?HD, ?HH; try done.
  - intros h r Hr. rewrite HB. eauto.
  - intros b h. rewrite HB. eauto.
  - intros h Hh. specialize (O6 _ Hh). lia.
Qed.

Lemma lists_ok_create s s' h r :
  lists_ok s ->
  h = next_handle s -> next_handle s' = S h ->
  heap s' = <[h := r]> (heap s) ->
  state r <> RPC_DEAD ->
  (forall b, rpcs (get_bucket b s')
             = if decide (b = bucket r) then h :: rpcs (get_bucket b s)
               else rpcs (get_bucket b s)) ->
  active_rpcs s' = active_rpcs s ++ [h] ->
  dead_rpcs s' = dead_rpcs s ->
  lists_ok s'.
Proof.
  intros Hok -> HN HH Hst HB HA HD.
  pose proof (lists_ok_fresh _ _ Hok) as Hfresh.
  destruct Hok as [O1 O2 O3 O4 O5 O6].
  assert (Hnb : forall b, next_handle s ∉ rpcs (get_bucket b s)).
  { intros b Hin. destruct (O2 _ _ Hin) as (r' & Hr' & _). congruence. }
  assert (Hna : next_handle s ∉ active_rpcs s).
  { intros Hin. destruct (O3 _ Hin) as (r' & Hr'). congruence. }
  split; rewrite ?HA, ?HD, ?HH.
  - intros h r'. destruct (decide (h = next_handle s)) as [->|Hne].
    + rewrite lookup_insert_eq. intros [= <-].
      rewrite HB, decide_True by done.
      rewrite elem_of_app, list_elem_of_singleton, elem_of_cons. tauto.
    + rewrite lookup_insert_ne by done. intros Hr'.
      destruct (O1 _ _ Hr') as [E1 E2]. rewrite HB.
      rewrite elem_of_app, list_elem_of_singleton.
      case_decide; rewrite ?elem_of_cons; split; tauto.
  - intros b h. rewrite HB. case_decide as Hd.
    + subst b. rewrite elem_of_cons. intros [->|Hin].
      * exists r. by rewrite lookup_insert_eq.
      * destruct (O2 _ _ Hin) as (r' & Hr' & Hb'). exists r'. split; [|done].
        rewrite lookup_insert_ne; [done|]. intros <-. congruence.
    + intros Hin. destruct (O2 _ _ Hin) as (r' & Hr' & Hb'). exists r'.
      split; [|done]. rewrite lookup_insert_ne; [done|]. intros <-. congruence.
  - intros h. rewrite elem_of_app, list_elem_of_singleton. intros [Hin| ->].
    + rewrite lookup_insert_ne; [eauto|]. intros <-. done.
    + rewrite lookup_insert_eq. eauto.
  - intros h. rewrite O4. split.
    + intros (r' & Hr' & Hd'). exists r'. split; [|done].
      rewrite lookup_insert_ne; [done|]. intros <-. congruence.
    + intros (r' & Hr' & Hd'). exists r'. split; [|done].
      destruct (decide (h = next_handle s)) as [->|Hne].
      * rewrite lookup_insert_eq in Hr'. congruence.
      * by rewrite lookup_insert_ne in Hr'.
  - done.
  - intros h. rewrite HN. destruct (decide (h = next_handle s)) as [->|Hne].
    + lia.
    + rewrite lookup_insert_ne by done. intros Hh. specialize (O6 _ Hh). lia.
Qed.

Lemma lists_ok_free s s' h r r' :
  lists_ok s ->
  heap s !! h = Some r -> state r <> RPC_DEAD ->
  heap s' = <[h := r']> (heap s) ->
  state r' = RPC_DEAD -> bucket r' = bucket r ->
  (forall b, rpcs (get_bucket b s') = unlink h (rpcs (get_bucket b s))) ->
  active_rpcs s' = unlink h (active_rpcs s) ->
  dead_rpcs s' = dead_rpcs s ++ [h] ->
  next_handle s' = next_handle s ->
  lists_ok s'.
Proof.
  intros [O1 O2 O3 O4 O5 O6] Hr Hst HH Hst' Hb' HB HA HD HN.
  assert (Hnd : h ∉ dead_rpcs s).
  { intros Hin. destruct (proj1 (O4 h) (or_introl Hin)) as (r0 & Hr0 & Hd0).
    congruence. }
  split; rewrite ?HA, ?HD, ?HH, ?HN.
  - intros x rx. rewrite HB, !elem_of_unlink.
    destruct (decide (x = h)) as [->|Hne].
    + rewrite lookup_insert_eq. intros [= <-]. split; split; tauto.
    + rewrite lookup_insert_ne by done. intros Hx.
      destruct (O1 _ _ Hx) as [E1 E2]. split; split; tauto.
  - intros b x. rewrite HB, elem_of_unlink. intros [Hin Hne].
    rewrite lookup_insert_ne by done. eauto.
  - intros x. rewrite elem_of_unlink. intros [Hin Hne].
    rewrite lookup_insert_ne by done. eauto.
  - intros x. rewrite elem_of_app, list_elem_of_singleton.
    destruct (decide (x = h)) as [->|Hne].
    + rewrite lookup_insert_eq. split; [eauto|]. intros _. left. by right.
    + rewrite lookup_insert_ne by done. rewrite <- O4.
      rewrite elem_of_nil. tauto.
  - rewrite app_nil_r in *. apply NoDup_app. split_and!; [done| |apply NoDup_singleton].
    intros x Hx Hx'. apply list_elem_of_singleton in Hx'. by subst.
  - intros x. destruct (decide (x = h)) as [->|Hne].
    + intros _. apply O6. eauto.
    + rewrite lookup_insert_ne by done. apply O6.
Qed.

Lemma lists_ok_other s s' : other_code s s' -> lists_ok s -> lists_ok s'.
Proof.
  intros (HB & HA & HD & HN & _ & HH1 & HH2) [O1 O2 O3 O4 O5 O6].
  assert (Hdom : forall h, is_Some (heap s' !! h) <-> is_Some (heap s !! h)).
  { intros h. rewrite <- !not_eq_None_Some. by rewrite HH1. }
  split; rewrite ?HA, ?HD, ?HN.
  - intros h r' Hr'. destruct (proj1 (Hdom h) (mk_is_Some _ _ Hr')) as [r Hr].
    destruct (HH2 _ _ _ Hr Hr') as [Hb Hst]. destruct (O1 _ _ Hr) as [E1 E2].
    rewrite HB, Hb, Hst. tauto.
  - intros b h. rewrite HB. intros Hin.
    destruct (O2 _ _ Hin) as (r & Hr & Hb).
    destruct (proj2 (Hdom h) (mk_is_Some _ _ Hr)) as [r' Hr'].
    exists r'. split; [done|]. destruct (HH2 _ _ _ Hr Hr'). congruence.
  - intros h Hin. apply Hdom. eauto.
  - intros h. rewrite O4. split.
    + intros (r & Hr & Hd).
      destruct (proj2 (Hdom h) (mk_is_Some _ _ Hr)) as [r' Hr'].
      exists r'. split; [done|]. destruct (HH2 _ _ _ Hr Hr'). tauto.
    + intros (r' & Hr' & Hd').
      destruct (proj1 (Hdom h) (mk_is_Some _ _ Hr')) as [r Hr].
      exists r. split; [done|]. destruct (HH2 _ _ _ Hr Hr'). tauto.
  - done.
  - intros h Hh. apply O6, Hdom, Hh.
Qed.

Lemma lists_ok_store P s s' h r r' :
  heap s !! h = Some r -> bucket r' = bucket r -> state r' = state r ->
  heap s' = <[h := r']> (heap s) ->
  same_lists s s' -> next_handle s' = next_handle s ->
  lists_ok_pending P s -> lists_ok_pending P s'.
Proof.
  intros Hr Hb Hst HH (HB & HA & HD) HN [O1 O2 O3 O4 O5 O6].
  split; rewrite ?HA, ?HD, ?HH, ?HN.
  - intros x rx. rewrite HB. destruct (decide (x = h)) as [->|Hne].
    + rewrite lookup_insert_eq. intros [= <-]. rewrite Hb, Hst. eauto.
    + rewrite lookup_insert_ne by done. eauto.
  - intros b x. rewrite HB. intros Hin. destruct (O2 _ _ Hin) as (rx & Hx & Hbx).
    destruct (decide (x = h)) as [->|Hne].
    + exists r'. rewrite lookup_insert_eq. split; [done|]. congruence.
    + exists rx. by rewrite lookup_insert_ne.
  - intros x Hin. destruct (decide (x = h)) as [->|Hne].
    + rewrite lookup_insert_eq. eauto.
    + rewrite lookup_insert_ne by done. eauto.
  - intros x. rewrite O4. destruct (decide (x = h)) as [->|Hne].
    + rewrite lookup_insert_eq. split.
      * intros (rx & Hx & Hdx). exists r'. split; [done|]. congruence.
      * intros (rx & [= <-] & Hdx). exists r. split; [done|]. congruence.
    + by rewrite lookup_insert_ne.
  - done.
  - intros x. destruct (decide (x = h)) as [->|Hne].
    + intros _. apply O6. eauto.
    + rewrite lookup_insert_ne by done. apply O6.
Qed.

Lemma lists_ok_collect P s s' h r r' :
  heap s !! h = Some r -> bucket r' = bucket r -> state r' = state r ->
  heap s' = <[h := r']> (heap s) ->
  (forall b, rpcs (get_bucket b s') = rpcs (get_bucket b s)) ->
  active_rpcs s' = active_rpcs s ->
  dead_rpcs s' = unlink h (dead_rpcs s) -> h ∈ dead_rpcs s ->
  next_handle s' = next_handle s ->
  lists_ok_pending P s -> lists_ok_pending (P ++ [h]) s'.
Proof.
  intros Hr Hb Hst HH HB HA HD Hin HN Hok.
  assert (Hok1 : lists_ok_pending P
            (set_heap (<[h := r']> (heap s)) (next_handle s) s)).
  { eapply (lists_ok_store _ s _ h r r'); done. }
  destruct Hok1 as [O1 O2 O3 O4 O5 O6]. simpl in *.
  assert (HhP : h ∉ P).
  { intros HP. apply NoDup_app in O5 as (_ & Hdis & _). by eapply Hdis. }
  split; rewrite ?HA, ?HD, ?HH, ?HN.
  - intros x rx Hx. rewrite HB.
    specialize (O1 x rx Hx). by autorewrite with sock in O1.
  - intros b x. rewrite HB. intros Hx.
    specialize (O2 b x). autorewrite with sock in O2. eauto.
  - done.
  - intros x. rewrite <- O4. rewrite elem_of_unlink, elem_of_app,
      list_elem_of_singleton.
    destruct (decide (x = h)) as [->|Hne]; tauto.
  - apply NoDup_app in O5 as (Hd & Hdis & HP).
    apply NoDup_app. split_and!.
    + by apply NoDup_filter.
    + intros x Hx Hx'. apply elem_of_unlink in Hx as [Hx Hne].
      apply elem_of_app in Hx' as [Hx'|Hx'].
      * by eapply Hdis.
      * apply list_elem_of_singleton in Hx'. done.
    + apply NoDup_app. split_and!; [done| |apply NoDup_singleton].
      intros x Hx Hx'. apply list_elem_of_singleton in Hx'. by subst.
  - done.
Qed.

Lemma lists_ok_release P s s' h :
  heap s' = delete h (heap s) ->
  (forall b, get_bucket b s' = get_bucket b s) ->
  active_rpcs s' = active_rpcs s -> dead_rpcs s' = dead_rpcs s ->
  next_handle s' = next_handle s ->
  lists_ok_pending (h :: P) s -> lists_ok_pending P s'.
Proof.
  intros HH HB HA HD HN [O1 O2 O3 O4 O5 O6].
  assert (Hdead : exists r, heap s !! h = Some r /\ state r = RPC_DEAD).
  { apply O4. right. left. }
  destruct Hdead as (rh & Hrh & Hdh).
  assert (Hna : h ∉ active_rpcs s).
  { intros Hin. destruct (O1 _ _ Hrh) as [_ E2]. tauto. }
  apply NoDup_app in O5 as (Hd & Hdis & HP).
  apply NoDup_cons in HP as [HhP HP].
  assert (Hnd : h ∉ dead_rpcs s).
  { intros Hin. eapply Hdis; [done|left]. }
  split; rewrite ?HA, ?HD, ?HH, ?HN.
  - intros x rx Hx. apply lookup_delete_Some in Hx as [Hne Hx].
    rewrite HB. eauto.
  - intros b x. rewrite HB. intros Hin.
    destruct (O2 _ _ Hin) as (rx & Hx & Hbx). exists rx. split; [|done].
    apply lookup_delete_Some. split; [|done]. intros <-.
    destruct (O1 _ _ Hx) as [E1 E2]. subst b. simplify_eq. tauto.
  - intros x Hin. destruct (O3 _ Hin) as [rx Hx]. exists rx.
    apply lookup_delete_Some. split; [|done]. by intros <-.
  - intros x. destruct (decide (x = h)) as [->|Hne].
    + rewrite lookup_delete_eq. split; [tauto|]. by intros (? & ? & ?).
    + rewrite lookup_delete_ne by done. rewrite <- O4, elem_of_cons. tauto.
  - apply NoDup_app. split_and!; [done| |done].
    intros x Hx Hx'. eapply Hdis; [done|by right].
  - intros x [rx Hx]. apply lookup_delete_Some in Hx as [_ Hx]. apply O6. eauto.
Qed.

Lemma scan_lists_ok bs l : forall b s,
  lists_ok_pending (batch_rpcs b) s ->
  (forall x, x ∈ l -> x ∈ dead_rpcs s) -> NoDup l ->
  wp (reap_scan bs l b) (fun b' s' => lists_ok_pending (batch_rpcs b') s') s.
Proof.
  induction l as [|h l IH]; intros b s Hok Hl Hnd; simpl.
  { by apply wp_ret. }
  apply NoDup_cons in Hnd as [Hhl Hnd].
  assert (Hl' : forall x, x ∈ l -> x ∈ dead_rpcs s)
    by (intros x Hx; apply Hl; by right).
  apply wp_bind, wp_deref. intros r Hr.
  destruct (cant_reap r) eqn:Hcr; [by apply IH|].
  destruct (if 0 <=? mo_length (msgout (set_magic 0 r)) then _ else _)
    as [[[pkts n] skbs'] full] eqn:Htx.
  destruct full.
  - wp_run.
    match goal with |- context [<[h := ?r']> _] =>
      eapply (lists_ok_store _ s _ h r r'); done end.
  - set (r2 := set_msgout _ _).
    destruct (if 0 <=? mi_length (msgin r2) then _ else _) as [r3 rx] eqn:Hrx.
    assert (Hr3 : bucket r3 = bucket r /\ state r3 = state r).
    { destruct (0 <=? mi_length (msgin r2)); simplify_eq; done. }
    destruct Hr3 as (Hb3 & Hs3).
    wp_step. wp_step. wp_step. wp_step. goal_simpl.
    set (s1 := set_dead_rpcs _ _).
    assert (Hok1 : lists_ok_pending (batch_rpcs b ++ [h]) s1).
    { eapply (lists_ok_collect _ s _ h r r3); subst s1; goal_simpl; try done.
      apply Hl. left. }
    destruct (bs <=? _).
    + by apply wp_ret.
    + apply IH; [done| |done].
      intros x Hx. subst s1. simpl. apply elem_of_unlink. split; [eauto|].
      by intros ->.
Qed.

Lemma release_lists_ok l : forall s,
  lists_ok_pending l s ->
  wp (release_rpcs l) (fun _ s' => lists_ok s') s.
Proof.
  induction l as [|h l IH]; intros s Hok; simpl.
  { by apply wp_ret. }
  apply wp_bind. eapply wp_mono; [apply release_rpc_spec|].
  intros [] s1 (HH & HB & HD & _ & _ & HA & HN & _). apply IH.
  by eapply lists_ok_release.
Qed.

Lemma loop_lists_ok fuel : forall count frees result s,
  lists_ok s ->
  wp (reap_loop fuel count frees result) (fun _ s' => lists_ok s') s.
Proof.
  induction fuel as [|fuel IH]; intros count frees result s Hok; simpl.
  { by apply wp_ret. }
  destruct (0 <? count); [|by apply wp_ret].
  wp_step. wp_step. wp_step. wp_step. goal_simpl.
  destruct (negb (protect_count s =? 0)).
  { wp_run. eapply lists_ok_same; [| | |exact Hok];
      first [done | by split_and!]. }
  wp_step. wp_step. wp_step. goal_simpl.
  eapply wp_mono.
  { eapply scan_lists_ok.
    - simpl. eapply lists_ok_same; [| | |exact Hok];
        first [done | by split_and!].
    - done.
    - destruct Hok as [_ _ _ _ O5 _]. by rewrite app_nil_r in O5. }
  intros b s1 Hok1. goal_simpl.
  wp_step. wp_step. wp_step. wp_step. wp_step. wp_step. goal_simpl.
  wp_step.
  eapply wp_mono.
  { eapply release_lists_ok.
    eapply lists_ok_same; [| | |exact Hok1]; first [done | by split_and!]. }
  intros [] s2 Hs2. goal_simpl.
  destruct (_ =? 0); [by apply wp_ret|by apply IH].
Qed.

Lemma step_lists_ok s c s' : step s c s' -> lists_ok s -> lists_ok s'.
Proof.
  intros Hstep Hok. pose proof (lists_ok_fresh _ _ Hok) as Hfresh.
  destruct Hstep as [s dp ok pr now res s' Hrun
                    |s src hd ok pr now res s' Hrun
                    |s i res s' Hrun |s sa po i res s' Hrun
                    |s h s' Hrun |s rpc s' Hrun |s count uninit res s' Hrun
                    |s s' Hother].
  - pose proof (wp_Done _ _ _ _ _ (new_client_spec dp ok pr now s Hfresh) Hrun)
      as Hspec. simpl in Hspec. destruct res as [e|h].
    + destruct Hspec as (HL & HH & HN & _). by eapply lists_ok_same.
    + destruct Hspec as (r & -> & HN & HH & _ & _ & Hst & HB & HA & HD).
      eapply lists_ok_create; try done. by rewrite Hst.
  - pose proof (wp_Done _ _ _ _ _ (new_server_spec src hd ok pr now s Hfresh)
                  Hrun) as [_ Hspec].
    destruct res as [[e|h] c].
    + destruct Hspec as (HL & HH & HN). by eapply lists_ok_same.
    + destruct Hspec as [(HL & HH & HN & _)
                        |(r & -> & HN & HH & Hst & HB & HA & HD)].
      * eapply lists_ok_same; try done. lia.
      * eapply lists_ok_create; try done. by rewrite Hst.
  - pose proof (wp_Done _ _ _ _ _ (find_client_spec i s) Hrun)
      as [(HL & HH & HN & _) _].
    eapply lists_ok_same; try done. lia.
  - pose proof (wp_Done _ _ _ _ _ (find_server_spec sa po i s) Hrun)
      as [(HL & HH & HN & _) _].
    eapply lists_ok_same; try done. lia.
  - pose proof (wp_Done _ _ _ _ _ (unlock_spec h s) Hrun)
      as (HL & HH & HN & _).
    eapply lists_ok_same; try done. lia.
  - pose proof (wp_Done _ _ _ _ _ (free_spec rpc s) Hrun) as Hspec.
    simpl in Hspec. destruct rpc as [h|]; [|by subst].
    destruct Hspec as (r & Hr & Hspec). case_decide; [by subst|].
    destruct Hspec as (r' & HH & Hst' & Hb' & HB & HA & HD & _ & _ & HN & _).
    by eapply (lists_ok_free s s' h r r').
  - exact (wp_Done _ _ _ _ _ (loop_lists_ok _ _ _ _ s Hok) Hrun).
  - by eapply lists_ok_other.
Qed.

Lemma no_rpcs_lists_ok s : no_rpcs s -> lists_ok s.
Proof.
  intros (HH & HA & HD & HB).
  split; rewrite ?HA, ?HD, ?HH.
  - intros h r. by rewrite lookup_empty.
  - intros b h. rewrite HB. by intros ?%elem_of_nil.
  - by intros h ?%elem_of_nil.
  - intros h. rewrite lookup_empty. split.
    + by intros [?%elem_of_nil|?%elem_of_nil].
    + by intros (? & ? & ?).
  - apply NoDup_nil_2.
  - intros h. rewrite lookup_empty. by intros [? ?].
Qed.

Lemma run_lists_ok s cs s' : run s cs s' -> lists_ok s -> lists_ok s'.
Proof. induction 1; eauto using step_lists_ok. Qed.
End inv.

Section c1.
Context `{homa_impl}.

Lemma step_gone h s c s' : lists_ok s -> step s c s' -> gone h s -> gone h s'.
Proof.
  intros Hok Hstep [Hg Hlt]. pose proof (lists_ok_fresh _ _ Hok) as Hfresh.
  destruct Hstep as [s dp ok pr now res s' Hrun
                    |s src hd ok pr now res s' Hrun
                    |s i res s' Hrun |s sa po i res s' Hrun
                    |s h0 s' Hrun |s rpc s' Hrun |s count uninit res s' Hrun
                    |s s' Hother].
  - pose proof (wp_Done _ _ _ _ _ (new_client_spec dp ok pr now s Hfresh) Hrun)
      as Hspec. simpl in Hspec. destruct res as [e|h1].
    + destruct Hspec as (HL & HH & HN & _). split; [by rewrite HH|lia].
    + destruct Hspec as (r & -> & HN & HH & _).
      split; [|lia]. rewrite HH, lookup_insert_ne by lia. done.
  - pose proof (wp_Done _ _ _ _ _ (new_server_spec src hd ok pr now s Hfresh)
                  Hrun) as [_ Hspec].
    destruct res as [[e|h1] c].
    + destruct Hspec as (HL & HH & HN). split; [by rewrite HH|lia].
    + destruct Hspec as [(HL & HH & HN & _) |(r & -> & HN & HH & _)].
      * split; [by rewrite HH|lia].
      * split; [|lia]. rewrite HH, lookup_insert_ne by lia. done.
  - pose proof (wp_Done _ _ _ _ _ (find_client_spec i s) Hrun)
      as [(HL & HH & HN & _) _]. split; [by rewrite HH|lia].
  - pose proof (wp_Done _ _ _ _ _ (find_server_spec sa po i s) Hrun)
      as [(HL & HH & HN & _) _]. split; [by rewrite HH|lia].
  - pose proof (wp_Done _ _ _ _ _ (unlock_spec h0 s) Hrun)
      as (HL & HH & HN & _). split; [by rewrite HH|lia].
  - pose proof (wp_Done _ _ _ _ _ (free_spec rpc s) Hrun) as Hspec.
    simpl in Hspec. destruct rpc as [h0|]; [|by subst].
    destruct Hspec as (r & Hr & Hspec). case_decide; [by subst|].
    destruct Hspec as (r' & HH & Hst' & Hb' & HB & HA & HD & _ & _ & HN & _).
    split; [|lia]. rewrite HH. intros r1.
    destruct (decide (h = h0)) as [->|Hne].
    + rewrite lookup_insert_eq. by intros [= <-].
    + rewrite lookup_insert_ne by done. apply Hg.
  - pose proof (wp_Done _ _ _ _ _ (reap_reaps count uninit s) Hrun)
      as (_ & _ & HN & _ & _ & _ & HH & _).
    split; [|lia]. intros r' Hr'. destruct (HH _ _ Hr') as (r & Hr & _ & Hst & _).
    rewrite Hst. eauto.
  - destruct Hother as (_ & _ & _ & HN & _ & HH1 & HH2).
    split; [|lia]. intros r' Hr'.
    destruct (heap s !! h) as [r|] eqn:Hr.
    + destruct (HH2 _ _ _ Hr Hr') as [_ Hst]. apply Hst. eauto.
    + apply HH1 in Hr. congruence.
Qed.

Lemma run_gone h s cs s' :
  run s cs s' -> lists_ok s -> gone h s -> gone h s'.
Proof.
  induction 1 as [|s c s1 cs s2 Hstep Hrun IH]; [done|].
  intros Hok Hg. apply IH; [by eapply step_lists_ok|by eapply step_gone].
Qed.

Lemma lists_ok_dead s : lists_ok s -> forall h,
  h ∈ dead_rpcs s <-> exists r, heap s !! h = Some r /\ state r = RPC_DEAD.
Proof.
  intros Hok h. rewrite <- (ok_dead _ _ Hok h), elem_of_nil. tauto.
Qed.

Lemma linked_not_gone h s : lists_ok s -> hash_linked h s -> ~ gone h s.
Proof.
  intros [O1 O2 _ _ _ _] [b Hin] [Hg _].
  destruct (O2 _ _ Hin) as (r & Hr & <-).
  destruct (O1 _ _ Hr) as [E1 E2]. apply E2; [tauto|eauto].
Qed.

(** C1. For every RPC at every quiescent moment: linked on its hash bucket
    iff linked on the active list iff not [RPC_DEAD]. After [homa_rpc_free]
    returns, the RPC is on the dead list, on no hash bucket, not on the
    active list, nor on the ready or waiting lists, and no later
    [homa_find_client_rpc] or [homa_find_server_rpc] returns it. *)
Theorem dead_iff_unlinked s0 cs s :
  no_rpcs s0 -> run s0 cs s ->
  (forall h r, heap s !! h = Some r ->
     (h ∈ rpcs (get_bucket (bucket r) s) <-> h ∈ active_rpcs s)
     /\ (h ∈ active_rpcs s <-> state r <> RPC_DEAD)
     /\ (hash_linked h s -> h ∈ rpcs (get_bucket (bucket r) s)))
  /\ (forall h s1, homa_rpc_free (Some h) s = Done tt s1 ->
        h ∈ dead_rpcs s1 /\ ~ hash_linked h s1 /\ (h ∉ active_rpcs s1)
        /\ (exists r1, heap s1 !! h = Some r1 /\ state r1 = RPC_DEAD)
        /\ (forall r, heap s !! h = Some r -> state r <> RPC_DEAD ->
              (h ∉ ready_rpcs s1) /\ (h ∉ waiting_for_bufs s1))
        /\ forall cs' s2, run s1 cs' s2 ->
             (forall i s3, homa_find_client_rpc i s2 <> Done (Some h) s3)
             /\ (forall saddr port i s3,
                   homa_find_server_rpc saddr port i s2 <> Done (Some h) s3)).
Proof.
  intros Hempty Hrun.
  assert (Hok : lists_ok s)
    by (eapply run_lists_ok; [done|by apply no_rpcs_lists_ok]).
  split.
  - intros h r Hr. destruct (ok_rpc _ _ Hok _ _ Hr) as [E1 E2].
    split_and!; [done|done|].
    intros [b Hin]. destruct (ok_bucket _ _ Hok _ _ Hin) as (r' & Hr' & <-).
    by simplify_eq.
  - intros h s1 Hfree.
    assert (Hok1 : lists_ok s1)
      by (eapply step_lists_ok; [by apply step_free|done]).
    pose proof (wp_Done _ _ _ _ _ (free_spec (Some h) s) Hfree) as Hspec.
    simpl in Hspec. destruct Hspec as (r & Hr & Hspec).
    assert (Hdead : exists r1, heap s1 !! h = Some r1 /\ state r1 = RPC_DEAD).
    { case_decide as Hd; [subst; eauto|].
      destruct Hspec as (r' & HH & Hst' & _). exists r'.
      by rewrite HH, lookup_insert_eq. }
    destruct Hdead as (r1 & Hr1 & Hd1).
    assert (Hg : gone h s1).
    { split; [intros r2 Hr2; by simplify_eq|].
      apply (ok_fresh _ _ Hok1). eauto. }
    split_and!.
    + apply (lists_ok_dead _ Hok1). eauto.
    + intros Hl. by eapply linked_not_gone.
    + intros Hin. destruct (ok_rpc _ _ Hok1 _ _ Hr1) as [_ E2]. tauto.
    + eauto.
    + intros r0 Hr0 Hnd. simplify_eq. rewrite decide_False in Hspec by done.
      destruct Hspec as (r' & _ & _ & _ & _ & _ & _ & HR & HW & _).
      rewrite HR, HW, !elem_of_unlink. tauto.
    + intros cs' s2 Hrun2.
      assert (Hok2 : lists_ok s2) by (by eapply run_lists_ok).
      assert (Hg2 : gone h s2) by (by eapply run_gone).
      split.
      * intros i s3 Hfind.
        pose proof (wp_Done _ _ _ _ _ (find_client_spec i s2) Hfind)
          as [_ Hin]. simpl in Hin.
        eapply linked_not_gone; [exact Hok2| |exact Hg2]. by eexists.
      * intros saddr port i s3 Hfind.
        pose proof (wp_Done _ _ _ _ _ (find_server_spec saddr port i s2) Hfind)
          as [_ Hin]. simpl in Hin.
        eapply linked_not_gone; [exact Hok2| |exact Hg2]. by eexists.
Qed.

Lemma step_counter s c s' :
  lists_ok s -> step s c s' ->
  counter s' = counter s \/ counter s' = wrap_u64 (counter s + 2).
Proof.
  intros Hok Hstep. pose proof (lists_ok_fresh _ _ Hok) as Hfresh.
  destruct Hstep as [s dp ok pr now res s' Hrun
                    |s src hd ok pr now res s' Hrun
                    |s i res s' Hrun |s sa po i res s' Hrun
                    |s h0 s' Hrun |s rpc s' Hrun |s count uninit res s' Hrun
                    |s s' Hother].
  - pose proof (wp_Done _ _ _ _ _ (new_client_spec dp ok pr now s Hfresh) Hrun)
      as Hspec. simpl in Hspec. destruct res as [e|h1].
    + by destruct Hspec as (_ & _ & _ & Hc).
    + destruct Hspec as (r & _ & _ & _ & _ & Hc & _). by right.
  - pose proof (wp_Done _ _ _ _ _ (new_server_spec src hd ok pr now s Hfresh)
                  Hrun) as [Hc _]. by left.
  - pose proof (wp_Done _ _ _ _ _ (find_client_spec i s) Hrun)
      as [(_ & _ & _ & Hc) _]. by left.
  - pose proof (wp_Done _ _ _ _ _ (find_server_spec sa po i s) Hrun)
      as [(_ & _ & _ & Hc) _]. by left.
  - pose proof (wp_Done _ _ _ _ _ (unlock_spec h0 s) Hrun)
      as (_ & _ & _ & Hc). by left.
  - pose proof (wp_Done _ _ _ _ _ (free_spec rpc s) Hrun) as Hspec.
    simpl in Hspec. destruct rpc as [h0|]; [|subst; by left].
    destruct Hspec as (r & Hr & Hspec). case_decide; [subst; by left|].
    destruct Hspec as (r' & _ & _ & _ & _ & _ & _ & _ & _ & _ & Hc). by left.
  - pose proof (wp_Done _ _ _ _ _ (reap_reaps count uninit s) Hrun)
      as (_ & _ & _ & HK & _). left. unfold counter. by rewrite HK.
  - destruct Hother as (_ & _ & _ & _ & Hc & _). by left.
Qed.

Lemma wrap_u64_add x y : wrap_u64 (wrap_u64 x + y) = wrap_u64 (x + y).
Proof. unfold wrap_u64. by rewrite Zplus_mod_idemp_l. Qed.

Lemma run_counter s cs s' :
  run s cs s' -> lists_ok s ->
  exists k, 0 <= k <= Z.of_nat (length cs)
            /\ wrap_u64 (counter s') = wrap_u64 (counter s + 2 * k).
Proof.
  induction 1 as [s|s c s1 cs s2 Hstep Hrun IH]; intros Hok.
  - exists 0. split; [simpl; lia|]. by rewrite Z.add_0_r.
  - destruct IH as (k & Hk & Hc); [by eapply step_lists_ok|].
    destruct (step_counter _ _ _ Hok Hstep) as [Hc1|Hc1]; rewrite Hc1 in Hc.
    + exists k. split; [simpl length; lia|done].
    + exists (k + 1). split; [simpl length; lia|].
      rewrite Hc, wrap_u64_add. f_equal. lia.
Qed.

Lemma wrap_u64_even x : Z.land x 1 = 0 -> Z.land (wrap_u64 x) 1 = 0.
Proof.
  unfold wrap_u64. change 1 with (Z.ones 1). rewrite !Z.land_ones by lia.
  change (2 ^ 1) with 2. intros Hx.
  rewrite Z.mod_mod_divide; [done|].
  exists (2 ^ 63). reflexivity.
Qed.

Lemma wrap_u64_id x : 0 <= x < 2 ^ 64 -> wrap_u64 x = x.
Proof. intros Hx. unfold wrap_u64. by apply Z.mod_small. Qed.

Lemma wrap_u64_range x : 0 <= wrap_u64 x < 2 ^ 64.
Proof. unfold wrap_u64. apply Z.mod_pos_bound. lia. Qed.

Lemma even_add_twice x k : Z.land x 1 = 0 -> Z.land (x + 2 * k) 1 = 0.
Proof.
  change 1 with (Z.ones 1). rewrite !Z.land_ones by lia. change (2 ^ 1) with 2.
  intros Hx. rewrite Z.add_mod, Hx by lia.
  rewrite (Z.mul_comm 2 k), Z.mod_mul by lia. reflexivity.
Qed.

Lemma wrap_u64_distinct x k :
  0 < k < 2 ^ 63 -> wrap_u64 (x + 2 * k) <> wrap_u64 x.
Proof.
  unfold wrap_u64. intros Hk Heq.
  assert (Hd : (x + 2 * k - x) mod 2 ^ 64 = 0).
  { rewrite Zminus_mod, Heq, Z.sub_diag. reflexivity. }
  replace (x + 2 * k - x) with (2 * k) in Hd by lia.
  apply Z.mod_divide in Hd; [|lia]. destruct Hd as [q Hq].
  assert (0 < q) by nia. assert (q < 1) by nia. lia.
Qed.

Lemma run_counter_range s cs s' :
  run s cs s' -> lists_ok s -> 0 <= counter s < 2 ^ 64 ->
  0 <= counter s' < 2 ^ 64.
Proof.
  induction 1 as [s|s c s1 cs s2 Hstep Hrun IH]; intros Hok Hr; [done|].
  apply IH; [by eapply step_lists_ok|].
  destruct (step_counter _ _ _ Hok Hstep) as [-> | ->];
    [done|apply wrap_u64_range].
Qed.

Lemma cant_reap_true r :
  cant_reap r = true <->
  Z.land (flags r) RPC_CANT_REAP <> 0 \/ grants_in_progress r <> 0
  \/ mo_active_xmits (msgout r) <> 0.
Proof.
  unfold cant_reap. rewrite !orb_true_iff, !negb_true_iff, !Z.eqb_neq. tauto.
Qed.

(** C3. [homa_init] sets [next_outgoing_id] to 2; an RPC made by
    [homa_rpc_new_client] gets the value the counter had and moves the
    counter on by 2; the id has low bit 0, and two RPCs made by different
    calls, in whatever order the calls on the socket take effect, have
    different ids as long as fewer than 2^63 - 1 calls lie between them. *)
Theorem client_ids_even_distinct
    s0 cs1 s1 dp1 ok1 pr1 now1 h1 s2 cs2 s3 dp2 ok2 pr2 now2 h2 s4 :
  no_rpcs s0 -> hsk_homa s0 = homa_init ->
  run s0 cs1 s1 ->
  homa_rpc_new_client dp1 ok1 pr1 now1 s1 = Done (inr h1) s2 ->
  run s2 cs2 s3 ->
  homa_rpc_new_client dp2 ok2 pr2 now2 s3 = Done (inr h2) s4 ->
  Z.of_nat (length cs2) + 1 < 2 ^ 63 ->
  next_outgoing_id homa_init = 2
  /\ exists r1 r2,
       heap s2 !! h1 = Some r1 /\ heap s4 !! h2 = Some r2
       /\ id r1 = next_outgoing_id (hsk_homa s1)
       /\ next_outgoing_id (hsk_homa s2) = wrap_u64 (id r1 + 2)
       /\ id r2 = next_outgoing_id (hsk_homa s3)
       /\ next_outgoing_id (hsk_homa s4) = wrap_u64 (id r2 + 2)
       /\ Z.land (id r1) 1 = 0 /\ Z.land (id r2) 1 = 0
       /\ id r1 <> id r2.
Proof.
  intros Hempty Hinit Hrun1 Hnew1 Hrun2 Hnew2 Hlen. split; [done|].
  assert (Hok0 : lists_ok s0) by (by apply no_rpcs_lists_ok).
  assert (Hc0 : counter s0 = 2) by (unfold counter; by rewrite Hinit).
  assert (Hok1 : lists_ok s1) by (by eapply run_lists_ok).
  assert (Hok2 : lists_ok s2)
    by (eapply step_lists_ok; [by apply step_new_client|done]).
  assert (Hok3 : lists_ok s3) by (by eapply run_lists_ok).
  pose proof (wp_Done _ _ _ _ _
    (new_client_spec dp1 ok1 pr1 now1 s1 (lists_ok_fresh _ _ Hok1)) Hnew1)
    as (r1 & _ & _ & HH1 & Hid1 & Hc2 & _).
  pose proof (wp_Done _ _ _ _ _
    (new_client_spec dp2 ok2 pr2 now2 s3 (lists_ok_fresh _ _ Hok3)) Hnew2)
    as (r2 & _ & _ & HH2 & Hid2 & Hc4 & _).
  assert (Hr1 : 0 <= counter s1 < 2 ^ 64)
    by (eapply run_counter_range; [done|done|rewrite Hc0; lia]).
  assert (Hr3 : 0 <= counter s3 < 2 ^ 64).
  { eapply run_counter_range; [done|done|]. rewrite Hc2. apply wrap_u64_range. }
  destruct (run_counter _ _ _ Hrun1 Hok0) as (k1 & Hk1 & Hk1').
  destruct (run_counter _ _ _ Hrun2 Hok2) as (k2 & Hk2 & Hk2').
  rewrite wrap_u64_id in Hk1' by done. rewrite wrap_u64_id in Hk2' by done.
  rewrite Hc0 in Hk1'. rewrite Hc2, wrap_u64_add in Hk2'.
  exists r1, r2. fold (counter s1) (counter s2) (counter s3) (counter s4).
  rewrite Hid1, Hid2.
  split_and!; try done.
  - by rewrite HH1, lookup_insert_eq.
  - by rewrite HH2, lookup_insert_eq.
  - rewrite Hk1'. apply wrap_u64_even. replace (2 + 2 * k1) with (0 + 2 * (k1 + 1)) by lia.
    by apply even_add_twice.
  - rewrite Hk2'. apply wrap_u64_even.
    replace (counter s1 + 2 + 2 * k2) with (counter s1 + 2 * (k2 + 1)) by lia.
    apply even_add_twice. rewrite Hk1'. apply wrap_u64_even.
    replace (2 + 2 * k1) with (0 + 2 * (k1 + 1)) by lia.
    by apply even_add_twice.
  - rewrite Hk2'. intros Heq.
    replace (counter s1 + 2 + 2 * k2) with (counter s1 + 2 * (k2 + 1)) in Heq
      by lia.
    eapply (wrap_u64_distinct (counter s1) (k2 + 1)); [lia|].
    rewrite <- Heq. by rewrite wrap_u64_id.
Qed.

(** C4. A record on the dead list whose [RPC_CANT_REAP] flag is set, or
    whose [grants_in_progress] or [active_xmits] is not zero, comes out of
    every call of [homa_rpc_reap] as it went in: still allocated, with the
    same contents (its packet lists included), and still on the dead list. *)
Theorem reap_spares_blocked s count uninit res s' h r :
  heap s !! h = Some r -> h ∈ dead_rpcs s ->
  Z.land (flags r) RPC_CANT_REAP <> 0 \/ grants_in_progress r <> 0
    \/ mo_active_xmits (msgout r) <> 0 ->
  homa_rpc_reap count uninit s = Done res s' ->
  heap s' !! h = Some r /\ h ∈ dead_rpcs s'.
Proof.
  intros Hr Hin Hblocked Hrun. apply cant_reap_true in Hblocked.
  pose proof (wp_Done _ _ _ _ _ (reap_reaps count uninit s) Hrun)
    as (_ & _ & _ & _ & _ & _ & _ & Hkeep).
  destruct (Hkeep _ _ Hr Hblocked) as [Hr' Hin']. auto.
Qed.

(** C10. [homa_rpc_free] on a null pointer returns at once and leaves the
    socket as it was. *)
Theorem free_null_is_noop s : homa_rpc_free None s = Done tt s.
Proof. reflexivity. Qed.
End c1.

Section c2.
Context `{homa_impl}.

Lemma hlist_find_None p l s :
  (forall x, x ∈ l -> exists r, heap s !! x = Some r /\ p r = false) ->
  hlist_find p l s = Done None s.
Proof.
  induction l as [|h l IH]; intros Hl; simpl; [done|].
  destruct (Hl h) as (r & Hr & Hp); [left|].
  unfold bind, deref. rewrite Hr, Hp. apply IH.
  intros x Hx. apply Hl. by right.
Qed.

Lemma bind_eq {A B} (m : M A) (k : A -> M B) s a s1 :
  m s = Done a s1 -> bind m k s = k a s1.
Proof. unfold bind. by intros ->. Qed.

(** C2. When the socket is found shut down at the re-check under the
    socket lock, [homa_rpc_new_client] and [homa_rpc_new_server] return
    [-ESHUTDOWN]; the record they had allocated is freed, the locks they had
    taken are released, and no hash bucket, nor the active list, nor the
    dead list has changed. *)
Theorem shutdown_publishes_nothing s :
  shutdown s = true -> sock_locked s = false ->
  heap s !! next_handle s = None ->
  (forall dp pr now,
     lock (get_bucket (client_bucket (homa_client_rpc_bucket
             (next_outgoing_id (hsk_homa s)))) s) = false ->
     exists s', homa_rpc_new_client dp true (inr pr) now s
                = Done (inl (- ESHUTDOWN)) s' /\ unpublished s s')
  /\ (forall src hd pr now,
        let new_id := homa_local_id (sender_id hd) in
        let bkt := server_bucket (homa_server_rpc_bucket new_id) in
        lock (get_bucket bkt s) = false ->
        (forall x, x ∈ rpcs (get_bucket bkt s) ->
           exists r, heap s !! x = Some r
                     /\ server_match new_id (sport hd) src r = false) ->
        (homa_message_in_init
           {| mi_length := -1; mi_packets := []; mi_gaps := [];
              mi_num_bpages := 0; mi_bpage_offsets := [] |}
           (message_length hd) (incoming hd) (buffer_pool s)).1.1 = 0 ->
        exists s', homa_rpc_new_server src hd true (inr pr) now s
                   = Done (inl (- ESHUTDOWN), None) s' /\ unpublished s s').
Proof.
  intros Hdown Hsock Hfresh. split.
  - intros dp pr now Hlock. eexists. split.
    + unfold homa_rpc_new_client. simpl.
      unfold bind at 1. unfold kmalloc.
      unfold bind at 1. unfold atomic64_fetch_add. simpl.
      unfold bind at 1. unfold gets at 1. simpl.
      unfold bind at 1. unfold store at 1. simpl. rewrite lookup_insert_eq.
      unfold bind at 1. unfold homa_bucket_lock at 1. goal_simpl.
      rewrite Hlock.
      unfold bind at 1. unfold homa_sock_lock. goal_simpl. rewrite Hsock.
      unfold bind at 1. unfold gets. goal_simpl. rewrite Hdown.
      unfold bind at 1. unfold homa_sock_unlock, modify.
      unfold bind at 1. unfold homa_rpc_unlock. unfold bind at 1.
      unfold deref. goal_simpl.
      unfold homa_bucket_unlock, modify. simpl.
      unfold bind at 1. unfold kfree, modify. unfold ret. reflexivity.
    + unfold unpublished. goal_simpl.
      rewrite insert_insert_eq, delete_insert_eq, (delete_id _ _ Hfresh).
      split_and!; try done.
      intros b. split_bucket; [by apply bucket_unlocked_eta|done].
  - intros src hd pr now new_id bkt Hlock Hnone Hinit.
    destruct (homa_message_in_init _ _ _ _) as [[err m1] pool'] eqn:Hmi.
    simpl in Hinit. subst err.
    eexists. split.
    + unfold homa_rpc_new_server. fold new_id. fold bkt.
      unfold bind at 1. unfold homa_bucket_lock at 1. rewrite Hlock.
      unfold bind at 1. unfold gets at 1. goal_simpl.
      erewrite bind_eq; [|apply hlist_find_None; goal_simpl; exact Hnone].
      simpl.
      unfold bind at 1. unfold kmalloc.
      unfold bind at 1. unfold gets at 1. goal_simpl.
      unfold bind at 1. unfold gets at 1. goal_simpl.
      rewrite Hmi.
      unfold bind at 1. unfold store at 1. goal_simpl.
      unfold bind at 1. unfold modify at 1.
      simpl.
      unfold bind at 1. unfold homa_sock_lock. goal_simpl. rewrite Hsock.
      unfold bind at 1. unfold gets. goal_simpl. rewrite Hdown.
      unfold bind at 1. unfold homa_sock_unlock, modify.
      unfold bind at 1. unfold homa_bucket_unlock, modify.
      unfold bind at 1. unfold kfree, modify. unfold ret. reflexivity.
    + unfold unpublished. goal_simpl.
      rewrite insert_insert_eq, delete_insert_eq, (delete_id _ _ Hfresh).
      split_and!; try done.
      intros b. split_bucket; [by apply bucket_unlocked_eta|done].
Qed.
End c2.

Section c5.
Context `{homa_impl}.

Lemma collect_tx_length bs pkts : forall n skbs p n' skbs' full,
  collect_tx bs pkts n skbs = (p, n', skbs', full) ->
  (length skbs <= length skbs')%nat
  /\ (full = true -> skbs' <> []).
Proof.
  induction pkts as [|x pkts IH]; intros n skbs p n' skbs' full; simpl.
  - intros [= <- <- <- <-]. split; [lia|done].
  - destruct (bs <=? _).
    + intros [= <- <- <- <-]. rewrite length_app. simpl. split; [lia|].
      intros _. by destruct skbs.
    + intros Hrec. apply IH in Hrec as [Hlen Hfull].
      rewrite length_app in Hlen. simpl in Hlen. split; [lia|done].
Qed.

Lemma blocked_not_reapable s h : blocked s h -> ~ reapable s h.
Proof. intros (r & Hr & Hc) (r' & Hr' & Hc'). congruence. Qed.

Lemma scan_nothing bs l : forall b s,
  wp (reap_scan bs l b) (fun b' s' =>
    (length (batch_skbs b) <= length (batch_skbs b'))%nat
    /\ (length (batch_rpcs b) <= length (batch_rpcs b'))%nat
    /\ (batch_skbs b' = [] -> batch_rpcs b' = [] ->
        s' = s /\ forall h, h ∈ l -> blocked s h)) s.
Proof.
  induction l as [|h l IH]; intros b s; simpl.
  { apply wp_ret. split_and!; [lia|lia|]. intros _ _. split; [done|].
    by intros h ?%elem_of_nil. }
  apply wp_bind, wp_deref. intros r Hr.
  destruct (cant_reap r) eqn:Hcr.
  { eapply wp_mono; [apply IH|]. intros b' s' (L1 & L2 & Hn).
    split_and!; [done|done|]. intros E1 E2. destruct (Hn E1 E2) as [-> Hl].
    split; [done|]. intros x [->|Hx]%elem_of_cons; [by exists r|eauto]. }
  destruct (if 0 <=? mo_length (msgout (set_magic 0 r)) then _ else _)
    as [[[pkts n] skbs'] full] eqn:Htx.
  assert (Hlen : (length (batch_skbs b) <= length skbs')%nat
                 /\ (full = true -> skbs' <> [])).
  { destruct (0 <=? _).
    - by eapply collect_tx_length.
    - simplify_eq. split; [lia|done]. }
  destruct Hlen as [Hlen Hfull].
  destruct full.
  - wp_run. split_and!; [done|lia|]. intros E. by destruct Hfull.
  - set (r2 := set_msgout _ _).
    destruct (if 0 <=? mi_length (msgin r2) then _ else _) as [r3 rx] eqn:Hrx.
    wp_step. wp_step. wp_step. wp_step. goal_simpl.
    destruct (bs <=? _).
    + apply wp_ret. simpl. rewrite length_app. simpl.
      split_and!; [done|lia|]. intros _ E. by destruct (batch_rpcs b).
    + eapply wp_mono; [apply IH|]. simpl. intros b' s' (L1 & L2 & Hn).
      rewrite length_app in L2. simpl in L2.
      split_and!; [lia|lia|]. intros _ E. rewrite E in L2. simpl in L2. lia.
Qed.

Lemma scan_blocked bs l : forall b s,
  (forall h, h ∈ l -> blocked s h) -> reap_scan bs l b s = Done b s.
Proof.
  induction l as [|h l IH]; intros b s Hl; simpl; [done|].
  destruct (Hl h) as (r & Hr & Hc); [left|].
  unfold bind, deref. rewrite Hr, Hc. apply IH.
  intros x Hx. apply Hl. by right.
Qed.

Lemma release_rpcs_dead l : forall s,
  wp (release_rpcs l) (fun _ s' =>
    dead_rpcs s' = dead_rpcs s /\ protect_count s' = protect_count s
    /\ (l = [] -> s' = s)) s.
Proof.
  induction l as [|h l IH]; intros s; simpl; [by apply wp_ret|].
  apply wp_bind. eapply wp_mono; [apply release_rpc_spec|].
  intros [] s1 (_ & _ & HD & _ & _ & _ & _ & _ & HP).
  eapply wp_mono; [apply IH|]. intros [] s2 (HD2 & HP2 & _).
  split_and!; [congruence|congruence|done].
Qed.

Lemma loop_result fuel : forall count frees result s,
  result_ok result s \/ (fuel <> O /\ 0 < count) ->
  wp (reap_loop fuel count frees result) (fun res s' => result_ok res s') s.
Proof.
  induction fuel as [|fuel IH]; intros count frees result s Hres; simpl.
  { apply wp_ret. destruct Hres as [?|[? _]]; done. }
  destruct (0 <? count) eqn:Hcount.
  2: { apply wp_ret. destruct Hres as [?|[_ ?]]; [done|]. lia. }
  wp_step. wp_step. wp_step. wp_step. goal_simpl.
  destruct (negb (protect_count s =? 0)) eqn:Hpc.
  { wp_run. unfold result_ok. simpl. split_and!; [by left|done|].
    intros Hp. apply negb_true_iff, Z.eqb_neq in Hpc. done. }
  wp_step. wp_step. wp_step. goal_simpl.
  eapply wp_mono; [apply scan_nothing|].
  intros b s1 (_ & _ & Hnothing). simpl in Hnothing. goal_simpl.
  wp_step. wp_step. wp_step. wp_step. wp_step. wp_step. goal_simpl.
  wp_step.
  eapply wp_mono; [apply release_rpcs_dead|].
  intros [] s2 (HD2 & HP2 & Hs2). simpl in HD2, HP2. goal_simpl.
  set (res' := if negb (bool_decide (dead_rpcs s1 = [])) && _ then 1 else 0).
  destruct (res' =? 0) eqn:Hres'.
  - apply wp_ret. apply Z.eqb_eq in Hres'. rewrite Hres'.
    unfold result_ok. split_and!; [by left|done|]. intros _ _.
    subst res'. destruct (bool_decide (dead_rpcs s1 = [])) eqn:Hempty.
    { apply bool_decide_eq_true in Hempty. rewrite HD2, Hempty.
      by intros h ?%elem_of_nil. }
    simpl in Hres'. destruct (num_skbs b + num_rpcs b =? 0) eqn:Hnum;
      [|done].
    apply Z.eqb_eq in Hnum. unfold num_skbs, num_rpcs in Hnum.
    assert (Hs : batch_skbs b = [])
      by (destruct (batch_skbs b); [done|simpl in Hnum; lia]).
    assert (Hr : batch_rpcs b = [])
      by (destruct (batch_rpcs b); [done|simpl in Hnum; lia]).
    destruct (Hnothing Hs Hr) as [-> Hblocked].
    rewrite (Hs2 Hr). simpl. intros h Hin.
    apply blocked_not_reapable. destruct (Hblocked h Hin) as (r & Hr' & Hc).
    exists r. done.
  - apply IH. left. apply Z.eqb_neq in Hres'. subst res'.
    destruct (negb (bool_decide (dead_rpcs s1 = [])) && _) eqn:Hb; [|done].
    apply andb_true_iff in Hb as [Hne _].
    apply negb_true_iff, bool_decide_eq_false in Hne.
    unfold result_ok. split_and!; [by right| |done].
    intros _. by rewrite HD2.
Qed.

Lemma set_sock_locked_restore s :
  sock_locked s = false -> set_sock_locked false (set_sock_locked true s) = s.
Proof. destruct s; simpl. by intros ->. Qed.

(** What the result of [homa_rpc_reap] tells. For a positive [count],
    the call returns 0 when [protect_count] is not zero, leaving the socket
    as it was; it returns 0 when the dead list is empty or holds only
    blocked records, reaping nothing; in every case the result is 0 or 1; a
    result of 1 comes with a dead list that is not empty after the last
    batch, and a result of 0 (with [protect_count] zero) with a dead list
    of which no record can be reaped. *)
Lemma reap_result s count uninit :
  0 < count ->
  (sock_locked s = false -> protect_count s <> 0 ->
   homa_rpc_reap count uninit s = Done 0 s)
  /\ (sock_locked s = false -> protect_count s = 0 ->
      (forall h, h ∈ dead_rpcs s -> blocked s h) ->
      exists s', homa_rpc_reap count uninit s = Done 0 s'
                 /\ dead_rpcs s' = dead_rpcs s /\ heap s' = heap s)
  /\ (forall res s', homa_rpc_reap count uninit s = Done res s' ->
        (res = 0 \/ res = 1)
        /\ (res = 1 -> dead_rpcs s' <> [])
        /\ (protect_count s' = 0 -> res = 0 ->
            forall h, h ∈ dead_rpcs s' -> ~ reapable s' h)).
Proof.
  intros Hcount. unfold homa_rpc_reap.
  destruct (Z.to_nat count) as [|fuel] eqn:Hfuel; [lia|].
  split_and!.
  - intros Hlock Hpc. simpl.
    destruct (0 <? count) eqn:E; [|lia].
    unfold bind at 1. unfold homa_sock_lock. rewrite Hlock.
    unfold bind at 1. unfold gets. simpl.
    destruct (protect_count s =? 0) eqn:E2; [apply Z.eqb_eq in E2; done|].
    simpl. unfold bind, homa_sock_unlock, modify, ret.
    by rewrite set_sock_locked_restore.
  - intros Hlock Hpc Hblocked. simpl.
    destruct (0 <? count) eqn:E; [|lia].
    unfold bind at 1. unfold homa_sock_lock. rewrite Hlock.
    unfold bind at 1. unfold gets at 1. simpl. rewrite Hpc. simpl.
    unfold bind at 1. unfold gets at 1. simpl.
    erewrite bind_eq; [|apply scan_blocked; exact Hblocked].
    unfold bind at 1. unfold modify at 1.
    unfold bind at 1. unfold gets at 1. simpl.
    unfold bind at 1. unfold homa_sock_unlock at 1. unfold modify at 1.
    simpl. rewrite andb_false_r. simpl.
    eexists. split; [reflexivity|]. done.
  - intros res s' Hrun.
    refine (wp_Done _ _ _ _ _ (loop_result (S fuel) count 0 uninit s _) Hrun).
    right. split; [done|lia].
Qed.
End c5.

Section fuel.
Context `{homa_impl}.

Lemma bind_ext {A B} (m : M A) (k1 k2 : A -> M B) s :
  (forall a s', k1 a s' = k2 a s') -> bind m k1 s = bind m k2 s.
Proof. intros Hk. unfold bind. destruct (m s); auto. Qed.

Lemma BATCH_MAX_pos : 0 < BATCH_MAX.
Proof. unfold BATCH_MAX. destruct UNIT_TEST; lia. Qed.

(** Any number of batches at least [count] gives the same run: the loop of
    [homa_rpc_reap] ends by its own test, never by the bound. *)
Lemma reap_loop_fuel f1 : forall f2 count frees result s,
  (Z.to_nat count <= f1)%nat -> (Z.to_nat count <= f2)%nat ->
  reap_loop f1 count frees result s = reap_loop f2 count frees result s.
Proof.
  pose proof BATCH_MAX_pos as Hpos.
  induction f1 as [|f1 IH]; intros [|f2] count frees result s H1 H2; simpl;
    try done.
  - destruct (0 <? count) eqn:E; [lia|done].
  - destruct (0 <? count) eqn:E; [lia|done].
  - destruct (0 <? count) eqn:E; [|done].
    apply bind_ext. intros _ s1. apply bind_ext. intros pc s2.
    destruct (negb (pc =? 0)); [done|].
    apply bind_ext. intros l s3. apply bind_ext. intros b s4.
    apply bind_ext. intros _ s5. apply bind_ext. intros rest s6.
    apply bind_ext. intros _ s7. apply bind_ext. intros _ s8.
    destruct (_ =? 0); [done|]. apply IH; lia.
Qed.
End fuel.

(* ===================================================================== *)
(** ** The theorems on concrete sockets *)
(* ===================================================================== *)

(** A new socket holds no RPC. *)
Lemma new_sock_no_rpcs : no_rpcs new_sock.
Proof. split_and!; try done. intros [i|i]; reflexivity. Qed.

(** Setting a flag of an RPC is a step that other files may take. *)
Lemma hold_other_code h s : other_code s (hold h s).
Proof.
  unfold hold. destruct (heap s !! h) as [r0|] eqn:E.
  - split_and!; try reflexivity.
    + intros h'. simpl. destruct (decide (h' = h)) as [->|Hne].
      * rewrite lookup_insert_eq. split; [done|]. intros E'.
        pose proof (eq_trans (eq_sym E) E'). done.
      * by rewrite lookup_insert_ne.
    + intros h' r r' Hr. simpl. destruct (decide (h' = h)) as [->|Hne].
      * rewrite lookup_insert_eq. intros [= <-].
        pose proof (eq_trans (eq_sym E) Hr) as [= <-]. done.
      * rewrite lookup_insert_ne by done. intros Hr'.
        pose proof (eq_trans (eq_sym Hr) Hr') as [= <-]. done.
  - split_and!; try reflexivity.
    intros h' r r' Hr Hr'. pose proof (eq_trans (eq_sym Hr) Hr') as [= <-].
    done.
Qed.

(** [sock_dead] is the socket that the calls of [dead_history] leave. *)
Lemma dead_history_runs : @run example_impl new_sock dead_history sock_dead.
Proof.
  apply (run_cons _ _ sock_one);
    [apply step_new_client; vm_compute; reflexivity|].
  apply (run_cons _ _ sock_two);
    [apply step_new_client; vm_compute; reflexivity|].
  apply (run_cons _ _ (after (homa_rpc_free (Some 0%nat)) sock_two));
    [apply step_free; vm_compute; reflexivity|].
  apply (run_cons _ _ sock_free0);
    [apply step_unlock; vm_compute; reflexivity|].
  apply (run_cons _ _ (after (homa_rpc_free (Some 1%nat)) sock_free0));
    [apply step_free; vm_compute; reflexivity|].
  apply (run_cons _ _ sock_freed);
    [apply step_unlock; vm_compute; reflexivity|].
  apply (run_cons _ _ sock_dead);
    [apply step_other, (hold_other_code 1%nat sock_freed)|apply run_nil].
Qed.

(** [dead_iff_unlinked] on [sock_two], which two calls of
    [homa_rpc_new_client] produce: the first RPC is freed. *)
Lemma dead_iff_unlinked_witness :
  exists s1, homa_rpc_free (Some 0%nat) sock_two = Done tt s1
    /\ 0%nat ∈ dead_rpcs s1 /\ ~ hash_linked 0%nat s1
    /\ (0%nat ∉ active_rpcs s1)
    /\ (forall i s3,
          @homa_find_client_rpc example_impl i s1 <> Done (Some 0%nat) s3).
Proof.
  assert (Hrun : @run example_impl new_sock (take 2 dead_history) sock_two).
  { eapply run_cons; [apply step_new_client|].
    { instantiate (1 := sock_one). vm_compute. reflexivity. }
    eapply run_cons; [apply step_new_client|apply run_nil].
    vm_compute. reflexivity. }
  destruct (@dead_iff_unlinked example_impl _ _ _ new_sock_no_rpcs Hrun)
    as [_ Hfree].
  exists (after (homa_rpc_free (Some 0%nat)) sock_two).
  assert (E : homa_rpc_free (Some 0%nat) sock_two
              = Done tt (after (homa_rpc_free (Some 0%nat)) sock_two))
    by (vm_compute; reflexivity).
  destruct (Hfree _ _ E) as (H1 & H2 & H3 & _ & _ & H6).
  split_and!; [done|done|done|done|].
  intros i s3. apply (H6 [] _ (run_nil _)).
Defined.

(** [shutdown_publishes_nothing] on [sock_down]. *)
Lemma shutdown_publishes_nothing_witness :
  (exists s', @homa_rpc_new_client example_impl 99 true (inr example_peer) 0
                sock_down = Done (inl (- ESHUTDOWN)) s'
              /\ unpublished sock_down s')
  /\ (exists s', @homa_rpc_new_server example_impl 1 example_header true
                   (inr example_peer) 0 sock_down
                 = Done (inl (- ESHUTDOWN), None) s'
                 /\ unpublished sock_down s').
Proof.
  assert (Hfresh : heap sock_down !! next_handle sock_down = None)
    by (vm_compute; reflexivity).
  destruct (@shutdown_publishes_nothing example_impl sock_down
              eq_refl eq_refl Hfresh) as [Hc Hs].
  split.
  - apply Hc. vm_compute. reflexivity.
  - apply Hs.
    + vm_compute. reflexivity.
    + intros x Hx. vm_compute in Hx. by apply elem_of_nil in Hx.
    + reflexivity.
Defined.

(** [client_ids_even_distinct] for the two RPCs of [sock_two]. *)
Lemma client_ids_even_distinct_witness :
  exists r1 r2,
    heap sock_one !! 0%nat = Some r1 /\ heap sock_two !! 1%nat = Some r2
    /\ Z.land (id r1) 1 = 0 /\ Z.land (id r2) 1 = 0 /\ id r1 <> id r2.
Proof.
  assert (E1 : client_call new_sock = Done (inr 0%nat) sock_one)
    by (vm_compute; reflexivity).
  assert (E2 : client_call sock_one = Done (inr 1%nat) sock_two)
    by (vm_compute; reflexivity).
  assert (Hlen : Z.of_nat (length (@nil call)) + 1 < 2 ^ 63)
    by (vm_compute; reflexivity).
  destruct (@client_ids_even_distinct example_impl
              new_sock [] new_sock 99 true (inr example_peer) 0 0%nat
              sock_one [] sock_one 99 true (inr example_peer) 0 1%nat
              sock_two new_sock_no_rpcs eq_refl (run_nil _) E1
              (run_nil _) E2 Hlen)
    as (_ & r1 & r2 & H1 & H2 & _ & _ & _ & _ & L1 & L2 & Hne).
  exists r1, r2. by split_and!.
Defined.

(** [reap_spares_blocked] on [sock_dead]: the reaper frees the first RPC
    and keeps the second, which is held. *)
Lemma reap_spares_blocked_witness :
  exists res s' r,
    heap sock_dead !! 1%nat = Some r
    /\ @homa_rpc_reap example_impl 10 0 sock_dead = Done res s'
    /\ heap s' !! 0%nat = None
    /\ heap s' !! 1%nat = Some r /\ 1%nat ∈ dead_rpcs s'.
Proof.
  exists 1, (after (@homa_rpc_reap example_impl 10 0) sock_dead),
    (default blank_rpc (heap sock_dead !! 1%nat)).
  assert (Hr : heap sock_dead !! 1%nat
               = Some (default blank_rpc (heap sock_dead !! 1%nat)))
    by (vm_compute; reflexivity).
  assert (Hin : 1%nat ∈ dead_rpcs sock_dead)
    by (vm_compute; right; left).
  assert (Hblk :
    Z.land (flags (default blank_rpc (heap sock_dead !! 1%nat)))
      (@RPC_CANT_REAP example_impl) <> 0
    \/ grants_in_progress (default blank_rpc (heap sock_dead !! 1%nat)) <> 0
    \/ mo_active_xmits (msgout (default blank_rpc (heap sock_dead !! 1%nat)))
       <> 0)
    by (left; vm_compute; discriminate).
  assert (Hrun : @homa_rpc_reap example_impl 10 0 sock_dead
                 = Done 1 (after (@homa_rpc_reap example_impl 10 0) sock_dead))
    by (vm_compute; reflexivity).
  destruct (@reap_spares_blocked example_impl sock_dead 10 0 1
              (after (@homa_rpc_reap example_impl 10 0) sock_dead) 1%nat
              (default blank_rpc (heap sock_dead !! 1%nat))
              Hr Hin Hblk Hrun) as [H1 H2].
  split_and!; [exact Hr|exact Hrun| |exact H1|exact H2].
  vm_compute. reflexivity.
Defined.

(** C5 against the code. The comment at the head of [homa_rpc_reap] says
    that a result greater than zero means there is still more reaping work
    to be done, and C5 says the same. The socket [sock_dead], which the
    calls of [dead_history] produce, has two records on its dead list, the
    second one blocked by [RPC_CANT_REAP], and [protect_count] is zero.
    [homa_rpc_reap] with a count of 10 reaps the first record and returns
    1, though only the blocked record is left; the next call returns 0 and
    frees nothing. *)
Theorem reap_returns_1_with_only_blocked_left :
  exists s' s'',
    @run example_impl new_sock dead_history sock_dead
    /\ @homa_rpc_reap example_impl 10 0 sock_dead = Done 1 s'
    /\ dead_rpcs s' = [1%nat]
    /\ (forall h, h ∈ dead_rpcs s' -> @blocked example_impl s' h)
    /\ protect_count s' = 0
    /\ @homa_rpc_reap example_impl 10 0 s' = Done 0 s''
    /\ dead_rpcs s'' = dead_rpcs s' /\ heap s'' = heap s'.
Proof.
  exists (after (@homa_rpc_reap example_impl 10 0) sock_dead).
  exists (after (@homa_rpc_reap example_impl 10 0)
            (after (@homa_rpc_reap example_impl 10 0) sock_dead)).
  split; [apply dead_history_runs|].
  split; [vm_compute; reflexivity|].
  assert (Hd : dead_rpcs (after (@homa_rpc_reap example_impl 10 0) sock_dead)
               = [1%nat]) by (vm_compute; reflexivity).
  split; [exact Hd|]. split.
  { intros h Hh. rewrite Hd in Hh. apply list_elem_of_singleton in Hh as ->.
    eexists. split; vm_compute; reflexivity. }
  split_and!; vm_compute; reflexivity.
Qed.

(* ===================================================================== *)
(** ** The buffer pool: scans, releases and allocation *)
(* ===================================================================== *)

Lemma same_frame_refl p : same_frame p p.
Proof. by split_and!. Qed.

Lemma same_frame_trans p1 p2 p3 :
  same_frame p1 p2 -> same_frame p2 p3 -> same_frame p1 p3.
Proof.
  intros (R1 & N1 & C1) (R2 & N2 & C2). split_and!; try congruence.
  intros c. destruct (C1 c) as [<- <-]. apply C2.
Qed.

Lemma get_core_set c c' k p :
  get_core c (set_cores (<[c' := k]> (cores p)) p)
  = if decide (c = c' /\ (c' < length (cores p))%nat) then k
    else get_core c p.
Proof.
  unfold get_core. simpl. case_decide as Hd.
  - destruct Hd as [-> Hlt]. by rewrite list_lookup_insert_eq.
  - destruct (decide (c = c')) as [->|Hne].
    + rewrite list_insert_ge; [done|]. lia.
    + by rewrite list_lookup_insert_ne.
Qed.

Lemma same_frame_cursor core cur p : same_frame p (set_cursor core cur p).
Proof.
  split_and!; try done. intros c. unfold set_cursor. rewrite get_core_set.
  case_decide as Hd; [|done]. destruct Hd as [-> _]. done.
Qed.

Lemma claim_not_eligible so core now lease d now' :
  eligible now' (claim_page so core now lease d) = false.
Proof.
  unfold eligible. destruct so; simpl.
  - rewrite andb_false_r. done.
  - done.
Qed.

Lemma scan_page_spec attempts e so wanted : forall locks p res locks' p',
  scan_page attempts e so wanted locks p = (res, locks', p') ->
  scanned e so p res p'.
Proof.
  induction attempts as [|n IH]; intros locks p res locks' p'; simpl.
  { intros [= <- <- <-]. split; [apply same_frame_refl|done]. }
  set (cur := if scan_limit p wanted <=? _ then 0%nat else _).
  set (p1 := set_cursor (env_core e) (S cur) p).
  assert (Hrec : forall l, scan_page n e so wanted l p1 = (res, locks', p') ->
                           scanned e so p res p').
  { intros l Hl. apply IH in Hl. destruct Hl as (F & Hres).
    split; [|done].
    eapply same_frame_trans; [apply same_frame_cursor|exact F]. }
  change (descriptors p1) with (descriptors p).
  destruct (descriptors p !! cur) as [d|] eqn:Hd; [|apply Hrec].
  destruct (eligible (env_now e) d) eqn:Hel; [|apply Hrec].
  assert (Hclaim : forall l,
    (Some cur, l,
     set_free_bpages (claim_gauge d (free_bpages p1))
       (set_descriptors
          (<[cur := claim_page so (env_core e) (env_now e) (env_lease e) d]>
             (descriptors p)) p1)) = (res, locks', p') ->
    scanned e so p res p').
  { intros l [= <- <- <-]. split.
    - destruct (same_frame_cursor (env_core e) (S cur) p) as (R & N & C).
      by split_and!.
    - exists d. by split_and!. }
  destruct locks as [|[] locks1]; [apply Hclaim|apply Hclaim|apply Hrec].
Qed.

Lemma claimed_nil e so p : claimed e so p [] p.
Proof.
  split_and!; [apply same_frame_refl|constructor|simpl; lia|done|].
  intros i Hi. by apply elem_of_nil in Hi.
Qed.

Lemma filter_owned_ext p p' (l : list nat) :
  (forall i, i ∈ l -> descriptors p' !! i = descriptors p !! i) ->
  filter (fun i => owned p' i) l = filter (fun i => owned p i) l.
Proof.
  induction l as [|x l IH]; intros Hl; [done|].
  rewrite !filter_cons.
  assert (E : owned p' x = owned p x)
    by (unfold owned; rewrite (Hl x); [done|left]).
  rewrite E, IH; [done|]. intros i Hi. apply Hl. by right.
Qed.

Lemma claimed_cons e so p pg p1 new p' :
  scanned e so p (Some pg) p1 -> claimed e so p1 new p' ->
  claimed e so p (pg :: new) p'.
Proof.
  intros (F1 & d & Hd & Hel & D1 & G1) (F & ND & G & Hout & Hin).
  assert (Hpg : pg ∉ new).
  { intros Hpg. destruct (Hin _ Hpg) as (d' & Hd' & Hel' & _).
    rewrite D1, list_lookup_insert_eq in Hd' by (by eapply lookup_lt_Some).
    injection Hd' as <-. by rewrite claim_not_eligible in Hel'. }
  assert (Hsame : forall i, i ∈ new ->
            descriptors p1 !! i = descriptors p !! i).
  { intros i Hi. rewrite D1, list_lookup_insert_ne; [done|]. by intros <-. }
  split_and!.
  - by eapply same_frame_trans.
  - by constructor.
  - rewrite G, G1, (filter_owned_ext p p1) by done.
    assert (Eo : owned p pg = negb (owner d =? -1))
      by (unfold owned; by rewrite Hd).
    rewrite filter_cons, Eo. unfold claim_gauge.
    destruct (owner d =? -1); simpl; lia.
  - intros i Hi. apply not_elem_of_cons in Hi as [Hne Hi].
    rewrite Hout, D1 by done. by rewrite list_lookup_insert_ne.
  - intros i Hi. apply elem_of_cons in Hi as [->|Hi].
    + exists d. split_and!; try done. rewrite Hout, D1 by done.
      apply list_lookup_insert_eq. by eapply lookup_lt_Some.
    + destruct (Hin _ Hi) as (d' & Hd' & Hel' & Hp').
      exists d'. split_and!; try done. by rewrite <-Hsame.
Qed.

Lemma claimed_scanned e so so' p new p1 p2 :
  claimed e so p new p1 -> scanned e so' p1 None p2 ->
  claimed e so p new p2.
Proof.
  intros (F & ND & G & Hout & Hin) (F' & D' & G').
  split_and!; try congruence.
  - by eapply same_frame_trans.
  - intros i Hi. rewrite D'. by apply Hout.
  - intros i Hi. rewrite D'. by apply Hin.
Qed.

Lemma get_pages_loop_spec e so count : forall out locks p r out' locks' p',
  get_pages_loop count e so out locks p = (r, out', locks', p') ->
  exists new, out' = out ++ new /\ claimed e so p new p'
    /\ (r = 0 /\ length new = count \/ r = -1).
Proof.
  induction count as [|n IH]; intros out locks p r out' locks' p'.
  { intros [= <- <- <- <-]. exists []. rewrite app_nil_r.
    split_and!; [done|apply claimed_nil|by left]. }
  cbn [get_pages_loop].
  destruct (scan_page _ e so _ locks p) as [[[pg|] l1] p1] eqn:Hs;
    apply scan_page_spec in Hs.
  - intros Hl. apply IH in Hl.
    destruct Hl as (new & -> & Hc & Hr). exists (pg :: new).
    rewrite <-app_assoc. split_and!; [done| |].
    + by eapply claimed_cons.
    + simpl. destruct Hr as [[-> ->] | ->]; auto.
  - intros [= <- <- <- <-]. exists []. rewrite app_nil_r.
    split_and!; [done| |by right].
    eapply claimed_scanned; [apply claimed_nil|exact Hs].
Qed.

Lemma get_pages_spec p count so e locks r pages locks' p' :
  homa_pool_get_pages p count so e locks = (r, pages, locks', p') ->
  claimed e so p pages p'
  /\ (r = 0 /\ length pages = Z.to_nat count \/ r = -1).
Proof.
  unfold homa_pool_get_pages. destruct (free_bpages p <? count).
  - intros [= <- <- <- <-]. split; [apply claimed_nil|by right].
  - intros Hg. apply get_pages_loop_spec in Hg as (new & -> & Hc & Hr).
    done.
Qed.

Lemma get_one_spec p1 e locks r out l p2 :
  homa_pool_get_pages p1 1 true e locks = (r, out, l, p2) ->
  (exists pg, out = [pg] /\ scanned e true p1 (Some pg) p2)
  \/ (out = [] /\ scanned e true p1 None p2).
Proof.
  unfold homa_pool_get_pages.
  destruct (free_bpages p1 <? 1).
  { intros [= <- <- <- <-]. right. split; [done|].
    split; [apply same_frame_refl|done]. }
  change (Z.to_nat 1) with 1%nat. cbn [get_pages_loop].
  destruct (scan_page _ e true _ locks p1) as [[[pg|] l1] p1'] eqn:Hs;
    apply scan_page_spec in Hs; intros [= <- <- <- <-].
  - left. by exists pg.
  - by right.
Qed.

Lemma page_of_offset pg k :
  0 <= k < HOMA_BPAGE_SIZE ->
  Z.to_nat ((page_offset pg + k) / HOMA_BPAGE_SIZE) = pg.
Proof.
  intros Hk. unfold page_offset.
  rewrite (Z.add_comm _ k), Z.div_add by done.
  rewrite Z.div_small by done. lia.
Qed.

(** One release, as a function of the page the offset lies in. *)
Lemma release_offset_spec p pg k d :
  0 <= k < HOMA_BPAGE_SIZE -> descriptors p !! pg = Some d ->
  let q := release_offset p (page_offset pg + k) in
  region q = region p /\ num_bpages q = num_bpages p /\ cores q = cores p
  /\ descriptors q = <[pg := dec_refs d]> (descriptors p)
  /\ free_bpages q
     = free_bpages p + (if (refs d =? 1) && (owner d =? -1) then 1 else 0).
Proof.
  intros Hk Hd. unfold release_offset. rewrite page_of_offset by done.
  rewrite Hd. cbn [refs owner].
  replace (refs d - 1 =? 0) with (refs d =? 1)
    by (destruct (Z.eqb_spec (refs d) 1), (Z.eqb_spec (refs d - 1) 0); lia).
  destruct ((refs d =? 1) && (owner d =? -1)); simpl;
    split_and!; try done; lia.
Qed.

Lemma undo_spec pages : NoDup pages -> forall p,
  (forall i, i ∈ pages -> exists d,
     descriptors p !! i = Some d /\ refs d = 1 /\ owner d = -1) ->
  region (undo pages p) = region p
  /\ num_bpages (undo pages p) = num_bpages p
  /\ cores (undo pages p) = cores p
  /\ free_bpages (undo pages p) = free_bpages p + Z.of_nat (length pages)
  /\ (forall i, i ∉ pages ->
        descriptors (undo pages p) !! i = descriptors p !! i)
  /\ (forall i d, i ∈ pages -> descriptors p !! i = Some d ->
        descriptors (undo pages p) !! i = Some (dec_refs d)).
Proof.
  induction 1 as [|pg pages Hpg ND IH]; intros p Hin.
  { split_and!; try done; [unfold undo; simpl; lia|].
    intros i d Hi. by apply elem_of_nil in Hi. }
  destruct (Hin pg) as (d & Hd & Hr & Ho); [by left|].
  change (undo (pg :: pages) p)
    with (undo pages (release_offset p (page_offset pg))).
  assert (H0 : 0 <= 0 < HOMA_BPAGE_SIZE) by done.
  destruct (release_offset_spec p pg 0 d H0 Hd) as (R & N & C & D & F).
  rewrite Z.add_0_r in R, N, C, D, F. rewrite Hr, Ho in F. simpl in F.
  set (q := release_offset p (page_offset pg)) in *.
  destruct (IH q) as (R' & N' & C' & F' & Hout & Hin').
  { intros i Hi. destruct (Hin i) as (di & Hdi & ?); [by right|].
    exists di. split; [|done]. rewrite D, list_lookup_insert_ne; [done|].
    by intros <-. }
  split_and!; try congruence.
  - rewrite F', F. simpl length. lia.
  - intros i Hi. apply not_elem_of_cons in Hi as [Hne Hi].
    rewrite Hout, D by done. by rewrite list_lookup_insert_ne.
  - intros i di Hi Hdi. apply elem_of_cons in Hi as [->|Hi].
    + rewrite Hout, D by done. rewrite Hd in Hdi. injection Hdi as <-.
      apply list_lookup_insert_eq. by eapply lookup_lt_Some.
    + apply Hin'; [done|]. rewrite D, list_lookup_insert_ne; [done|].
      by intros <-.
Qed.

Lemma same_frame_cores p q q' :
  cores q' = cores q -> region q' = region q -> num_bpages q' = num_bpages q ->
  same_frame p q -> same_frame p q'.
Proof.
  intros C R N (R1 & N1 & C1). split_and!; try congruence.
  intros c. unfold get_core. rewrite C. apply C1.
Qed.

(** The full bpages of a message, claimed from [p] and then released in a
    pool [q] that has them as they were claimed: each is left without
    reference and without owner. *)
Lemma undo_claimed e p new p1 q :
  claimed e false p new p1 ->
  (forall i, i ∈ new -> descriptors q !! i = descriptors p1 !! i) ->
  region (undo new q) = region q
  /\ num_bpages (undo new q) = num_bpages q
  /\ cores (undo new q) = cores q
  /\ free_bpages (undo new q) = free_bpages q + Z.of_nat (length new)
  /\ (forall i, i ∉ new ->
        descriptors (undo new q) !! i = descriptors q !! i)
  /\ (forall i, i ∈ new -> exists d,
        descriptors p !! i = Some d /\ eligible (env_now e) d = true
        /\ descriptors (undo new q) !! i
           = Some {| refs := 0; owner := -1; expiration := expiration d |}).
Proof.
  intros (F & ND & G & Hout & Hin) Hq.
  destruct (undo_spec new ND q) as (R' & N' & C' & F' & Hout' & Hin').
  { intros i Hi. rewrite Hq by done.
    destruct (Hin _ Hi) as (d & _ & _ & ->). by eexists. }
  split_and!; try done. intros i Hi.
  destruct (Hin _ Hi) as (d & Hd & Hel & Hd').
  exists d. split_and!; try done.
  rewrite <-Hq in Hd' by done. by rewrite (Hin' _ _ Hi Hd').
Qed.

(** A bpage that was claimed and released is as it was if it had no owner,
    and is taken from its owner otherwise. *)
Lemma released_page e p p' i d :
  descriptors p !! i = Some d -> eligible (env_now e) d = true ->
  descriptors p' !! i
  = Some {| refs := 0; owner := -1; expiration := expiration d |} ->
  (owned p i = false /\ descriptors p' !! i = descriptors p !! i)
  \/ (owned p i = true /\ taken_from_owner e p p' i).
Proof.
  intros Hd Hel Hd'. unfold owned. rewrite Hd. unfold eligible in Hel.
  destruct (Z.eqb_spec (owner d) (-1)) as [Ho|Ho]; simpl in *.
  - left. split; [done|]. rewrite andb_true_r, orb_false_r in Hel.
    apply Z.eqb_eq in Hel. rewrite Hd'. f_equal.
    destruct d; simpl in *. by subst.
  - right. split; [done|]. rewrite andb_false_r in Hel. simpl in Hel.
    apply andb_true_iff in Hel as [He Hr].
    apply Z.leb_le in He, Hr. exists d. by split_and!.
Qed.

Lemma release_all p pages :
  region p <> 0 ->
  homa_pool_release_buffers p (Z.of_nat (length (page_offset <$> pages)))
    (page_offset <$> pages) = undo pages p.
Proof.
  intros Hr. unfold homa_pool_release_buffers.
  destruct (Z.eqb_spec (region p) 0) as [|_]; [done|].
  by rewrite Nat2Z.id, firstn_all.
Qed.

Lemma release_tail q new x :
  region q <> 0 ->
  homa_pool_release_buffers q
    (Z.of_nat (length ((page_offset <$> new) ++ [x])))
    ((page_offset <$> new) ++ [x])
  = release_offset (undo new q) x.
Proof.
  intros Hr. unfold homa_pool_release_buffers.
  destruct (Z.eqb_spec (region q) 0) as [|_]; [done|].
  by rewrite Nat2Z.id, firstn_all, foldl_app.
Qed.

Lemma given_up_not_eligible now d :
  refs d <> 1 -> eligible now (disown d) = false.
Proof.
  intros Hr. unfold eligible, disown. simpl.
  destruct (Z.eqb_spec (refs d - 1) 0); [lia|done].
Qed.

Lemma claimed_not_hint e p new p1 h d :
  claimed e false p new p1 ->
  descriptors p1 !! h = Some d -> owner d = Z.of_nat (env_core e) ->
  (h ∉ new) /\ descriptors p !! h = Some d.
Proof.
  intros (_ & _ & _ & Hout & Hin) Hd Ho.
  assert (Hh : h ∉ new).
  { intros Hh. destruct (Hin _ Hh) as (d0 & _ & _ & Hd0).
    rewrite Hd in Hd0. injection Hd0 as ->. simpl in Ho. lia. }
  split; [done|]. by rewrite <-Hout.
Qed.

(** What is left when a failed allocation has released the full bpages it
    had claimed. *)
Lemma restored_after e p new p1 q :
  claimed e false p new p1 ->
  same_frame p1 q -> free_bpages q = free_bpages p1 ->
  (forall i, i ∈ new -> descriptors q !! i = descriptors p1 !! i) ->
  (forall i, i ∉ new ->
     descriptors q !! i = descriptors p !! i \/ given_up e p q i) ->
  restored e p (undo new q).
Proof.
  intros Hc Fq Gq Hin Hout.
  destruct (undo_claimed e p new p1 q Hc Hin) as (R & N & C & G & Hu & Hr).
  destruct Hc as (F & ND & G1 & _ & _).
  split.
  { eapply same_frame_cores; [exact C|exact R|exact N|].
    by eapply same_frame_trans. }
  exists (filter (fun i => owned p i) new). split_and!.
  - by apply NoDup_filter.
  - rewrite G, Gq, G1. lia.
  - intros i Hi. apply list_elem_of_filter in Hi as [Ho Hi].
    destruct (Hr i Hi) as (d & Hd & Hel & Hd').
    destruct (released_page e p _ i d Hd Hel Hd') as [[Hn _]|[_ Ht]];
      [|done].
    rewrite Hn in Ho. done.
  - intros i Hi. destruct (decide (i ∈ new)) as [Hn|Hn].
    + destruct (Hr i Hn) as (d & Hd & Hel & Hd').
      destruct (released_page e p _ i d Hd Hel Hd') as [[_ E]|[Ho _]];
        [by left|].
      exfalso. apply Hi. apply list_elem_of_filter. by rewrite Ho.
    + rewrite Hu by done. destruct (Hout i Hn) as [E|(Hh & d & Hd & Ho & Hr1 & Hd')];
        [by left|].
      right. split; [done|]. exists d. split_and!; try done.
      by rewrite Hu.
Qed.

Lemma new_page_fails q m e offs tail_len locks err p' m' :
  new_page q m e offs tail_len locks = (Some err, p', m') ->
  err = ResourceExhausted /\ m' = m
  /\ exists q2, scanned e true q None q2
       /\ p' = homa_pool_release_buffers q2 (Z.of_nat (length offs)) offs.
Proof.
  unfold new_page.
  destruct (homa_pool_get_pages q 1 true e locks) as [[[r out] l] q2] eqn:Hg.
  apply get_one_spec in Hg.
  destruct Hg as [(pg & -> & _)|[-> Hs]]; [done|].
  intros [= <- <- <-]. split_and!; [done|done|]. by exists q2.
Qed.

Lemma new_page_succeeds q m e offs tail_len locks p' m' :
  new_page q m e offs tail_len locks = (None, p', m') ->
  exists pg q2, scanned e true q (Some pg) q2
    /\ p' = set_hint (env_core e) pg tail_len q2
    /\ m' = set_bpages (offs ++ [page_offset pg]) m.
Proof.
  unfold new_page.
  destruct (homa_pool_get_pages q 1 true e locks) as [[[r out] l] q2] eqn:Hg.
  apply get_one_spec in Hg.
  destruct Hg as [(pg & -> & Hs)|[-> Hs]]; [|done].
  intros [= <- <-]. by exists pg, q2.
Qed.

Lemma tail_start_same e p new p1 :
  claimed e false p new p1 -> tail_start e p new p1 p1.
Proof.
  intros (F & ND & G & Hout & Hin).
  split_and!; [apply same_frame_refl|done|done| |].
  - intros i Hi. left. by apply Hout.
  - intros i d Hd Hel.
    assert (Hi : i ∉ new).
    { intros Hi. destruct (Hin _ Hi) as (d0 & _ & _ & Hd0).
      rewrite Hd in Hd0. injection Hd0 as ->. by simpl in Hel. }
    split; [done|]. by rewrite <-Hout.
Qed.

Lemma tail_start_given_up e p new p1 d :
  claimed e false p new p1 ->
  let h := page_hint (get_core (env_core e) p1) in
  descriptors p1 !! h = Some d -> owner d = Z.of_nat (env_core e) ->
  refs d <> 1 ->
  tail_start e p new p1 (set_descriptor h (disown d) p1).
Proof.
  intros Hc h Hd Ho Hr.
  destruct (claimed_not_hint e p new p1 h d Hc Hd Ho) as [Hh Hdp].
  destruct Hc as (F & ND & G & Hout & Hin).
  assert (Hlt : (h < length (descriptors p1))%nat)
    by (by eapply lookup_lt_Some).
  split_and!; [by split_and!|done| | |].
  - intros i Hi. simpl. rewrite list_lookup_insert_ne; [done|].
    by intros <-.
  - intros i Hi. simpl. destruct (decide (i = h)) as [->|Hne].
    + right. split.
      { subst h. destruct F as (_ & _ & C). by destruct (C (env_core e)) as [_ ->]. }
      exists d. split_and!; try done. by apply list_lookup_insert_eq.
    + left. rewrite list_lookup_insert_ne by done. by apply Hout.
  - intros i d0 Hd0 Hel. simpl in Hd0.
    destruct (decide (i = h)) as [->|Hne].
    + rewrite list_lookup_insert_eq in Hd0 by done. injection Hd0 as <-.
      by rewrite given_up_not_eligible in Hel.
    + rewrite list_lookup_insert_ne in Hd0 by done.
      assert (Hi : i ∉ new).
      { intros Hi. destruct (Hin _ Hi) as (d1 & _ & _ & Hd1).
        rewrite Hd0 in Hd1. injection Hd1 as ->. by simpl in Hel. }
      split; [done|]. by rewrite <-Hout.
Qed.

Lemma tail_failure e p new p1 q m tail_len locks err p' m' :
  region p <> 0 -> claimed e false p new p1 -> tail_start e p new p1 q ->
  new_page q m e (page_offset <$> new) tail_len locks = (Some err, p', m') ->
  err = ResourceExhausted /\ m' = m /\ restored e p p'.
Proof.
  intros Hr Hc (Fq & Gq & Hin & Hout & _) Hn.
  apply new_page_fails in Hn as (-> & -> & q2 & (F2 & D2 & G2) & ->).
  split_and!; [done|done|].
  rewrite release_all.
  2:{ destruct F2 as (-> & _), Fq as (-> & _), Hc as ((-> & _) & _). done. }
  apply (restored_after e p new p1).
  - done.
  - by eapply same_frame_trans.
  - congruence.
  - intros i Hi. rewrite D2. by apply Hin.
  - intros i Hi. rewrite D2.
    destruct (Hout i Hi) as [E|(Hh & d & Hd & Ho & Hr1 & Hd')]; [by left|].
    right. split; [done|]. exists d. by rewrite D2.
Qed.

Lemma restored_refl e p : restored e p p.
Proof.
  split; [apply same_frame_refl|]. exists []. split_and!.
  - constructor.
  - simpl. lia.
  - intros i Hi. by apply elem_of_nil in Hi.
  - intros i _. by left.
Qed.

(** C8 (amended). A [homa_pool_allocate] that cannot obtain the bpages of
    a message returns ResourceExhausted and leaves [msgin] as it was. When
    [free_bpages] is below the number of bpages the message needs, the
    pool is untouched. When the failure comes later, every bpage claimed
    for the message has been released, and the pool is as before the call
    but for three things: a bpage that was taken from an owner whose lease
    had run out is left with neither owner nor reference, and
    [free_bpages] is higher by one for each such bpage; the hinted bpage of
    the core may have been given up; and the scan cursor has moved. *)
Theorem allocate_failure_restores p m e locks err p' m' :
  region p <> 0 ->
  homa_pool_allocate p m e locks = (Some err, p', m') ->
  err = ResourceExhausted /\ m' = m
  /\ (free_bpages p
      < mi_length m / HOMA_BPAGE_SIZE
        + (if 0 <? mi_length m mod HOMA_BPAGE_SIZE then 1 else 0) ->
      p' = p)
  /\ restored e p p'.
Proof.
  intros Hr. unfold homa_pool_allocate. cbv zeta.
  destruct (Z.ltb_spec (free_bpages p)
    (mi_length m / HOMA_BPAGE_SIZE
     + (if 0 <? mi_length m `mod` HOMA_BPAGE_SIZE then 1 else 0)))
    as [Hlt|Hge].
  { intros [= <- <- <-]. split_and!; [done|done|done|apply restored_refl]. }
  destruct (homa_pool_get_pages p _ false e locks)
    as [[[r new] locks1] p1] eqn:Hg.
  apply get_pages_spec in Hg as [Hc Hres].
  intros Hrun.
  cut (err = ResourceExhausted /\ m' = m /\ restored e p p').
  { intros (? & ? & ?). split_and!; try done. lia. }
  revert Hrun.
  destruct Hres as [[-> _] | ->]; simpl negb; cbv iota.
  2:{ intros [= <- <- <-]. split_and!; [done|done|].
      rewrite release_all.
      2:{ destruct Hc as ((-> & _) & _). done. }
      apply (restored_after e p new p1); try done.
      intros i Hi. left. destruct Hc as (_ & _ & _ & Hout & _).
      by apply Hout. }
  destruct (_ =? 0); [done|].
  unfold allocate_tail. cbv zeta.
  pose proof (tail_start_same e p new p1 Hc) as Hsame.
  destruct (descriptors p1 !! page_hint (get_core (env_core e) p1))
    as [d|] eqn:Hd;
    [|intros Hn; by apply (tail_failure _ _ _ _ _ _ _ _ _ _ _ Hr Hc Hsame Hn)].
  destruct (Z.eqb_spec (owner d) (Z.of_nat (env_core e))) as [Ho|Ho];
    [|intros Hn; by apply (tail_failure _ _ _ _ _ _ _ _ _ _ _ Hr Hc Hsame Hn)].
  assert (Hlocked : forall l,
    (if allocated (get_core (env_core e) p1)
        + mi_length m `mod` HOMA_BPAGE_SIZE <=? HOMA_BPAGE_SIZE
     then (None,
           set_hint (env_core e) (page_hint (get_core (env_core e) p1))
             (allocated (get_core (env_core e) p1)
              + mi_length m `mod` HOMA_BPAGE_SIZE)
             (set_descriptor (page_hint (get_core (env_core e) p1))
                (inc_refs d) p1),
           set_bpages
             ((page_offset <$> new)
              ++ [page_offset (page_hint (get_core (env_core e) p1))
                  + allocated (get_core (env_core e) p1)]) m)
     else if refs d =? 1
     then (None,
           set_hint (env_core e) (page_hint (get_core (env_core e) p1))
             (mi_length m `mod` HOMA_BPAGE_SIZE)
             (set_descriptor (page_hint (get_core (env_core e) p1))
                (inc_refs d) p1),
           set_bpages
             ((page_offset <$> new)
              ++ [page_offset (page_hint (get_core (env_core e) p1))]) m)
     else new_page
            (set_descriptor (page_hint (get_core (env_core e) p1))
               (disown d) p1) m e (page_offset <$> new)
            (mi_length m `mod` HOMA_BPAGE_SIZE) l)
    = (Some err, p', m') ->
    err = ResourceExhausted /\ m' = m /\ restored e p p').
  { intros l. destruct (_ <=? HOMA_BPAGE_SIZE); [done|].
    destruct (Z.eqb_spec (refs d) 1) as [|Hr1]; [done|].
    intros Hn. apply (tail_failure _ _ _ _ _ _ _ _ _ _ _ Hr Hc) in Hn; [done|].
    by apply tail_start_given_up. }
  destruct locks1 as [|[] locks2];
    [apply (Hlocked [])|apply (Hlocked locks2)|].
  intros Hn. by apply (tail_failure _ _ _ _ _ _ _ _ _ _ _ Hr Hc Hsame Hn).
Qed.

Lemma pages_of_full (new : list nat) :
  (fun off => Z.to_nat (off / HOMA_BPAGE_SIZE)) <$> (page_offset <$> new)
  = new.
Proof.
  induction new as [|x new IH]; [done|]. rewrite !fmap_cons, IH. f_equal.
  rewrite <-(Z.add_0_r (page_offset x)). by apply page_of_offset.
Qed.

(** The release that matches an allocation with a tail on bpage [t]: the
    full bpages [new] and [t] lose one reference each, nothing else
    changes, and the gauge goes up by one for each full bpage. *)
Lemma release_matched e p new p1 q t k dt :
  claimed e false p new p1 -> region q <> 0 ->
  (forall i, i ∈ new -> descriptors q !! i = descriptors p1 !! i) ->
  t ∉ new -> descriptors q !! t = Some dt -> owner dt <> -1 ->
  0 <= k < HOMA_BPAGE_SIZE ->
  let p2 := homa_pool_release_buffers q
              (Z.of_nat (length ((page_offset <$> new)
                                 ++ [page_offset t + k])))
              ((page_offset <$> new) ++ [page_offset t + k]) in
  descriptors p2 !! t = Some (dec_refs dt)
  /\ (forall i, i ∈ new -> exists d,
        descriptors p !! i = Some d /\ eligible (env_now e) d = true
        /\ descriptors q !! i
           = Some (claim_page false (env_core e) (env_now e) (env_lease e) d)
        /\ descriptors p2 !! i
           = Some {| refs := 0; owner := -1; expiration := expiration d |})
  /\ (forall i, i ∉ new -> i <> t -> descriptors p2 !! i = descriptors q !! i)
  /\ free_bpages p2 = free_bpages q + Z.of_nat (length new).
Proof.
  intros Hc Hr Hq Ht Hdt Ho Hk. cbv zeta. rewrite release_tail by done.
  destruct (undo_claimed e p new p1 q Hc Hq) as (R & N & C & G & Hu & Hrel).
  assert (Hqt : descriptors (undo new q) !! t = Some dt) by (by rewrite Hu).
  destruct (release_offset_spec _ t k dt Hk Hqt) as (_ & _ & _ & D & F).
  assert (Hlt : (t < length (descriptors (undo new q)))%nat)
    by (by eapply lookup_lt_Some).
  split_and!.
  - rewrite D. by apply list_lookup_insert_eq.
  - intros i Hi. destruct (Hrel i Hi) as (d & Hd & Hel & Hd').
    exists d. split_and!; try done.
    + rewrite Hq by done. destruct Hc as (_ & _ & _ & _ & Hin).
      destruct (Hin i Hi) as (d0 & Hd0 & _ & ->). congruence.
    + rewrite D, list_lookup_insert_ne; [done|]. by intros <-.
  - intros i Hi Hne. rewrite D, list_lookup_insert_ne by done. by apply Hu.
  - rewrite F, G.
    destruct (Z.eqb_spec (owner dt) (-1)); [done|].
    rewrite andb_false_r. lia.
Qed.

(** How a successful [allocate_tail] leaves the pool: the tail lies on a
    bpage [t] that is none of the full bpages and has the core for its
    owner; it is either the hinted bpage of before with one more reference,
    or a bpage that was eligible and is now the core's own. *)
Lemma tail_success e p new p1 m tail_len locks1 p1' m1 :
  claimed e false p new p1 ->
  0 <= allocated (get_core (env_core e) p) -> 0 < tail_len ->
  allocate_tail p1 m e (page_offset <$> new) tail_len locks1
  = (None, p1', m1) ->
  exists t k dt,
    m1 = set_bpages ((page_offset <$> new) ++ [page_offset t + k]) m
    /\ 0 <= k < HOMA_BPAGE_SIZE /\ (t ∉ new)
    /\ region p1' = region p1
    /\ descriptors p1' !! t = Some dt /\ owner dt = Z.of_nat (env_core e)
    /\ (forall i, i ∈ new -> descriptors p1' !! i = descriptors p1 !! i)
    /\ (forall i, i ∉ new -> i <> t ->
          descriptors p1' !! i = descriptors p !! i \/ given_up e p p1' i)
    /\ (descriptors p !! t = Some (dec_refs dt)
        \/ exists d, descriptors p !! t = Some d
             /\ eligible (env_now e) d = true
             /\ dec_refs dt = {| refs := 1; owner := Z.of_nat (env_core e);
                                 expiration := env_now e + env_lease e |}).
Proof.
  intros Hc Ha Htail.
  assert (Hfresh : forall q l,
    tail_start e p new p1 q ->
    new_page q m e (page_offset <$> new) tail_len l = (None, p1', m1) ->
    exists t k dt,
      m1 = set_bpages ((page_offset <$> new) ++ [page_offset t + k]) m
      /\ 0 <= k < HOMA_BPAGE_SIZE /\ (t ∉ new)
      /\ region p1' = region p1
      /\ descriptors p1' !! t = Some dt /\ owner dt = Z.of_nat (env_core e)
      /\ (forall i, i ∈ new -> descriptors p1' !! i = descriptors p1 !! i)
      /\ (forall i, i ∉ new -> i <> t ->
            descriptors p1' !! i = descriptors p !! i \/ given_up e p p1' i)
      /\ (descriptors p !! t = Some (dec_refs dt)
          \/ exists d, descriptors p !! t = Some d
               /\ eligible (env_now e) d = true
               /\ dec_refs dt
                  = {| refs := 1; owner := Z.of_nat (env_core e);
                       expiration := env_now e + env_lease e |})).
  { intros q l (Fq & Gq & Hin & Hout & Hel) Hn.
    apply new_page_succeeds in Hn
      as (pg & q2 & (F2 & d & Hd & Held & D2 & G2) & -> & ->).
    destruct (Hel pg d Hd Held) as [Hpg Hdp].
    assert (Hlt : (pg < length (descriptors q))%nat)
      by (by eapply lookup_lt_Some).
    exists pg, 0, (claim_page true (env_core e) (env_now e) (env_lease e) d).
    rewrite Z.add_0_r. do 3 (split; [done|]). split_and!; [| |done| | |].
    - simpl. destruct F2 as (-> & _), Fq as (-> & _). done.
    - simpl. rewrite D2. by apply list_lookup_insert_eq.
    - intros i Hi. simpl. rewrite D2, list_lookup_insert_ne; [by apply Hin|].
      by intros <-.
    - intros i Hi Hne. simpl. rewrite D2, list_lookup_insert_ne by done.
      destruct (Hout i Hi) as [E|(Hh & d0 & Hd0 & Ho & Hr1 & Hd0')];
        [by left|].
      right. split; [done|]. exists d0. split_and!; try done.
      simpl. by rewrite D2, list_lookup_insert_ne.
    - right. by exists d. }
  unfold allocate_tail. cbv zeta.
  pose proof (tail_start_same e p new p1 Hc) as Hsame.
  destruct (descriptors p1 !! page_hint (get_core (env_core e) p1))
    as [d|] eqn:Hd; [|by apply Hfresh].
  destruct (Z.eqb_spec (owner d) (Z.of_nat (env_core e))) as [Ho|Ho];
    [|by apply Hfresh].
  set (h := page_hint (get_core (env_core e) p1)) in *.
  destruct (claimed_not_hint e p new p1 h d Hc Hd Ho) as [Hh Hdp].
  assert (Hlt : (h < length (descriptors p1))%nat)
    by (by eapply lookup_lt_Some).
  assert (Hal : allocated (get_core (env_core e) p1)
                = allocated (get_core (env_core e) p)).
  { destruct Hc as ((_ & _ & C) & _). by destruct (C (env_core e)) as [-> _]. }
  assert (Hreuse : forall k a,
    0 <= k < HOMA_BPAGE_SIZE ->
    (@None pool_error,
     set_hint (env_core e) h a (set_descriptor h (inc_refs d) p1),
     set_bpages ((page_offset <$> new) ++ [page_offset h + k]) m)
    = (None, p1', m1) ->
    exists t k dt,
      m1 = set_bpages ((page_offset <$> new) ++ [page_offset t + k]) m
      /\ 0 <= k < HOMA_BPAGE_SIZE /\ (t ∉ new)
      /\ region p1' = region p1
      /\ descriptors p1' !! t = Some dt /\ owner dt = Z.of_nat (env_core e)
      /\ (forall i, i ∈ new -> descriptors p1' !! i = descriptors p1 !! i)
      /\ (forall i, i ∉ new -> i <> t ->
            descriptors p1' !! i = descriptors p !! i \/ given_up e p p1' i)
      /\ (descriptors p !! t = Some (dec_refs dt)
          \/ exists d, descriptors p !! t = Some d
               /\ eligible (env_now e) d = true
               /\ dec_refs dt
                  = {| refs := 1; owner := Z.of_nat (env_core e);
                       expiration := env_now e + env_lease e |})).
  { intros k a Hk [= <- <-]. exists h, k, (inc_refs d).
    do 4 (split; [done|]). split_and!; [|done| | |].
    - simpl. by apply list_lookup_insert_eq.
    - intros i Hi. simpl. rewrite list_lookup_insert_ne; [done|].
      by intros <-.
    - intros i Hi Hne. left. simpl. rewrite list_lookup_insert_ne by done.
      destruct Hc as (_ & _ & _ & Hout & _). by apply Hout.
    - left. rewrite Hdp. f_equal. unfold dec_refs, inc_refs. simpl.
      destruct d; simpl. f_equal. lia. }
  assert (Hlocked : forall l,
    (if allocated (get_core (env_core e) p1) + tail_len <=? HOMA_BPAGE_SIZE
     then (None,
           set_hint (env_core e) h
             (allocated (get_core (env_core e) p1) + tail_len)
             (set_descriptor h (inc_refs d) p1),
           set_bpages
             ((page_offset <$> new)
              ++ [page_offset h + allocated (get_core (env_core e) p1)]) m)
     else if refs d =? 1
     then (None,
           set_hint (env_core e) h tail_len
             (set_descriptor h (inc_refs d) p1),
           set_bpages ((page_offset <$> new) ++ [page_offset h]) m)
     else new_page (set_descriptor h (disown d) p1) m e
            (page_offset <$> new) tail_len l)
    = (None, p1', m1) ->
    exists t k dt,
      m1 = set_bpages ((page_offset <$> new) ++ [page_offset t + k]) m
      /\ 0 <= k < HOMA_BPAGE_SIZE /\ (t ∉ new)
      /\ region p1' = region p1
      /\ descriptors p1' !! t = Some dt /\ owner dt = Z.of_nat (env_core e)
      /\ (forall i, i ∈ new -> descriptors p1' !! i = descriptors p1 !! i)
      /\ (forall i, i ∉ new -> i <> t ->
            descriptors p1' !! i = descriptors p !! i \/ given_up e p p1' i)
      /\ (descriptors p !! t = Some (dec_refs dt)
          \/ exists d, descriptors p !! t = Some d
               /\ eligible (env_now e) d = true
               /\ dec_refs dt
                  = {| refs := 1; owner := Z.of_nat (env_core e);
                       expiration := env_now e + env_lease e |})).
  { intros l. destruct (Z.leb_spec (allocated (get_core (env_core e) p1)
                                    + tail_len) HOMA_BPAGE_SIZE) as [Hfit|_].
    { apply Hreuse. lia. }
    destruct (Z.eqb_spec (refs d) 1) as [|Hr1].
    { rewrite <-(Z.add_0_r (page_offset h)). by apply Hreuse. }
    apply Hfresh. by apply tail_start_given_up. }
  destruct locks1 as [|[] locks2];
    [apply (Hlocked [])|apply (Hlocked locks2)|by apply Hfresh].
Qed.

(** C9 (amended). Each released offset takes one reference from the
    descriptor of its bpage and leaves the owner and the lease alone;
    [free_bpages] grows by one exactly when that reference was the last one
    of a bpage without owner. The release that matches a successful
    [homa_pool_allocate] takes one reference from each bpage that the
    allocation recorded, each of which it recorded once; the gauge goes up
    by the number of full bpages of the message. After it a descriptor is
    as it was before the allocation, except that a bpage which the
    allocation made the core's own keeps the owner's reference
    ([refs = 1]), a bpage taken from an owner whose lease had run out is
    left with neither owner nor reference, and a hinted bpage that was
    given up has lost its owner and the owner's reference. *)
Theorem release_inverts_allocate p m e locks p1 m1 :
  region p <> 0 -> 0 <= allocated (get_core (env_core e) p) ->
  0 <= mi_length m ->
  homa_pool_allocate p m e locks = (None, p1, m1) ->
  let p2 := homa_pool_release_buffers p1 (mi_num_bpages m1)
              (mi_bpage_offsets m1) in
  (forall q pg k d, 0 <= k < HOMA_BPAGE_SIZE ->
     descriptors q !! pg = Some d ->
     descriptors (release_offset q (page_offset pg + k))
     = <[pg := {| refs := refs d - 1; owner := owner d;
                  expiration := expiration d |}]> (descriptors q)
     /\ free_bpages (release_offset q (page_offset pg + k))
        = free_bpages q
          + (if (refs d =? 1) && (owner d =? -1) then 1 else 0))
  /\ NoDup (pages_of m1)
  /\ (forall i d1, descriptors p1 !! i = Some d1 ->
        descriptors p2 !! i
        = Some (if bool_decide (i ∈ pages_of m1) then dec_refs d1 else d1))
  /\ free_bpages p2 = free_bpages p1 + mi_length m / HOMA_BPAGE_SIZE
  /\ given_back e p p2.
Proof.
  intros Hr Ha Hlen Hrun. cbv zeta. split.
  { intros q pg k d Hk Hpg.
    destruct (release_offset_spec q pg k d Hk Hpg) as (_ & _ & _ & D & F).
    by split. }
  revert Hrun. unfold homa_pool_allocate. cbv zeta.
  destruct (free_bpages p <? _); [done|].
  destruct (homa_pool_get_pages p _ false e locks)
    as [[[r new] locks1] p1'] eqn:Hg.
  apply get_pages_spec in Hg as [Hc Hres].
  destruct Hres as [[-> Hnew] | ->]; simpl negb; cbv iota; [|done].
  assert (Hfull : Z.of_nat (length new) = mi_length m / HOMA_BPAGE_SIZE).
  { rewrite Hnew. apply Z2Nat.id. by apply Z.div_pos. }
  pose proof Hc as (F1 & ND & G1 & Hout & Hin).
  assert (Hr1 : region p1' <> 0) by (destruct F1 as (-> & _); done).
  destruct (Z.eqb_spec (mi_length m `mod` HOMA_BPAGE_SIZE) 0) as [|Htail].
  { intros [= <- <-]. cbn [mi_num_bpages mi_bpage_offsets set_bpages].
    unfold pages_of. cbn [mi_bpage_offsets set_bpages].
    rewrite pages_of_full, release_all by done.
    destruct (undo_claimed e p new p1' p1' Hc) as (R & N & C & G & Hu & Hrel);
      [done|].
    split_and!; [done| |lia|].
    - intros i d1 Hd1. case_bool_decide as Hi.
      + destruct (Hrel i Hi) as (d & Hd & Hel & ->).
        destruct (Hin i Hi) as (d0 & Hd0 & _ & Hd0').
        rewrite Hd in Hd0. injection Hd0 as <-.
        rewrite Hd1 in Hd0'. injection Hd0' as ->. done.
      + by rewrite Hu.
    - intros i. destruct (decide (i ∈ new)) as [Hi|Hi].
      + destruct (Hrel i Hi) as (d & Hd & Hel & Hd').
        destruct (released_page e p _ i d Hd Hel Hd') as [[_ E]|[_ Ht]];
          [by left|right; right; by left].
      + left. by rewrite Hu, Hout. }
  intros Hrun.
  assert (Hpos : 0 < mi_length m `mod` HOMA_BPAGE_SIZE).
  { pose proof (Z.mod_pos_bound (mi_length m) HOMA_BPAGE_SIZE eq_refl). lia. }
  apply (tail_success e p new p1' m _ locks1 p1 m1 Hc Ha Hpos) in Hrun
    as (t & k & dt & -> & Hk & Ht & Rt & Hdt & Ho & Hq & Hrest & Htail').
  cbn [mi_num_bpages mi_bpage_offsets set_bpages]. unfold pages_of.
  cbn [mi_bpage_offsets set_bpages].
  rewrite fmap_app, pages_of_full. cbn [fmap list_fmap].
  rewrite page_of_offset by done.
  destruct (release_matched e p new p1' p1 t k dt Hc) as (Dt & Dn & Dr & G);
    try done; [congruence|lia|].
  split_and!.
  - apply NoDup_app. split_and!; [done| |apply NoDup_singleton].
    intros i Hi Hi'. apply list_elem_of_singleton in Hi' as ->. done.
  - intros i d1 Hd1. case_bool_decide as Hi.
    + apply elem_of_app in Hi as [Hi|Hi].
      * destruct (Dn i Hi) as (d & Hd & Hel & Hd' & ->).
        rewrite Hd1 in Hd'. injection Hd' as ->. done.
      * apply list_elem_of_singleton in Hi as ->. rewrite Dt. congruence.
    + apply not_elem_of_app in Hi as [Hi Hi'].
      rewrite Dr, Hd1; [done|done|]. intros ->. apply Hi'.
      by apply list_elem_of_singleton.
  - lia.
  - intros i. destruct (decide (i = t)) as [->|Hne].
    + destruct Htail' as [E|(d & Hd & Hel & E)]; [left; by rewrite Dt|].
      right. left. exists d. split_and!; try done. by rewrite Dt, E.
    + destruct (decide (i ∈ new)) as [Hi|Hi].
      * destruct (Dn i Hi) as (d & Hd & Hel & _ & Hd').
        destruct (released_page e p _ i d Hd Hel Hd') as [[_ E]|[_ Hs]];
          [by left|right; right; by left].
      * rewrite Dr by done.
        destruct (Hrest i Hi Hne) as [E|(Hh & d & Hd & Hod & Hr1' & Hd')];
          [by left|].
        right. right. right. split; [done|]. exists d.
        split_and!; try done. by rewrite Dr.
Qed.

(** The pool functions give what the unit tests expect. *)
Lemma pool_unit_tests : forallb (fun passed => passed) pool_tests = true.
Proof. vm_compute. reflexivity. Qed.

(** So does [homa_pool_init], for every least size that is above 3 bpages
    and admits the 100 of the fixture; it leaves [unit_pool 100]. *)
Lemma init_unit_tests min_pool_size :
  3 < min_pool_size <= 100 ->
  homa_pool_init min_pool_size buffer_region (100 * HOMA_BPAGE_SIZE)
    nr_cpu_ids true true = inr (unit_pool 100)
  /\ test_homa_pool_init__basics min_pool_size = true
  /\ test_homa_pool_init__region_not_page_aligned min_pool_size = true
  /\ test_homa_pool_init__region_too_small min_pool_size = true
  /\ test_homa_pool_init__cant_allocate_descriptors min_pool_size = true
  /\ test_homa_pool_init__cant_allocate_core_info min_pool_size = true.
Proof.
  intros Hmin.
  unfold test_homa_pool_init__basics,
    test_homa_pool_init__region_not_page_aligned,
    test_homa_pool_init__region_too_small,
    test_homa_pool_init__cant_allocate_descriptors,
    test_homa_pool_init__cant_allocate_core_info, homa_pool_init.
  change (buffer_region mod HOMA_BPAGE_SIZE =? 0) with true.
  change ((buffer_region + 10) mod HOMA_BPAGE_SIZE =? 0) with false.
  change HOMA_BPAGE_SIZE with 65536.
  destruct (Z.ltb_spec (100 * 65536) (min_pool_size * 65536)); [lia|].
  destruct (Z.ltb_spec (3 * 65536) (min_pool_size * 65536)); [|lia].
  simpl. split_and!; reflexivity.
Qed.




(** C7 (amended): the unit tests place the least size of a pool above 3
    bpages and at or below 100. With that size, [homa_pool_init] fails with
    InvalidArgument exactly when the region is not bpage-aligned or is
    shorter than the least size; any other region is accepted when the
    allocator supplies the descriptors and the per-core state. *)
Theorem init_invalid_argument min_pool_size rgn len ncores descs_ok cores_ok :
  test_homa_pool_init__region_too_small min_pool_size = true ->
  test_homa_pool_init__basics min_pool_size = true ->
  3 < min_pool_size <= 100
  /\ (homa_pool_init min_pool_size rgn len ncores descs_ok cores_ok
      = inl InvalidArgument
      <-> rgn mod HOMA_BPAGE_SIZE <> 0
          \/ len < min_pool_size * HOMA_BPAGE_SIZE)
  /\ (rgn mod HOMA_BPAGE_SIZE = 0 ->
      min_pool_size * HOMA_BPAGE_SIZE <= len ->
      exists p,
        homa_pool_init min_pool_size rgn len ncores true true = inr p).
Proof.
  intros Hsmall Hbasics. split_and!.
  - revert Hsmall. unfold test_homa_pool_init__region_too_small,
      homa_pool_init.
    change (buffer_region mod HOMA_BPAGE_SIZE =? 0) with true.
    change HOMA_BPAGE_SIZE with 65536.
    destruct (Z.ltb_spec (3 * 65536) (min_pool_size * 65536)); [lia|done].
  - revert Hbasics. unfold test_homa_pool_init__basics, homa_pool_init.
    change (buffer_region mod HOMA_BPAGE_SIZE =? 0) with true.
    change HOMA_BPAGE_SIZE with 65536.
    destruct (Z.ltb_spec (100 * 65536) (min_pool_size * 65536)); [done|lia].
  - unfold homa_pool_init.
    destruct (Z.eqb_spec (rgn mod HOMA_BPAGE_SIZE) 0) as [Hal|Hal];
      destruct (Z.ltb_spec len (min_pool_size * HOMA_BPAGE_SIZE))
        as [Hlt|Hge]; simpl; try (split; [auto|done]).
    split; [|intros [?|?]; [done|lia]]. by destruct descs_ok, cores_ok.
  - intros Hal Hlen. unfold homa_pool_init. rewrite Hal. simpl.
    destruct (Z.ltb_spec len (min_pool_size * HOMA_BPAGE_SIZE)); [lia|].
    by eexists.
Qed.

(* ===================================================================== *)
(** ** The buffer pool on the fixture of the unit tests *)
(* ===================================================================== *)



(** [init_invalid_argument] with a least size of 4 bpages, on a region of
    three bpages and on one of five. *)
Lemma init_invalid_argument_witness :
  homa_pool_init 4 buffer_region (3 * HOMA_BPAGE_SIZE) nr_cpu_ids true true
  = inl InvalidArgument
  /\ exists p,
       homa_pool_init 4 buffer_region (5 * HOMA_BPAGE_SIZE) nr_cpu_ids
         true true = inr p.
Proof.
  split.
  - destruct (init_invalid_argument 4 buffer_region (3 * HOMA_BPAGE_SIZE)
                nr_cpu_ids true true) as (_ & Hiff & _).
    + vm_compute. reflexivity.
    + vm_compute. reflexivity.
    + apply Hiff. right. vm_compute. reflexivity.
  - destruct (init_invalid_argument 4 buffer_region (5 * HOMA_BPAGE_SIZE)
                nr_cpu_ids true true) as (_ & _ & Hok).
    + vm_compute. reflexivity.
    + vm_compute. reflexivity.
    + apply Hok; [vm_compute; reflexivity|vm_compute; discriminate].
Defined.

(** C7, the stated bound: with a least size of 2 bpages, as C7 has it, the
    aligned region of three bpages of [homa_pool_init__region_too_small]
    is accepted, and the test, which expects EINVAL, fails. *)
Lemma region_too_small_fails_with_bound_2 :
  buffer_region mod HOMA_BPAGE_SIZE = 0
  /\ 2 * HOMA_BPAGE_SIZE <= 3 * HOMA_BPAGE_SIZE
  /\ homa_pool_init 2 buffer_region (3 * HOMA_BPAGE_SIZE) nr_cpu_ids true true
     = inr (unit_pool 3)
  /\ test_homa_pool_init__region_too_small 2 = false.
Proof. by vm_compute. Qed.

(** [allocate_failure_restores] on [contended_pool]: the pool is left with
    its region, and [msgin] as it was. *)
Lemma allocate_failure_restores_witness :
  (homa_pool_allocate contended_pool contended_msgin (core_at 1 5000)
     contended_locks).1.1 = Some ResourceExhausted
  /\ (homa_pool_allocate contended_pool contended_msgin (core_at 1 5000)
        contended_locks).2 = contended_msgin
  /\ restored (core_at 1 5000) contended_pool
       (homa_pool_allocate contended_pool contended_msgin (core_at 1 5000)
          contended_locks).1.2.
Proof.
  destruct (allocate_failure_restores contended_pool contended_msgin
              (core_at 1 5000) contended_locks ResourceExhausted
              (homa_pool_allocate contended_pool contended_msgin
                 (core_at 1 5000) contended_locks).1.2
              contended_msgin)
    as (_ & _ & _ & Hrest).
  - vm_compute. discriminate.
  - vm_compute. reflexivity.
  - split_and!; [vm_compute; reflexivity|vm_compute; reflexivity|exact Hrest].
Defined.

(** C8, the stated end state. On [contended_pool], which the pool's own
    operations produce, bpage 0 holds the reference of core 2, bpage 1 that
    of core 1 and a message, and [free_bpages] is 98. The allocation for
    [contended_msgin] takes bpage 0 from core 2, gives up bpage 1, finds no
    bpage whose lock it can get, and releases bpage 0. It returns
    ResourceExhausted with [msgin] untouched, but bpage 0 is left with
    neither owner nor reference, bpage 1 has lost its owner and a
    reference, and [free_bpages] is 99. *)
Lemma allocate_failure_after_steal :
  exists p',
    homa_pool_allocate contended_pool contended_msgin (core_at 1 5000)
      contended_locks
    = (Some ResourceExhausted, p', contended_msgin)
    /\ descriptors contended_pool !! 0%nat
       = Some {| refs := 1; owner := 2; expiration := 2000 |}
    /\ descriptors p' !! 0%nat
       = Some {| refs := 0; owner := -1; expiration := 2000 |}
    /\ descriptors contended_pool !! 1%nat
       = Some {| refs := 2; owner := 1; expiration := 2000 |}
    /\ descriptors p' !! 1%nat
       = Some {| refs := 1; owner := -1; expiration := 2000 |}
    /\ free_bpages contended_pool = 98
    /\ free_bpages p' = 99.
Proof. eexists. split; [vm_compute; reflexivity|]. by vm_compute. Qed.

(** [release_inverts_allocate] for the 150000-byte message of the unit
    tests. *)
Lemma release_inverts_allocate_witness :
  given_back unit_env (unit_pool 100)
    (homa_pool_release_buffers
       (homa_pool_allocate (unit_pool 100) (unit_msgin 150000) unit_env [])
         .1.2
       (mi_num_bpages
          (homa_pool_allocate (unit_pool 100) (unit_msgin 150000) unit_env [])
            .2)
       (mi_bpage_offsets
          (homa_pool_allocate (unit_pool 100) (unit_msgin 150000) unit_env [])
            .2)).
Proof.
  destruct (release_inverts_allocate (unit_pool 100) (unit_msgin 150000)
              unit_env []
              (homa_pool_allocate (unit_pool 100) (unit_msgin 150000)
                 unit_env []).1.2
              (homa_pool_allocate (unit_pool 100) (unit_msgin 150000)
                 unit_env []).2)
    as (_ & _ & _ & _ & Hback).
  - vm_compute. discriminate.
  - vm_compute. discriminate.
  - vm_compute. discriminate.
  - vm_compute. reflexivity.
  - exact Hback.
Defined.

(** C9, the stated end state: the two messages of the unit test
    [homa_pool_release_buffers], of 150000 and of 2000 bytes, placed on the
    fresh pool, where every [refs] is 0, and both released. Bpage 2, which
    holds the tails of both, ends with [refs = 1], the reference of its
    owner. *)
Lemma release_leaves_owner_reference :
  exists p1 m1 p2 m2,
    forallb (fun d => refs d =? 0) (descriptors (unit_pool 100)) = true
    /\ homa_pool_allocate (unit_pool 100) (unit_msgin 150000) unit_env []
       = (None, p1, m1)
    /\ homa_pool_allocate p1 (unit_msgin 2000) unit_env [] = (None, p2, m2)
    /\ refs_at 2 p2 = Some 3
    /\ refs_at 2 (homa_pool_release_buffers p2 (mi_num_bpages m1)
                    (mi_bpage_offsets m1)) = Some 2
    /\ refs_at 2 (homa_pool_release_buffers
                    (homa_pool_release_buffers p2 (mi_num_bpages m1)
                       (mi_bpage_offsets m1))
                    (mi_num_bpages m2) (mi_bpage_offsets m2)) = Some 1
    /\ owner_at 2 (homa_pool_release_buffers
                     (homa_pool_release_buffers p2 (mi_num_bpages m1)
                        (mi_bpage_offsets m1))
                     (mi_num_bpages m2) (mi_bpage_offsets m2)) = Some 1.
Proof.
  eexists _, _, _, _. split; [vm_compute; reflexivity|].
  split; [vm_compute; reflexivity|]. split; [vm_compute; reflexivity|].
  by vm_compute.
Qed.

(* ===================================================================== *)
(** ** Calls that return: lookups, creation, errors and acks *)
(* ===================================================================== *)

Lemma twp_Done {A} (m : M A) Q s :
  twp m Q s -> exists a s', m s = Done a s' /\ Q a s'.
Proof. unfold twp. destruct (m s); [eauto|done]. Qed.

Lemma twp_intro {A} (m : M A) (Q : A -> homa_sock -> Prop) s a s' :
  m s = Done a s' -> Q a s' -> twp m Q s.
Proof. unfold twp. by intros ->. Qed.

Lemma twp_mono {A} (m : M A) (Q Q' : A -> homa_sock -> Prop) s :
  twp m Q s -> (forall a s', Q a s' -> Q' a s') -> twp m Q' s.
Proof. unfold twp. intros Hm HQ. destruct (m s); eauto. Qed.

Lemma twp_wp {A} (m : M A) (Q Q' : A -> homa_sock -> Prop) s :
  twp m Q s -> wp m Q' s -> twp m (fun a s' => Q a s' /\ Q' a s') s.
Proof. unfold twp, wp. destruct (m s); [by split|done]. Qed.

Lemma twp_bind {A B} (m : M A) (k : A -> M B) Q s :
  twp m (fun a => twp (k a) Q) s -> twp (bind m k) Q s.
Proof. unfold twp, bind. by destruct (m s). Qed.

Lemma twp_ret {A} (a : A) (Q : A -> homa_sock -> Prop) s :
  Q a s -> twp (ret a) Q s.
Proof. done. Qed.

Lemma twp_gets {A} (f : homa_sock -> A) (Q : A -> homa_sock -> Prop) s :
  Q (f s) s -> twp (gets f) Q s.
Proof. done. Qed.

Lemma twp_modify f (Q : unit -> homa_sock -> Prop) s :
  Q tt (f s) -> twp (modify f) Q s.
Proof. done. Qed.

Lemma twp_deref h r (Q : homa_rpc -> homa_sock -> Prop) s :
  heap s !! h = Some r -> Q r s -> twp (deref h) Q s.
Proof. unfold twp, deref. by intros ->. Qed.

Lemma twp_store h r r0 (Q : unit -> homa_sock -> Prop) s :
  heap s !! h = Some r0 ->
  Q tt (set_heap (<[h := r]> (heap s)) (next_handle s) s) ->
  twp (store h r) Q s.
Proof. unfold twp, store. by intros ->. Qed.

Lemma twp_update h f r (Q : unit -> homa_sock -> Prop) s :
  heap s !! h = Some r ->
  Q tt (set_heap (<[h := f r]> (heap s)) (next_handle s) s) ->
  twp (update h f) Q s.
Proof.
  intros Hr HQ. unfold update. apply twp_bind. eapply twp_deref; [done|].
  by eapply twp_store.
Qed.

Lemma twp_kmalloc (Q : handle -> homa_sock -> Prop) s :
  Q (next_handle s)
    (set_heap (<[next_handle s := blank_rpc]> (heap s)) (S (next_handle s)) s) ->
  twp kmalloc Q s.
Proof. done. Qed.

Lemma twp_kfree h (Q : unit -> homa_sock -> Prop) s :
  Q tt (set_heap (delete h (heap s)) (next_handle s) s) -> twp (kfree h) Q s.
Proof. done. Qed.

Lemma twp_sock_lock (Q : unit -> homa_sock -> Prop) s :
  sock_locked s = false -> Q tt (set_sock_locked true s) ->
  twp homa_sock_lock Q s.
Proof. unfold twp, homa_sock_lock. by intros ->. Qed.

Lemma twp_sock_unlock (Q : unit -> homa_sock -> Prop) s :
  Q tt (set_sock_locked false s) -> twp homa_sock_unlock Q s.
Proof. done. Qed.

Lemma twp_bucket_lock b (Q : unit -> homa_sock -> Prop) s :
  lock (get_bucket b s) = false ->
  Q tt (put_bucket b {| lock := true; rpcs := rpcs (get_bucket b s) |} s) ->
  twp (homa_bucket_lock b) Q s.
Proof. unfold twp, homa_bucket_lock. by intros ->. Qed.

Lemma twp_bucket_unlock b (Q : unit -> homa_sock -> Prop) s :
  Q tt (put_bucket b {| lock := false; rpcs := rpcs (get_bucket b s) |} s) ->
  twp (homa_bucket_unlock b) Q s.
Proof. done. Qed.

Lemma twp_rpc_lock h r (Q : unit -> homa_sock -> Prop) s :
  heap s !! h = Some r -> lock (get_bucket (bucket r) s) = false ->
  Q tt (put_bucket (bucket r)
          {| lock := true; rpcs := rpcs (get_bucket (bucket r) s) |} s) ->
  twp (homa_rpc_lock h) Q s.
Proof.
  intros Hr Hl HQ. apply twp_bind. eapply twp_deref; [done|].
  by apply twp_bucket_lock.
Qed.

Lemma twp_rpc_unlock h r (Q : unit -> homa_sock -> Prop) s :
  heap s !! h = Some r ->
  Q tt (put_bucket (bucket r)
          {| lock := false; rpcs := rpcs (get_bucket (bucket r) s) |} s) ->
  twp (homa_rpc_unlock h) Q s.
Proof.
  intros Hr HQ. apply twp_bind. eapply twp_deref; [done|].
  by apply twp_bucket_unlock.
Qed.

Lemma twp_hlist_add_head h b (Q : unit -> homa_sock -> Prop) s :
  Q tt (put_bucket b {| lock := lock (get_bucket b s);
                        rpcs := h :: rpcs (get_bucket b s) |} s) ->
  twp (hlist_add_head h b) Q s.
Proof. done. Qed.

Lemma twp_hlist_del h (Q : unit -> homa_sock -> Prop) s :
  Q tt (set_buckets (unlink_bucket h <$> client_rpc_buckets s)
          (unlink_bucket h <$> server_rpc_buckets s) s) ->
  twp (hlist_del h) Q s.
Proof. done. Qed.

Lemma twp_fetch_add i (Q : Z -> homa_sock -> Prop) s :
  Q (next_outgoing_id (hsk_homa s))
    (set_homa (set_next_outgoing_id
                 (wrap_u64 (next_outgoing_id (hsk_homa s) + i))) s) ->
  twp (atomic64_fetch_add i) Q s.
Proof. done. Qed.

Lemma twp_hlist_find p l (Q : option handle -> homa_sock -> Prop) s :
  (forall h, h ∈ l -> is_Some (heap s !! h)) ->
  (forall res, first_match p l s res -> Q res s) ->
  twp (hlist_find p l) Q s.
Proof.
  revert Q. induction l as [|h l IH]; intros Q Hl HQ; simpl.
  - apply twp_ret, HQ. intros h Hin. by apply elem_of_nil in Hin.
  - destruct (Hl h) as [r Hr]; [left|].
    apply twp_bind. eapply twp_deref; [done|]. destruct (p r) eqn:Hp.
    + apply twp_ret, HQ. exists [], l, r. split_and!; try done.
      intros h' Hin. by apply elem_of_nil in Hin.
    + apply IH; [intros h' Hin; apply Hl; by right|].
      intros [h'|] Hres; apply HQ.
      * destruct Hres as (l1 & l2 & r' & -> & Hr' & Hp' & Hbefore).
        exists (h :: l1), l2, r'. split_and!; try done.
        intros h0 Hin. apply elem_of_cons in Hin as [->|Hin]; eauto.
      * intros h' Hin. apply elem_of_cons in Hin as [->|Hin]; eauto.
Qed.

Ltac tw_side := goal_simpl; first [eassumption | reflexivity | done | idtac].

Ltac tw_step :=
  lazymatch goal with
  | |- twp (bind _ _) _ _ => apply twp_bind
  | |- twp (ret _) _ _ => apply twp_ret
  | |- twp (gets _) _ _ => apply twp_gets
  | |- twp (modify _) _ _ => apply twp_modify
  | |- twp (deref _) _ _ => eapply twp_deref; [tw_side|]
  | |- twp (store _ _) _ _ => eapply twp_store; [tw_side|]
  | |- twp (update _ _) _ _ => eapply twp_update; [tw_side|]
  | |- twp kmalloc _ _ => apply twp_kmalloc
  | |- twp (kfree _) _ _ => apply twp_kfree
  | |- twp homa_sock_lock _ _ => apply twp_sock_lock; [tw_side|]
  | |- twp homa_sock_unlock _ _ => apply twp_sock_unlock
  | |- twp (homa_bucket_lock _) _ _ => apply twp_bucket_lock; [tw_side|]
  | |- twp (homa_bucket_unlock _) _ _ => apply twp_bucket_unlock
  | |- twp (homa_rpc_lock _) _ _ => eapply twp_rpc_lock; [tw_side|tw_side|]
  | |- twp (homa_rpc_unlock _) _ _ => eapply twp_rpc_unlock; [tw_side|]
  | |- twp (hlist_add_head _ _) _ _ => apply twp_hlist_add_head
  | |- twp (hlist_del _) _ _ => apply twp_hlist_del
  | |- twp (atomic64_fetch_add _) _ _ => apply twp_fetch_add
  end.

Ltac tw_run := repeat (tw_step; goal_simpl).

Lemma relocked_put b v s :
  relocked b v s
    (put_bucket b {| lock := v; rpcs := rpcs (get_bucket b s) |} s).
Proof.
  unfold relocked. goal_simpl. split_and!; try done.
  intros b' Hne. by rewrite get_bucket_put_ne.
Qed.

Lemma first_match_heap p l s s' res :
  heap s' = heap s -> first_match p l s' res -> first_match p l s res.
Proof. unfold first_match. by intros ->. Qed.

Lemma first_match_cons p x l s res :
  first_match p (x :: l) s res ->
  exists r, heap s !! x = Some r
    /\ if p r then res = Some x else first_match p l s res.
Proof.
  destruct res as [h|]; simpl.
  - intros (l1 & l2 & r & Hl & Hr & Hp & Hb). destruct l1 as [|y l1].
    + injection Hl as ->. exists r. by rewrite Hp.
    + injection Hl as <- ->. destruct (Hb x) as (r0 & Hr0 & Hp0); [left|].
      exists r0. rewrite Hp0. split; [done|].
      exists l1, l2, r. split_and!; try done.
      intros z Hz. apply Hb. by right.
  - intros Hn. destruct (Hn x) as (r0 & Hr0 & Hp0); [left|].
    exists r0. rewrite Hp0. split; [done|].
    intros z Hz. apply Hn. by right.
Qed.

Lemma first_match_unique p l s res res' :
  first_match p l s res -> first_match p l s res' -> res = res'.
Proof.
  revert res res'. induction l as [|x l IH]; intros res res' H1 H2.
  - destruct res as [h|], res' as [h'|]; simpl in *; try done.
    + destruct H1 as ([|??] & ? & ? & ? & _); done.
    + destruct H1 as ([|??] & ? & ? & ? & _); done.
    + destruct H2 as ([|??] & ? & ? & ? & _); done.
  - apply first_match_cons in H1 as (r1 & Hr1 & H1).
    apply first_match_cons in H2 as (r2 & Hr2 & H2).
    assert (r2 = r1) as -> by congruence.
    destruct (p r1); [congruence|by apply IH].
Qed.

Lemma wrap_int_add x y : wrap_int (wrap_int x + y) = wrap_int (x + y).
Proof.
  unfold wrap_int. f_equal.
  replace ((x + 2 ^ 31) mod 2 ^ 32 - 2 ^ 31 + y + 2 ^ 31)
    with ((x + 2 ^ 31) mod 2 ^ 32 + y) by lia.
  rewrite Z.add_mod_idemp_l by done. f_equal. lia.
Qed.

Lemma wrap_int_id x : - 2 ^ 31 <= x < 2 ^ 31 -> wrap_int x = x.
Proof. intros Hx. unfold wrap_int. rewrite Z.mod_small; lia. Qed.

Section lifecycle.
Context `{homa_impl}.

Lemma find_in_bucket b p s :
  lock (get_bucket b s) = false ->
  (forall h, h ∈ rpcs (get_bucket b s) -> is_Some (heap s !! h)) ->
  twp (homa_bucket_lock b ;;
       l <- gets (fun s => rpcs (get_bucket b s)) ;;
       found <- hlist_find p l ;;
       match found with
       | Some rpc => ret (Some rpc)
       | None => homa_bucket_unlock b ;; ret None
       end)
    (fun res s' =>
       first_match p (rpcs (get_bucket b s)) s res
       /\ relocked b (bool_decide (is_Some res)) s s') s.
Proof.
  intros Hlock Hheap. tw_run.
  apply twp_hlist_find; [goal_simpl; exact Hheap|].
  intros res Hres. apply first_match_heap with (s := s) in Hres;
    [|by goal_simpl].
  destruct res as [h|]; tw_run.
  - split; [done|]. apply (relocked_put b true).
  - split; [done|]. apply (relocked_put b false).
Qed.

Lemma find_client_exec i s :
  let b := client_bucket (homa_client_rpc_bucket i) in
  lock (get_bucket b s) = false ->
  (forall h, h ∈ rpcs (get_bucket b s) -> is_Some (heap s !! h)) ->
  exists res s', homa_find_client_rpc i s = Done res s'
    /\ first_match (fun r => id r =? i) (rpcs (get_bucket b s)) s res
    /\ relocked b (bool_decide (is_Some res)) s s'.
Proof.
  intros b Hlock Hheap. apply twp_Done. by apply find_in_bucket.
Qed.

Lemma find_server_exec i saddr port s :
  let b := server_bucket (homa_server_rpc_bucket i) in
  lock (get_bucket b s) = false ->
  (forall h, h ∈ rpcs (get_bucket b s) -> is_Some (heap s !! h)) ->
  exists res s', homa_find_server_rpc saddr port i s = Done res s'
    /\ first_match (server_match i port saddr) (rpcs (get_bucket b s)) s res
    /\ relocked b (bool_decide (is_Some res)) s s'.
Proof.
  intros b Hlock Hheap. apply twp_Done. by apply find_in_bucket.
Qed.

(** [homa_find_client_rpc] and [homa_find_server_rpc], called with the
    bucket of the id unlocked on a socket whose lists are consistent: the
    result is the first RPC of the bucket that has the key asked
    for, and the bucket is then locked; or nothing, with the bucket
    unlocked again, when no RPC of the bucket has it. Nothing else of the
    socket changes. *)
Theorem find_rpc_first_match i saddr port s :
  let cb := client_bucket (homa_client_rpc_bucket i) in
  let sb := server_bucket (homa_server_rpc_bucket i) in
  lists_ok s ->
  lock (get_bucket cb s) = false ->
  lock (get_bucket sb s) = false ->
  (exists res s', homa_find_client_rpc i s = Done res s'
     /\ first_match (fun r => id r =? i) (rpcs (get_bucket cb s)) s res
     /\ relocked cb (bool_decide (is_Some res)) s s')
  /\ (exists res s', homa_find_server_rpc saddr port i s = Done res s'
        /\ first_match (server_match i port saddr) (rpcs (get_bucket sb s))
             s res
        /\ relocked sb (bool_decide (is_Some res)) s s').
Proof.
  intros cb sb Hok Hc Hs.
  assert (Hheap : forall b h,
            h ∈ rpcs (get_bucket b s) -> is_Some (heap s !! h)).
  { intros b h Hh. destruct (ok_bucket _ _ Hok _ _ Hh) as (r & -> & _).
    eauto. }
  split.
  - apply find_client_exec; [done|apply Hheap].
  - apply find_server_exec; [done|apply Hheap].
Qed.

(** The head of a list is its first match when it passes the test. *)
Lemma first_match_head p h l s r res :
  heap s !! h = Some r -> p r = true ->
  first_match p (h :: l) s res -> res = Some h.
Proof.
  intros Hr Hp. destruct res as [h'|]; simpl.
  - intros (l1 & l2 & r' & Hl & _ & _ & Hb). destruct l1 as [|x l1].
    + by injection Hl as ->.
    + injection Hl as <- _. destruct (Hb h) as (r0 & Hr0 & Hp0); [left|].
      congruence.
  - intros Hn. destruct (Hn h) as (r0 & Hr0 & Hp0); [left|]. congruence.
Qed.

(** The successful path of [homa_rpc_new_client]. *)
Lemma new_client_creates dp pr now s :
  let i := next_outgoing_id (hsk_homa s) in
  let b := client_bucket (homa_client_rpc_bucket i) in
  heap s !! next_handle s = None -> sock_locked s = false ->
  shutdown s = false -> lock (get_bucket b s) = false ->
  twp (homa_rpc_new_client dp true (inr pr) now) (fun res s' =>
    exists r, res = inr (next_handle s)
      /\ heap s' = <[next_handle s := r]> (heap s)
      /\ next_handle s' = S (next_handle s)
      /\ id r = i /\ bucket r = b /\ state r = RPC_OUTGOING
      /\ peer r = pr /\ dport r = dp
      /\ mi_length (msgin r) = -1 /\ mo_length (msgout r) = -1
      /\ get_bucket b s'
         = {| lock := true; rpcs := next_handle s :: rpcs (get_bucket b s) |}
      /\ (forall b', b' <> b -> get_bucket b' s' = get_bucket b' s)
      /\ active_rpcs s' = active_rpcs s ++ [next_handle s]
      /\ dead_rpcs s' = dead_rpcs s
      /\ sock_locked s' = false /\ shutdown s' = false
      /\ next_outgoing_id (hsk_homa s') = wrap_u64 (i + 2)) s.
Proof.
  intros i b Hfresh Hsock Hdown Hlock. unfold homa_rpc_new_client. simpl.
  tw_run. fold i. fold b. rewrite Hdown. tw_run.
  eexists. split; [reflexivity|]. split; [by rewrite insert_insert_eq|].
  split_and!; try done. intros b' Hne. by goal_simpl.
Qed.

Lemma rpc_unlock_relocks h r s :
  heap s !! h = Some r ->
  exists s', homa_rpc_unlock h s = Done tt s'
    /\ relocked (bucket r) false s s'.
Proof.
  intros Hr.
  destruct (twp_Done (homa_rpc_unlock h)
              (fun _ s' => relocked (bucket r) false s s') s)
    as ([] & s' & E & Hrel); [|by exists s'].
  eapply twp_rpc_unlock; [done|]. apply relocked_put.
Qed.

(** A client RPC can be looked up by its id as soon as its creator has
    unlocked it: [homa_rpc_new_client] returns the new RPC with its bucket
    locked, and after [homa_rpc_unlock], [homa_find_client_rpc] on the id
    returns that very RPC. *)
Theorem new_client_then_find dp pr now s :
  let i := next_outgoing_id (hsk_homa s) in
  let b := client_bucket (homa_client_rpc_bucket i) in
  heap s !! next_handle s = None -> sock_locked s = false ->
  shutdown s = false -> lock (get_bucket b s) = false ->
  (forall h, h ∈ rpcs (get_bucket b s) -> is_Some (heap s !! h)) ->
  exists h r s1 s2 s3,
    homa_rpc_new_client dp true (inr pr) now s = Done (inr h) s1
    /\ heap s1 !! h = Some r /\ id r = i /\ state r = RPC_OUTGOING
    /\ lock (get_bucket b s1) = true
    /\ homa_rpc_unlock h s1 = Done tt s2
    /\ homa_find_client_rpc i s2 = Done (Some h) s3
    /\ heap s3 = heap s1.
Proof.
  cbv zeta. intros Hfresh Hsock Hdown Hlock Hheap.
  destruct (twp_Done _ _ _ (new_client_creates dp pr now s Hfresh Hsock Hdown
                              Hlock))
    as (res & s1 & Hnew & r & -> & Hh1 & Hn1 & Hid & Hb & Hst & _ & _ & _ & _
        & Hb1 & _).
  assert (Hr1 : heap s1 !! next_handle s = Some r)
    by (by rewrite Hh1, lookup_insert_eq).
  destruct (rpc_unlock_relocks _ _ _ Hr1) as (s2 & Hun & Hrel).
  rewrite Hb in Hrel. destruct Hrel as (Hb2 & _ & Hh2 & _).
  rewrite Hb1 in Hb2. simpl in Hb2.
  destruct (find_client_exec (next_outgoing_id (hsk_homa s)) s2)
    as (res & s3 & Hfind & Hm & Hrel3).
  { by rewrite Hb2. }
  { rewrite Hb2, Hh2, Hh1. simpl. intros h Hin.
    apply elem_of_cons in Hin as [->|Hin].
    - by rewrite lookup_insert_eq.
    - destruct (decide (h = next_handle s)) as [->|Hne].
      + by rewrite lookup_insert_eq.
      + rewrite lookup_insert_ne by done. by apply Hheap. }
  rewrite Hb2 in Hm. simpl in Hm.
  apply (first_match_head _ _ _ _ r) in Hm as ->.
  - exists (next_handle s), r, s1, s2, s3. split_and!; try done.
    + by rewrite Hb1.
    + destruct Hrel3 as (_ & _ & -> & _). done.
  - by rewrite Hh2.
  - by apply Z.eqb_eq.
Qed.

(** [homa_rpc_new_server] when the bucket already holds an RPC for the
    packet: the first such RPC is returned, [*created] is 0, and only the
    lock of the bucket has changed. *)
Lemma new_server_existing src hd ok pr now s h :
  let new_id := homa_local_id (sender_id hd) in
  let b := server_bucket (homa_server_rpc_bucket new_id) in
  lock (get_bucket b s) = false ->
  (forall x, x ∈ rpcs (get_bucket b s) -> is_Some (heap s !! x)) ->
  first_match (server_match new_id (sport hd) src) (rpcs (get_bucket b s)) s
    (Some h) ->
  exists s', homa_rpc_new_server src hd ok pr now s
             = Done (inr h, Some 0) s'
    /\ relocked b true s s'.
Proof.
  cbv zeta. intros Hlock Hheap Hm.
  destruct (twp_Done (homa_rpc_new_server src hd ok pr now)
              (fun res s' => res = (inr h, Some 0)
                 /\ relocked (server_bucket (homa_server_rpc_bucket
                                 (homa_local_id (sender_id hd)))) true s s') s)
    as (res & s' & E & -> & Hrel); [|by exists s'].
  unfold homa_rpc_new_server. tw_run.
  apply twp_hlist_find; [by goal_simpl|].
  intros res Hres. apply first_match_heap with (s := s) in Hres;
    [|by goal_simpl].
  assert (res = Some h) as -> by (by eapply first_match_unique).
  tw_run. split; [done|]. apply (relocked_put _ true).
Qed.

(** The successful path of [homa_rpc_new_server]. *)
Lemma new_server_creates src hd pr now s :
  let new_id := homa_local_id (sender_id hd) in
  let b := server_bucket (homa_server_rpc_bucket new_id) in
  heap s !! next_handle s = None -> sock_locked s = false ->
  shutdown s = false -> lock (get_bucket b s) = false ->
  (forall x, x ∈ rpcs (get_bucket b s) -> is_Some (heap s !! x)) ->
  first_match (server_match new_id (sport hd) src) (rpcs (get_bucket b s)) s
    None ->
  (homa_message_in_init no_msgin (message_length hd) (incoming hd)
     (buffer_pool s)).1.1 = 0 ->
  twp (homa_rpc_new_server src hd true (inr pr) now) (fun res s' =>
    exists r, res = (inr (next_handle s), Some 1)
      /\ heap s' = <[next_handle s := r]> (heap s)
      /\ next_handle s' = S (next_handle s)
      /\ id r = new_id /\ bucket r = b /\ state r = RPC_INCOMING
      /\ peer r = pr /\ dport r = sport hd
      /\ get_bucket b s'
         = {| lock := true; rpcs := next_handle s :: rpcs (get_bucket b s) |}
      /\ (forall b', b' <> b -> get_bucket b' s' = get_bucket b' s)
      /\ active_rpcs s' = active_rpcs s ++ [next_handle s]
      /\ dead_rpcs s' = dead_rpcs s
      /\ sock_locked s' = false /\ shutdown s' = false) s.
Proof.
  cbv zeta. intros Hfresh Hsock Hdown Hlock Hheap Hnone Hinit.
  unfold homa_rpc_new_server. tw_run.
  apply twp_hlist_find; [by goal_simpl|].
  intros res Hres. apply first_match_heap with (s := s) in Hres;
    [|by goal_simpl].
  assert (res = None) as -> by (by eapply first_match_unique).
  simpl. tw_run. fold no_msgin.
  destruct (homa_message_in_init _ _ _ _) as [[err m1] pool'] eqn:Hmi.
  simpl in Hinit. subst err. tw_run. rewrite Hdown.
  destruct ((seg_offset hd =? 0) && (0 <? mi_num_bpages m1)); tw_run.
  all: eexists; split; [reflexivity|];
    split; [by rewrite ?insert_insert_eq|];
    split_and!; try done; intros b' Hne; by goal_simpl.
Qed.

(** A server RPC is created once: when [homa_rpc_new_server] has made the
    RPC for a packet and the RPC has been unlocked, a second call for the
    same sender id, port and address returns that RPC with [*created = 0]
    and allocates nothing, and [homa_find_server_rpc] finds it. [pr], the
    peer that [homa_peer_find] gave for [src], has the address [src]. *)
Theorem new_server_twice src hd pr now ok' pr' now' s :
  let new_id := homa_local_id (sender_id hd) in
  let b := server_bucket (homa_server_rpc_bucket new_id) in
  heap s !! next_handle s = None -> sock_locked s = false ->
  shutdown s = false -> lock (get_bucket b s) = false ->
  (forall x, x ∈ rpcs (get_bucket b s) -> is_Some (heap s !! x)) ->
  first_match (server_match new_id (sport hd) src) (rpcs (get_bucket b s)) s
    None ->
  (homa_message_in_init no_msgin (message_length hd) (incoming hd)
     (buffer_pool s)).1.1 = 0 ->
  addr pr = src ->
  exists h s1 s2 s3 s4,
    homa_rpc_new_server src hd true (inr pr) now s = Done (inr h, Some 1) s1
    /\ homa_rpc_unlock h s1 = Done tt s2
    /\ homa_rpc_new_server src hd ok' pr' now' s2 = Done (inr h, Some 0) s3
    /\ relocked b true s2 s3
    /\ homa_find_server_rpc src (sport hd) new_id s2 = Done (Some h) s4.
Proof.
  cbv zeta. intros Hfresh Hsock Hdown Hlock Hheap Hnone Hinit Haddr.
  destruct (twp_Done _ _ _ (new_server_creates src hd pr now s Hfresh Hsock
                              Hdown Hlock Hheap Hnone Hinit))
    as (res & s1 & Hnew & r & -> & Hh1 & Hn1 & Hid & Hb & Hst & Hpeer & Hport
        & Hb1 & _).
  assert (Hr1 : heap s1 !! next_handle s = Some r)
    by (by rewrite Hh1, lookup_insert_eq).
  destruct (rpc_unlock_relocks _ _ _ Hr1) as (s2 & Hun & Hrel).
  rewrite Hb in Hrel. destruct Hrel as (Hb2 & _ & Hh2 & _).
  rewrite Hb1 in Hb2. simpl in Hb2.
  assert (Hlock2 : lock (get_bucket (server_bucket (homa_server_rpc_bucket
            (homa_local_id (sender_id hd)))) s2) = false) by (by rewrite Hb2).
  assert (Hheap2 : forall x,
    x ∈ rpcs (get_bucket (server_bucket (homa_server_rpc_bucket
            (homa_local_id (sender_id hd)))) s2) -> is_Some (heap s2 !! x)).
  { rewrite Hb2, Hh2, Hh1. simpl. intros x Hin.
    destruct (decide (x = next_handle s)) as [->|Hne].
    - by rewrite lookup_insert_eq.
    - rewrite lookup_insert_ne by done. apply Hheap.
      apply elem_of_cons in Hin as [?|?]; done. }
  assert (Hm2 : first_match
    (server_match (homa_local_id (sender_id hd)) (sport hd) src)
    (rpcs (get_bucket (server_bucket (homa_server_rpc_bucket
            (homa_local_id (sender_id hd)))) s2)) s2 (Some (next_handle s))).
  { rewrite Hb2. simpl. eexists [], _, r. split_and!; [done|by rewrite Hh2| |].
    - unfold server_match. rewrite Hid, Hport, Hpeer, Haddr, !Z.eqb_refl. done.
    - intros x Hx. by apply elem_of_nil in Hx. }
  destruct (new_server_existing src hd ok' pr' now' s2 _ Hlock2 Hheap2 Hm2)
    as (s3 & Hnew2 & Hrel3).
  destruct (find_server_exec (homa_local_id (sender_id hd)) src
              (sport hd) s2 Hlock2 Hheap2)
    as (res & s4 & Hfind & Hm & _).
  assert (res = Some (next_handle s)) as ->
    by (by eapply first_match_unique).
  by exists (next_handle s), s1, s2, s3, s4.
Qed.

(** The error returns of [homa_rpc_new_client] before the socket is
    looked at. When [kmalloc] fails the result is [-ENOMEM] and the socket
    is untouched. When [homa_peer_find] fails its error is returned, the
    record is freed and no list or lock has changed, but the id has been
    drawn: [next_outgoing_id] has moved on by 2. *)
Theorem new_client_errors dp peer_res err now s :
  heap s !! next_handle s = None ->
  homa_rpc_new_client dp false peer_res now s = Done (inl (- ENOMEM)) s
  /\ exists s', homa_rpc_new_client dp true (inl err) now s
                = Done (inl err) s'
       /\ unpublished s s'
       /\ next_outgoing_id (hsk_homa s')
          = wrap_u64 (next_outgoing_id (hsk_homa s) + 2).
Proof.
  intros Hfresh. split; [done|].
  destruct (twp_Done (homa_rpc_new_client dp true (inl err) now)
    (fun res s' => res = inl err /\ unpublished s s'
       /\ next_outgoing_id (hsk_homa s')
          = wrap_u64 (next_outgoing_id (hsk_homa s) + 2)) s)
    as (res & s' & E & -> & Hu & Hc); [|by exists s'].
  unfold homa_rpc_new_client. simpl. tw_run.
  unfold unpublished. goal_simpl.
  rewrite delete_insert_eq, (delete_id _ _ Hfresh). by split_and!.
Qed.

(** The error returns of [homa_rpc_new_server] other than the shutdown:
    [kmalloc] fails, [homa_peer_find] fails, or [homa_message_in_init]
    fails. The error is returned, [*created] is not written, the record (if
    any) is freed, the bucket is unlocked again, and no list has changed. *)
Theorem new_server_errors src hd ok (peer_res : Z + homa_peer) now s :
  let new_id := homa_local_id (sender_id hd) in
  let b := server_bucket (homa_server_rpc_bucket new_id) in
  let init pool := homa_message_in_init no_msgin (message_length hd)
                     (incoming hd) pool in
  let err :=
    if negb ok then Some (- ENOMEM)
    else match peer_res with
         | inl e => Some e
         | inr _ => if (init (buffer_pool s)).1.1 =? 0 then None
                    else Some (init (buffer_pool s)).1.1
         end in
  heap s !! next_handle s = None -> lock (get_bucket b s) = false ->
  (forall x, x ∈ rpcs (get_bucket b s) -> is_Some (heap s !! x)) ->
  first_match (server_match new_id (sport hd) src) (rpcs (get_bucket b s)) s
    None ->
  forall e, err = Some e ->
  exists s', homa_rpc_new_server src hd ok peer_res now s
             = Done (inl e, None) s'
    /\ unpublished s s'
    /\ next_outgoing_id (hsk_homa s') = next_outgoing_id (hsk_homa s).
Proof.
  cbv zeta. intros Hfresh Hlock Hheap Hnone e He.
  destruct (twp_Done (homa_rpc_new_server src hd ok peer_res now)
    (fun res s' => res = (inl e, None) /\ unpublished s s'
       /\ next_outgoing_id (hsk_homa s') = next_outgoing_id (hsk_homa s)) s)
    as (res & s' & E & -> & Hu & Hc); [|by exists s'].
  unfold homa_rpc_new_server. tw_run.
  apply twp_hlist_find; [by goal_simpl|].
  intros res Hres. apply first_match_heap with (s := s) in Hres;
    [|by goal_simpl].
  assert (res = None) as -> by (by eapply first_match_unique).
  simpl. destruct ok; simpl in *.
  2:{ injection He as <-. tw_run. unfold unpublished. goal_simpl.
      split_and!; try done.
      intros b. split_bucket; [by apply bucket_unlocked_eta|done]. }
  destruct peer_res as [e0|pr].
  { injection He as <-. tw_run. unfold unpublished. goal_simpl.
    rewrite delete_insert_eq, (delete_id _ _ Hfresh).
    split_and!; try done.
    intros b. split_bucket; [by apply bucket_unlocked_eta|done]. }
  tw_run. fold no_msgin.
  destruct (homa_message_in_init _ _ _ _) as [[e1 m1] pool'] eqn:Hmi.
  simpl in He. destruct e1 as [|p|p]; [done|..]; injection He as <-.
  all: tw_run; unfold unpublished; goal_simpl.
  all: rewrite insert_insert_eq, delete_insert_eq, (delete_id _ _ Hfresh).
  all: split_and!; try done.
  all: intros b; split_bucket; [by apply bucket_unlocked_eta|done].
Qed.
End lifecycle.

Lemma free_exec h r s :
  heap s !! h = Some r -> state r <> RPC_DEAD -> sock_locked s = false ->
  twp (homa_rpc_free (Some h)) (fun _ s' => exists r',
       heap s' = <[h := r']> (heap s)
       /\ state r' = RPC_DEAD /\ bucket r' = bucket r
       /\ mi_packets (msgin r') = mi_packets (msgin r)
       /\ mo_packets (msgout r') = mo_packets (msgout r)
       /\ dead_skbs s' = wrap_int (dead_skbs s + dead_count r)
       /\ max_dead_buffs (hsk_homa s')
          = Z.max (max_dead_buffs (hsk_homa s)) (dead_skbs s')
       /\ sock_locked s' = false
       /\ (forall b, get_bucket b s' = unlink_bucket h (get_bucket b s))
       /\ active_rpcs s' = unlink h (active_rpcs s)
       /\ dead_rpcs s' = dead_rpcs s ++ [h]
       /\ msgout r' = msgout r /\ flags r' = flags r
       /\ grants_in_progress r' = grants_in_progress r
       /\ mi_length (msgin r') = mi_length (msgin r)
       /\ protect_count s' = protect_count s) s.
Proof.
  intros Hr Hst Hsock.
  unfold homa_rpc_free. apply twp_bind. eapply twp_deref; [done|].
  rewrite decide_False by done. unfold dead_count.
  tw_run. destruct (interest r) as [i|]; tw_run.
  all: destruct (0 <=? mi_length (msgin r)) eqn:Hin; tw_run.
  all: rewrite ?insert_insert_eq, ?wrap_int_add, ?Z.add_0_l.
  all: repeat (case_match; goal_simpl).
  all: eexists; split; [reflexivity|]; split_and!; try done; try lia.
  all: first [by intros b; goal_simpl | f_equal; lia].
Qed.

(** [homa_rpc_free] on a live RPC only makes it inaccessible: the record
    stays allocated with every packet of its two messages; the length of
    the incoming queue (when the incoming message has a length) and
    [num_skbs] of the outgoing message are added to [dead_skbs], and
    [max_dead_buffs] is raised to [dead_skbs] if it was below. A second
    [homa_rpc_free] on the RPC changes nothing. *)
Theorem free_keeps_packets h r s :
  heap s !! h = Some r -> state r <> RPC_DEAD -> sock_locked s = false ->
  exists r' s',
    homa_rpc_free (Some h) s = Done tt s'
    /\ heap s' = <[h := r']> (heap s)
    /\ state r' = RPC_DEAD
    /\ mi_packets (msgin r') = mi_packets (msgin r)
    /\ mo_packets (msgout r') = mo_packets (msgout r)
    /\ dead_skbs s' = wrap_int (dead_skbs s + dead_count r)
    /\ max_dead_buffs (hsk_homa s')
       = Z.max (max_dead_buffs (hsk_homa s)) (dead_skbs s')
    /\ sock_locked s' = false
    /\ homa_rpc_free (Some h) s' = Done tt s'.
Proof.
  intros Hr Hst Hsock.
  destruct (twp_Done _ _ _ (free_exec h r s Hr Hst Hsock))
    as ([] & s' & E & r' & Hh & Hd & Hrest).
  exists r', s'. split_and!; try tauto.
  unfold homa_rpc_free, bind, deref. rewrite Hh, lookup_insert_eq.
  by rewrite decide_True.
Qed.

Section acked.
Context `{homa_impl}.

(** [homa_rpc_acked] frees the server RPC that the ack names, if the
    socket still has it, and holds no lock when it returns; without such an
    RPC, or without a socket for the port, nothing changes. The linkage
    invariant of the socket is kept. *)
Theorem acked_frees saddr client_id client_port s :
  let i := homa_local_id client_id in
  let b := server_bucket (homa_server_rpc_bucket i) in
  lists_ok s -> sock_locked s = false -> lock (get_bucket b s) = false ->
  homa_rpc_acked false saddr client_id client_port s = Done tt s
  /\ exists res s',
      first_match (server_match i client_port saddr) (rpcs (get_bucket b s))
        s res
      /\ homa_rpc_acked true saddr client_id client_port s = Done tt s'
      /\ lists_ok s' /\ sock_locked s' = false
      /\ (forall b', lock (get_bucket b' s') = lock (get_bucket b' s))
      /\ match res with
         | Some h =>
             dead_rpcs s' = dead_rpcs s ++ [h]
             /\ active_rpcs s' = unlink h (active_rpcs s)
             /\ ~ hash_linked h s'
             /\ (exists r, heap s' !! h = Some r /\ state r = RPC_DEAD)
         | None => relocked b false s s'
         end.
Proof.
  cbv zeta. intros Hok Hsock Hlock. split; [done|].
  assert (Hheap : forall x,
    x ∈ rpcs (get_bucket (server_bucket (homa_server_rpc_bucket
                            (homa_local_id client_id))) s) ->
    is_Some (heap s !! x)).
  { intros x Hx. destruct (ok_bucket _ _ Hok _ _ Hx) as (r & -> & _). eauto. }
  destruct (find_server_exec (homa_local_id client_id) saddr
              client_port s Hlock Hheap)
    as (res & s1 & Hfind & Hm & Hrel).
  assert (Hok1 : lists_ok s1)
    by (eapply step_lists_ok; [by apply step_find_server|done]).
  exists res. unfold homa_rpc_acked. cbn [negb]. cbv zeta.
  rewrite (bind_eq _ _ _ _ _ Hfind).
  destruct res as [h|].
  2:{ exists s1. split_and!; try done.
      - by destruct Hrel as (_ & _ & _ & _ & _ & -> & _).
      - intros b'. destruct Hrel as (Hb & Hb' & _).
        destruct (decide (b' = server_bucket (homa_server_rpc_bucket
                                  (homa_local_id client_id)))) as [->|Hne].
        + by rewrite Hb, Hlock.
        + by rewrite Hb'. }
  pose proof Hm as (l1 & l2 & r & Hl & Hr & Hp & _).
  assert (Hin : h ∈ rpcs (get_bucket (server_bucket (homa_server_rpc_bucket
                                  (homa_local_id client_id))) s))
    by (rewrite Hl; apply elem_of_app; right; left).
  destruct (ok_bucket _ _ Hok _ _ Hin) as (r0 & Hr0 & Hbk).
  assert (r0 = r) as -> by congruence.
  assert (Hlive : state r <> RPC_DEAD).
  { destruct (ok_rpc _ _ Hok _ _ Hr) as [E1 E2]. apply E2, E1.
    by rewrite Hbk. }
  destruct Hrel as (Hb1 & Hb1' & Hh1 & _ & _ & Hs1 & _ & _ & _ & Ha1 & Hd1 & _).
  assert (Hr1 : heap s1 !! h = Some r) by (by rewrite Hh1).
  assert (Hsock1 : sock_locked s1 = false) by (by rewrite Hs1).
  destruct (twp_Done _ _ _ (free_exec h r s1 Hr1 Hlive Hsock1))
    as ([] & s2 & Hfree & r' & Hh2 & Hd & Hbk' & _ & _ & _ & _ & Hs2 & Hb2
        & Ha2 & Hd2 & _).
  assert (Hok2 : lists_ok s2)
    by (eapply step_lists_ok; [by apply step_free|done]).
  assert (Hr2 : heap s2 !! h = Some r') by (by rewrite Hh2, lookup_insert_eq).
  destruct (rpc_unlock_relocks _ _ _ Hr2) as (s3 & Hun & Hrel3).
  assert (Hok3 : lists_ok s3)
    by (eapply step_lists_ok; [by apply step_unlock|done]).
  rewrite Hbk', Hbk in Hrel3.
  destruct Hrel3 as (Hb3 & Hb3' & Hh3 & _ & _ & Hs3 & _ & _ & _ & Ha3 & Hd3 & _).
  exists s3. split_and!; try done.
  - cbv beta iota. by rewrite (bind_eq _ _ _ _ _ Hfree).
  - by rewrite Hs3.
  - intros b'.
    destruct (decide (b' = server_bucket (homa_server_rpc_bucket
                              (homa_local_id client_id)))) as [->|Hne].
    + by rewrite Hb3, Hlock.
    + by rewrite Hb3', Hb2, Hb1'.
  - by rewrite Hd3, Hd2, Hd1.
  - by rewrite Ha3, Ha2, Ha1.
  - intros [b' Hin'].
    assert (Hin2 : h ∈ rpcs (get_bucket b' s2)).
    { destruct (decide (b' = server_bucket (homa_server_rpc_bucket
                              (homa_local_id client_id)))) as [->|Hne].
      - by rewrite Hb3 in Hin'.
      - by rewrite Hb3' in Hin'. }
    rewrite Hb2 in Hin2. simpl in Hin2. apply elem_of_unlink in Hin2.
    by destruct Hin2.
  - exists r'. by rewrite Hh3.
Qed.
End acked.

Lemma wrap_int_sub x y : wrap_int (x - wrap_int y) = wrap_int (x - y).
Proof.
  unfold wrap_int. f_equal.
  replace (x - ((y + 2 ^ 31) mod 2 ^ 32 - 2 ^ 31) + 2 ^ 31)
    with (x + 2 ^ 32 - (y + 2 ^ 31) mod 2 ^ 32) by lia.
  rewrite Zminus_mod_idemp_r. f_equal. lia.
Qed.

Lemma collect_tx_all bs pkts : forall n skbs,
  Z.of_nat (length skbs + length pkts) < bs ->
  exists n', collect_tx bs pkts n skbs = ([], n', skbs ++ pkts, false).
Proof.
  induction pkts as [|p rest IH]; intros n skbs Hlt; simpl.
  - rewrite app_nil_r. eauto.
  - rewrite length_app. simpl in *.
    destruct (Z.leb_spec bs (Z.of_nat (length skbs + 1))) as [|_]; [lia|].
    destruct (IH (wrap_int (n - 1)) (skbs ++ [p])) as (n' & ->).
    { rewrite length_app. simpl. lia. }
    rewrite <-app_assoc. eauto.
Qed.

Lemma pending_same f s s' l :
  (forall h, h ∈ l -> heap s' !! h = heap s !! h) ->
  pending f s' l = pending f s l.
Proof.
  induction l as [|x l IH]; intros Hl; simpl; [done|].
  unfold pending in *. simpl. rewrite Hl by left. f_equal.
  apply IH. intros h Hh. apply Hl. by right.
Qed.

(* ===================================================================== *)
(** ** homa_rpc_reap: whole batches and bounds *)
(* ===================================================================== *)

Lemma release_rpcs_all l : forall s,
  NoDup l ->
  (forall h, h ∈ l -> exists r,
     heap s !! h = Some r /\ lock (get_bucket (bucket r) s) = false) ->
  twp (release_rpcs l) (fun _ s' =>
    (forall h, h ∈ l -> heap s' !! h = None)
    /\ (forall h, h ∉ l -> heap s' !! h = heap s !! h)
    /\ release_frame s s') s.
Proof.
  induction l as [|h l IH]; intros s ND Hl.
  { apply twp_ret. unfold release_frame. split_and!; try done.
    intros h Hh. by apply elem_of_nil in Hh. }
  destruct (Hl h) as (r & Hr & Hlock); [left|].
  apply NoDup_cons in ND as [Hh ND].
  simpl release_rpcs. unfold release_rpc. tw_run.
  match goal with
  | |- twp (if ?c then _ else _) _ _ => destruct c
  end; tw_run.
  all: match goal with |- twp _ _ ?s1 => set (s1' := s1) end.
  all: assert (Hbk : forall b, get_bucket b s1' = get_bucket b s)
    by (intros b; subst s1'; goal_simpl;
        destruct (decide (b = bucket r)) as [->|Hne]; goal_simpl;
        [by apply bucket_unlocked_eta|done]).
  all: assert (Hhp : heap s1' = delete h (heap s)) by done.
  all: eapply twp_mono;
    [apply IH; [done|];
     intros x Hx; destruct (Hl x) as (rx & Hrx & Hlx); [by right|];
     exists rx; rewrite Hbk, Hhp, lookup_delete_ne by (by intros ->); done|].
  all: intros _ s' (R1 & R2 & R3 & R4 & R5 & R6 & R7 & R8 & R9 & R10).
  all: split_and!.
  all: try (intros x Hx; apply elem_of_cons in Hx as [->|Hx];
            [rewrite R2, Hhp by done; apply lookup_delete_eq|by apply R1]).
  all: try (intros x Hx; apply not_elem_of_cons in Hx as [Hne Hx];
            rewrite R2, Hhp by done; by apply lookup_delete_ne).
  all: unfold release_frame; split_and!; try done.
  all: try (intros b; by rewrite R3, Hbk).
  all: rewrite ?R4, ?R5, ?R6, ?R7, ?R8, ?R10; subst s1'; by goal_simpl.
Qed.

Section reap_all.
Context `{homa_impl}.

Lemma reap_scan_all bs l : forall b s,
  NoDup l ->
  (forall h, h ∈ l -> exists r, heap s !! h = Some r /\ cant_reap r = false) ->
  Z.of_nat (length (batch_skbs b) + pending tx_count s l) < bs ->
  Z.of_nat (length (batch_rpcs b) + length l) < bs ->
  twp (reap_scan bs l b) (scanned_all l b s) s.
Proof.
  induction l as [|h l IH]; intros b s ND Hl Htx Hn.
  { apply twp_ret. unfold scanned_all, scan_frame, pending. simpl.
    rewrite app_nil_r, Nat.add_0_r, Z.add_0_r. split_and!; try done.
    - intros x. split; [intros Hx; split; [done|]|tauto].
      intros Hx'. by apply elem_of_nil in Hx'.
    - intros x Hx. by apply elem_of_nil in Hx. }
  destruct (Hl h) as (r & Hr & Hc); [left|].
  apply NoDup_cons in ND as [Hh ND].
  assert (Hp : forall f, pending f s (h :: l) = (f r + pending f s l)%nat).
  { intros f. unfold pending. simpl. by rewrite Hr. }
  rewrite (Hp tx_count) in Htx.
  simpl reap_scan. apply twp_bind. eapply twp_deref; [done|]. rewrite Hc.
  cbn [msgout set_magic mo_length mo_packets mo_num_skbs].
  assert (Hcol : exists n',
    (if 0 <=? mo_length (msgout r)
     then collect_tx bs (mo_packets (msgout r)) (mo_num_skbs (msgout r))
            (batch_skbs b)
     else (mo_packets (msgout r), mo_num_skbs (msgout r), batch_skbs b, false))
    = (if 0 <=? mo_length (msgout r) then [] else mo_packets (msgout r), n',
       if 0 <=? mo_length (msgout r)
       then batch_skbs b ++ mo_packets (msgout r) else batch_skbs b, false)).
  { unfold tx_count in Htx. destruct (0 <=? mo_length (msgout r)); [|eauto].
    apply collect_tx_all. lia. }
  destruct Hcol as (n' & ->).
  set (pk := if 0 <=? mo_length (msgout r) then [] else mo_packets (msgout r)).
  set (sk := if 0 <=? mo_length (msgout r)
             then batch_skbs b ++ mo_packets (msgout r) else batch_skbs b).
  assert (Hsk : length sk = (length (batch_skbs b) + tx_count r)%nat).
  { unfold sk, tx_count. destruct (0 <=? mo_length (msgout r));
      [by rewrite length_app|lia]. }
  cbn [msgin set_msgout set_magic mi_length mi_packets mi_gaps].
  match goal with
  | |- twp (let '(r3, rx) := ?e in _) _ _ =>
      destruct e as [r3 rx] eqn:He
  end.
  assert (Hr3 : bucket r3 = bucket r
    /\ wrap_int rx = wrap_int (rx_frees b + Z.of_nat (rx_count r))).
  { unfold rx_count. destruct (0 <=? mi_length (msgin r));
      injection He as <- <-; simpl; split; try done.
    - pose proof (wrap_int_add
        (rx_frees b + Z.of_nat (length (mi_packets (msgin r)))) 0) as E.
      by rewrite !Z.add_0_r in E.
    - by rewrite Z.add_0_r. }
  destruct Hr3 as [Hbk Hrx].
  tw_run. unfold num_rpcs. cbn [batch_rpcs]. rewrite length_app. simpl length.
  destruct (Z.leb_spec bs (Z.of_nat (length (batch_rpcs b) + 1))) as [|_];
    [simpl in Hn; lia|].
  match goal with |- twp _ _ ?s1 => set (s1' := s1) end.
  assert (Hsame : forall x, x <> h -> heap s1' !! x = heap s !! x).
  { intros x Hx. subst s1'. simpl. by rewrite lookup_insert_ne. }
  eapply twp_mono.
  - apply IH; [done| | |].
    + intros x Hx. rewrite Hsame by (by intros ->). apply Hl. by right.
    + cbn [batch_skbs]. rewrite Hsk.
      rewrite (pending_same _ s) by (intros x Hx; apply Hsame; by intros ->).
      lia.
    + cbn [batch_rpcs]. rewrite length_app. simpl in *. lia.
  - intros b' s' (R1 & R2 & R3 & R4 & R5 & R6 & R7). cbn [batch_rpcs
      batch_skbs rx_frees] in *.
    rewrite !(pending_same _ s s1') in *
      by (intros x Hx; apply Hsame; by intros ->).
    unfold scanned_all. rewrite !Hp. split_and!.
    + by rewrite R1, <-app_assoc.
    + rewrite R2, Hsk. lia.
    + rewrite R3, <-wrap_int_add, Hrx, wrap_int_add. f_equal. lia.
    + intros x. rewrite R4. subst s1'. simpl. rewrite elem_of_unlink.
      rewrite not_elem_of_cons. tauto.
    + intros x Hx. apply not_elem_of_cons in Hx as [Hne Hx].
      rewrite R5 by done. by apply Hsame.
    + intros x Hx. apply elem_of_cons in Hx as [->|Hx].
      * exists r, r3. split_and!; try done. rewrite R5 by done.
        subst s1'. simpl. by rewrite lookup_insert_eq.
      * destruct (R6 _ Hx) as (r0 & r0' & E1 & E2 & E3).
        exists r0, r0'. split_and!; try done.
        rewrite <-Hsame; [done|by intros ->].
    + destruct R7 as (F1 & F2 & F3 & F4 & F5 & F6 & F7).
      subst s1'. split_and!; try done.
Qed.

Lemma reap_loop_all fuel count frees result s :
  let l := dead_rpcs s in
  0 < count -> sock_locked s = false -> protect_count s = 0 ->
  NoDup l ->
  (forall h, h ∈ l -> exists r,
     heap s !! h = Some r /\ cant_reap r = false
     /\ lock (get_bucket (bucket r) s) = false) ->
  Z.of_nat (pending tx_count s l) < Z.min count BATCH_MAX ->
  Z.of_nat (length l) < Z.min count BATCH_MAX ->
  twp (reap_loop (S fuel) count frees result) (fun res s' =>
    res = 0 /\ dead_rpcs s' = []
    /\ (forall h, h ∈ l -> heap s' !! h = None)
    /\ (forall h, h ∉ l -> heap s' !! h = heap s !! h)
    /\ dead_skbs s'
       = wrap_int (dead_skbs s - Z.of_nat (pending tx_count s l)
                   - (frees + Z.of_nat (pending rx_count s l)))
    /\ (forall b, get_bucket b s' = get_bucket b s)
    /\ sock_locked s' = false /\ active_rpcs s' = active_rpcs s) s.
Proof.
  cbv zeta. intros Hcount Hsock Hpc ND Hl Htx Hn.
  simpl reap_loop.
  destruct (Z.ltb_spec 0 count) as [_|]; [|lia].
  tw_run. rewrite Hpc. simpl. tw_run.
  set (s0 := set_sock_locked true s).
  eapply twp_mono.
  { apply (reap_scan_all (Z.min count BATCH_MAX) (dead_rpcs s)
             {| batch_skbs := []; batch_rpcs := []; rx_frees := frees |} s0);
      [done| |done|done].
    intros h Hh. destruct (Hl h Hh) as (r & Hr & Hc & _). eauto. }
  intros b' s1 (R1 & R2 & R3 & R4 & R5 & R6 & F1 & F2 & F3 & F4 & F5 & F6 & F7).
  simpl in R1, R2, R3.
  assert (Hnil : dead_rpcs s1 = []).
  { destruct (dead_rpcs s1) as [|x d] eqn:Hd; [done|].
    destruct (proj1 (R4 x)) as [? ?]; [left|]. done. }
  tw_run. rewrite Hnil. simpl. tw_run. rewrite R1.
  match goal with |- twp _ _ ?s2 => set (s2' := s2) end.
  eapply twp_mono.
  { apply (release_rpcs_all (dead_rpcs s) s2'); [done|].
    intros h Hh. destruct (Hl h Hh) as (r & Hr & Hc & Hlock).
    destruct (R6 h Hh) as (r0 & r' & Hr0 & Hr' & Hbk).
    assert (r0 = r) as -> by (simpl in Hr0; congruence).
    exists r'. split; [done|]. rewrite Hbk.
    subst s2'. goal_simpl. by rewrite F1. }
  intros _ s3 (Q1 & Q2 & G1 & G2 & G3 & G4 & G5 & G6 & G7 & G8).
  apply twp_ret.
  assert (Hp0 : forall f, pending f s0 (dead_rpcs s) = pending f s (dead_rpcs s))
    by done.
  rewrite !Hp0 in *.
  split_and!.
  - done.
  - by rewrite G8.
  - done.
  - intros h Hh. rewrite Q2 by done. subst s2'. simpl. by rewrite R5.
  - rewrite G3. subst s2'. simpl. rewrite F3. simpl.
    unfold num_skbs. rewrite R2. simpl.
    replace (dead_skbs s
             - (Z.of_nat (pending tx_count s (dead_rpcs s)) + rx_frees b'))
      with (dead_skbs s - Z.of_nat (pending tx_count s (dead_rpcs s))
            - rx_frees b') by lia.
    rewrite <-(wrap_int_sub _ (rx_frees b')), R3, wrap_int_sub. done.
  - intros b. rewrite G1. subst s2'. goal_simpl. by rewrite F1.
  - by rewrite G2.
  - rewrite G6. subst s2'. simpl. by rewrite F6.
Qed.

End reap_all.

Section reap_bound.
Context `{homa_impl}.

Lemma scan_bound bs l : forall b s,
  Z.of_nat (length (batch_rpcs b)) < bs ->
  wp (reap_scan bs l b) (fun b' s' =>
    Z.of_nat (length (batch_rpcs b')) <= bs
    /\ size (heap s') = size (heap s)) s.
Proof.
  induction l as [|h l IH]; intros b s Hb; simpl.
  { apply wp_ret. split; [lia|done]. }
  apply wp_bind, wp_deref. intros r Hr.
  destruct (cant_reap r); [by apply IH|].
  destruct (if 0 <=? mo_length (msgout (set_magic 0 r)) then _ else _)
    as [[[pkts n] skbs'] full].
  assert (Hsize : forall r', size (<[h := r']> (heap s)) = size (heap s))
    by (intros r'; by apply map_size_insert_Some).
  destruct full.
  - wp_run. split; [lia|apply Hsize].
  - set (r2 := set_msgout _ _).
    destruct (if 0 <=? mi_length (msgin r2) then _ else _) as [r3 rx].
    wp_step. wp_step. wp_step. wp_step. goal_simpl.
    unfold num_rpcs. cbn [batch_rpcs]. rewrite length_app. simpl length.
    destruct (Z.leb_spec bs (Z.of_nat (length (batch_rpcs b) + 1))).
    + apply wp_ret. cbn [batch_rpcs]. rewrite length_app. simpl.
      split; [lia|apply Hsize].
    + eapply wp_mono.
      * apply IH. cbn [batch_rpcs]. rewrite length_app. simpl. lia.
      * intros b' s' [E1 E2]. split; [done|]. rewrite E2. apply Hsize.
Qed.

Lemma release_bound l : forall s,
  wp (release_rpcs l) (fun _ s' =>
    (size (heap s) <= size (heap s') + length l)%nat) s.
Proof.
  induction l as [|h l IH]; intros s; simpl.
  { apply wp_ret. lia. }
  apply wp_bind. eapply wp_mono; [apply release_rpc_spec|].
  intros [] s1 (Hh & _). eapply wp_mono; [apply IH|].
  intros [] s2 Hs2. simpl in *. rewrite Hh, map_size_delete in Hs2.
  destruct (heap s !! h); simpl in *; lia.
Qed.

Lemma loop_bound fuel : forall count frees result s,
  wp (reap_loop fuel count frees result) (fun _ s' =>
    Z.of_nat (size (heap s)) <= Z.of_nat (size (heap s')) + Z.max 0 count) s.
Proof.
  pose proof BATCH_MAX_pos as Hpos.
  induction fuel as [|fuel IH]; intros count frees result s; simpl.
  { apply wp_ret. lia. }
  destruct (Z.ltb_spec 0 count); [|apply wp_ret; lia].
  wp_step. wp_step. wp_step. wp_step. goal_simpl.
  destruct (negb (protect_count s =? 0)).
  { wp_run. lia. }
  wp_step. wp_step. wp_step. goal_simpl.
  eapply wp_mono.
  { apply (scan_bound (Z.min count BATCH_MAX)). simpl. lia. }
  intros b s1 [Hb Hs1]. goal_simpl.
  wp_step. wp_step. wp_step. wp_step. wp_step. wp_step. goal_simpl.
  wp_step.
  eapply wp_mono; [apply release_bound|].
  intros [] s2 Hs2. simpl in Hs2, Hs1.
  destruct (_ =? 0).
  - apply wp_ret. lia.
  - eapply wp_mono; [apply IH|]. intros res s3 Hs3. simpl in Hs3. lia.
Qed.

(** One call of [homa_rpc_reap] frees at most [count] RPCs: each batch
    frees at most its size, and the sizes of the batches add up to at most
    [count]. *)
Theorem reap_frees_at_most_count count uninit s res s' :
  homa_rpc_reap count uninit s = Done res s' ->
  Z.of_nat (size (heap s)) <= Z.of_nat (size (heap s')) + Z.max 0 count.
Proof.
  intros Hrun.
  exact (wp_Done _ _ _ _ _ (loop_bound _ count 0 uninit s) Hrun).
Qed.
End reap_bound.

(* ===================================================================== *)
(** ** homa_rpc_reap: what it leaves alone *)
(* ===================================================================== *)

Lemma live_kept_refl s : live_kept s s.
Proof. by split_and!. Qed.

Lemma live_kept_trans s1 s2 s3 :
  live_kept s1 s2 -> live_kept s2 s3 -> live_kept s1 s3.
Proof.
  intros (A1 & A2 & A3 & A4 & A5) (B1 & B2 & B3 & B4 & B5).
  split_and!; try congruence.
  - intros h Hh. rewrite B1, A1; [done|done|]. intros Hin. by apply Hh, A2.
  - intros h Hh. by apply A2, B2.
Qed.

Section reap_live.
Context `{homa_impl}.

Lemma scan_live bs l : forall b s0 s,
  (forall h, h ∈ l -> h ∈ dead_rpcs s0) ->
  (forall h, h ∈ batch_rpcs b -> h ∈ dead_rpcs s0) ->
  live_kept s0 s ->
  wp (reap_scan bs l b) (fun b' s' =>
    live_kept s0 s'
    /\ sock_locked s' = sock_locked s
    /\ (forall h, h ∈ batch_rpcs b' -> h ∈ dead_rpcs s0)) s.
Proof.
  induction l as [|h l IH]; intros b s0 s Hl Hb Hk; simpl.
  { by apply wp_ret. }
  assert (Hin : h ∈ dead_rpcs s0) by (apply Hl; left).
  assert (Hl' : forall x, x ∈ l -> x ∈ dead_rpcs s0)
    by (intros x Hx; apply Hl; by right).
  assert (Hstore : forall r',
    live_kept s0 (set_heap (<[h := r']> (heap s)) (next_handle s) s)).
  { intros r'. destruct Hk as (A1 & A2 & A3 & A4 & A5).
    split_and!; try done.
    intros x Hx. simpl. rewrite lookup_insert_ne; [by apply A1|].
    by intros <-. }
  apply wp_bind, wp_deref. intros r Hr.
  destruct (cant_reap r); [by apply IH|].
  destruct (if 0 <=? mo_length (msgout (set_magic 0 r)) then _ else _)
    as [[[pkts n] skbs'] full].
  destruct full.
  - wp_step. wp_step. wp_step. goal_simpl. split; [apply Hstore|done].
  - set (r2 := set_msgout _ _).
    destruct (if 0 <=? mi_length (msgin r2) then _ else _) as [r3 rx].
    wp_step. wp_step. wp_step. wp_step. goal_simpl.
    match goal with |- wp _ _ ?s1 => set (s1' := s1) end.
    assert (Hk1 : live_kept s0 s1').
    { destruct (Hstore r3) as (A1 & A2 & A3 & A4 & A5).
      subst s1'. split_and!; try done.
      intros x Hx. simpl in Hx. apply elem_of_unlink in Hx as [Hx _].
      by apply A2. }
    assert (Hb1 : forall x, x ∈ batch_rpcs b ++ [h] -> x ∈ dead_rpcs s0).
    { intros x Hx. apply elem_of_app in Hx as [Hx|Hx]; [by apply Hb|].
      by apply list_elem_of_singleton in Hx as ->. }
    destruct (_ <=? _).
    + by apply wp_ret.
    + eapply wp_mono; [by apply IH|]. intros b' s' (? & ? & ?). done.
Qed.

Lemma release_live l : forall s0 s,
  (forall h, h ∈ l -> h ∈ dead_rpcs s0) ->
  live_kept s0 s ->
  wp (release_rpcs l) (fun _ s' =>
    live_kept s0 s' /\ sock_locked s' = sock_locked s) s.
Proof.
  induction l as [|h l IH]; intros s0 s Hl Hk; simpl.
  { by apply wp_ret. }
  apply wp_bind. eapply wp_mono; [apply release_rpc_spec|].
  intros [] s1 (Hh & Hbk & Hd & Hsl & _ & Ha & Hn & _).
  eapply wp_mono.
  - apply (IH s0); [intros x Hx; apply Hl; by right|].
    destruct Hk as (A1 & A2 & A3 & A4 & A5).
    split_and!; try congruence.
    + intros x Hx. rewrite Hh, lookup_delete_ne; [by apply A1|].
      intros <-. apply Hx, Hl. left.
    + intros x Hx. rewrite Hd in Hx. by apply A2.
  - intros [] s2 [? ?]. split; [done|congruence].
Qed.

Lemma loop_live fuel : forall count frees result s0 s,
  live_kept s0 s ->
  wp (reap_loop fuel count frees result) (fun _ s' =>
    live_kept s0 s' /\ sock_locked s' = sock_locked s) s.
Proof.
  induction fuel as [|fuel IH]; intros count frees result s0 s Hk; simpl.
  { by apply wp_ret. }
  destruct (0 <? count); [|by apply wp_ret].
  apply wp_bind, wp_sock_lock. intros Hsock.
  apply wp_bind, wp_gets. goal_simpl.
  assert (Hset : forall v s1, live_kept s0 s1 ->
                   live_kept s0 (set_sock_locked v s1)).
  { intros v s1 (A1 & A2 & A3 & A4 & A5). by split_and!. }
  destruct (negb (protect_count s =? 0)).
  { wp_step. wp_step. wp_step. goal_simpl. split; [by apply Hset|done]. }
  wp_step. wp_step. goal_simpl. apply wp_bind.
  eapply wp_mono.
  { apply (scan_live (Z.min count BATCH_MAX) (dead_rpcs s) _ s0).
    - intros h Hh. destruct Hk as (_ & A2 & _). by apply A2.
    - intros h Hh. by apply elem_of_nil in Hh.
    - by apply Hset. }
  intros b s1 (Hk1 & Hs1 & Hb). goal_simpl.
  wp_step. wp_step. wp_step. wp_step. wp_step. wp_step. goal_simpl.
  apply wp_bind.
  eapply wp_mono.
  { apply (release_live (batch_rpcs b) s0); [done|].
    apply Hset. destruct Hk1 as (A1 & A2 & A3 & A4 & A5). by split_and!. }
  intros [] s2 [Hk2 Hs2]. simpl in Hs2.
  destruct (_ =? 0).
  - apply wp_ret. split; [done|congruence].
  - eapply wp_mono; [by apply IH|]. intros res s3 [? ?].
    split; [done|congruence].
Qed.

End reap_live.

Section reap_check_proofs.
Context `{homa_impl}.

Lemma bind_bind {A B C} (m : M A) (k : A -> M B) (k' : B -> M C) s :
  bind (bind m k) k' s = bind m (fun a => bind (k a) k') s.
Proof. unfold bind. by destruct (m s). Qed.

(** [reap_loop] is [reap_batches] without the way out. *)
Lemma reap_batches_value fuel : forall count frees result s,
  reap_loop fuel count frees result s
  = (x <- reap_batches fuel count frees result ;; ret (exit_value x)) s.
Proof.
  induction fuel as [|fuel IH]; intros count frees result s; simpl; [done|].
  destruct (0 <? count); [|done].
  rewrite bind_bind. apply bind_ext. intros _ s1.
  rewrite bind_bind. apply bind_ext. intros pc s2.
  destruct (negb (pc =? 0)).
  { rewrite bind_bind. apply bind_ext. by intros _ s3. }
  rewrite bind_bind. apply bind_ext. intros l s3.
  rewrite bind_bind. apply bind_ext. intros b s4.
  rewrite bind_bind. apply bind_ext. intros _ s5.
  rewrite bind_bind. apply bind_ext. intros rest s6.
  rewrite bind_bind. apply bind_ext. intros _ s7.
  rewrite bind_bind. apply bind_ext. intros _ s8.
  destruct (_ =? 0); [done|]. apply IH.
Qed.

Lemma reap_batches_Done fuel count frees result s x s' :
  reap_batches fuel count frees result s = Done x s' ->
  reap_loop fuel count frees result s = Done (exit_value x) s'.
Proof. intros E. rewrite reap_batches_value. unfold bind. by rewrite E. Qed.

(** The loop leaves [protect_count] alone, and the [return 0] inside it is
    taken only when [protect_count] is not zero. *)
Lemma scan_protect bs l : forall b s,
  wp (reap_scan bs l b) (fun _ s' => protect_count s' = protect_count s) s.
Proof.
  induction l as [|h l IH]; intros b s; simpl; [by apply wp_ret|].
  apply wp_bind, wp_deref. intros r Hr.
  destruct (cant_reap r); [apply IH|].
  destruct (if 0 <=? mo_length _ then _ else _) as [[[pkts n] skbs'] full].
  destruct full.
  { wp_run. done. }
  destruct (if 0 <=? mi_length _ then _ else _) as [r3 rx].
  wp_step. wp_step. goal_simpl. wp_step. wp_step. goal_simpl.
  destruct (_ <=? _); [by apply wp_ret|].
  eapply wp_mono; [apply IH|]. intros _ s' ->. by goal_simpl.
Qed.

Lemma release_protect l : forall s,
  wp (release_rpcs l) (fun _ s' => protect_count s' = protect_count s) s.
Proof.
  induction l as [|h l IH]; intros s; simpl; [by apply wp_ret|].
  apply wp_bind. eapply wp_mono; [apply release_rpc_spec|].
  intros [] s1 (_ & _ & _ & _ & _ & _ & _ & _ & Hp).
  eapply wp_mono; [apply IH|]. intros _ s' ->. done.
Qed.

Lemma batches_protect fuel : forall count frees result s,
  wp (reap_batches fuel count frees result) (fun x s' =>
    protect_count s' = protect_count s
    /\ match x with
       | Returned v => v = 0 /\ protect_count s <> 0 /\ 0 < count
       | Ended _ => True
       end) s.
Proof.
  induction fuel as [|fuel IH]; intros count frees result s; simpl.
  { by apply wp_ret. }
  destruct (Z.ltb_spec 0 count) as [Hc|Hc]; [|by apply wp_ret].
  apply wp_bind, wp_sock_lock. intros Hsock.
  apply wp_bind, wp_gets. goal_simpl.
  destruct (Z.eqb_spec (protect_count s) 0) as [Hpc|Hpc]; simpl.
  2:{ wp_step. wp_step. wp_step. goal_simpl. done. }
  wp_step. wp_step. goal_simpl. apply wp_bind.
  eapply wp_mono; [apply scan_protect|]. intros b s1 Hs1. goal_simpl.
  wp_step. wp_step. wp_step. wp_step. wp_step. wp_step. goal_simpl.
  apply wp_bind. eapply wp_mono; [apply release_protect|].
  intros [] s2 Hs2. goal_simpl.
  assert (Hs : protect_count s2 = protect_count s).
  { rewrite Hs2. goal_simpl. by rewrite Hs1. }
  destruct (_ =? 0).
  - apply wp_ret. done.
  - eapply wp_mono; [apply IH|]. intros x s3 [E Hx]. split; [congruence|].
    destruct x; [|done]. destruct Hx as (? & Hne & ?).
    exfalso. apply Hne. congruence.
Qed.

(** The socket that the loop of [homa_rpc_reap] leaves is the one that
    [homa_pool_check_waiting] gets, unless the loop was left by its
    [return 0]. *)
Lemma reap_check_waiting_Done check count uninit s res s' :
  homa_rpc_reap_check_waiting check count uninit s = Done res s' ->
  exists s1,
    homa_rpc_reap count uninit s = Done res s1
    /\ protect_count s1 = protect_count s
    /\ ((0 < count /\ protect_count s <> 0 /\ res = 0 /\ s' = s1)
        \/ check s1 = Done tt s').
Proof.
  unfold homa_rpc_reap_check_waiting, homa_rpc_reap. intros Hrun.
  apply bind_Done in Hrun as (x & s1 & Hx & Hk).
  pose proof (wp_Done _ _ _ _ _
                (batches_protect _ count 0 uninit s) Hx) as [Hp Hout].
  exists s1. destruct x as [v|result].
  - destruct Hout as (-> & Hne & Hc). injection Hk as <- <-.
    split; [by apply (reap_batches_Done _ _ _ _ _ (Returned 0))|].
    split; [done|]. by left.
  - apply bind_Done in Hk as ([] & s2 & Hc & Hr). injection Hr as <- <-.
    split; [by apply (reap_batches_Done _ _ _ _ _ (Ended result))|].
    split; [done|]. by right.
Qed.

(** When [protect_count] is zero the loop ends by itself and
    [homa_pool_check_waiting] is called. *)
Lemma reap_check_waiting_run check count uninit s res s1 :
  protect_count s = 0 ->
  homa_rpc_reap count uninit s = Done res s1 ->
  homa_rpc_reap_check_waiting check count uninit s
  = (check ;; ret res) s1.
Proof.
  unfold homa_rpc_reap_check_waiting, homa_rpc_reap. intros Hpc Hrun.
  rewrite reap_batches_value in Hrun.
  apply bind_Done in Hrun as (x & s2 & Hx & Hk). injection Hk as <- <-.
  pose proof (wp_Done _ _ _ _ _
                (batches_protect _ count 0 uninit s) Hx) as [_ Hout].
  unfold bind at 1. rewrite Hx. destruct x as [v|result]; [|done].
  by destruct Hout as (_ & Hne & _).
Qed.

End reap_check_proofs.

Section reap_check_theorems.
Context `{homa_impl}.
Variable check : M unit.

(** One call of [homa_rpc_reap] empties the dead list when the work fits in
    one batch: if no dead RPC is held back, and the dead RPCs and their
    outgoing packets are each fewer than the batch size, then
    [homa_pool_check_waiting] is called on a socket where every dead RPC
    is freed, the dead list is empty, [dead_skbs] has gone down by the
    number of packets released, and no other record and no lock has
    changed; the call returns 0 and the socket as
    [homa_pool_check_waiting] leaves it. *)
Theorem reap_releases_all count uninit s :
  let l := dead_rpcs s in
  0 < count -> sock_locked s = false -> protect_count s = 0 ->
  NoDup l ->
  (forall h, h ∈ l -> exists r,
     heap s !! h = Some r /\ cant_reap r = false
     /\ lock (get_bucket (bucket r) s) = false) ->
  Z.of_nat (pending tx_count s l) < Z.min count BATCH_MAX ->
  Z.of_nat (length l) < Z.min count BATCH_MAX ->
  exists s1,
    homa_rpc_reap_check_waiting check count uninit s = (check ;; ret 0) s1
    /\ dead_rpcs s1 = []
    /\ (forall h, h ∈ l -> heap s1 !! h = None)
    /\ (forall h, h ∉ l -> heap s1 !! h = heap s !! h)
    /\ dead_skbs s1
       = wrap_int (dead_skbs s - Z.of_nat (pending tx_count s l)
                   - Z.of_nat (pending rx_count s l))
    /\ (forall b, get_bucket b s1 = get_bucket b s)
    /\ sock_locked s1 = false /\ active_rpcs s1 = active_rpcs s.
Proof.
  cbv zeta. intros Hcount Hsock Hpc ND Hl Htx Hn.
  assert (Hrun : exists s1,
    homa_rpc_reap count uninit s = Done 0 s1
    /\ dead_rpcs s1 = []
    /\ (forall h, h ∈ dead_rpcs s -> heap s1 !! h = None)
    /\ (forall h, h ∉ dead_rpcs s -> heap s1 !! h = heap s !! h)
    /\ dead_skbs s1
       = wrap_int (dead_skbs s
                   - Z.of_nat (pending tx_count s (dead_rpcs s))
                   - (0 + Z.of_nat (pending rx_count s (dead_rpcs s))))
    /\ (forall b, get_bucket b s1 = get_bucket b s)
    /\ sock_locked s1 = false /\ active_rpcs s1 = active_rpcs s).
  { unfold homa_rpc_reap.
    destruct (Z.to_nat count) as [|f] eqn:Hf; [lia|].
    destruct (twp_Done _ _ _
                (reap_loop_all f count 0 uninit s Hcount Hsock Hpc ND Hl
                   Htx Hn))
      as (res & s1 & E & -> & Hrest).
    by exists s1. }
  destruct Hrun as (s1 & Hrun & Hrest). exists s1.
  split; [by apply reap_check_waiting_run|].
  by rewrite Z.add_0_l in Hrest.
Qed.

(** Up to its call of [homa_pool_check_waiting], [homa_rpc_reap] touches
    nothing but dead RPCs. When a call returns, there is the socket [s1]
    that the loop left: in it every RPC that was not on the dead list has
    the record it had, every bucket has the RPCs and the lock it had, the
    active list and the socket lock are as before, and the dead list has
    only lost entries. Either the loop was left by its [return 0], and
    [s1] is what the call leaves, or [homa_pool_check_waiting] was called
    on [s1] and the call leaves what that function leaves. *)
Theorem reap_leaves_live count uninit s res s' :
  homa_rpc_reap_check_waiting check count uninit s = Done res s' ->
  exists s1,
    ((0 < count /\ protect_count s <> 0 /\ res = 0 /\ s' = s1)
     \/ check s1 = Done tt s')
    /\ (forall h, h ∉ dead_rpcs s -> heap s1 !! h = heap s !! h)
    /\ (forall h, h ∈ dead_rpcs s1 -> h ∈ dead_rpcs s)
    /\ (forall b, get_bucket b s1 = get_bucket b s)
    /\ active_rpcs s1 = active_rpcs s
    /\ sock_locked s1 = sock_locked s.
Proof.
  intros Hrun.
  apply reap_check_waiting_Done in Hrun as (s1 & Hloop & _ & Hout).
  exists s1. split; [exact Hout|].
  destruct (wp_Done _ _ _ _ _
              (loop_live _ count 0 uninit s s (live_kept_refl s)) Hloop)
    as [(A1 & A2 & A3 & A4 & A5) Hs].
  by split_and!.
Qed.

End reap_check_theorems.

(* ===================================================================== *)
(** ** homa_rpc_reap: two batches *)
(* ===================================================================== *)

Lemma collect_tx_full bs pkts : forall n skbs,
  pkts <> [] -> Z.of_nat (length skbs + length pkts) = bs ->
  exists n', collect_tx bs pkts n skbs = ([], n', skbs ++ pkts, true).
Proof.
  induction pkts as [|p rest IH]; intros n skbs Hne Hlen; [done|]. simpl.
  rewrite length_app. simpl in *.
  destruct (Z.leb_spec bs (Z.of_nat (length skbs + 1))) as [Hfull|Hroom].
  - destruct rest; [eauto|simpl in *; lia].
  - destruct (IH (wrap_int (n - 1)) (skbs ++ [p])) as (n' & ->).
    + intros ->. simpl in *. lia.
    + rewrite length_app. simpl. lia.
    + rewrite <-app_assoc. eauto.
Qed.

Lemma twp_bind_inv {A B} (m : M A) (k : A -> M B) Q s :
  twp (bind m k) Q s -> twp m (fun a => twp (k a) Q) s.
Proof. unfold twp, bind. by destruct (m s). Qed.

Lemma release_rpc_exec h r s :
  heap s !! h = Some r -> lock (get_bucket (bucket r) s) = false ->
  twp (release_rpc h) (fun _ s' =>
    heap s' = delete h (heap s) /\ release_frame s s') s.
Proof.
  intros Hr Hlock.
  pose proof (release_rpcs_all [h] s) as Hall. simpl in Hall.
  apply twp_bind_inv in Hall.
  - eapply twp_mono; [exact Hall|]. intros [] s' (Hgone & Hkeep & Hframe).
    split; [|done]. apply map_eq. intros x.
    destruct (decide (x = h)) as [->|Hne].
    + rewrite lookup_delete_eq. apply Hgone. left.
    + rewrite lookup_delete_ne by done. apply Hkeep.
      by intros ->%list_elem_of_singleton.
  - apply NoDup_singleton.
  - intros x ->%list_elem_of_singleton. eauto.
Qed.

Lemma unlink_head a b : a <> b -> unlink a [a; b] = [b].
Proof.
  intros Hab. unfold unlink. rewrite filter_cons_False by (by intros []).
  rewrite filter_cons_True by done. done.
Qed.

Section reap_twice.
Context `{homa_impl}.

Lemma BATCH_MAX_ge_3 : 3 <= BATCH_MAX.
Proof. unfold BATCH_MAX. destruct UNIT_TEST; lia. Qed.

(** [rx_frees] of [homa_rpc_reap] is set to 0 once, before the loop over
    the batches, and it is subtracted from [dead_skbs] at the end of every
    batch: the incoming packets that one batch frees are subtracted again
    in each later batch of the call. Here the dead list holds [a], with
    incoming packets still queued and no outgoing message, and then [b],
    with exactly one batch of outgoing packets. The call frees both RPCs in
    two batches, [BATCH_MAX] outgoing packets and the incoming packets of
    [a], and [dead_skbs] goes down by [BATCH_MAX] and twice the number of
    those incoming packets. *)
Theorem reap_counts_rx_twice a b ra rb count uninit s :
  dead_rpcs s = [a; b] -> a <> b ->
  heap s !! a = Some ra -> heap s !! b = Some rb ->
  cant_reap ra = false -> cant_reap rb = false ->
  mo_length (msgout ra) < 0 -> 0 <= mi_length (msgin ra) ->
  0 <= mo_length (msgout rb) -> mi_length (msgin rb) < 0 ->
  Z.of_nat (length (mo_packets (msgout rb))) = BATCH_MAX ->
  lock (get_bucket (bucket ra) s) = false ->
  lock (get_bucket (bucket rb) s) = false ->
  sock_locked s = false -> protect_count s = 0 ->
  BATCH_MAX + 2 <= count ->
  exists s',
    homa_rpc_reap count uninit s = Done 0 s'
    /\ dead_rpcs s' = []
    /\ heap s' = delete b (delete a (heap s))
    /\ dead_skbs s'
       = wrap_int (dead_skbs s - BATCH_MAX
                   - 2 * Z.of_nat (length (mi_packets (msgin ra)))).
Proof.
  intros Hdead Hab Hra Hrb Hca Hcb Hoa Hia Hob Hib Hlen Hla Hlb Hsock Hpc Hcount.
  pose proof BATCH_MAX_ge_3 as H3.
  destruct (twp_Done (homa_rpc_reap count uninit) (fun res s' =>
    res = 0 /\ dead_rpcs s' = []
    /\ heap s' = delete b (delete a (heap s))
    /\ dead_skbs s'
       = wrap_int (dead_skbs s - BATCH_MAX
                   - 2 * Z.of_nat (length (mi_packets (msgin ra))))) s)
    as (res & s' & E & -> & Hrest); [|by exists s'].
  unfold homa_rpc_reap.
  destruct (Z.to_nat count) as [|f1] eqn:Hf; [lia|].
  cbn [reap_loop].
  remember (reap_loop f1) as batch2 eqn:Hbatch2.
  destruct (Z.ltb_spec 0 count) as [_|]; [|lia].
  rewrite Z.min_r by lia.
  tw_run. rewrite Hpc. simpl. tw_run. rewrite Hdead.
  cbn [reap_scan].
  apply twp_bind. eapply twp_deref; [by goal_simpl|]. rewrite Hca.
  cbn [msgout set_magic mo_length mo_packets mo_num_skbs].
  destruct (Z.leb_spec 0 (mo_length (msgout ra))) as [|_]; [lia|].
  cbn [msgin set_msgout set_magic mi_length mi_packets mi_gaps].
  destruct (Z.leb_spec 0 (mi_length (msgin ra))) as [_|]; [|lia].
  tw_run. unfold num_rpcs at 1. cbn [batch_rpcs length].
  destruct (Z.leb_spec BATCH_MAX (Z.of_nat 1)) as [|_]; [lia|].
  apply twp_bind. eapply twp_deref.
  { goal_simpl. rewrite lookup_insert_ne by done. exact Hrb. }
  rewrite Hcb.
  cbn [msgout set_magic mo_length mo_packets mo_num_skbs].
  destruct (Z.leb_spec 0 (mo_length (msgout rb))) as [_|]; [|lia].
  destruct (collect_tx_full BATCH_MAX (mo_packets (msgout rb))
              (mo_num_skbs (msgout rb)) []) as (n' & ->).
  { intros E. rewrite E in Hlen. simpl in Hlen. lia. }
  { simpl. lia. }
  apply twp_bind. eapply twp_store.
  { goal_simpl. rewrite lookup_insert_ne by done. exact Hrb. }
  tw_run. rewrite Hdead, (unlink_head a b Hab).
  unfold num_skbs, num_rpcs. cbn [batch_skbs batch_rpcs length].
  rewrite Hlen.
  replace (negb (bool_decide ([b] = [])) && negb (BATCH_MAX + Z.of_nat 1 =? 0))
    with true
    by (rewrite bool_decide_eq_false_2 by done;
        destruct (Z.eqb_spec (BATCH_MAX + Z.of_nat 1) 0); [lia|done]).
  cbn [Z.eqb].
  match goal with |- twp _ _ ?s1 => set (s1' := s1) end.
  set (k := Z.of_nat (length (mi_packets (msgin ra)))).
  set (ra' := set_msgin (set_in_packets [] (mi_gaps (msgin ra)) (msgin ra))
                (set_msgout
                   (set_out_packets (mo_packets (msgout ra))
                      (mo_num_skbs (msgout ra)) (msgout ra))
                   (set_magic 0 ra))) in *.
  set (rb' := set_msgout (set_out_packets [] n' (msgout rb)) (set_magic 0 rb))
    in *.
  assert (Hbk : forall x, get_bucket x s1' = get_bucket x s)
    by (intros x; subst s1'; by goal_simpl).
  assert (Ha1 : heap s1' !! a = Some ra').
  { subst s1'. goal_simpl. rewrite lookup_insert_ne by done.
    by rewrite lookup_insert_eq. }
  assert (Hb1 : heap s1' !! b = Some rb')
    by (subst s1'; goal_simpl; done).
  eapply twp_mono.
  { apply (release_rpc_exec a ra' s1' Ha1). by rewrite Hbk. }
  intros [] s2 (Hh2 & G1 & G2 & G3 & G4 & G5 & G6 & G7 & G8).
  apply twp_ret. subst batch2.
  destruct f1 as [|f2]; [lia|].
  assert (Hd2 : dead_rpcs s2 = [b]) by (by rewrite G8).
  assert (Hb2 : heap s2 !! b = Some rb')
    by (by rewrite Hh2, lookup_delete_ne).
  eapply twp_mono.
  { apply (reap_loop_all f2 (count - BATCH_MAX) (wrap_int (0 + k)) 1 s2).
    - lia.
    - by rewrite G2.
    - by rewrite G4.
    - rewrite Hd2. apply NoDup_singleton.
    - rewrite Hd2. intros x ->%list_elem_of_singleton.
      exists rb'. split_and!; [done|exact Hcb|].
      by rewrite G1, Hbk.
    - rewrite Hd2. unfold pending. simpl. rewrite Hb2. simpl.
      assert (tx_count rb' = 0%nat) as ->
        by (unfold tx_count; subst rb'; simpl; by destruct (_ <=? _)).
      simpl. lia.
    - rewrite Hd2. simpl. lia. }
  intros res s3 (-> & Hd3 & Hgone & Hkeep & Hskbs & _).
  rewrite Hd2 in *.
  split_and!; [done|done| |].
  - apply map_eq. intros x. destruct (decide (x = b)) as [->|Hxb].
    + rewrite lookup_delete_eq. apply Hgone. left.
    + rewrite lookup_delete_ne by done.
      rewrite Hkeep by (by intros ->%list_elem_of_singleton).
      rewrite Hh2. destruct (decide (x = a)) as [->|Hxa].
      * by rewrite !lookup_delete_eq.
      * rewrite !lookup_delete_ne by done. subst s1'. goal_simpl.
        by rewrite !lookup_insert_ne.
  - rewrite Hskbs, G3. unfold pending. simpl. rewrite Hb2. simpl.
    unfold tx_count, rx_count. subst rb'. simpl.
    destruct (Z.leb_spec 0 (mi_length (msgin rb))); [lia|].
    destruct (0 <=? mo_length (msgout rb)); simpl.
    all: subst s1'; simpl.
    all: replace (wrap_int (dead_skbs s - (BATCH_MAX + wrap_int (0 + k)))
                  - 0 - (wrap_int (0 + k) + 0))
           with (wrap_int (dead_skbs s - (BATCH_MAX + wrap_int (0 + k)))
                 + - wrap_int (0 + k)) by lia.
    all: rewrite wrap_int_add.
    all: replace (dead_skbs s - (BATCH_MAX + wrap_int (0 + k))
                  + - wrap_int (0 + k))
           with (dead_skbs s - BATCH_MAX - wrap_int (0 + k)
                 - wrap_int (0 + k)) by lia.
    all: rewrite wrap_int_sub.
    all: replace (dead_skbs s - BATCH_MAX - wrap_int (0 + k) - (0 + k))
           with (dead_skbs s - BATCH_MAX - k - wrap_int (0 + k)) by lia.
    all: rewrite wrap_int_sub; f_equal; lia.
Qed.
End reap_twice.

(* ===================================================================== *)
(** ** homa_prios_changed *)
(* ===================================================================== *)

Lemma set_cutoff_Some i v p :
  (i < length (unsched_cutoffs p))%nat ->
  exists p', set_cutoff i v p = Some p' /\
    num_priorities p' = num_priorities p /\
    max_sched_prio p' = max_sched_prio p /\
    cutoff_version p' = cutoff_version p /\
    unsched_cutoffs p' = <[i := v]> (unsched_cutoffs p).
Proof.
  intros Hi. unfold set_cutoff. destruct (decide _) as [_|n]; [|done].
  eexists; split; [reflexivity|]. simpl. done.
Qed.

Lemma set_cutoff_same i v p :
  unsched_cutoffs p !! i = Some v -> set_cutoff i v p = Some p.
Proof.
  intros Hv. unfold set_cutoff.
  destruct (decide _) as [_|n].
  - rewrite list_insert_id by done. by destruct p.
  - apply lookup_lt_Some in Hv. done.
Qed.

Section prios_proofs.
Context `{homa_limits}.

Lemma prios_loop_spec (i : nat) : forall p,
  (i < length (unsched_cutoffs p))%nat ->
  1 <= num_priorities p ->
  exists p', prios_loop i p = Some p' /\
    num_priorities p' = num_priorities p /\
    cutoff_version p' = cutoff_version p /\
    length (unsched_cutoffs p') = length (unsched_cutoffs p) /\
    (forall j : nat, (i < j)%nat ->
       unsched_cutoffs p' !! j = unsched_cutoffs p !! j) /\
    (forall j : nat, (j <= i)%nat -> num_priorities p <= Z.of_nat j ->
       unsched_cutoffs p' !! j = Some 0) /\
    (forall j : nat, 1 <= Z.of_nat j < num_priorities p ->
       unsched_cutoffs p' !! j = unsched_cutoffs p !! j) /\
    (unsched_cutoffs p' !! 0%nat = unsched_cutoffs p !! 0%nat \/
     unsched_cutoffs p' !! 0%nat = Some INT_MAX) /\
    0 <= max_sched_prio p' /\
    (max_sched_prio p' = 0 \/ max_sched_prio p' + 1 <= Z.of_nat i) /\
    (forall (k : nat) c, max_sched_prio p' + 1 < Z.of_nat k ->
       (k <= i)%nat -> Z.of_nat k < num_priorities p ->
       unsched_cutoffs p !! k = Some c -> c < HOMA_MAX_MESSAGE_LENGTH) /\
    (0 < max_sched_prio p' ->
       max_sched_prio p' + 1 < num_priorities p /\
       exists c, unsched_cutoffs p !! Z.to_nat (max_sched_prio p' + 1) = Some c /\
         HOMA_MAX_MESSAGE_LENGTH <= c).
Proof.
  induction i as [|i IH]; intros p Hlen Hnum.
  - cbn [prios_loop].
    destruct (Z.leb_spec (num_priorities p) (Z.of_nat 0)) as [Hle|_]; [lia|].
    destruct (set_cutoff_Some 0 INT_MAX p Hlen) as (p' & -> & Hn & Hm & Hv & Hc).
    eexists; split; [reflexivity|]. simpl. rewrite Hc.
    split_and!; try done.
    + by rewrite length_insert.
    + intros j Hj. rewrite list_lookup_insert_ne by lia. done.
    + intros j Hj1 Hj2. lia.
    + intros j Hj. rewrite list_lookup_insert_ne by lia. done.
    + right. by rewrite list_lookup_insert_eq by done.
    + by left.
    + intros k c Hk1 Hk2. lia.
  - cbn [prios_loop].
    destruct (Z.leb_spec (num_priorities p) (Z.of_nat (S i))) as [Hle|Hgt].
    + destruct (set_cutoff_Some (S i) 0 p Hlen) as (p1 & -> & Hn & Hm & Hv & Hc).
      destruct (IH p1) as (p' & -> & Hn' & Hv' & Hl' & Ha & Hz & Hk & H0 & Hm0 & Hmi & Hlow & Hhi).
      { rewrite Hc, length_insert. lia. }
      { lia. }
      rewrite Hc in *. rewrite length_insert in Hl'.
      eexists; split; [reflexivity|].
      split_and!; try congruence.
      * intros j Hj. rewrite Ha by lia. by rewrite list_lookup_insert_ne by lia.
      * intros j Hj1 Hj2. destruct (decide (j = S i)) as [->|Hne].
        -- rewrite Ha by lia. by rewrite list_lookup_insert_eq by done.
        -- apply Hz; [lia|congruence].
      * intros j Hj. rewrite Hk by lia. by rewrite list_lookup_insert_ne by lia.
      * destruct H0 as [H0|H0]; [left|by right].
        rewrite H0. by rewrite list_lookup_insert_ne by lia.
      * destruct Hmi; [by left|right; lia].
      * intros k c Hk1 Hk2 Hk3 Hk4.
        apply (Hlow k c Hk1); [lia|lia|].
        by rewrite list_lookup_insert_ne by lia.
      * intros Hpos. destruct (Hhi Hpos) as (Hlt & c & Hc' & Hge).
        split; [lia|]. exists c. split; [|done].
        rewrite list_lookup_insert_ne in Hc' by lia. done.
    + destruct (lookup_lt_is_Some_2 (unsched_cutoffs p) (S i) Hlen) as [c Hc].
      rewrite Hc.
      destruct (Z.leb_spec HOMA_MAX_MESSAGE_LENGTH c) as [Hbig|Hsmall].
      * eexists; split; [reflexivity|]. simpl.
        split_and!; try done; try lia.
        -- by left.
        -- intros Hpos. split; [lia|]. exists c. split; [|done].
           replace (Z.to_nat (Z.of_nat (S i) - 1 + 1)) with (S i) by lia. done.
      * destruct (IH p) as (p' & -> & Hn' & Hv' & Hl' & Ha & Hz & Hk & H0 & Hm0 & Hmi & Hlow & Hhi);
          [lia|lia|].
        eexists; split; [reflexivity|].
        split_and!; try done.
        -- intros j Hj. apply Ha. lia.
        -- intros j Hj1 Hj2. lia.
        -- destruct Hmi; [by left|right; lia].
        -- intros k c' Hk1 Hk2 Hk3 Hk4.
           destruct (decide (k = S i)) as [->|Hne]; [congruence|].
           apply (Hlow k c'); [done|lia|done|done].
Qed.

Lemma prios_loop_settled (i : nat) : forall p,
  1 <= num_priorities p ->
  unsched_cutoffs p !! 0%nat = Some INT_MAX ->
  (forall j : nat, (j <= i)%nat -> num_priorities p <= Z.of_nat j ->
     unsched_cutoffs p !! j = Some 0) ->
  (forall j : nat, (j <= i)%nat -> is_Some (unsched_cutoffs p !! j)) ->
  0 <= max_sched_prio p ->
  (max_sched_prio p = 0 \/ max_sched_prio p + 1 <= Z.of_nat i) ->
  (forall (k : nat) c, max_sched_prio p + 1 < Z.of_nat k < num_priorities p ->
     unsched_cutoffs p !! k = Some c -> c < HOMA_MAX_MESSAGE_LENGTH) ->
  (0 < max_sched_prio p ->
     max_sched_prio p + 1 < num_priorities p /\
     exists c, unsched_cutoffs p !! Z.to_nat (max_sched_prio p + 1) = Some c /\
       HOMA_MAX_MESSAGE_LENGTH <= c) ->
  (forall (k : nat) c, (i < k)%nat -> Z.of_nat k < num_priorities p ->
     unsched_cutoffs p !! k = Some c -> c < HOMA_MAX_MESSAGE_LENGTH) ->
  prios_loop i p = Some p.
Proof.
  induction i as [|i IH]; intros p Hnum H0 Hz Hsome Hm0 Hmi Hlow Hhi Habove.
  - cbn [prios_loop].
    destruct (Z.leb_spec (num_priorities p) (Z.of_nat 0)) as [Hle|_]; [lia|].
    rewrite (set_cutoff_same _ _ _ H0).
    assert (max_sched_prio p = 0) as Hm.
    { destruct Hmi as [|Hmi]; [done|lia]. }
    rewrite <-Hm. by destruct p.
  - cbn [prios_loop].
    destruct (Z.leb_spec (num_priorities p) (Z.of_nat (S i))) as [Hle|Hgt].
    + rewrite (set_cutoff_same _ _ _ (Hz (S i) ltac:(lia) Hle)).
      apply IH; try done.
      * intros j Hj. apply Hz. lia.
      * intros j Hj. apply Hsome. lia.
      * destruct Hmi as [|Hmi]; [by left|].
        destruct (decide (max_sched_prio p = 0)) as [|Hne]; [by left|right].
        destruct (Hhi ltac:(lia)) as (Hlt & _). lia.
      * intros k c Hk. lia.
    + destruct (Hsome (S i) ltac:(lia)) as [c Hc]. rewrite Hc.
      destruct (Z.leb_spec HOMA_MAX_MESSAGE_LENGTH c) as [Hbig|Hsmall].
      * assert (max_sched_prio p = Z.of_nat (S i) - 1) as Hm.
        { destruct (decide (max_sched_prio p + 1 < Z.of_nat (S i))) as [Hlt|Hge].
          - pose proof (Hlow (S i) c ltac:(lia) Hc). lia.
          - destruct Hmi as [Hmi|Hmi]; [|lia].
            destruct (decide (i = 0%nat)) as [->|Hi]; [lia|]. lia. }
        rewrite <-Hm. by destruct p.
      * apply IH; try done.
        -- intros j Hj. apply Hz. lia.
        -- intros j Hj. apply Hsome. lia.
        -- destruct Hmi as [|Hmi]; [by left|].
           destruct (decide (max_sched_prio p = 0)) as [|Hne]; [by left|right].
           destruct (Hhi ltac:(lia)) as (_ & c' & Hc' & Hge).
           destruct (decide (max_sched_prio p + 1 = Z.of_nat (S i))) as [Heq|]; [|lia].
           rewrite Heq, Nat2Z.id in Hc'. assert (c' = c) by congruence. lia.
        -- intros k c' Hk1 Hk2 Hk3.
           destruct (decide (k = S i)) as [->|Hne]; [congruence|].
           apply (Habove k c'); [lia|done|done].
Qed.
End prios_proofs.

Section prios_theorems.
Context `{homa_limits}.

Lemma prios_changed_spec p :
  length (unsched_cutoffs p) = Z.to_nat HOMA_MAX_PRIORITIES ->
  1 <= num_priorities p ->
  exists p', homa_prios_changed p = Some p' /\
    settled p' /\
    num_priorities p' = Z.min (num_priorities p) HOMA_MAX_PRIORITIES /\
    length (unsched_cutoffs p') = length (unsched_cutoffs p) /\
    (forall j : nat, 1 <= Z.of_nat j < num_priorities p' ->
       unsched_cutoffs p' !! j = unsched_cutoffs p !! j) /\
    max_sched_prio p' < num_priorities p' /\
    cutoff_version p' = wrap_int (cutoff_version p + 1).
Proof.
  intros Hlen Hnum. pose proof priorities_at_least_8 as H8.
  unfold homa_prios_changed.
  set (p1 := if HOMA_MAX_PRIORITIES <? num_priorities p
             then set_num_priorities HOMA_MAX_PRIORITIES p else p).
  assert (num_priorities p1 = Z.min (num_priorities p) HOMA_MAX_PRIORITIES
          /\ unsched_cutoffs p1 = unsched_cutoffs p
          /\ cutoff_version p1 = cutoff_version p) as (Hn1 & Hc1 & Hv1).
  { unfold p1. destruct (Z.ltb_spec HOMA_MAX_PRIORITIES (num_priorities p));
      simpl; split_and!; try done; lia. }
  clearbody p1.
  destruct (set_cutoff_Some 0 INT_MAX p1) as (p2 & -> & Hn2 & Hm2 & Hv2 & Hc2);
    [rewrite Hc1; lia|].
  destruct (prios_loop_spec (Z.to_nat (HOMA_MAX_PRIORITIES - 1)) p2)
    as (p3 & -> & Hn3 & Hv3 & Hl3 & Ha & Hz & Hk & H0 & Hm0 & Hmi & Hlow & Hhi).
  { rewrite Hc2, length_insert, Hc1. lia. }
  { lia. }
  assert (forall j : nat, 1 <= Z.of_nat j ->
            unsched_cutoffs p2 !! j = unsched_cutoffs p !! j) as Hp2.
  { intros j Hj. rewrite Hc2, list_lookup_insert_ne by lia. by rewrite Hc1. }
  assert (unsched_cutoffs p2 !! 0%nat = Some INT_MAX) as H02.
  { rewrite Hc2. apply list_lookup_insert_eq. rewrite Hc1. lia. }
  assert (forall j : nat, 1 <= Z.of_nat j < num_priorities p2 ->
            unsched_cutoffs p3 !! j = unsched_cutoffs p !! j) as Hp3.
  { intros j Hj. rewrite Hk by done. apply Hp2. lia. }
  eexists; split; [reflexivity|]. unfold settled. simpl.
  rewrite Hn3, Hn2, Hn1 in *.
  split_and!.
  - lia.
  - destruct H0 as [H0|H0]; congruence.
  - intros j Hj. apply Hz; lia.
  - done.
  - intros k c Hk1 Hk2. apply (Hlow k c); [lia|lia|lia|].
    rewrite <-Hk by lia. done.
  - intros Hpos. destruct (Hhi Hpos) as (Hlt & c & Hc & Hge).
    split; [done|]. exists c. split; [|done].
    rewrite Hk by lia. done.
  - done.
  - rewrite Hl3, Hc2, length_insert, Hc1. done.
  - done.
  - destruct (decide (0 < max_sched_prio p3)) as [Hpos|]; [|lia].
    destruct (Hhi Hpos). lia.
  - rewrite Hv3, Hv2, Hv1. done.
Qed.

Lemma prios_changed_settled p :
  settled p -> 1 <= num_priorities p ->
  length (unsched_cutoffs p) = Z.to_nat HOMA_MAX_PRIORITIES ->
  homa_prios_changed p =
    Some (set_cutoff_version (wrap_int (cutoff_version p + 1)) p).
Proof.
  intros (Hn & H0 & Hz & Hm0 & Hlow & Hhi) Hnum Hlen.
  pose proof priorities_at_least_8 as H8.
  unfold homa_prios_changed.
  destruct (Z.ltb_spec HOMA_MAX_PRIORITIES (num_priorities p)); [lia|].
  rewrite (set_cutoff_same _ _ _ H0).
  rewrite prios_loop_settled; try done.
  - intros j Hj1 Hj2. apply Hz. lia.
  - intros j Hj. apply lookup_lt_is_Some_2. lia.
  - destruct (decide (0 < max_sched_prio p)) as [Hpos|]; [right|left; lia].
    destruct (Hhi Hpos). lia.
  - intros k c Hk1 Hk2. lia.
Qed.

(** [homa_prios_changed] with at least one priority level: the number of
    levels is capped at [HOMA_MAX_PRIORITIES], level 0 takes every
    message, the levels that are not in use take none, the cutoffs of the
    other levels are kept, [max_sched_prio] is a level in use, namely the
    one below the highest level in use whose cutoff reaches
    [HOMA_MAX_MESSAGE_LENGTH] (0 if no level above 0 does), and the version
    is incremented. *)
Theorem prios_changed_result p :
  length (unsched_cutoffs p) = Z.to_nat HOMA_MAX_PRIORITIES ->
  1 <= num_priorities p ->
  exists p', homa_prios_changed p = Some p' /\
    num_priorities p' = Z.min (num_priorities p) HOMA_MAX_PRIORITIES /\
    unsched_cutoffs p' !! 0%nat = Some INT_MAX /\
    (forall j : nat, num_priorities p' <= Z.of_nat j < HOMA_MAX_PRIORITIES ->
       unsched_cutoffs p' !! j = Some 0) /\
    (forall j : nat, 1 <= Z.of_nat j < num_priorities p' ->
       unsched_cutoffs p' !! j = unsched_cutoffs p !! j) /\
    0 <= max_sched_prio p' < num_priorities p' /\
    (forall (k : nat) c,
       max_sched_prio p' + 1 < Z.of_nat k < num_priorities p' ->
       unsched_cutoffs p !! k = Some c -> c < HOMA_MAX_MESSAGE_LENGTH) /\
    (0 < max_sched_prio p' ->
       exists c,
         unsched_cutoffs p !! Z.to_nat (max_sched_prio p' + 1) = Some c /\
         HOMA_MAX_MESSAGE_LENGTH <= c) /\
    cutoff_version p' = wrap_int (cutoff_version p + 1).
Proof.
  intros Hlen Hnum.
  destruct (prios_changed_spec p Hlen Hnum)
    as (p' & Hrun & (Hn & H0 & Hz & Hm0 & Hlow & Hhi) & Hn' & Hl & Hk & Hm & Hv).
  exists p'. split_and!; try done.
  - intros k c Hk1 Hk2. apply (Hlow k c Hk1). by rewrite Hk by lia.
  - intros Hpos. destruct (Hhi Hpos) as (Hlt & c & Hc & Hge).
    exists c. split; [|done]. rewrite <-Hk by lia. done.
Qed.

(** Calling [homa_prios_changed] again when nothing was changed in between
    alters nothing but [cutoff_version], which is incremented once more. *)
Theorem prios_changed_twice p :
  length (unsched_cutoffs p) = Z.to_nat HOMA_MAX_PRIORITIES ->
  1 <= num_priorities p ->
  exists p', homa_prios_changed p = Some p' /\
    homa_prios_changed p' =
      Some (set_cutoff_version (wrap_int (cutoff_version p' + 1)) p').
Proof.
  intros Hlen Hnum. pose proof priorities_at_least_8 as H8.
  destruct (prios_changed_spec p Hlen Hnum)
    as (p' & Hrun & Hset & Hn' & Hl & Hk & Hm & Hv).
  exists p'. split; [done|].
  apply prios_changed_settled; [done|lia|congruence].
Qed.

Lemma prios_loop_none (i : nat) : forall p,
  num_priorities p <= 0 -> prios_loop i p = None.
Proof.
  induction i as [|i IH]; intros p Hnum; cbn [prios_loop].
  - destruct (Z.leb_spec (num_priorities p) (Z.of_nat 0)) as [_|Hgt]; [|lia].
    by destruct (set_cutoff _ _ _).
  - destruct (Z.leb_spec (num_priorities p) (Z.of_nat (S i))) as [_|Hgt]; [|lia].
    unfold set_cutoff. destruct (decide _); [|done]. by apply IH.
Qed.

(** The priorities that [homa_init] sets up are the ones
    [homa_prios_changed] settles on: a call changes neither
    [max_sched_prio] nor the number of levels nor any cutoff above level 0,
    whatever the levels that [homa_init] did not write hold. *)
Theorem init_priorities_settled unit_test mem :
  length mem = Z.to_nat HOMA_MAX_PRIORITIES ->
  15000 < HOMA_MAX_MESSAGE_LENGTH ->
  exists p0 p',
    homa_init_priorities unit_test mem = Some p0 /\
    homa_prios_changed p0 = Some p' /\
    max_sched_prio p' = max_sched_prio p0 /\
    max_sched_prio p0 = HOMA_MAX_PRIORITIES - 5 /\
    num_priorities p' = num_priorities p0 /\
    unsched_cutoffs p' = <[0%nat := INT_MAX]> (unsched_cutoffs p0).
Proof.
  intros Hlen Hbig. pose proof priorities_at_least_8 as H8.
  unfold homa_init_priorities.
  set (top := Z.to_nat (HOMA_MAX_PRIORITIES - 1)).
  assert (Z.of_nat top = HOMA_MAX_PRIORITIES - 1) as Htop by (unfold top; lia).
  clearbody top.
  destruct (set_cutoff_Some top 200
    {| num_priorities := HOMA_MAX_PRIORITIES; unsched_cutoffs := mem;
       max_sched_prio := HOMA_MAX_PRIORITIES - 5;
       cutoff_version := if unit_test then 0 else 1 |})
    as (p1 & -> & Hn1 & Hm1 & Hv1 & Hc1); [simpl; lia|].
  simpl in Hn1, Hm1, Hv1, Hc1.
  destruct (set_cutoff_Some (top - 1) 2800 p1)
    as (p2 & E2 & Hn2 & Hm2 & Hv2 & Hc2);
    [rewrite Hc1, length_insert; lia|].
  destruct (set_cutoff_Some (top - 2) 15000 p2)
    as (p3 & E3 & Hn3 & Hm3 & Hv3 & Hc3);
    [rewrite Hc2, length_insert, Hc1, length_insert; lia|].
  destruct (set_cutoff_Some (top - 3) HOMA_MAX_MESSAGE_LENGTH p3)
    as (p0 & E0 & Hn0 & Hm0 & Hv0 & Hc0);
    [rewrite Hc3, length_insert, Hc2, length_insert, Hc1, length_insert; lia|].
  cbn [mbind option_bind]. rewrite E2. cbn [mbind option_bind].
  rewrite E3. cbn [mbind option_bind]. rewrite E0.
  assert (length (unsched_cutoffs p0) = Z.to_nat HOMA_MAX_PRIORITIES) as Hl0.
  { rewrite Hc0, length_insert, Hc3, length_insert, Hc2, length_insert,
      Hc1, length_insert. done. }
  assert (num_priorities p0 = HOMA_MAX_PRIORITIES) as HnP by congruence.
  assert (unsched_cutoffs p0 !! top = Some 200) as C1.
  { rewrite Hc0, Hc3, Hc2, Hc1.
    rewrite !list_lookup_insert_ne by lia.
    apply list_lookup_insert_eq. lia. }
  assert (unsched_cutoffs p0 !! (top - 1)%nat = Some 2800) as C2.
  { rewrite Hc0, Hc3, Hc2.
    rewrite !list_lookup_insert_ne by lia.
    apply list_lookup_insert_eq. rewrite Hc1, length_insert. lia. }
  assert (unsched_cutoffs p0 !! (top - 2)%nat = Some 15000) as C3.
  { rewrite Hc0, Hc3.
    rewrite !list_lookup_insert_ne by lia.
    apply list_lookup_insert_eq.
    rewrite Hc2, length_insert, Hc1, length_insert. lia. }
  assert (unsched_cutoffs p0 !! (top - 3)%nat = Some HOMA_MAX_MESSAGE_LENGTH)
    as C4.
  { rewrite Hc0. apply list_lookup_insert_eq.
    rewrite Hc3, length_insert, Hc2, length_insert, Hc1, length_insert. lia. }
  destruct (prios_changed_spec p0 Hl0 ltac:(lia))
    as (p' & Hrun & (Hn & H0 & Hz & Hmz & Hlow & Hhi) & Hn' & Hl & Hk & Hm & Hv).
  rewrite HnP, Z.min_id in Hn'. rewrite Hn' in *.
  assert (max_sched_prio p' = HOMA_MAX_PRIORITIES - 5) as Hmax.
  { destruct (decide (max_sched_prio p' + 1 < Z.of_nat (top - 3))) as [Hlt|Hge].
    - pose proof (Hlow (top - 3)%nat HOMA_MAX_MESSAGE_LENGTH ltac:(lia)
                    ltac:(rewrite Hk by lia; exact C4)). lia.
    - destruct (Hhi ltac:(lia)) as (Hlt & c & Hc & Hge').
      rewrite Hk in Hc by lia.
      assert (Z.to_nat (max_sched_prio p' + 1) = (top - 3)%nat
              \/ Z.to_nat (max_sched_prio p' + 1) = (top - 2)%nat
              \/ Z.to_nat (max_sched_prio p' + 1) = (top - 1)%nat
              \/ Z.to_nat (max_sched_prio p' + 1) = top)
        as [E | [E | [E | E]]] by lia;
        rewrite E in Hc.
      + lia.
      + rewrite C3 in Hc. injection Hc as <-. lia.
      + rewrite C2 in Hc. injection Hc as <-. lia.
      + rewrite C1 in Hc. injection Hc as <-. lia. }
  exists p0, p'. split_and!; try done; try congruence.
  apply list_eq. intros [|j].
  - rewrite H0. symmetry. apply list_lookup_insert_eq. lia.
  - rewrite list_lookup_insert_ne by lia.
    destruct (decide (Z.of_nat (S j) < HOMA_MAX_PRIORITIES)) as [Hj|Hj].
    + apply Hk. lia.
    + rewrite !lookup_ge_None_2 by lia. done.
Qed.

(** With [num_priorities] zero or negative the loop of
    [homa_prios_changed] finds no level at which to stop: it zeroes the
    whole array and goes on to [unsched_cutoffs[-1]]. *)
Theorem prios_changed_no_levels p :
  num_priorities p <= 0 -> homa_prios_changed p = None.
Proof.
  intros Hnum. pose proof priorities_at_least_8 as H8.
  unfold homa_prios_changed.
  destruct (Z.ltb_spec HOMA_MAX_PRIORITIES (num_priorities p)); [lia|].
  unfold set_cutoff at 1. destruct (decide _); [|done].
  rewrite prios_loop_none; done.
Qed.
End prios_theorems.

(* ===================================================================== *)
(** ** homa_snprintf *)
(* ===================================================================== *)

Section snprintf.
Variable size : Z.
Hypothesis size_range : 2 <= size < 2 ^ 31.

Lemma snprintf_step done buffer used text :
  buffer = take (Z.to_nat (size - 1)) done ->
  used = Z.of_nat (length buffer) ->
  Z.of_nat (length (done ++ text)) < 2 ^ 31 ->
  exists buffer' used',
    homa_snprintf buffer size used text = (buffer', used') /\
    buffer' = take (Z.to_nat (size - 1)) (done ++ text) /\
    used' = Z.of_nat (length buffer').
Proof.
  intros Hb Hu Hlen. rewrite length_app in Hlen.
  unfold homa_snprintf.
  rewrite (wrap_int_id (size - 1)) by lia.
  pose proof (length_take done (Z.to_nat (size - 1))) as Hlt.
  rewrite <-Hb in Hlt.
  destruct (Z.leb_spec (size - 1) used) as [Hfull|Hroom].
  - exists buffer, used. split_and!; [done| |done].
    rewrite take_app_le by lia. done.
  - assert (length done = length buffer) as Hd by lia.
    assert (buffer = done) as ->.
    { rewrite Hb. apply take_ge. lia. }
    clear Hb Hlt Hd.
    unfold vsnprintf.
    rewrite (wrap_int_id (size - used)) by lia.
    destruct (Z.leb_spec (size - used) 0) as [|_]; [lia|].
    destruct (Z.leb_spec used (Z.of_nat (length done))) as [_|]; [|lia].
    rewrite (wrap_int_id (Z.of_nat (length text))) by lia.
    destruct (Z.ltb_spec (Z.of_nat (length text)) 0) as [|_]; [lia|].
    assert (take (Z.to_nat used) done
              ++ take (Z.to_nat (size - used - 1)) text
            = take (Z.to_nat (size - 1)) (done ++ text)) as Heq.
    { rewrite take_app. rewrite (take_ge done (Z.to_nat used)) by lia.
      rewrite (take_ge done (Z.to_nat (size - 1))) by lia.
      f_equal. f_equal. lia. }
    rewrite Heq.
    assert (length (take (Z.to_nat (size - 1)) (done ++ text))
            = Z.to_nat (Z.min (size - 1) (used + Z.of_nat (length text))))
      as Hl.
    { rewrite length_take, length_app. lia. }
    destruct (Z.leb_spec (size - used) (Z.of_nat (length text))).
    + eexists _, _. split; [reflexivity|]. split; [done|].
      rewrite Hl. lia.
    + eexists _, _. split; [reflexivity|]. split; [done|].
      rewrite Hl. rewrite wrap_int_id by lia. lia.
Qed.

Lemma snprintf_series_spec texts : forall done buffer used,
  buffer = take (Z.to_nat (size - 1)) done ->
  used = Z.of_nat (length buffer) ->
  Z.of_nat (length (done ++ concat texts)) < 2 ^ 31 ->
  snprintf_series size texts (buffer, used) =
    (take (Z.to_nat (size - 1)) (done ++ concat texts),
     Z.min (size - 1) (Z.of_nat (length (done ++ concat texts)))).
Proof.
  induction texts as [|text texts IH]; intros done buffer used Hb Hu Hlen.
  - simpl in *. rewrite app_nil_r in *. subst.
    f_equal. rewrite length_take. lia.
  - simpl in Hlen. rewrite app_assoc in Hlen.
    destruct (snprintf_step done buffer used text Hb Hu)
      as (buffer' & used' & Hcall & Hb' & Hu').
    { rewrite !length_app in *. lia. }
    unfold snprintf_series in *. simpl. rewrite Hcall.
    rewrite (IH (done ++ text) buffer' used' Hb' Hu' Hlen).
    by rewrite <-app_assoc.
Qed.

End snprintf.

(** A series of [homa_snprintf] calls that starts with [used = 0] leaves in
    the buffer the texts of the calls one after another, cut to [size - 1]
    characters, whatever the buffer held before; the last result is the
    length of what the buffer holds. *)
Theorem snprintf_series_truncates size buffer text texts :
  2 <= size < 2 ^ 31 ->
  Z.of_nat (length (concat (text :: texts))) < 2 ^ 31 ->
  snprintf_series size (text :: texts) (buffer, 0) =
    (take (Z.to_nat (size - 1)) (concat (text :: texts)),
     Z.min (size - 1) (Z.of_nat (length (concat (text :: texts))))).
Proof.
  intros Hsize Hlen.
  change (snprintf_series size (text :: texts) (buffer, 0))
    with (snprintf_series size texts (homa_snprintf buffer size 0 text)).
  assert (homa_snprintf buffer size 0 text = homa_snprintf [] size 0 text)
    as ->.
  { unfold homa_snprintf, vsnprintf.
    rewrite (wrap_int_id (size - 1)), (wrap_int_id (size - 0)) by lia.
    destruct (Z.leb_spec (size - 1) 0); [lia|].
    destruct (Z.leb_spec (size - 0) 0); [lia|].
    simpl. destruct (Z.leb_spec 0 (Z.of_nat (length buffer))); [done|lia]. }
  simpl in Hlen.
  destruct (snprintf_step size Hsize [] [] 0 text)
    as (buffer' & used' & -> & Hb' & Hu'); [by rewrite take_nil|done| |].
  { rewrite length_app in *. simpl. lia. }
  simpl in Hb'.
  rewrite (snprintf_series_spec size Hsize texts text buffer' used' Hb' Hu' Hlen).
  done.
Qed.

(* ===================================================================== *)
(** ** homa_print_ipv4_addr *)
(* ===================================================================== *)

Lemma decimal_short x : 0 <= x < 256 -> (length (decimal x) <= 3)%nat.
Proof.
  intros Hx.
  assert (forallb (fun n => length (decimal (Z.of_nat n)) <=? 3)%nat
            (seq 0 256) = true) as Hall by (vm_compute; reflexivity).
  rewrite forallb_forall in Hall.
  specialize (Hall (Z.to_nat x)).
  rewrite Z2Nat.id in Hall by lia.
  apply Nat.leb_le, Hall, in_seq. lia.
Qed.

Lemma byte_range x : 0 <= Z.land x 255 < 256.
Proof.
  change 255 with (Z.ones 8). rewrite Z.land_ones by lia.
  apply Z.mod_pos_bound. lia.
Qed.

Lemma dotted_quad_fits a2 :
  take (Z.to_nat (BUF_SIZE_IPV4 - 1)) (dotted_quad a2) = dotted_quad a2.
Proof.
  apply take_ge. unfold dotted_quad. rewrite !length_app. cbn [length].
  pose proof (decimal_short _ (byte_range (Z.shiftr a2 24))).
  pose proof (decimal_short _ (byte_range (Z.shiftr a2 16))).
  pose proof (decimal_short _ (byte_range (Z.shiftr a2 8))).
  pose proof (decimal_short _ (byte_range a2)).
  unfold BUF_SIZE_IPV4. lia.
Qed.

Lemma print_ipv4_addr_spec a2 st :
  ipv4_static_ok st ->
  exists st',
    homa_print_ipv4_addr a2 st = Some (Z.to_nat (next_buf st), st') /\
    ipv4_static_ok st' /\
    next_buf st' = (next_buf st + 1) mod NUM_BUFS_IPV4 /\
    buffers st' = <[Z.to_nat (next_buf st) := dotted_quad a2]> (buffers st).
Proof.
  intros [Hlen Hnext]. unfold NUM_BUFS_IPV4 in *.
  unfold homa_print_ipv4_addr.
  destruct (decide _) as [_|Hn]; [|lia].
  rewrite dotted_quad_fits, wrap_int_id by lia.
  eexists; split; [reflexivity|].
  unfold ipv4_static_ok, NUM_BUFS_IPV4. cbn [buffers next_buf].
  rewrite length_insert.
  destruct (Z.leb_spec 4 (next_buf st + 1)).
  - replace (next_buf st + 1) with 4 by lia. split_and!; try done; lia.
  - rewrite Z.mod_small by lia. split_and!; try done; lia.
Qed.

Lemma print_ipv4_addrs_spec addrs : forall st,
  ipv4_static_ok st ->
  exists used st',
    print_ipv4_addrs addrs st = Some (used, st') /\
    ipv4_static_ok st' /\
    length used = length addrs /\
    next_buf st' = (next_buf st + Z.of_nat (length addrs)) mod NUM_BUFS_IPV4 /\
    (forall k : nat, (k < length addrs)%nat ->
       used !! k = Some (Z.to_nat ((next_buf st + Z.of_nat k) mod NUM_BUFS_IPV4))) /\
    (forall i : nat, i ∉ used -> buffers st' !! i = buffers st !! i).
Proof.
  induction addrs as [|a2 rest IH]; intros st Hok.
  - exists [], st. cbn [print_ipv4_addrs length]. split_and!; try done.
    + destruct Hok as [_ Hn]. rewrite Z.add_0_r, Z.mod_small; done.
    + intros k Hk. lia.
  - destruct (print_ipv4_addr_spec a2 st Hok) as (st1 & Hcall & Hok1 & Hn1 & Hb1).
    destruct (IH st1 Hok1) as (used & st2 & Hrest & Hok2 & Hlen & Hn2 & Hused & Hkeep).
    cbn [print_ipv4_addrs]. rewrite Hcall, Hrest.
    eexists _, _. split; [reflexivity|].
    destruct Hok as [_ Hn]. unfold NUM_BUFS_IPV4 in *.
    split_and!; try done.
    + cbn [length]. by rewrite Hlen.
    + rewrite Hn2, Hn1. cbn [length].
      rewrite Zplus_mod_idemp_l. f_equal. lia.
    + intros [|k] Hk; cbn [length lookup list_lookup] in *.
      * rewrite Z.add_0_r, Z.mod_small by lia. done.
      * rewrite Hused by lia. rewrite Hn1.
        rewrite Zplus_mod_idemp_l. do 3 f_equal. lia.
    + intros i Hi. apply not_elem_of_cons in Hi as [Hne Hi].
      rewrite Hkeep by done. rewrite Hb1.
      by rewrite list_lookup_insert_ne by done.
Qed.

(** The string that [homa_print_ipv4_addr] returns is the whole dotted
    quad of the address, and it is still there after up to
    [NUM_BUFS_IPV4 - 1] further calls, none of which returns the same
    buffer; the call after those returns that buffer again. *)
Theorem ipv4_result_survives a2 others a2' st :
  ipv4_static_ok st ->
  Z.of_nat (length others) < NUM_BUFS_IPV4 ->
  exists buffer st1 used st2,
    homa_print_ipv4_addr a2 st = Some (buffer, st1) /\
    buffers st1 !! buffer = Some (dotted_quad a2) /\
    print_ipv4_addrs others st1 = Some (used, st2) /\
    (buffer ∉ used) /\
    buffers st2 !! buffer = Some (dotted_quad a2) /\
    (Z.of_nat (length others) = NUM_BUFS_IPV4 - 1 ->
     exists st3, homa_print_ipv4_addr a2' st2 = Some (buffer, st3)).
Proof.
  intros Hok Hfew.
  destruct (print_ipv4_addr_spec a2 st Hok) as (st1 & Hcall & Hok1 & Hn1 & Hb1).
  destruct (print_ipv4_addrs_spec others st1 Hok1)
    as (used & st2 & Hrest & Hok2 & Hlen & Hn2 & Hused & Hkeep).
  destruct (print_ipv4_addr_spec a2' st2 Hok2) as (st3 & Hcall3 & _).
  destruct Hok as [Hl Hn]. unfold NUM_BUFS_IPV4 in *.
  assert (buffers st1 !! Z.to_nat (next_buf st) = Some (dotted_quad a2)) as Hb.
  { rewrite Hb1. apply list_lookup_insert_eq. lia. }
  assert (Z.to_nat (next_buf st) ∉ used) as Hfresh.
  { intros Hin. apply list_elem_of_lookup_1 in Hin as [k Hk].
    pose proof (lookup_lt_Some _ _ _ Hk) as Hlt.
    rewrite Hused in Hk by lia. injection Hk as Hk.
    rewrite Hn1 in Hk. rewrite Zplus_mod_idemp_l in Hk.
    assert ((k = 0 \/ k = 1 \/ k = 2)%nat) as [-> | [-> | ->]] by lia;
    assert (next_buf st = 0 \/ next_buf st = 1 \/ next_buf st = 2
            \/ next_buf st = 3) as [Hv | [Hv | [Hv | Hv]]] by lia;
    rewrite Hv in Hk; vm_compute in Hk; discriminate. }
  exists (Z.to_nat (next_buf st)), st1, used, st2.
  split_and!; try done.
  - by rewrite Hkeep.
  - intros Hthree. exists st3. rewrite Hcall3. do 2 f_equal.
    rewrite Hn2, Hn1, Zplus_mod_idemp_l.
    replace (next_buf st + 1 + Z.of_nat (length others))
      with (next_buf st + 1 * 4) by lia.
    rewrite Z.mod_add, Z.mod_small by lia. done.
Qed.

(* ===================================================================== *)
(** ** The further theorems on concrete inputs *)
(* ===================================================================== *)

(** The lists of the two sockets are consistent: calls lead to them from
    a new socket. *)
Lemma sock_idle_ok : lists_ok sock_idle.
Proof.
  apply (@run_lists_ok example_impl new_sock
           [new_client_call 99 true (inr example_peer) 0 (inr 0%nat);
            unlock_call 0%nat]);
    [|apply no_rpcs_lists_ok, new_sock_no_rpcs].
  apply (run_cons _ _ sock_one);
    [apply step_new_client; vm_compute; reflexivity|].
  apply (run_cons _ _ sock_idle);
    [apply step_unlock; vm_compute; reflexivity|apply run_nil].
Qed.

Lemma sock_served_ok : lists_ok sock_served.
Proof.
  apply (@run_lists_ok example_impl new_sock
           [new_server_call 1 example_header true (inr example_peer) 0
              (inr 0%nat, Some 1);
            unlock_call 0%nat]);
    [|apply no_rpcs_lists_ok, new_sock_no_rpcs].
  apply (run_cons _ _ (after server_call new_sock));
    [apply step_new_server; vm_compute; reflexivity|].
  apply (run_cons _ _ sock_served);
    [apply step_unlock; vm_compute; reflexivity|apply run_nil].
Qed.

Lemma first_match_nil p s : first_match p [] s None.
Proof. intros h Hh. by apply elem_of_nil in Hh. Qed.

(** [find_rpc_first_match] on the socket with one unlocked client RPC,
    whose id is 2. *)
Lemma find_rpc_first_match_witness :
  exists res s',
    @homa_find_client_rpc example_impl 2 sock_idle = Done res s'
    /\ lock (get_bucket (client_bucket 1%nat) s') = bool_decide (is_Some res).
Proof.
  assert (H1 : lock (get_bucket
                 (client_bucket (@homa_client_rpc_bucket example_impl 2))
                 sock_idle) = false) by (vm_compute; reflexivity).
  assert (H2 : lock (get_bucket
                 (server_bucket (@homa_server_rpc_bucket example_impl 2))
                 sock_idle) = false) by (vm_compute; reflexivity).
  destruct (@find_rpc_first_match example_impl 2 1 99 sock_idle
              sock_idle_ok H1 H2) as [(res & s' & Hfind & _ & Hrel) _].
  exists res, s'. split; [exact Hfind|].
  destruct Hrel as [Hb _]. change (client_bucket 1%nat)
    with (client_bucket (@homa_client_rpc_bucket example_impl 2)).
  rewrite Hb. reflexivity.
Defined.

(** [new_client_then_find] on a new socket. *)
Lemma new_client_then_find_witness :
  exists h s1 s2 s3,
    @homa_rpc_new_client example_impl 99 true (inr example_peer) 0 new_sock
      = Done (inr h) s1
    /\ homa_rpc_unlock h s1 = Done tt s2
    /\ @homa_find_client_rpc example_impl 2 s2 = Done (Some h) s3.
Proof.
  assert (E : rpcs (get_bucket
                (client_bucket (@homa_client_rpc_bucket example_impl
                                  (next_outgoing_id (hsk_homa new_sock))))
                new_sock) = []) by (vm_compute; reflexivity).
  destruct (@new_client_then_find example_impl 99 example_peer 0 new_sock)
    as (h & r & s1 & s2 & s3 & Hnew & _ & _ & _ & _ & Hun & Hfind & _).
  - vm_compute; reflexivity.
  - vm_compute; reflexivity.
  - vm_compute; reflexivity.
  - vm_compute; reflexivity.
  - intros h Hh. rewrite E in Hh. by apply elem_of_nil in Hh.
  - exists h, s1, s2, s3. split_and!; [exact Hnew|exact Hun|exact Hfind].
Defined.

(** [new_server_twice] on a new socket: the same packet arrives twice. *)
Lemma new_server_twice_witness :
  exists h s1 s2 s3,
    @homa_rpc_new_server example_impl 1 example_header true
      (inr example_peer) 0 new_sock = Done (inr h, Some 1) s1
    /\ homa_rpc_unlock h s1 = Done tt s2
    /\ @homa_rpc_new_server example_impl 1 example_header true
         (inr example_peer) 5 s2 = Done (inr h, Some 0) s3.
Proof.
  assert (E : rpcs (get_bucket
                (server_bucket (@homa_server_rpc_bucket example_impl
                   (@homa_local_id example_impl (sender_id example_header))))
                new_sock) = []) by (vm_compute; reflexivity).
  destruct (@new_server_twice example_impl 1 example_header example_peer 0
              true (inr example_peer) 5 new_sock)
    as (h & s1 & s2 & s3 & s4 & Hnew & Hun & Hagain & _).
  - vm_compute; reflexivity.
  - vm_compute; reflexivity.
  - vm_compute; reflexivity.
  - vm_compute; reflexivity.
  - intros h Hh. rewrite E in Hh. by apply elem_of_nil in Hh.
  - rewrite E. apply first_match_nil.
  - vm_compute; reflexivity.
  - reflexivity.
  - exists h, s1, s2, s3. split_and!; [exact Hnew|exact Hun|exact Hagain].
Defined.

(** [new_client_errors] on a new socket: [homa_peer_find] fails with
    [-EHOSTUNREACH]; the id 2 is used up. *)
Lemma new_client_errors_witness :
  exists s',
    @homa_rpc_new_client example_impl 99 true (inl (-113)) 0 new_sock
      = Done (inl (-113)) s'
    /\ next_outgoing_id (hsk_homa s') = 4.
Proof.
  destruct (@new_client_errors example_impl 99 (inr example_peer) (-113) 0
              new_sock) as [_ (s' & Hrun & _ & Hid)].
  - vm_compute; reflexivity.
  - exists s'. split; [exact Hrun|]. rewrite Hid. vm_compute; reflexivity.
Defined.

(** [new_server_errors] on a new socket, [kmalloc] failing. *)
Lemma new_server_errors_witness :
  exists s',
    @homa_rpc_new_server example_impl 1 example_header false
      (inr example_peer) 0 new_sock = Done (inl (- ENOMEM), None) s'
    /\ unpublished new_sock s'.
Proof.
  assert (E : rpcs (get_bucket
                (server_bucket (@homa_server_rpc_bucket example_impl
                   (@homa_local_id example_impl (sender_id example_header))))
                new_sock) = []) by (vm_compute; reflexivity).
  destruct (@new_server_errors example_impl 1 example_header false
              (inr example_peer) 0 new_sock)
    with (e := - ENOMEM) as (s' & Hrun & Hun & _).
  - vm_compute; reflexivity.
  - vm_compute; reflexivity.
  - intros h Hh. rewrite E in Hh. by apply elem_of_nil in Hh.
  - rewrite E. apply first_match_nil.
  - reflexivity.
  - exists s'. split; [exact Hrun|exact Hun].
Defined.

(** [free_keeps_packets] on the first client RPC of a socket. *)
Lemma free_keeps_packets_witness :
  exists s',
    homa_rpc_free (Some 0%nat) sock_one = Done tt s'
    /\ homa_rpc_free (Some 0%nat) s' = Done tt s'.
Proof.
  destruct (free_keeps_packets 0%nat
              (default blank_rpc (heap sock_one !! 0%nat)) sock_one)
    as (r' & s' & Hfree & _ & _ & _ & _ & _ & _ & _ & Hagain).
  - vm_compute; reflexivity.
  - vm_compute; discriminate.
  - vm_compute; reflexivity.
  - exists s'. split; [exact Hfree|exact Hagain].
Defined.

(** [acked_frees] on the socket with one server RPC, for the ack that
    names it. *)
Lemma acked_frees_witness :
  exists res s',
    @homa_rpc_acked example_impl true 1 7 40000 sock_served = Done tt s'
    /\ lists_ok s' /\ sock_locked s' = false
    /\ (forall b', lock (get_bucket b' s') = lock (get_bucket b' sock_served))
    /\ first_match (@server_match 6 40000 1)
         (rpcs (get_bucket (server_bucket 3%nat) sock_served)) sock_served res.
Proof.
  destruct (@acked_frees example_impl 1 7 40000 sock_served)
    as [_ (res & s' & Hm & Hrun & Hok & Hsock & Hlocks & _)].
  - exact sock_served_ok.
  - vm_compute; reflexivity.
  - vm_compute; reflexivity.
  - exists res, s'.
    split_and!; [exact Hrun|exact Hok|exact Hsock|exact Hlocks|exact Hm].
Defined.

(** [reap_releases_all] on the socket with two dead RPCs. *)
Lemma reap_releases_all_witness :
  exists s1,
    @homa_rpc_reap_check_waiting example_impl example_check_waiting 10 0
      sock_freed
    = (example_check_waiting ;; ret 0) s1
    /\ dead_rpcs s1 = [] /\ heap s1 !! 1%nat = None.
Proof.
  assert (E : dead_rpcs sock_freed = [0%nat; 1%nat])
    by (vm_compute; reflexivity).
  destruct (@reap_releases_all example_impl example_check_waiting 10 0
              sock_freed)
    as (s1 & Hrun & Hdead & Hgone & _).
  - lia.
  - vm_compute; reflexivity.
  - vm_compute; reflexivity.
  - rewrite E. apply (bool_decide_unpack _). vm_compute. exact I.
  - rewrite E. intros h Hh.
    exists (default blank_rpc (heap sock_freed !! h)).
    apply elem_of_cons in Hh as [-> | Hh];
      [|apply list_elem_of_singleton in Hh as ->];
      split_and!; vm_compute; reflexivity.
  - vm_compute; reflexivity.
  - vm_compute; reflexivity.
  - exists s1. split_and!; [exact Hrun|exact Hdead|].
    apply Hgone. rewrite E. right. left.
Defined.


(** [reap_frees_at_most_count] on the socket with two dead RPCs of which
    one is held back. *)
Lemma reap_frees_at_most_count_witness :
  Z.of_nat (size (heap sock_dead))
  <= Z.of_nat (size (heap (after (@homa_rpc_reap example_impl 10 0)
                             sock_dead))) + Z.max 0 10.
Proof.
  apply (@reap_frees_at_most_count example_impl 10 0 sock_dead 1).
  vm_compute; reflexivity.
Defined.

(** [prios_changed_result] with six of eight levels in use. *)
Lemma prios_changed_result_witness :
  exists p',
    @homa_prios_changed example_limits example_prios = Some p'
    /\ unsched_cutoffs p' !! 0%nat = Some INT_MAX
    /\ 0 <= max_sched_prio p' < 6.
Proof.
  destruct (@prios_changed_result example_limits example_prios)
    as (p' & Hrun & Hn & H0 & _ & _ & Hm & _).
  - reflexivity.
  - vm_compute; discriminate.
  - exists p'. split_and!; [exact Hrun|exact H0| |].
    + apply Hm.
    + rewrite Hn in Hm. apply Hm.
Defined.

(** [prios_changed_twice] with six of eight levels in use. *)
Lemma prios_changed_twice_witness :
  exists p',
    @homa_prios_changed example_limits example_prios = Some p'
    /\ @homa_prios_changed example_limits p'
       = Some (set_cutoff_version (wrap_int (cutoff_version p' + 1)) p').
Proof.
  apply (@prios_changed_twice example_limits example_prios).
  - reflexivity.
  - vm_compute; discriminate.
Defined.

(** [prios_changed_no_levels] with [num_priorities = 0]. *)
Lemma prios_changed_no_levels_witness :
  @homa_prios_changed example_limits no_prios = None.
Proof.
  apply (@prios_changed_no_levels example_limits no_prios).
  vm_compute; discriminate.
Defined.

(** [init_priorities_settled] with eight levels, the array holding 9s
    before [homa_init]. *)
Lemma init_priorities_settled_witness :
  exists p0 p',
    @homa_init_priorities example_limits false [9; 9; 9; 9; 9; 9; 9; 9]
      = Some p0
    /\ @homa_prios_changed example_limits p0 = Some p'
    /\ max_sched_prio p' = 3.
Proof.
  destruct (@init_priorities_settled example_limits false
              [9; 9; 9; 9; 9; 9; 9; 9])
    as (p0 & p' & Hinit & Hrun & Hsame & Hmax & _).
  - reflexivity.
  - vm_compute; reflexivity.
  - exists p0, p'. split_and!; [exact Hinit|exact Hrun|].
    rewrite Hsame, Hmax. reflexivity.
Defined.

(** [snprintf_series_truncates]: three calls on a buffer of 6 bytes. *)
Lemma snprintf_series_truncates_witness :
  snprintf_series 6
    [["A"; "C"; "K"]; [" "; "i"; "d"]; [" "; "7"]]%char
    (["?"; "?"; "?"; "?"; "?"; "?"; "?"; "?"; "?"]%char, 0)
  = (["A"; "C"; "K"; " "; "i"]%char, 5).
Proof.
  rewrite snprintf_series_truncates.
  - reflexivity.
  - lia.
  - vm_compute; reflexivity.
Defined.

(** [ipv4_result_survives]: 10.0.0.1, three more addresses, and a
    fifth. *)
Lemma ipv4_result_survives_witness :
  exists buffer st1 used st2 st3,
    homa_print_ipv4_addr 167772161 example_static = Some (buffer, st1)
    /\ print_ipv4_addrs [1; 2; 3] st1 = Some (used, st2)
    /\ (buffer ∉ used)
    /\ buffers st2 !! buffer = Some (dotted_quad 167772161)
    /\ homa_print_ipv4_addr 4 st2 = Some (buffer, st3).
Proof.
  destruct (ipv4_result_survives 167772161 [1; 2; 3] 4 example_static)
    as (buffer & st1 & used & st2 & Hcall & _ & Hrest & Hfresh & Hkept
        & Hnext).
  - split; [reflexivity|]. vm_compute. split; [discriminate|reflexivity].
  - vm_compute; reflexivity.
  - destruct (Hnext eq_refl) as [st3 Hagain].
    exists buffer, st1, used, st2, st3.
    split_and!; [exact Hcall|exact Hrest|exact Hfresh|exact Hkept
                |exact Hagain].
Defined.

(** [reap_leaves_live] on the socket with two client RPCs of which the
    first is dead: the second has kept its record when
    [homa_pool_check_waiting] is called. *)
Lemma reap_leaves_live_witness :
  exists s1,
    example_check_waiting s1
    = Done tt (after (@homa_rpc_reap_check_waiting example_impl
                        example_check_waiting 10 0) sock_free0)
    /\ heap s1 !! 1%nat = heap sock_free0 !! 1%nat.
Proof.
  destruct (@reap_leaves_live example_impl example_check_waiting 10 0
              sock_free0 0
              (after (@homa_rpc_reap_check_waiting example_impl
                        example_check_waiting 10 0) sock_free0))
    as (s1 & Hout & Hlive & _).
  - vm_compute; reflexivity.
  - exists s1. split.
    + destruct Hout as [(_ & Hne & _)|Hc]; [|exact Hc].
      exfalso. apply Hne. vm_compute. reflexivity.
    + apply Hlive. vm_compute. intros Hin.
      apply list_elem_of_singleton in Hin. discriminate Hin.
Defined.

(** [reap_counts_rx_twice] on the socket with 23 dead packets:
    [dead_skbs] ends at -3. *)
Lemma reap_counts_rx_twice_witness :
  exists s',
    @homa_rpc_reap example_impl 22 0 sock_packets = Done 0 s'
    /\ dead_rpcs s' = [] /\ dead_skbs sock_packets = 23
    /\ dead_skbs s' = -3.
Proof.
  destruct (@reap_counts_rx_twice example_impl 0%nat 1%nat
              (default blank_rpc (heap sock_packets !! 0%nat))
              (default blank_rpc (heap sock_packets !! 1%nat))
              22 0 sock_packets)
    as (s' & Hrun & Hdead & _ & Hskbs).
  - vm_compute; reflexivity.
  - discriminate.
  - vm_compute; reflexivity.
  - vm_compute; reflexivity.
  - vm_compute; reflexivity.
  - vm_compute; reflexivity.
  - vm_compute; reflexivity.
  - vm_compute; discriminate.
  - vm_compute; discriminate.
  - vm_compute; reflexivity.
  - vm_compute; reflexivity.
  - vm_compute; reflexivity.
  - vm_compute; reflexivity.
  - vm_compute; reflexivity.
  - vm_compute; reflexivity.
  - vm_compute; discriminate.
  - exists s'. split_and!; [exact Hrun|exact Hdead|reflexivity|].
    rewrite Hskbs. vm_compute. reflexivity.
Defined.
